(** * Akumuli storage core: pages, range search, volumes.

    A shallow embedding of [src/page.cpp], [src/storage.cpp] and the cursor
    interface of [src/cursor.h], followed by the properties of the
    specification that concern them.

    Conventions.
    - A C++ integer of width [w] is a [Z]; every place where the source
      truncates or wraps is written with [u32], [u64], [s32] or [s64].
    - Memory is byte addressed: a region is a function from a byte
      displacement to the [byte] stored there.  [Entry const&] is such a
      region (the bytes at and after the address the reference designates).
    - A [void] method that mutates the page returns the new page; a method
      that drives a cursor returns the list of calls it makes on it. *)

From Stdlib Require Import ZArith Lia Bool List Permutation Sorted.
From Stdlib Require Import Strings.Byte.
From stdpp Require Import base list sorting.
Import ListNotations.

Local Open Scope Z_scope.

(* ===================================================================== *)
(** ** Machine integers *)

Definition u32 (z : Z) : Z := z mod 2 ^ 32.
Definition u64 (z : Z) : Z := z mod 2 ^ 64.
Definition s32 (z : Z) : Z := (z + 2 ^ 31) mod 2 ^ 32 - 2 ^ 31.
Definition s64 (z : Z) : Z := (z + 2 ^ 63) mod 2 ^ 64 - 2 ^ 63.

Definition UINT32_MAX : Z := 2 ^ 32 - 1.
Definition INT64_MAX : Z := 2 ^ 63 - 1.
Definition INT64_MIN : Z := - 2 ^ 63.

(* ===================================================================== *)
(** ** Byte addressed memory *)

Definition Region : Type := Z -> byte.

Definition byte_val (b : byte) : Z := Z.of_N (Byte.to_N b).

Definition byte_of_Z (z : Z) : byte :=
  match Byte.of_N (Z.to_N (z mod 256)) with
  | Some b => b
  | None => x00
  end.

(** Little-endian load of [n] bytes at displacement [a] (the source states
    that the page file is host-endian; the embedding fixes little-endian). *)
Fixpoint load_le (n : nat) (m : Region) (a : Z) : Z :=
  match n with
  | O => 0
  | S n' => byte_val (m a) + 256 * load_le n' m (a + 1)
  end.

(** Little-endian byte string of [n] bytes holding [z]. *)
Fixpoint bytes_le (n : nat) (z : Z) : list byte :=
  match n with
  | O => []
  | S n' => byte_of_Z z :: bytes_le n' (z / 256)
  end.

(** The region that starts with the bytes [l]; past them it reads zero. *)
Definition region_of_list (l : list byte) : Region :=
  fun k => if k <? 0 then x00 else nth (Z.to_nat k) l x00.

(** [memcpy (base + dst) src n]: the memory [base] after copying the first
    [n] bytes of [src] to displacement [dst]. *)
Definition memcpy (base : Region) (dst : Z) (src : Region) (n : Z) : Region :=
  fun a => if (dst <=? a) && (a <? dst + n) then src (a - dst) else base a.

(** [ptr + off] seen as a region of its own. *)
Definition at_offset (m : Region) (off : Z) : Region := fun k => m (off + k).

(* ===================================================================== *)
(** ** Declarations of page.h and akumuli_def.h *)

(** Modelled from the spec: page.h is not part of the sources at hand, so
    the sizes and the field layout of its structs are taken from section 3
    of the specification: an [EntryOffset] is a 32-bit offset; an [Entry]
    holds, in order, [length] (32 bit), [param_id] (32 bit), [time] (64 bit
    signed) and then the payload, which makes its fixed header 16 bytes. *)
Definition sizeof_EntryOffset : Z := 4.
Definition sizeof_Entry : Z := 16.

(** Modelled from the spec: page.h is absent; the fixed prefix of a page
    lists type, count, last_offset, sync_index, length, open_count,
    close_count, page_id and the bounding box, 64 bytes with 32-bit counters,
    a 64-bit length and natural alignment. *)
Definition sizeof_PageHeader : Z := 64.

Definition EntryOffset : Type := Z.
Definition ParamId : Type := Z.

(** Modelled from the spec: akumuli_def.h is absent; the specification
    names the interpolation cutoff a design constant and gives 64. *)
Definition AKU_INTERPOLATION_SEARCH_CUTOFF : Z := 64.

(** Modelled from the spec: akumuli_def.h is absent; the two scan
    directions are distinct constants of the query's [direction] field. *)
Definition AKU_CURSOR_DIR_FORWARD : Z := 0.
Definition AKU_CURSOR_DIR_BACKWARD : Z := 1.

(** Modelled from the spec: akumuli_def.h is absent; section 6 of the
    specification lists the status codes as a stable enumeration. *)
Inductive Status : Type :=
| AKU_WRITE_STATUS_SUCCESS
| AKU_WRITE_STATUS_OVERFLOW
| AKU_WRITE_STATUS_BAD_DATA
| AKU_SEARCH_EBAD_ARG.

Inductive PageType : Type := Index | Metadata.

(* ===================================================================== *)
(** ** TimeStamp *)

Module TimeStamp.

Definition t : Type := Z.

Definition MAX_TIMESTAMP : t := INT64_MAX.
Definition MIN_TIMESTAMP : t := 0.

Definition lt (a b : t) : bool := a <? b.
Definition gt (a b : t) : bool := a >? b.
Definition eq (a b : t) : bool := a =? b.
Definition le (a b : t) : bool := a <=? b.
Definition ge (a b : t) : bool := a >=? b.

End TimeStamp.

(* ===================================================================== *)
(** ** Entry *)

Module Entry.

(** An [Entry const&]: the bytes at the referenced address. *)
Definition t : Type := Region.

Definition length (e : t) : Z := load_le 4 e 0.
Definition param_id (e : t) : ParamId := load_le 4 e 4.
Definition time (e : t) : TimeStamp.t := s64 (load_le 8 e 8).

(** [Entry::Entry(param_id, timestamp, length)]: the object in memory, its
    header fields set; the bytes of [value] past the header read zero. *)
Definition new (param : ParamId) (ts : TimeStamp.t) (len : Z) : t :=
  region_of_list (bytes_le 4 len ++ bytes_le 4 param ++ bytes_le 8 ts).

End Entry.

(* ===================================================================== *)
(** ** Entry2 *)

Module Entry2.

(** An [Entry2 const&].  page.h, which lays the fields out in the object,
    is not part of the sources at hand, so the object as [memcpy] reads it
    and the fields the code takes from it stand side by side.  [range] is
    an [aku_MemRange]: the memory at [range.address], and [range.length],
    the 32-bit length that [Entry::get_storage] initialises it from. *)
Record t : Type := mk {
  object : Region;
  param_id : ParamId;
  time : TimeStamp.t;
  range_address : Region;
  range_length : Z
}.

End Entry2.

(* ===================================================================== *)
(** ** PageBoundingBox *)

Record PageBoundingBox : Type := mkBBox {
  max_id : ParamId;
  min_id : ParamId;
  max_timestamp : TimeStamp.t;
  min_timestamp : TimeStamp.t
}.

(** [PageBoundingBox::PageBoundingBox()] *)
Definition PageBoundingBox_new : PageBoundingBox :=
  {| max_id := 0;
     min_id := UINT32_MAX;
     max_timestamp := TimeStamp.MIN_TIMESTAMP;
     min_timestamp := TimeStamp.MAX_TIMESTAMP |}.

(* ===================================================================== *)
(** ** SingleParameterSearchQuery *)

Record SingleParameterSearchQuery : Type := mkQuery {
  param : ParamId;
  lowerbound : TimeStamp.t;
  upperbound : TimeStamp.t;
  direction : Z
}.

(** [validate_query] *)
Definition validate_query (query : SingleParameterSearchQuery) : bool :=
  if ((negb (direction query =? AKU_CURSOR_DIR_BACKWARD)
       && negb (direction query =? AKU_CURSOR_DIR_FORWARD))
      || TimeStamp.lt (upperbound query) (lowerbound query))%bool
  then false
  else true.

(* ===================================================================== *)
(** ** PageHeader *)

Module PageHeader.

(** The fixed prefix of a page, its flexible array member [page_index] and
    the bytes of the mapping the header sits at the base of.  The three
    are kept apart.  The header fields are the fields of this record.
    [page_index] is an array of its own (slot to offset), in which a slot
    that was never written holds whatever the mapping held.  [cdata]
    gives the byte at each offset from the start of the page; it stands
    for the heap above the index, where the records live, and at the
    offsets of the header and of the index it does not follow the fields
    and the slots.  A field assigned here therefore leaves [cdata] alone,
    and a copy into [cdata] leaves the fields and the slots alone.  In
    page.cpp all three are bytes of one mapping: this record is the page
    of the source as long as every copy lands between the end of the
    index and [last_offset], which is what the space check of [add_entry]
    is there to ensure.  [PageBytes], after this module, is the page as
    that one mapping; the lemmas [add_entry_on_bytes],
    [add_entry2_on_bytes], [add_entries_on_bytes], [reuse_on_bytes],
    [close_on_bytes] and [sync_indexes_on_bytes] relate the two. *)
Record t : Type := mk {
  type : PageType;
  count : Z;
  last_offset : Z;
  sync_index : Z;
  length : Z;
  open_count : Z;
  close_count : Z;
  page_id : Z;
  bbox : PageBoundingBox;
  page_index : Z -> EntryOffset;
  cdata : Region
}.

Definition set_count (p : t) (v : Z) : t :=
  mk (type p) v (last_offset p) (sync_index p) (length p) (open_count p)
     (close_count p) (page_id p) (bbox p) (page_index p) (cdata p).

Definition set_last_offset (p : t) (v : Z) : t :=
  mk (type p) (count p) v (sync_index p) (length p) (open_count p)
     (close_count p) (page_id p) (bbox p) (page_index p) (cdata p).

Definition set_sync_index (p : t) (v : Z) : t :=
  mk (type p) (count p) (last_offset p) v (length p) (open_count p)
     (close_count p) (page_id p) (bbox p) (page_index p) (cdata p).

Definition set_open_count (p : t) (v : Z) : t :=
  mk (type p) (count p) (last_offset p) (sync_index p) (length p) v
     (close_count p) (page_id p) (bbox p) (page_index p) (cdata p).

Definition set_close_count (p : t) (v : Z) : t :=
  mk (type p) (count p) (last_offset p) (sync_index p) (length p)
     (open_count p) v (page_id p) (bbox p) (page_index p) (cdata p).

Definition set_bbox (p : t) (b : PageBoundingBox) : t :=
  mk (type p) (count p) (last_offset p) (sync_index p) (length p)
     (open_count p) (close_count p) (page_id p) b (page_index p) (cdata p).

Definition set_page_index (p : t) (ix : Z -> EntryOffset) : t :=
  mk (type p) (count p) (last_offset p) (sync_index p) (length p)
     (open_count p) (close_count p) (page_id p) (bbox p) ix (cdata p).

Definition set_cdata (p : t) (m : Region) : t :=
  mk (type p) (count p) (last_offset p) (sync_index p) (length p)
     (open_count p) (close_count p) (page_id p) (bbox p) (page_index p) m.

(** [page_index[i] = v] *)
Definition store_index (ix : Z -> EntryOffset) (i : Z) (v : EntryOffset)
  : Z -> EntryOffset :=
  fun j => if j =? i then v else ix j.

(** [PageHeader::PageHeader(type, count, length, page_id)], constructed in
    place over a mapping whose index slots read [ix] and whose bytes read
    [m].  [last_offset] is a 32-bit field initialised from a 64-bit value. *)
Definition new (ty : PageType) (cnt : Z) (len : Z) (pid : Z)
    (ix : Z -> EntryOffset) (m : Region) : t :=
  {| type := ty;
     count := cnt;
     last_offset := u32 (len - 1);
     sync_index := 0;
     length := len;
     open_count := 0;
     close_count := 0;
     page_id := pid;
     bbox := PageBoundingBox_new;
     page_index := ix;
     cdata := m |}.

(** [PageHeader::get_entries_count] *)
Definition get_entries_count (p : t) : Z := s32 (count p).

(** [PageHeader::get_free_space]: the distance from the end of the index
    to the lowest record, returned as an [int]. *)
Definition get_free_space (p : t) : Z :=
  let begin_ := sizeof_PageHeader + sizeof_EntryOffset * count p in
  let end_ := last_offset p in
  s32 (end_ - begin_).

(** [PageHeader::update_bounding_box] *)
Definition update_bounding_box (p : t) (param : ParamId) (time : TimeStamp.t) : t :=
  let b := bbox p in
  let b := if param >? max_id b
           then mkBBox param (min_id b) (max_timestamp b) (min_timestamp b) else b in
  let b := if param <? min_id b
           then mkBBox (max_id b) param (max_timestamp b) (min_timestamp b) else b in
  let b := if TimeStamp.gt time (max_timestamp b)
           then mkBBox (max_id b) (min_id b) time (min_timestamp b) else b in
  let b := if TimeStamp.lt time (min_timestamp b)
           then mkBBox (max_id b) (min_id b) (max_timestamp b) time else b in
  set_bbox p b.

(** [PageHeader::inside_bbox] *)
Definition inside_bbox (p : t) (param : ParamId) (time : TimeStamp.t) : bool :=
  TimeStamp.le time (max_timestamp (bbox p))
  && TimeStamp.ge time (min_timestamp (bbox p))
  && (param <=? max_id (bbox p))
  && (param >=? min_id (bbox p)).

(** [PageHeader::reuse] *)
Definition reuse (p : t) : t :=
  let p := set_count p 0 in
  let p := set_open_count p (u32 (open_count p + 1)) in
  let p := set_last_offset p (u32 (length p - 1)) in
  set_bbox p PageBoundingBox_new.

(** [PageHeader::close] *)
Definition close (p : t) : t :=
  set_close_count p (u32 (close_count p + 1)).

(** [PageHeader::add_entry(Entry const&)].  [space_required] is a [size_t];
    comparing it with the [int] that [get_free_space] returns converts the
    latter to [size_t].  The copy goes into [cdata] alone: a call that
    passes the space check with a record that does not fit above the end
    of the index (a negative free space converts to a large [size_t]) is
    followed here as far as its status and its counters; what its copy
    overwrites in the index, in the header or before the mapping is told
    by [PageBytes.add_entry]. *)
Definition add_entry (p : t) (entry : Entry.t) : Status * t :=
  let space_required := Entry.length entry + sizeof_EntryOffset in
  if Entry.length entry <? sizeof_Entry then
    (AKU_WRITE_STATUS_BAD_DATA, p)
  else if space_required >? u64 (get_free_space p) then
    (AKU_WRITE_STATUS_OVERFLOW, p)
  else
    let free_slot := last_offset p - Entry.length entry in
    let p := set_cdata p (memcpy (cdata p) free_slot entry (Entry.length entry)) in
    let p := set_last_offset p (u32 free_slot) in
    let p := set_page_index p (store_index (page_index p) (count p) (last_offset p)) in
    let p := set_count p (u32 (count p + 1)) in
    (AKU_WRITE_STATUS_SUCCESS,
     update_bounding_box p (Entry.param_id entry) (Entry.time entry)).

Section WithEntry2.

(** [sizeof(Entry2)], which page.h fixes. *)
Variable sizeof_Entry2 : Z.

(** The store of a [uint32_t] at offset [dst]. *)
Definition store_u32 (base : Region) (dst : Z) (v : Z) : Region :=
  memcpy base dst (region_of_list (bytes_le 4 v)) 4.

(** [PageHeader::add_entry(Entry2 const&)]: the payload, below it its
    length, below that the object.  [space_required] is a [size_t].  As
    for [add_entry], the copies go into [cdata] alone;
    [PageBytes.add_entry2] has them in the mapping. *)
Definition add_entry2 (p : t) (entry : Entry2.t) : Status * t :=
  let space_required :=
    u64 (Entry2.range_length entry + sizeof_Entry2 + sizeof_EntryOffset) in
  if space_required >? u64 (get_free_space p) then
    (AKU_WRITE_STATUS_OVERFLOW, p)
  else
    let free_slot := last_offset p in
    let free_slot := free_slot - Entry2.range_length entry in
    let m := memcpy (cdata p) free_slot (Entry2.range_address entry)
               (Entry2.range_length entry) in
    let free_slot := free_slot - 4 in
    let m := store_u32 m free_slot (Entry2.range_length entry) in
    let free_slot := free_slot - sizeof_Entry2 in
    let m := memcpy m free_slot (Entry2.object entry) sizeof_Entry2 in
    let p := set_cdata p m in
    let p := set_last_offset p (u32 free_slot) in
    let p := set_page_index p (store_index (page_index p) (count p) (last_offset p)) in
    let p := set_count p (u32 (count p + 1)) in
    (AKU_WRITE_STATUS_SUCCESS,
     update_bounding_box p (Entry2.param_id entry) (Entry2.time entry)).

End WithEntry2.

(** [PageHeader::read_entry] *)
Definition read_entry (p : t) (offset : EntryOffset) : Entry.t :=
  at_offset (cdata p) offset.

(** [PageHeader::read_entry_at]: the null pointer is [None]. *)
Definition read_entry_at (p : t) (index : Z) : option Entry.t :=
  if (index >=? 0) && (index <? count p)
  then Some (read_entry p (page_index p index))
  else None.

(** [PageHeader::get_entry_length_at] *)
Definition get_entry_length_at (p : t) (entry_index : Z) : Z :=
  match read_entry_at p entry_index with
  | Some e => s32 (Entry.length e)
  | None => 0
  end.

(** [PageHeader::get_entry_length]: the pointer [read_entry] returns is
    never null. *)
Definition get_entry_length (p : t) (offset : EntryOffset) : Z :=
  s32 (Entry.length (read_entry p offset)).

(** [PageHeader::copy_entry_at]: the [int] it returns and the memory of the
    receiver after the call.  [receiver->length] is the room the caller
    announces.  In [-1*entry_ptr->length] the [int] is converted to
    [uint32_t]; the product goes back to [int] on return. *)
Definition copy_entry_at (p : t) (index : Z) (receiver : Entry.t)
  : Z * Entry.t :=
  match read_entry_at p index with
  | Some entry_ptr =>
    if Entry.length entry_ptr >? Entry.length receiver then
      (s32 (u32 (u32 (-1) * Entry.length entry_ptr)), receiver)
    else
      (s32 (Entry.length entry_ptr),
       memcpy receiver 0 entry_ptr (Entry.length entry_ptr))
  | None => (0, receiver)
  end.

(** [PageHeader::copy_entry]: as [copy_entry_at], from an offset. *)
Definition copy_entry (p : t) (offset : EntryOffset) (receiver : Entry.t)
  : Z * Entry.t :=
  let entry_ptr := read_entry p offset in
  if Entry.length entry_ptr >? Entry.length receiver then
    (s32 (u32 (u32 (-1) * Entry.length entry_ptr)), receiver)
  else
    (s32 (Entry.length entry_ptr),
     memcpy receiver 0 entry_ptr (Entry.length entry_ptr)).

(** [PageHeader::sync_indexes]: [offsets] is the caller's buffer, read by
    position. *)
Definition sync_indexes (p : t) (offsets : Z -> EntryOffset) (num_offsets : Z) : t :=
  let num_offsets :=
    if u64 (sync_index p + num_offsets) >? count p
    then u32 (count p - sync_index p) else num_offsets in
  let ix := fun j =>
    if (sync_index p <=? j) && (j <? sync_index p + num_offsets)
    then offsets (j - sync_index p) else page_index p j in
  let p := set_page_index p ix in
  set_sync_index p (u32 (sync_index p + num_offsets)).

(** *** Search *)

(** What [search] does that can be observed from outside: each evaluation
    of [page_index[i]] and each call on the [InternalCursor] it is given.
    The cursor is an abstract interface, so a run of [search] against any
    cursor is the replay of these calls in order. *)
Inductive Event : Type :=
| ReadIndex (i : Z)
| Put (offset : EntryOffset)
| Complete
| SetError (code : Status).

(** Undefined behaviour that stops the run on the spot. *)
Inductive Trap : Type :=
| DivisionByZero
| DivisionOverflow.

Inductive Outcome (A : Type) : Type :=
| Done (a : A)
| Crash (c : Trap)
| NoFuel.
Arguments Done {A} a.
Arguments Crash {A} c.
Arguments NoFuel {A}.

(** A computation: the events it produced, and how it ended. *)
Definition M (A : Type) : Type := (list Event * Outcome A)%type.

Definition events {A} (m : M A) : list Event := fst m.
Definition outcome {A} (m : M A) : Outcome A := snd m.

#[global] Instance M_ret : MRet M := fun A a => ([], Done a).

#[global] Instance M_bind : MBind M := fun A B f m =>
  match snd m with
  | Done a => (fst m ++ fst (f a), snd (f a))
  | Crash c => (fst m, Crash c)
  | NoFuel => (fst m, NoFuel)
  end.

Definition index_at (p : t) (i : Z) : M EntryOffset :=
  ([ReadIndex i], Done (page_index p i)).
Definition put (offset : EntryOffset) : M unit := ([Put offset], Done tt).
Definition complete : M unit := ([Complete], Done tt).
Definition set_error (code : Status) : M unit := ([SetError code], Done tt).
Definition crash {A} (c : Trap) : M A := ([], Crash c).
Definition no_fuel {A} : M A := ([], NoFuel).

(** Division of two [int64_t]: truncates toward zero; a zero divisor, and
    the one quotient that does not fit, are undefined. *)
Definition div_s64 (a b : Z) : M Z :=
  if b =? 0 then crash DivisionByZero
  else if (a =? INT64_MIN) && (b =? -1) then crash DivisionOverflow
  else mret (Z.quot a b).

(** The locals of the narrowing phases. *)
Record Narrow : Type := mkNarrow {
  begin_ : Z;
  end_ : Z;
  probe_index : Z;
  search_lower_bound : Z;
  search_upper_bound : Z
}.

(** The interpolation loop, [while(interpolation_search_quota--)]. *)
Fixpoint interpolate (quota : nat) (p : t) (key : Z) (st : Narrow) : M Narrow :=
  match quota with
  | O => mret st
  | S quota' =>
    let '(mkNarrow begin end_ _ slb sub) := st in
    if u32 (end_ - begin) <? AKU_INTERPOLATION_SEARCH_CUTOFF then mret st
    else
      q ← div_s64 (s64 (s64 (key - slb) * u32 (end_ - begin))) (s64 (sub - slb));
      let probe_index := u32 q in
      if (probe_index >? begin) && (probe_index <? end_) then
        probe_offset ← index_at p probe_index;
        let probe := Entry.time (read_entry p probe_offset) in
        if probe <? key then
          let begin := u32 (probe_index + 1) in
          probe_offset ← index_at p begin;
          let slb := Entry.time (read_entry p probe_offset) in
          interpolate quota' p key (mkNarrow begin end_ probe_index slb sub)
        else
          let end_ := u32 (probe_index - 1) in
          probe_offset ← index_at p end_;
          let sub := Entry.time (read_entry p probe_offset) in
          interpolate quota' p key (mkNarrow begin end_ probe_index slb sub)
      else
        mret (mkNarrow begin end_ probe_index slb sub)
  end.

(** The bisection loop, [while (end >= begin)]; it yields [probe_index]. *)
Fixpoint binary_search (fuel : nat) (p : t) (key : Z)
    (begin end_ probe_index : Z) : M Z :=
  match fuel with
  | O => no_fuel
  | S fuel' =>
    if end_ >=? begin then
      let probe_index := u32 (begin + u32 (end_ - begin) / 2) in
      probe_offset ← index_at p probe_index;
      let probe := Entry.time (read_entry p probe_offset) in
      if probe =? key then mret probe_index
      else if probe <? key then
        let begin := u32 (probe_index + 1) in
        if begin =? count p then mret probe_index
        else binary_search fuel' p key begin end_ probe_index
      else
        let end_ := u32 (probe_index - 1) in
        if end_ =? u32 (-1) then mret probe_index
        else binary_search fuel' p key begin end_ probe_index
    else mret probe_index
  end.

(** The backward scan loop after the label [SCAN]. *)
Fixpoint scan_backward (fuel : nat) (p : t) (query : SingleParameterSearchQuery)
    (probe_index : Z) : M unit :=
  match fuel with
  | O => no_fuel
  | S fuel' =>
    let current_index := probe_index in
    let probe_index := u32 (probe_index - 1) in
    probe_offset ← index_at p current_index;
    let probe_entry := read_entry p probe_offset in
    let probe := Entry.param_id probe_entry in
    let probe_in_time_range :=
      TimeStamp.le (lowerbound query) (Entry.time probe_entry)
      && TimeStamp.ge (upperbound query) (Entry.time probe_entry) in
    _ ← (if (probe =? param query) && probe_in_time_range
         then put probe_offset else mret tt);
    if TimeStamp.lt (Entry.time probe_entry) (lowerbound query)
       || (current_index =? 0)
    then complete
    else scan_backward fuel' p query probe_index
  end.

(** The forward scan loop after the label [SCAN]. *)
Fixpoint scan_forward (fuel : nat) (p : t) (query : SingleParameterSearchQuery)
    (max_index : Z) (probe_index : Z) : M unit :=
  match fuel with
  | O => no_fuel
  | S fuel' =>
    let current_index := probe_index in
    let probe_index := u32 (probe_index + 1) in
    probe_offset ← index_at p current_index;
    let probe_entry := read_entry p probe_offset in
    let probe := Entry.param_id probe_entry in
    let probe_in_time_range :=
      TimeStamp.le (lowerbound query) (Entry.time probe_entry)
      && TimeStamp.ge (upperbound query) (Entry.time probe_entry) in
    _ ← (if (probe =? param query) && probe_in_time_range
         then put probe_offset else mret tt);
    if TimeStamp.gt (Entry.time probe_entry) (upperbound query)
       || (current_index =? max_index)
    then complete
    else scan_forward fuel' p query max_index probe_index
  end.

(** The part of [search] between the validation and the label [SCAN]:
    interpolation and bisection, or one of the shortcuts.  It yields the
    [probe_index] the scan starts from; [None] stands for the early
    [return] of the shortcuts that complete the cursor with no result. *)
Definition locate (fuel : nat) (p : t) (is_backward : bool) (key : Z)
  : M (option Z) :=
  let max_index := u32 (count p - 1) in
  let begin := 0 in
  let end_ := max_index in
  let probe_index := 0 in
  if (key <=? max_timestamp (bbox p)) && (key >=? min_timestamp (bbox p))
  then
    st ← interpolate 5 p key
           (mkNarrow begin end_ probe_index
              (min_timestamp (bbox p)) (max_timestamp (bbox p)));
    i ← binary_search fuel p key (begin_ st) (PageHeader.end_ st)
           (PageHeader.probe_index st);
    mret (Some i)
  else if key >? max_timestamp (bbox p) then
    if is_backward then mret (Some end_)
    else _ ← complete; mret None
  else if key <? min_timestamp (bbox p) then
    if negb is_backward then mret (Some begin)
    else _ ← complete; mret None
  else
    i ← binary_search fuel p key begin end_ probe_index;
    mret (Some i).

(** [PageHeader::search].  [fuel] bounds the iterations of each of the
    unbounded loops. *)
Definition search (fuel : nat) (p : t) (query : SingleParameterSearchQuery)
  : M unit :=
  if negb (validate_query query) then set_error AKU_SEARCH_EBAD_ARG
  else
    let is_backward := direction query =? AKU_CURSOR_DIR_BACKWARD in
    let max_index := u32 (count p - 1) in
    let key := if is_backward then upperbound query else lowerbound query in
    pos ← locate fuel p is_backward key;
    match pos with
    | None => mret tt
    | Some probe_index =>
      if is_backward then scan_backward fuel p query probe_index
      else scan_forward fuel p query max_index probe_index
    end.

(** *** Sort *)

(** The comparison [sort] hands to [insertion_sort]: both entries are read
    through their offsets and compared as
    [std::tuple<uint64_t, uint32_t>(time.value, param_id)]. *)
Definition sort_key (p : t) (a : EntryOffset) : Z * Z :=
  let ea := read_entry p a in
  (u64 (Entry.time ea), u32 (Entry.param_id ea)).

Definition tuple_lt (ta tb : Z * Z) : bool :=
  (fst ta <? fst tb) || (negb (fst tb <? fst ta) && (snd ta <? snd tb)).

Definition sort_less (p : t) (a b : EntryOffset) : bool :=
  tuple_lt (sort_key p a) (sort_key p b).

(** Modelled from the spec: sort.h, which holds [Akumuli::insertion_sort],
    is not part of the sources at hand; the specification only says that
    the index is reordered in place by insertion sort.  The part already
    sorted is kept with its last element first: the new element moves
    toward the front past every element it is less than. *)
Fixpoint sift {A} (less : A -> A -> bool) (x : A) (sorted_rev : list A) : list A :=
  match sorted_rev with
  | [] => [x]
  | y :: rest => if less x y then y :: sift less x rest else x :: y :: rest
  end.

Definition insertion_sort {A} (less : A -> A -> bool) (l : list A) : list A :=
  rev (fold_left (fun acc x => sift less x acc) l []).

(** The slots [page_index[0 .. count)]. *)
Definition index_slots (p : t) : list EntryOffset :=
  map (page_index p) (seqZ 0 (count p)).

(** [PageHeader::sort] *)
Definition sort (p : t) : t :=
  let sorted := insertion_sort (sort_less p) (index_slots p) in
  set_page_index p
    (fun j => if (0 <=? j) && (j <? count p)
              then nth (Z.to_nat j) sorted 0 else page_index p j).

(** *** Well-formed pages and runs of appends *)

(** The page [add_entry] returns on success, when neither [last_offset]
    nor [count] wraps around. *)
Definition appended (p : t) (e : Entry.t) : t :=
  let lo := last_offset p - Entry.length e in
  update_bounding_box
    (mk (type p) (count p + 1) lo (sync_index p) (length p) (open_count p)
       (close_count p) (page_id p) (bbox p)
       (store_index (page_index p) (count p) lo)
       (memcpy (cdata p) lo e (Entry.length e)))
    (Entry.param_id e) (Entry.time e).


(** The first byte past the index, as an offset into the page. *)
Definition end_of_index (p : t) : Z :=
  sizeof_PageHeader + sizeof_EntryOffset * count p.

(** The 32-bit fields that the append path reads hold 32-bit values. *)
Definition in_range (p : t) : Prop :=
  0 <= count p < 2 ^ 32 /\ 0 <= last_offset p < 2 ^ 32.

(** A page as its constructor (with no entries) or [reuse] leaves it. *)
Definition is_fresh (p : t) : Prop :=
  count p = 0
  /\ bbox p = PageBoundingBox_new
  /\ last_offset p = u32 (length p - 1).

(** A run of [add_entry] calls in which every call returns
    [AKU_WRITE_STATUS_SUCCESS]; [None] as soon as one does not. *)
Fixpoint add_entries (p : t) (es : list Entry.t) : option t :=
  match es with
  | [] => Some p
  | e :: es' =>
    match add_entry p e with
    | (AKU_WRITE_STATUS_SUCCESS, p') => add_entries p' es'
    | _ => None
    end
  end.

(** [add_entry] for each entry in turn, whatever status each call
    returns. *)
Definition add_each (p : t) (es : list Entry.t) : t :=
  fold_left (fun p e => snd (add_entry p e)) es p.

(** The entry that slot [i] of the index designates. *)
Definition entry_at (p : t) (i : Z) : Entry.t :=
  read_entry p (page_index p i).

(** What the append path maintains on a page that holds the entries [es],
    oldest first: the space accounting of the specification, and for each
    entry a slot that points at or above [last_offset] to a record with
    the header of that entry, inside the bounding box. *)
Definition holds (p : t) (es : list Entry.t) : Prop :=
  in_range p
  /\ end_of_index p <= last_offset p < 2 ^ 31
  /\ count p = Z.of_nat (Datatypes.length es)
  /\ forall (i : nat) (e : Entry.t), es !! i = Some e ->
       last_offset p <= page_index p (Z.of_nat i)
       /\ Entry.length (entry_at p (Z.of_nat i)) = Entry.length e
       /\ Entry.param_id (entry_at p (Z.of_nat i)) = Entry.param_id e
       /\ Entry.time (entry_at p (Z.of_nat i)) = Entry.time e
       /\ inside_bbox p (Entry.param_id e) (Entry.time e) = true.

(** The bytes a run of appends asks for: each record and its index slot. *)
Definition space_required (es : list Entry.t) : Z :=
  fold_right (fun e acc => Entry.length e + sizeof_EntryOffset + acc) 0 es.

(** The records of [es] stand in the page byte for byte, oldest first,
    each at the offset its slot holds, at or above [last_offset]. *)
Definition stores (p : t) (es : list Entry.t) : Prop :=
  forall (i : nat) (e : Entry.t), es !! i = Some e ->
    last_offset p <= page_index p (Z.of_nat i)
    /\ forall k, 0 <= k < Entry.length e ->
         cdata p (page_index p (Z.of_nat i) + k) = e k.

(** The records of [es] lie between the end of the index and the last
    byte of the page, each below the ones appended before it. *)
Definition laid_out (p : t) (es : list Entry.t) : Prop :=
  last_offset p <= length p - 1
  /\ (forall (i : nat) (e : Entry.t), es !! i = Some e ->
        end_of_index p <= page_index p (Z.of_nat i)
        /\ page_index p (Z.of_nat i) + Entry.length e <= length p - 1)
  /\ (forall (i j : nat) (ei ej : Entry.t),
        es !! i = Some ei -> es !! j = Some ej -> (i < j)%nat ->
        page_index p (Z.of_nat j) + Entry.length ej
          <= page_index p (Z.of_nat i)).

(** The bounding box that the (param_id, timestamp) pairs of [es] span,
    grown from the box of an empty page. *)
Definition bbox_of (es : list Entry.t) : PageBoundingBox :=
  mkBBox
    (fold_right Z.max (max_id PageBoundingBox_new) (map Entry.param_id es))
    (fold_right Z.min (min_id PageBoundingBox_new) (map Entry.param_id es))
    (fold_right Z.max (max_timestamp PageBoundingBox_new) (map Entry.time es))
    (fold_right Z.min (min_timestamp PageBoundingBox_new) (map Entry.time es)).

(** *** Reading a run of [search] *)

(** The calls a run makes on the cursor: its events, index reads left
    out. *)
Definition cursor_calls (evs : list Event) : list Event :=
  List.filter (fun ev => match ev with ReadIndex _ => false | _ => true end) evs.

(** [puts_then last m]: the calls of [m] on the cursor are puts, followed,
    when [m] returns a value [a], by the calls [last a] and nothing else. *)
Definition puts_then {A} (last : A -> list Event) (m : M A) : Prop :=
  exists offsets,
    cursor_calls (events m)
    = map Put offsets ++ match outcome m with
                         | Done a => last a
                         | _ => []
                         end.

(** The call that ends a run that returned: [set_error] for a query that
    does not validate, [complete] otherwise. *)
Definition final_call (query : SingleParameterSearchQuery) : Event :=
  if validate_query query then Complete else SetError AKU_SEARCH_EBAD_ARG.

(** [ensures P fuelled Q m]: every event of [m] satisfies [P]; a value [m]
    ends with satisfies [Q]; and, when [fuelled] is set, [m] did not stop
    for lack of fuel. *)
Definition ensures {A} (P : Event -> Prop) (fuelled : bool) (Q : A -> Prop)
    (m : M A) : Prop :=
  Forall P (events m)
  /\ match outcome m with
     | Done a => Q a
     | Crash _ => True
     | NoFuel => fuelled = false
     end.

(** An event that stays inside the live part [0, count) of the index. *)
Definition within_count (p : t) (ev : Event) : Prop :=
  match ev with
  | ReadIndex i => 0 <= i < count p
  | Put o => exists i, 0 <= i < count p /\ page_index p i = o
  | Complete => True
  | SetError _ => True
  end.

(** The entry at offset [o] is one the query asks for. *)
Definition matches (p : t) (query : SingleParameterSearchQuery)
    (o : EntryOffset) : Prop :=
  Entry.param_id (read_entry p o) = param query
  /\ lowerbound query <= Entry.time (read_entry p o) <= upperbound query.

(** [m] runs to its end and the value it yields satisfies [Q]. *)
Definition returns {A} (Q : A -> Prop) (m : M A) : Prop :=
  exists a, outcome m = Done a /\ Q a.

(** The timestamps strictly increase along the slots [0, count). *)
Definition strictly_ordered (p : t) : Prop :=
  forall i j, 0 <= i -> i < j -> j < count p ->
    Entry.time (entry_at p i) < Entry.time (entry_at p j).

(** The bounding box holds the timestamp of every entry, and its bounds
    are timestamps that are not negative. *)
Definition bbox_spans (p : t) : Prop :=
  0 <= min_timestamp (bbox p)
  /\ max_timestamp (bbox p) < 2 ^ 63
  /\ forall i, 0 <= i < count p ->
       min_timestamp (bbox p) <= Entry.time (entry_at p i)
         <= max_timestamp (bbox p).

(** An event that puts nothing but entries the query asks for. *)
Definition puts_matching (p : t) (query : SingleParameterSearchQuery)
    (ev : Event) : Prop :=
  match ev with
  | Put o => matches p query o
  | _ => True
  end.

End PageHeader.

(* ===================================================================== *)
(** ** The page in its mapping *)

Module PageBytes.

(** [PageHeader::data] and [PageHeader::cdata] return [this]: the fields of
    the header, the slots of the index and the records are bytes of one
    mapping.  [PageHeader.t] keeps them apart; here the page is that
    mapping.  [mem] gives the byte at each offset from [this], [size] the
    number of bytes mapped.  A field is read from the bytes each time the
    source names it and written into them each time the source assigns
    it. *)
Record t : Type := mk {
  mem : Region;
  size : Z
}.

(** Modelled from the spec: page.h, which declares [PageHeader] and
    [PageBoundingBox], is not part of the sources at hand.  The fields
    stand in the order in which the two constructors initialise them,
    each at its natural alignment: 32-bit counters, a 64-bit [length],
    and a bounding box of two 32-bit ids and two 64-bit timestamps, which
    comes last and is 8-byte aligned.  This gives the 64 bytes of
    [sizeof_PageHeader]. *)
Definition offsetof_type : Z := 0.
Definition offsetof_count : Z := 4.
Definition offsetof_last_offset : Z := 8.
Definition offsetof_sync_index : Z := 12.
Definition offsetof_length : Z := 16.
Definition offsetof_open_count : Z := 24.
Definition offsetof_close_count : Z := 28.
Definition offsetof_page_id : Z := 32.
Definition offsetof_max_id : Z := 40.
Definition offsetof_min_id : Z := 44.
Definition offsetof_max_timestamp : Z := 48.
Definition offsetof_min_timestamp : Z := 56.

(** Modelled from the spec: page.h is absent; the enumerators of
    [PageType] are numbered in the order the specification names them. *)
Definition PageType_value (ty : PageType) : Z :=
  match ty with
  | Index => 0
  | Metadata => 1
  end.

(** The [n] bytes at offset [a] lie in the mapping. *)
Definition mapped (m : t) (a n : Z) : bool :=
  (0 <=? a) && (a + n <=? size m).

(** A write of the first [n] bytes of [src] at offset [a].  [None] is a
    write that leaves the mapping, which is undefined behaviour. *)
Definition write (m : t) (a : Z) (src : Region) (n : Z) : option t :=
  if mapped m a n then Some (mk (memcpy (mem m) a src n) (size m)) else None.

Definition store_u32 (m : t) (a v : Z) : option t :=
  write m a (region_of_list (bytes_le 4 v)) 4.

Definition store_u64 (m : t) (a v : Z) : option t :=
  write m a (region_of_list (bytes_le 8 v)) 8.

Definition load_u32 (m : t) (a : Z) : Z := load_le 4 (mem m) a.
Definition load_u64 (m : t) (a : Z) : Z := load_le 8 (mem m) a.

(** The fields of the header, read from the mapping. *)
Definition type (m : t) : PageType :=
  if load_u32 m offsetof_type =? 0 then Index else Metadata.
Definition count (m : t) : Z := load_u32 m offsetof_count.
Definition last_offset (m : t) : Z := load_u32 m offsetof_last_offset.
Definition sync_index (m : t) : Z := load_u32 m offsetof_sync_index.
Definition length (m : t) : Z := load_u64 m offsetof_length.
Definition open_count (m : t) : Z := load_u32 m offsetof_open_count.
Definition close_count (m : t) : Z := load_u32 m offsetof_close_count.
Definition page_id (m : t) : Z := load_u32 m offsetof_page_id.

Definition bbox (m : t) : PageBoundingBox :=
  {| max_id := load_u32 m offsetof_max_id;
     min_id := load_u32 m offsetof_min_id;
     max_timestamp := s64 (load_u64 m offsetof_max_timestamp);
     min_timestamp := s64 (load_u64 m offsetof_min_timestamp) |}.

(** The address of [page_index[i]], the array that follows the header. *)
Definition slot (i : Z) : Z := sizeof_PageHeader + sizeof_EntryOffset * i.

(** [page_index[i]] *)
Definition page_index (m : t) (i : Z) : EntryOffset := load_u32 m (slot i).

(** [PageHeader::PageHeader(type, count, length, page_id)], constructed
    in place at the base of the mapping [m]. *)
Definition new (ty : PageType) (cnt : Z) (len : Z) (pid : Z) (m : t)
  : option t :=
  m ← store_u32 m offsetof_type (PageType_value ty);
  m ← store_u32 m offsetof_count cnt;
  m ← store_u32 m offsetof_last_offset (u32 (len - 1));
  m ← store_u32 m offsetof_sync_index 0;
  m ← store_u64 m offsetof_length len;
  m ← store_u32 m offsetof_open_count 0;
  m ← store_u32 m offsetof_close_count 0;
  m ← store_u32 m offsetof_page_id pid;
  m ← store_u32 m offsetof_max_id (max_id PageBoundingBox_new);
  m ← store_u32 m offsetof_min_id (min_id PageBoundingBox_new);
  m ← store_u64 m offsetof_max_timestamp (max_timestamp PageBoundingBox_new);
  store_u64 m offsetof_min_timestamp (min_timestamp PageBoundingBox_new).

(** [PageHeader::get_free_space] *)
Definition get_free_space (m : t) : Z :=
  let begin_ := slot (count m) in
  let end_ := last_offset m in
  s32 (end_ - begin_).

(** [PageHeader::update_bounding_box] *)
Definition update_bounding_box (m : t) (param : ParamId) (time : TimeStamp.t)
  : option t :=
  m ← (if param >? max_id (bbox m)
       then store_u32 m offsetof_max_id param else Some m);
  m ← (if param <? min_id (bbox m)
       then store_u32 m offsetof_min_id param else Some m);
  m ← (if TimeStamp.gt time (max_timestamp (bbox m))
       then store_u64 m offsetof_max_timestamp time else Some m);
  if TimeStamp.lt time (min_timestamp (bbox m))
  then store_u64 m offsetof_min_timestamp time else Some m.

(** [PageHeader::reuse] *)
Definition reuse (m : t) : option t :=
  m ← store_u32 m offsetof_count 0;
  m ← store_u32 m offsetof_open_count (u32 (open_count m + 1));
  m ← store_u32 m offsetof_last_offset (u32 (length m - 1));
  m ← store_u32 m offsetof_max_id (max_id PageBoundingBox_new);
  m ← store_u32 m offsetof_min_id (min_id PageBoundingBox_new);
  m ← store_u64 m offsetof_max_timestamp (max_timestamp PageBoundingBox_new);
  store_u64 m offsetof_min_timestamp (min_timestamp PageBoundingBox_new).

(** [PageHeader::close] *)
Definition close (m : t) : option t :=
  store_u32 m offsetof_close_count (u32 (close_count m + 1)).

(** [std::copy_n(offsets, n, page_index + to)], [offsets] read from
    position [from] on. *)
Fixpoint copy_n (offsets : Z -> EntryOffset) (from : Z) (n : nat) (m : t)
    (to : Z) : option t :=
  match n with
  | O => Some m
  | S n' =>
    m ← store_u32 m (slot to) (offsets from);
    copy_n offsets (from + 1) n' m (to + 1)
  end.

(** [PageHeader::sync_indexes] *)
Definition sync_indexes (m : t) (offsets : Z -> EntryOffset) (num_offsets : Z)
  : option t :=
  let num_offsets :=
    if u64 (sync_index m + num_offsets) >? count m
    then u32 (count m - sync_index m) else num_offsets in
  m ← copy_n offsets 0 (Z.to_nat num_offsets) m (sync_index m);
  store_u32 m offsetof_sync_index (u32 (sync_index m + num_offsets)).

(** [PageHeader::add_entry(Entry const&)].  [free_slot] is kept as an
    offset from [this]; it is formed from the [last_offset] read before
    the copy, and the assignments that follow the copy read the header
    again, from whatever the copy left there. *)
Definition add_entry (m : t) (entry : Entry.t) : option (Status * t) :=
  let space_required := Entry.length entry + sizeof_EntryOffset in
  if Entry.length entry <? sizeof_Entry then
    Some (AKU_WRITE_STATUS_BAD_DATA, m)
  else if space_required >? u64 (get_free_space m) then
    Some (AKU_WRITE_STATUS_OVERFLOW, m)
  else
    let free_slot := last_offset m in
    let free_slot := free_slot - Entry.length entry in
    m ← write m free_slot entry (Entry.length entry);
    m ← store_u32 m offsetof_last_offset (u32 free_slot);
    m ← store_u32 m (slot (count m)) (last_offset m);
    m ← store_u32 m offsetof_count (u32 (count m + 1));
    m ← update_bounding_box m (Entry.param_id entry) (Entry.time entry);
    Some (AKU_WRITE_STATUS_SUCCESS, m).

(** [PageHeader::add_entry(Entry2 const&)], with [sizeof(Entry2)] given. *)
Definition add_entry2 (sizeof_Entry2 : Z) (m : t) (entry : Entry2.t)
  : option (Status * t) :=
  let space_required :=
    u64 (Entry2.range_length entry + sizeof_Entry2 + sizeof_EntryOffset) in
  if space_required >? u64 (get_free_space m) then
    Some (AKU_WRITE_STATUS_OVERFLOW, m)
  else
    let free_slot := last_offset m in
    let free_slot := free_slot - Entry2.range_length entry in
    m ← write m free_slot (Entry2.range_address entry)
          (Entry2.range_length entry);
    let free_slot := free_slot - 4 in
    m ← store_u32 m free_slot (Entry2.range_length entry);
    let free_slot := free_slot - sizeof_Entry2 in
    m ← write m free_slot (Entry2.object entry) sizeof_Entry2;
    m ← store_u32 m offsetof_last_offset (u32 free_slot);
    m ← store_u32 m (slot (count m)) (last_offset m);
    m ← store_u32 m offsetof_count (u32 (count m + 1));
    m ← update_bounding_box m (Entry2.param_id entry) (Entry2.time entry);
    Some (AKU_WRITE_STATUS_SUCCESS, m).

(** A run of [add_entry] calls in which every call returns
    [AKU_WRITE_STATUS_SUCCESS]; [None] as soon as one returns another
    status or writes outside the mapping. *)
Fixpoint add_entries (m : t) (es : list Entry.t) : option t :=
  match es with
  | [] => Some m
  | e :: es' =>
    match add_entry m e with
    | Some (AKU_WRITE_STATUS_SUCCESS, m') => add_entries m' es'
    | _ => None
    end
  end.

(** [PageHeader::read_entry] *)
Definition read_entry (m : t) (offset : EntryOffset) : Entry.t :=
  at_offset (mem m) offset.

(** [PageHeader::inside_bbox] *)
Definition inside_bbox (m : t) (param : ParamId) (time : TimeStamp.t) : bool :=
  TimeStamp.le time (max_timestamp (bbox m))
  && TimeStamp.ge time (min_timestamp (bbox m))
  && (param <=? max_id (bbox m))
  && (param >=? min_id (bbox m)).

(** The page of [PageHeader.t] that the bytes of [m] hold: each field
    decoded from its place, each slot from the array after the header,
    and the mapping itself for [cdata]. *)
Definition view (m : t) : PageHeader.t :=
  {| PageHeader.type := type m;
     PageHeader.count := count m;
     PageHeader.last_offset := last_offset m;
     PageHeader.sync_index := sync_index m;
     PageHeader.length := length m;
     PageHeader.open_count := open_count m;
     PageHeader.close_count := close_count m;
     PageHeader.page_id := page_id m;
     PageHeader.bbox := bbox m;
     PageHeader.page_index := page_index m;
     PageHeader.cdata := mem m |}.

(** [p] and [q] are the same page to every reader that goes through the
    header fields, the slots [0, count) of the index and the bytes from
    the end of the index up. *)
Definition same_page (p q : PageHeader.t) : Prop :=
  PageHeader.type p = PageHeader.type q
  /\ PageHeader.count p = PageHeader.count q
  /\ PageHeader.last_offset p = PageHeader.last_offset q
  /\ PageHeader.sync_index p = PageHeader.sync_index q
  /\ PageHeader.length p = PageHeader.length q
  /\ PageHeader.open_count p = PageHeader.open_count q
  /\ PageHeader.close_count p = PageHeader.close_count q
  /\ PageHeader.page_id p = PageHeader.page_id q
  /\ PageHeader.bbox p = PageHeader.bbox q
  /\ (forall i, 0 <= i < PageHeader.count p ->
        PageHeader.page_index p i = PageHeader.page_index q i)
  /\ (forall a, PageHeader.end_of_index p <= a ->
        PageHeader.cdata p a = PageHeader.cdata q a).

End PageBytes.

(* ===================================================================== *)
(** ** RecordingCursor *)

Module RecordingCursor.

(** [struct RecordingCursor] of cursor.h: the results received so far,
    the completion flag and the error code ([None] is [NO_ERROR]). *)
Record t : Type := mk {
  results : list EntryOffset;
  completed : bool;
  error_code : option Status
}.

(** The cursor as its member initialisers leave it. *)
Definition new : t := mk [] false None.

(** Modelled from the spec: cursor.cpp, which defines the three methods, is
    not part of the sources at hand.  Section 4.4: [put] delivers one
    result, [complete] signals the end of the stream, [set_error] signals
    a failure and implies completion. *)
Definition put (c : t) (result : EntryOffset) : t :=
  mk (results c ++ [result]) (completed c) (error_code c).
Definition complete (c : t) : t := mk (results c) true (error_code c).
Definition set_error (c : t) (code : Status) : t :=
  mk (results c) true (Some code).

(** The effect on the cursor of one event of a run. *)
Definition call (c : t) (ev : PageHeader.Event) : t :=
  match ev with
  | PageHeader.ReadIndex _ => c
  | PageHeader.Put o => put c o
  | PageHeader.Complete => complete c
  | PageHeader.SetError code => set_error c code
  end.

(** The cursor after a run whose events are [evs]. *)
Definition replay (evs : list PageHeader.Event) (c : t) : t :=
  fold_left call evs c.

End RecordingCursor.

(* ===================================================================== *)
(** ** Volume *)

Module Volume.

(** A volume: the page at the base of its mapping, the size of the mapping,
    and the parameters of its staging cache (the cache itself is outside
    the sources at hand). *)
Record t : Type := mk {
  page_ : PageHeader.t;
  mmap_size : Z;
  ttl_ : Z;
  max_cache_size_ : Z
}.

Definition set_page (v : t) (p : PageHeader.t) : t :=
  mk p (mmap_size v) (ttl_ v) (max_cache_size_ v).

(** [Volume::get_page] *)
Definition get_page (v : t) : PageHeader.t := page_ v.

(** [Volume::reallocate_disc_space].  The destructive remap discards the
    contents of the file; the fresh mapping is taken to read zero. *)
Definition reallocate_disc_space (v : t) : t :=
  let page_id := PageHeader.page_id (page_ v) in
  let open_count := PageHeader.open_count (page_ v) in
  let close_count := PageHeader.close_count (page_ v) in
  let page_type := PageHeader.type (page_ v) in
  let page := PageHeader.new page_type 0 (mmap_size v) page_id
                (fun _ => 0) (fun _ => x00) in
  let page := PageHeader.set_open_count page open_count in
  let page := PageHeader.set_close_count page close_count in
  set_page v page.

(** [Volume::open] *)
Definition open (v : t) : t := set_page v (PageHeader.reuse (page_ v)).

(** [Volume::close] *)
Definition close (v : t) : t := set_page v (PageHeader.close (page_ v)).

End Volume.

(* ===================================================================== *)
(** ** Storage *)

Module Storage.

(** The ring of volumes.  [active_volume_] is the position in [volumes_]
    of the volume the pointer of that name designates; [active_page_] is
    the page of that volume. *)
Record t : Type := mk {
  volumes_ : list Volume.t;
  active_volume_index_ : Z;
  active_volume_ : nat
}.

(** [Storage::advance_volume_].  [active_volume_index_] is an atomic [int];
    the subscript [active_volume_index_ % volumes_.size()] is computed in
    [size_t]. *)
Definition advance_volume_ (s : t) (local_rev : Z) : t :=
  if local_rev =? active_volume_index_ s then
    let vols := alter Volume.close (active_volume_ s) (volumes_ s) in
    let index := s32 (active_volume_index_ s + 1) in
    let pos := Z.to_nat (u64 index mod Z.of_nat (Datatypes.length vols)) in
    let vols := alter Volume.reallocate_disc_space pos vols in
    let vols := alter Volume.open pos vols in
    mk vols index pos
  else s.

(** The loop of [select_active_page] over the volumes from position [i]
    on; it yields [(max_index, max_overwrites)]. *)
Fixpoint most_overwritten (vols : list Volume.t) (i : Z)
    (max_index max_overwrites : Z) : Z * Z :=
  match vols with
  | [] => (max_index, max_overwrites)
  | v :: rest =>
    let page := Volume.get_page v in
    if PageHeader.open_count page >=? max_overwrites
    then most_overwritten rest (i + 1) i (PageHeader.open_count page)
    else most_overwritten rest (i + 1) max_index max_overwrites
  end.

(** [Storage::select_active_page]; [None] is the exception of
    [volumes_.at]. *)
Definition select_active_page (s : t) : option t :=
  let '(max_index, _) := most_overwritten (volumes_ s) 0 (-1) (-1) in
  if (max_index <? 0) || (max_index >=? Z.of_nat (Datatypes.length (volumes_ s)))
  then None
  else
    let s := mk (volumes_ s) max_index (Z.to_nat max_index) in
    match volumes_ s !! active_volume_ s with
    | None => None
    | Some v =>
      let active_page := Volume.get_page v in
      if PageHeader.close_count active_page =? PageHeader.open_count active_page
      then Some (advance_volume_ s (active_volume_index_ s))
      else Some s
    end.

(** Modelled from the spec: [Storage::_write_impl], which [Storage::write]
    forwards to, is not part of the sources at hand.  Section 4.7: capture
    the active index, append into the active page; on OVERFLOW call
    [advance_volume_] with the captured index and retry, a bounded number
    of times; any other status is returned as it is. *)
Fixpoint write_impl (retries : nat) (s : t) (entry : Entry.t) : Status * t :=
  match retries with
  | O => (AKU_WRITE_STATUS_OVERFLOW, s)
  | S retries' =>
    let local_rev := active_volume_index_ s in
    match volumes_ s !! active_volume_ s with
    | None => (AKU_WRITE_STATUS_BAD_DATA, s)
    | Some v =>
      let '(status, page) := PageHeader.add_entry (Volume.get_page v) entry in
      let s := mk (<[active_volume_ s := Volume.set_page v page]> (volumes_ s))
                  (active_volume_index_ s) (active_volume_ s) in
      match status with
      | AKU_WRITE_STATUS_OVERFLOW =>
        write_impl retries' (advance_volume_ s local_rev) entry
      | _ => (status, s)
      end
    end
  end.

(** [Storage::search], which takes the cursor to feed: the body is empty. *)
Definition search (s : t) : PageHeader.M unit := mret tt.

End Storage.

(* ===================================================================== *)
(** ** The life of a ring of volumes *)

Module Lifecycle.

(** (open_count, close_count) of the page of a volume. *)
Definition counters (v : Volume.t) : Z * Z :=
  (PageHeader.open_count (Volume.get_page v),
   PageHeader.close_count (Volume.get_page v)).

(** A volume that was opened as often as it was closed, or once more. *)
Definition balanced (v : Volume.t) : Prop :=
  snd (counters v) <= fst (counters v) <= snd (counters v) + 1.

(** [create_page_file] for a file of [len] bytes: the page is constructed
    in place and, when it is the first of the ring, activated. *)
Definition create_page (len : Z) (page_index : Z) : PageHeader.t :=
  let index_page :=
    PageHeader.new Index 0 len page_index (fun _ => 0) (fun _ => x00) in
  if page_index =? 0 then PageHeader.reuse index_page else index_page.

(** The volumes of a storage of [n] pages as [new_storage] leaves them on
    disk, mapped, before the constructor selects the active one. *)
Definition created (n : nat) (len ttl max_cache_size : Z) : Storage.t :=
  Storage.mk
    (map (fun i => Volume.mk (create_page len i) len ttl max_cache_size)
         (seqZ 0 (Z.of_nat n)))
    0 0.

(** What happens to a storage between its creation and its end: it is
    constructed (again) over its volumes, which selects the active page;
    an entry is written, with a bound on the retries; a writer calls
    [advance_volume_] with the index it captured. *)
Inductive Op : Type :=
| Startup
| Write (retries : nat) (entry : Entry.t)
| Rotate (local_rev : Z).

Definition step (s : Storage.t) (op : Op) : option Storage.t :=
  match op with
  | Startup => Storage.select_active_page s
  | Write retries entry => Some (snd (Storage.write_impl retries s entry))
  | Rotate local_rev => Some (Storage.advance_volume_ s local_rev)
  end.

Fixpoint run (s : Storage.t) (ops : list Op) : option Storage.t :=
  match ops with
  | [] => Some s
  | op :: rest =>
    match step s op with
    | Some s' => run s' rest
    | None => None
    end
  end.

(** The most rotations an operation can cause. *)
Definition rotations (op : Op) : Z :=
  match op with
  | Startup => 0
  | Write retries _ => Z.of_nat retries
  | Rotate _ => 1
  end.

Definition total_rotations (ops : list Op) : Z :=
  fold_right (fun op acc => rotations op + acc) 0 ops.

(** The counters of the volume at position [i] of a ring whose active
    volume is at position [a], in its epoch [k]: the volumes before the
    active one were opened and closed in this epoch, the active one was
    opened, those after it are still in the previous epoch. *)
Definition expected (a : nat) (k : Z) (i : nat) : Z * Z :=
  if (i <? a)%nat then (k + 1, k + 1)
  else if (i =? a)%nat then (k + 1, k)
  else (k, k).

(** A ring in normal operation. *)
Definition ring_shape (s : Storage.t) (k : Z) : Prop :=
  (Storage.active_volume_ s < Datatypes.length (Storage.volumes_ s))%nat
  /\ 0 <= Storage.active_volume_index_ s
  /\ Storage.active_volume_index_ s
       mod Z.of_nat (Datatypes.length (Storage.volumes_ s))
     = Z.of_nat (Storage.active_volume_ s)
  /\ forall (i : nat) (v : Volume.t),
       Storage.volumes_ s !! i = Some v ->
       counters v = expected (Storage.active_volume_ s) k i.

(** A ring in normal operation that went through at most [b] rotations
    since it was created. *)
Definition in_operation (s : Storage.t) (b : Z) : Prop :=
  exists k, ring_shape s k
    /\ 0 <= k <= b
    /\ Storage.active_volume_index_ s
       <= Z.of_nat (Datatypes.length (Storage.volumes_ s)) + b.

End Lifecycle.

(* ===================================================================== *)
(** ** The storage search the specification describes *)

Module Spec.

(** One result of a per-volume cursor: the page it came from and the
    offset that page's search emitted. *)
Definition Result : Type := (PageHeader.t * EntryOffset)%type.

Definition result_key (r : Result) : Z * Z :=
  let e := PageHeader.read_entry (fst r) (snd r) in
  (Entry.time e, Entry.param_id e).

(** Modelled from the spec: cursor.cpp, which implements
    [FanInCursorCombinator], is not part of the sources at hand.  Section
    4.5: heads are ordered by (timestamp, param_id), ascending for a forward
    merge and descending for a backward one. *)
Definition precedes (dir : Z) (a b : Z * Z) : bool :=
  let lt x y := (fst x <? fst y) || ((fst x =? fst y) && (snd x <? snd y)) in
  if dir =? AKU_CURSOR_DIR_BACKWARD then lt b a else lt a b.

(** Modelled from the spec: the source whose head comes first, the earliest
    source winning among equal heads. *)
Fixpoint best_source (dir : Z) (srcs : list (list Result)) (i : nat)
    (best : option (nat * Result)) : option (nat * Result) :=
  match srcs with
  | [] => best
  | [] :: rest => best_source dir rest (S i) best
  | (r :: _) :: rest =>
    match best with
    | Some (_, b) =>
      if precedes dir (result_key r) (result_key b)
      then best_source dir rest (S i) (Some (i, r))
      else best_source dir rest (S i) best
    | None => best_source dir rest (S i) (Some (i, r))
    end
  end.

(** Modelled from the spec: section 4.5, pop the least head, append it to
    the output, advance that source, until every source is empty. *)
Fixpoint fan_in (fuel : nat) (dir : Z) (srcs : list (list Result)) : list Result :=
  match fuel with
  | O => []
  | S fuel' =>
    match best_source dir srcs 0 None with
    | None => []
    | Some (i, r) => r :: fan_in fuel' dir (alter (@tail Result) i srcs)
    end
  end.

(** The offsets a run of a page search put on its cursor, in order. *)
Definition offsets_put (evs : list PageHeader.Event) : list EntryOffset :=
  omap (fun e => match e with PageHeader.Put o => Some o | _ => None end) evs.

(** Modelled from the spec: section 4.8, one cursor per volume running that
    page's search, the outer result being their fan-in merge in the
    direction of the query. *)
Definition storage_search (fuel : nat) (s : Storage.t)
    (query : SingleParameterSearchQuery) : list Result :=
  let per_volume := map (fun v =>
      let page := Volume.get_page v in
      map (fun o => (page, o))
          (offsets_put (PageHeader.events (PageHeader.search fuel page query))))
    (Storage.volumes_ s) in
  fan_in (Datatypes.length (concat per_volume)) (direction query) per_volume.

End Spec.

(* ===================================================================== *)
(** ** Pages and rings used as concrete inputs *)

Module Examples.

(** A page of [len] bytes over a mapping that reads zero, as
    [create_page_file] constructs it. *)
Definition blank (len : Z) : PageHeader.t :=
  PageHeader.new Index 0 len 0 (fun _ => 0) (fun _ => x00).

(** An entry with no payload. *)
Definition sample (param : ParamId) (ts : TimeStamp.t) : Entry.t :=
  Entry.new param ts sizeof_Entry.

(** [add_entry] for each entry in turn, the statuses dropped. *)
Definition append_all (p : PageHeader.t) (es : list Entry.t) : PageHeader.t :=
  PageHeader.add_each p es.

(** The worker's [sync_indexes] call with the offsets of every entry of
    the page, in the order the index has them. *)
Definition synced (p : PageHeader.t) : PageHeader.t :=
  PageHeader.sync_indexes p (PageHeader.page_index p) (PageHeader.count p).

(** (param_id, timestamp) of the entries the index designates, in order. *)
Definition listing (p : PageHeader.t) : list (ParamId * TimeStamp.t) :=
  map (fun o => (Entry.param_id (PageHeader.read_entry p o),
                 Entry.time (PageHeader.read_entry p o)))
      (PageHeader.index_slots p).

(** Three series sampled at the same instant, sorted and synced. *)
Definition three_series : PageHeader.t :=
  synced (append_all (blank 256) [sample 1 5; sample 2 5; sample 3 5]).

(** Two series with three samples at rising timestamps, synced. *)
Definition rising : PageHeader.t :=
  synced (append_all (blank 256) [sample 1 3; sample 2 5; sample 1 8]).

(** One series sampled at 0, 10, ..., 990, synced. *)
Definition decades : PageHeader.t :=
  synced (append_all (blank 4096) (map (fun i => sample 7 (10 * i)) (seqZ 0 100))).

(** Sixty-five series sampled at the same instant, synced. *)
Definition same_instant : PageHeader.t :=
  synced (append_all (blank 4096) (map (fun i => sample i 5) (seqZ 0 65))).

(** One synced entry, and one appended after the sync. *)
Definition one_unsynced : PageHeader.t :=
  append_all (synced (append_all (blank 256) [sample 1 5])) [sample 1 7].

(** Nine entries in a page of 256 bytes: 11 bytes are left. *)
Definition nearly_full : PageHeader.t :=
  append_all (blank 256) (map (fun i => sample 1 i) (seqZ 0 9)).

(** An entry constructed with a length below the header size. *)
Definition short_entry : Entry.t := Entry.new 1 9 12.

(** Two samples appended in timestamp order, the first before the epoch. *)
Definition before_epoch : PageHeader.t :=
  append_all (blank 256) [sample 1 (-1); sample 1 0].

Definition volume_of (p : PageHeader.t) : Volume.t :=
  Volume.mk p (PageHeader.length p) 1000 16.

(** A ring of two volumes as [create_page_files] leaves it: the first
    page activated by [reuse], the second untouched. *)
Definition new_ring : Storage.t :=
  Storage.mk [volume_of (PageHeader.reuse (blank 4096)); volume_of (blank 4096)] 0 0.

(** The same ring after a rotation that stopped between the [close] of
    the full volume and the [open] of the next one. *)
Definition interrupted_ring : Storage.t :=
  Storage.mk (alter Volume.close 0%nat (Storage.volumes_ new_ring)) 0 0.

(** (open_count, close_count) of each volume. *)
Definition epochs (s : Storage.t) : list (Z * Z) :=
  map Lifecycle.counters (Storage.volumes_ s).

(** A ring of one volume whose page is [three_series]. *)
Definition one_volume : Storage.t :=
  Storage.mk [volume_of three_series] 0 0.

(** A page of [len] bytes constructed at the base of a mapping of [len]
    bytes that reads zero. *)
Definition blank_bytes (len : Z) : option PageBytes.t :=
  PageBytes.new Index 0 len 0 (PageBytes.mk (fun _ => x00) len).

(** An Entry2 of series 7 at timestamp 3 with a payload of 155 bytes; the
    bytes of the object and of the payload read zero. *)
Definition wide_entry2 : Entry2.t :=
  Entry2.mk (fun _ => x00) 7 3 (fun _ => x00) 155.

(** What a call of one of the [add_entry] overloads leaves: the status it
    returns and the page after it. *)
Definition status_of (r : Status * PageBytes.t) : Status := fst r.
Definition page_of (r : Status * PageBytes.t) : PageBytes.t := snd r.

(** [add_entry] for [wide_entry2] on a blank page of 256 bytes, with an
    Entry2 of 32 bytes: the call asks for 155 + 32 + 4 = 191 bytes, all
    the free space there is. *)
Definition after_entry2 : option (Status * PageBytes.t) :=
  m ← blank_bytes 256;
  PageBytes.add_entry2 32 m wide_entry2.

(** The same, followed by [add_entry] for an Entry of series 1 at
    timestamp 9. *)
Definition after_entry2_and_entry : option (Status * PageBytes.t) :=
  r ← after_entry2;
  PageBytes.add_entry (page_of r) (sample 1 9).

End Examples.
(* ===================================================================== *)
(** * Properties *)

(** ** Machine integers and memory *)

Arguments u32 : simpl never.
Arguments u64 : simpl never.
Arguments s32 : simpl never.
Arguments s64 : simpl never.
Arguments Entry.length : simpl never.
Arguments Entry.param_id : simpl never.
Arguments Entry.time : simpl never.
Arguments memcpy : simpl never.

Lemma u32_small (z : Z) : 0 <= z < 2 ^ 32 -> u32 z = z.
Proof. intros H. unfold u32. apply Z.mod_small. exact H. Qed.

Lemma u64_small (z : Z) : 0 <= z < 2 ^ 64 -> u64 z = z.
Proof. intros H. unfold u64. apply Z.mod_small. exact H. Qed.

Lemma s32_small (z : Z) : - 2 ^ 31 <= z < 2 ^ 31 -> s32 z = z.
Proof. intros H. unfold s32. rewrite Z.mod_small; lia. Qed.

Lemma s64_small (z : Z) : - 2 ^ 63 <= z < 2 ^ 63 -> s64 z = z.
Proof. intros H. unfold s64. rewrite Z.mod_small; lia. Qed.

Lemma u32_range (z : Z) : 0 <= u32 z < 2 ^ 32.
Proof. unfold u32. apply Z.mod_pos_bound. lia. Qed.

Lemma s32_range (z : Z) : - 2 ^ 31 <= s32 z < 2 ^ 31.
Proof.
  unfold s32. pose proof (Z.mod_pos_bound (z + 2 ^ 31) (2 ^ 32)). lia.
Qed.

(** A wrapped [int] that is negative converts to a [size_t] above every
    32-bit quantity. *)
Lemma u64_of_negative (z : Z) : - 2 ^ 31 <= z < 0 -> 2 ^ 63 <= u64 z.
Proof.
  intros H. unfold u64.
  replace z with (z + 2 ^ 64 + (-1) * 2 ^ 64) by lia.
  rewrite Z.mod_add by lia. rewrite Z.mod_small; lia.
Qed.

Lemma s32_of_large (z : Z) : 2 ^ 31 <= z < 2 ^ 32 -> s32 z = z - 2 ^ 32.
Proof.
  intros H. unfold s32.
  replace (z + 2 ^ 31) with (z - 2 ^ 31 + 1 * 2 ^ 32) by lia.
  rewrite Z.mod_add by lia. rewrite Z.mod_small; lia.
Qed.

Lemma load_le_ext (n : nat) (m1 m2 : Region) (a : Z) :
  (forall k, a <= k < a + Z.of_nat n -> m1 k = m2 k) ->
  load_le n m1 a = load_le n m2 a.
Proof.
  revert a. induction n as [|n IH]; intros a H; [reflexivity|].
  cbn [load_le]. rewrite (H a) by lia. rewrite (IH (a + 1)); [reflexivity|].
  intros k Hk. apply H. lia.
Qed.

Lemma memcpy_inside (base src : Region) (dst n a : Z) :
  dst <= a < dst + n -> memcpy base dst src n a = src (a - dst).
Proof.
  intros H. unfold memcpy.
  destruct (dst <=? a) eqn:E1; destruct (a <? dst + n) eqn:E2; cbn; try reflexivity; lia.
Qed.

Lemma memcpy_outside (base src : Region) (dst n a : Z) :
  a < dst \/ dst + n <= a -> memcpy base dst src n a = base a.
Proof.
  intros H. unfold memcpy.
  destruct (dst <=? a) eqn:E1; destruct (a <? dst + n) eqn:E2; cbn; try reflexivity; lia.
Qed.

(** The header fields of an entry only depend on its first
    [sizeof_Entry] bytes. *)
Lemma entry_header_ext (e1 e2 : Entry.t) :
  (forall k, 0 <= k < sizeof_Entry -> e1 k = e2 k) ->
  Entry.length e1 = Entry.length e2
  /\ Entry.param_id e1 = Entry.param_id e2
  /\ Entry.time e1 = Entry.time e2.
Proof.
  intros H. unfold Entry.length, Entry.param_id, Entry.time, sizeof_Entry in *.
  repeat split; [| |f_equal]; apply load_le_ext; intros k Hk; apply H; lia.
Qed.

(** ** The bounding box *)

Lemma update_bounding_box_fields (p : PageHeader.t) (param ts : Z) :
  let b := PageHeader.bbox p in
  let b' := PageHeader.bbox (PageHeader.update_bounding_box p param ts) in
  max_id b' = Z.max (max_id b) param
  /\ min_id b' = Z.min (min_id b) param
  /\ max_timestamp b' = Z.max (max_timestamp b) ts
  /\ min_timestamp b' = Z.min (min_timestamp b) ts.
Proof.
  destruct p as [ty c lo si len oc cc pid [mx mn mxt mnt] ix m].
  unfold PageHeader.update_bounding_box, TimeStamp.gt, TimeStamp.lt. cbn.
  destruct (param >? mx) eqn:E1; cbn;
  destruct (param <? mn) eqn:E2; cbn;
  destruct (ts >? mxt) eqn:E3; cbn;
  destruct (ts <? mnt) eqn:E4; cbn; lia.
Qed.

Lemma inside_bbox_spec (p : PageHeader.t) (param ts : Z) :
  PageHeader.inside_bbox p param ts = true <->
  min_timestamp (PageHeader.bbox p) <= ts <= max_timestamp (PageHeader.bbox p)
  /\ min_id (PageHeader.bbox p) <= param <= max_id (PageHeader.bbox p).
Proof.
  unfold PageHeader.inside_bbox, TimeStamp.le, TimeStamp.ge.
  rewrite !andb_true_iff. rewrite !Z.leb_le, !Z.geb_le. lia.
Qed.

(** ** The append path *)

Lemma add_entry_bad_data (p : PageHeader.t) (e : Entry.t) :
  Entry.length e < sizeof_Entry ->
  PageHeader.add_entry p e = (AKU_WRITE_STATUS_BAD_DATA, p).
Proof.
  intros H. unfold PageHeader.add_entry.
  destruct (Entry.length e <? sizeof_Entry) eqn:E; [reflexivity|lia].
Qed.

(** What the space check of [add_entry] decides on a page whose free
    space fits an [int]. *)
Lemma space_check_exact (p : PageHeader.t) (need : Z) :
  0 <= PageHeader.last_offset p - PageHeader.end_of_index p < 2 ^ 31 ->
  (need >? u64 (PageHeader.get_free_space p)) =
  (need >? PageHeader.last_offset p - PageHeader.end_of_index p).
Proof.
  intros H. unfold PageHeader.get_free_space, PageHeader.end_of_index in *.
  cbn zeta. rewrite s32_small by lia. rewrite u64_small by lia. reflexivity.
Qed.

(** The space check never reports an overflow when the required bytes fit
    in the real free space, whatever the page size. *)
Lemma space_check_fits (p : PageHeader.t) (need : Z) :
  PageHeader.in_range p ->
  0 <= need < 2 ^ 33 ->
  need <= PageHeader.last_offset p - PageHeader.end_of_index p ->
  (need >? u64 (PageHeader.get_free_space p)) = false.
Proof.
  intros [Hc Hl] Hn Hfit.
  unfold PageHeader.get_free_space, PageHeader.end_of_index, sizeof_PageHeader,
    sizeof_EntryOffset in *. cbn zeta.
  set (free := PageHeader.last_offset p - (64 + 4 * PageHeader.count p)) in *.
  assert (Hfree : 0 <= free < 2 ^ 32) by (unfold free; lia).
  destruct (Z_lt_ge_dec free (2 ^ 31)) as [Hs|Hb].
  - rewrite s32_small by lia. rewrite u64_small by lia. lia.
  - rewrite s32_of_large by lia.
    pose proof (u64_of_negative (free - 2 ^ 32)). lia.
Qed.

Lemma entry_length_range (e : Entry.t) : 0 <= Entry.length e < 2 ^ 32.
Proof.
  unfold Entry.length. cbn [load_le]. unfold byte_val.
  pose proof (Byte.to_N_bounded (e 0)).
  pose proof (Byte.to_N_bounded (e (0 + 1))).
  pose proof (Byte.to_N_bounded (e (0 + 1 + 1))).
  pose proof (Byte.to_N_bounded (e (0 + 1 + 1 + 1))).
  lia.
Qed.

Lemma add_entry_fits (p : PageHeader.t) (e : Entry.t) :
  PageHeader.in_range p ->
  sizeof_Entry <= Entry.length e ->
  Entry.length e + sizeof_EntryOffset
    <= PageHeader.last_offset p - PageHeader.end_of_index p ->
  PageHeader.add_entry p e = (AKU_WRITE_STATUS_SUCCESS, PageHeader.appended p e).
Proof.
  intros Hr Hlen Hfit.
  pose proof (entry_length_range e) as Hl.
  pose proof Hr as [Hc Hlo].
  assert (Hchk : (Entry.length e + sizeof_EntryOffset
                    >? u64 (PageHeader.get_free_space p)) = false).
  { apply space_check_fits; [assumption| unfold sizeof_EntryOffset; lia | assumption]. }
  unfold PageHeader.add_entry. cbn zeta.
  destruct (Entry.length e <? sizeof_Entry) eqn:E; [lia|]. rewrite Hchk.
  unfold PageHeader.end_of_index, sizeof_PageHeader, sizeof_EntryOffset, sizeof_Entry in *.
  unfold PageHeader.appended. cbn.
  rewrite (u32_small (PageHeader.last_offset p - Entry.length e)) by lia.
  rewrite (u32_small (PageHeader.count p + 1)) by lia.
  reflexivity.
Qed.

Lemma appended_bbox (p : PageHeader.t) (e : Entry.t) :
  PageHeader.inside_bbox (PageHeader.appended p e) (Entry.param_id e) (Entry.time e) = true
  /\ (forall param ts, PageHeader.inside_bbox p param ts = true ->
        PageHeader.inside_bbox (PageHeader.appended p e) param ts = true).
Proof.
  unfold PageHeader.appended. cbn zeta.
  match goal with |- context [PageHeader.update_bounding_box ?q _ _] => set (q0 := q) end.
  pose proof (update_bounding_box_fields q0 (Entry.param_id e) (Entry.time e)) as Hb.
  cbn zeta in Hb. destruct Hb as (Hb1 & Hb2 & Hb3 & Hb4).
  split.
  - apply inside_bbox_spec. rewrite Hb1, Hb2, Hb3, Hb4. lia.
  - intros param ts Hin. apply inside_bbox_spec in Hin. apply inside_bbox_spec.
    rewrite Hb1, Hb2, Hb3, Hb4. subst q0. cbn. lia.
Qed.

(** C4. On a page whose counters are 32-bit values, an entry whose length
    is at least the header size and whose required bytes (length plus one
    index slot) fit in the free space is appended: [add_entry] returns
    SUCCESS, [last_offset] drops by the length, the bytes of the record
    stand at [last_offset, last_offset + length), the slot at the old
    [count] holds the new [last_offset], [count] grows by one and the
    bounding box is widened to hold the entry's (param_id, timestamp). *)
Theorem add_entry_success (p : PageHeader.t) (e : Entry.t) :
  PageHeader.in_range p ->
  sizeof_Entry <= Entry.length e ->
  Entry.length e + sizeof_EntryOffset
    <= PageHeader.last_offset p - PageHeader.end_of_index p ->
  let p' := snd (PageHeader.add_entry p e) in
  fst (PageHeader.add_entry p e) = AKU_WRITE_STATUS_SUCCESS
  /\ PageHeader.last_offset p' = PageHeader.last_offset p - Entry.length e
  /\ (forall k, 0 <= k < Entry.length e ->
        PageHeader.cdata p' (PageHeader.last_offset p' + k) = e k)
  /\ PageHeader.page_index p' (PageHeader.count p) = PageHeader.last_offset p'
  /\ PageHeader.count p' = PageHeader.count p + 1
  /\ PageHeader.inside_bbox p' (Entry.param_id e) (Entry.time e) = true
  /\ (forall param ts, PageHeader.inside_bbox p param ts = true ->
        PageHeader.inside_bbox p' param ts = true).
Proof.
  intros Hr Hlen Hfit p'. subst p'.
  rewrite (add_entry_fits p e Hr Hlen Hfit). cbn [fst snd].
  pose proof (appended_bbox p e) as [Hin Hmono].
  split; [reflexivity|].
  split; [reflexivity|].
  split.
  { intros k Hk. unfold PageHeader.appended. cbn.
    rewrite memcpy_inside by lia. f_equal. lia. }
  split.
  { unfold PageHeader.appended. cbn. unfold PageHeader.store_index.
    rewrite Z.eqb_refl. reflexivity. }
  split; [reflexivity|].
  split; assumption.
Qed.

(** C5, as the code has it.  On a page whose free space is a non-negative
    [int]: an entry shorter than the header is refused with BAD_DATA,
    whether or not it would fit; an entry at least as long as the header
    whose required bytes exceed the free space is refused with OVERFLOW;
    both refusals return the page as it was. *)
Theorem add_entry_refusals (p : PageHeader.t) (e : Entry.t) :
  0 <= PageHeader.last_offset p - PageHeader.end_of_index p < 2 ^ 31 ->
  (Entry.length e < sizeof_Entry ->
     PageHeader.add_entry p e = (AKU_WRITE_STATUS_BAD_DATA, p))
  /\ (sizeof_Entry <= Entry.length e ->
      Entry.length e + sizeof_EntryOffset
        > PageHeader.last_offset p - PageHeader.end_of_index p ->
      PageHeader.add_entry p e = (AKU_WRITE_STATUS_OVERFLOW, p)).
Proof.
  intros Hfree. split.
  - apply add_entry_bad_data.
  - intros Hlen Hover. unfold PageHeader.add_entry. cbn zeta.
    destruct (Entry.length e <? sizeof_Entry) eqn:E; [lia|].
    rewrite space_check_exact by assumption.
    destruct (Entry.length e + sizeof_EntryOffset
                >? PageHeader.last_offset p - PageHeader.end_of_index p) eqn:E2;
      [reflexivity|lia].
Qed.

(** A call that returned SUCCESS on a page with sound space accounting
    passed both checks. *)
Lemma passed_checks_of_success (p : PageHeader.t) (e : Entry.t) :
  0 <= PageHeader.last_offset p - PageHeader.end_of_index p < 2 ^ 31 ->
  fst (PageHeader.add_entry p e) = AKU_WRITE_STATUS_SUCCESS ->
  sizeof_Entry <= Entry.length e
  /\ Entry.length e + sizeof_EntryOffset
       <= PageHeader.last_offset p - PageHeader.end_of_index p.
Proof.
  intros Hfree. unfold PageHeader.add_entry. cbn zeta.
  destruct (Entry.length e <? sizeof_Entry) eqn:E; [discriminate|].
  rewrite space_check_exact by assumption.
  destruct (Entry.length e + sizeof_EntryOffset
              >? PageHeader.last_offset p - PageHeader.end_of_index p) eqn:E2;
    [discriminate|]. lia.
Qed.

Lemma holds_fresh (p : PageHeader.t) :
  PageHeader.is_fresh p ->
  sizeof_PageHeader < PageHeader.length p <= 2 ^ 31 ->
  PageHeader.holds p [].
Proof.
  intros (Hc & Hb & Hlo) Hlen. unfold sizeof_PageHeader in Hlen.
  rewrite u32_small in Hlo by lia.
  unfold PageHeader.holds, PageHeader.in_range, PageHeader.end_of_index,
    sizeof_PageHeader, sizeof_EntryOffset.
  rewrite Hc, Hlo. repeat split; try lia.
  all: intros; discriminate.
Qed.

Lemma holds_appended (p : PageHeader.t) (es : list Entry.t) (e : Entry.t) :
  PageHeader.holds p es ->
  sizeof_Entry <= Entry.length e ->
  Entry.length e + sizeof_EntryOffset
    <= PageHeader.last_offset p - PageHeader.end_of_index p ->
  PageHeader.holds (PageHeader.appended p e) (es ++ [e]).
Proof.
  intros (Hr & Hacc & Hcnt & Hslots) Hlen Hfit.
  pose proof (entry_length_range e) as Hl.
  pose proof (appended_bbox p e) as [Hin Hmono].
  pose proof Hr as [Hc Hlo].
  unfold PageHeader.end_of_index, sizeof_PageHeader, sizeof_EntryOffset,
    sizeof_Entry in *.
  assert (Hcount : PageHeader.count (PageHeader.appended p e) = PageHeader.count p + 1)
    by reflexivity.
  assert (Hlast : PageHeader.last_offset (PageHeader.appended p e)
                  = PageHeader.last_offset p - Entry.length e) by reflexivity.
  unfold PageHeader.holds, PageHeader.in_range, PageHeader.end_of_index,
    sizeof_PageHeader, sizeof_EntryOffset.
  rewrite Hcount, Hlast.
  split; [lia|]. split; [lia|].
  split; [rewrite length_app; cbn; lia|].
  intros i e' Hi.
  assert (Hix : PageHeader.page_index (PageHeader.appended p e) (Z.of_nat i)
                = if Z.of_nat i =? PageHeader.count p
                  then PageHeader.last_offset p - Entry.length e
                  else PageHeader.page_index p (Z.of_nat i)) by reflexivity.
  assert (Hmem : forall a, PageHeader.cdata (PageHeader.appended p e) a
                 = memcpy (PageHeader.cdata p)
                     (PageHeader.last_offset p - Entry.length e) e
                     (Entry.length e) a) by reflexivity.
  unfold PageHeader.entry_at, PageHeader.read_entry. rewrite Hix.
  destruct (Z.of_nat i =? PageHeader.count p) eqn:E.
  - (* the new slot *)
    apply Z.eqb_eq in E.
    assert (i = Datatypes.length es) by lia. subst i.
    rewrite lookup_app_r in Hi by lia.
    rewrite Nat.sub_diag in Hi. cbn in Hi. injection Hi as <-.
    destruct (entry_header_ext
                (at_offset (PageHeader.cdata (PageHeader.appended p e))
                   (PageHeader.last_offset p - Entry.length e)) e)
      as (H1 & H2 & H3).
    { intros k Hk. unfold at_offset, sizeof_Entry in *. rewrite Hmem.
      rewrite memcpy_inside by lia. f_equal. lia. }
    repeat split; try assumption; lia.
  - (* an older slot *)
    apply Z.eqb_neq in E.
    assert (Hlt : (i < Datatypes.length es)%nat).
    { apply lookup_lt_Some in Hi. rewrite length_app in Hi. cbn in Hi. lia. }
    rewrite lookup_app_l in Hi by assumption.
    destruct (Hslots i e' Hi) as (Ha & Hb & Hc' & Hd & He).
    destruct (entry_header_ext
                (at_offset (PageHeader.cdata (PageHeader.appended p e))
                   (PageHeader.page_index p (Z.of_nat i)))
                (PageHeader.entry_at p (Z.of_nat i)))
      as (H1 & H2 & H3).
    { intros k Hk. unfold PageHeader.entry_at, PageHeader.read_entry, at_offset,
        sizeof_Entry in *.
      rewrite Hmem. rewrite memcpy_outside by lia. reflexivity. }
    rewrite H1, H2, H3.
    repeat split; try assumption; try lia. apply Hmono. assumption.
Qed.

Lemma holds_add_entries (es : list Entry.t) :
  forall (p p' : PageHeader.t) (es0 : list Entry.t),
  PageHeader.holds p es0 ->
  PageHeader.add_entries p es = Some p' ->
  PageHeader.holds p' (es0 ++ es).
Proof.
  induction es as [|e es IH]; intros p p' es0 Hh Hrun.
  - cbn in Hrun. injection Hrun as <-. rewrite app_nil_r. exact Hh.
  - cbn [PageHeader.add_entries] in Hrun.
    destruct (PageHeader.add_entry p e) as [st q] eqn:Hadd.
    destruct st; try discriminate.
    destruct Hh as (Hr & Hacc & Hrest).
    assert (Hfree : 0 <= PageHeader.last_offset p - PageHeader.end_of_index p < 2 ^ 31).
    { destruct Hr as [Hc _]. unfold PageHeader.end_of_index, sizeof_PageHeader,
        sizeof_EntryOffset in *. lia. }
    destruct (passed_checks_of_success p e Hfree) as [Hlen Hfit].
    { rewrite Hadd. reflexivity. }
    rewrite (add_entry_fits p e Hr Hlen Hfit) in Hadd. injection Hadd as <-.
    replace (es0 ++ e :: es) with ((es0 ++ [e]) ++ es)
      by (rewrite <- app_assoc; reflexivity).
    apply (IH (PageHeader.appended p e) p'); [|exact Hrun].
    apply holds_appended; [exact (conj Hr (conj Hacc Hrest))|assumption|assumption].
Qed.

(** Runs of the [add_entry] overload for an Entry.  Take a fresh page (as
    its constructor or [reuse] leaves it) of a size that [int] space
    accounting covers, and any run of [add_entry] calls for entries on it
    that all return SUCCESS, with any 32-bit param_id and any timestamp,
    negative ones included.  Then the page counts one slot per entry,
    slot [i] reads back the param_id and timestamp of the i-th entry, and
    each stored (param_id, timestamp) lies inside the bounding box.  The
    overload for an Entry2 is not part of such a run. *)
Theorem bbox_contains_stored_entries
    (p0 p : PageHeader.t) (es : list Entry.t) :
  PageHeader.is_fresh p0 ->
  sizeof_PageHeader < PageHeader.length p0 <= 2 ^ 31 ->
  PageHeader.add_entries p0 es = Some p ->
  PageHeader.count p = Z.of_nat (Datatypes.length es)
  /\ forall (i : nat) (e : Entry.t), es !! i = Some e ->
       let stored := PageHeader.entry_at p (Z.of_nat i) in
       Entry.param_id stored = Entry.param_id e
       /\ Entry.time stored = Entry.time e
       /\ min_timestamp (PageHeader.bbox p) <= Entry.time stored
            <= max_timestamp (PageHeader.bbox p)
       /\ min_id (PageHeader.bbox p) <= Entry.param_id stored
            <= max_id (PageHeader.bbox p).
Proof.
  intros Hfresh Hlen Hrun.
  pose proof (holds_add_entries es p0 p [] (holds_fresh p0 Hfresh Hlen) Hrun)
    as (_ & _ & Hcnt & Hslots).
  cbn [app] in *. split; [exact Hcnt|].
  intros i e Hi.
  destruct (Hslots i e Hi) as (_ & _ & Hp & Ht & Hin).
  apply inside_bbox_spec in Hin. rewrite Hp, Ht. repeat split; lia.
Qed.

Lemma add_entry_refused (p : PageHeader.t) (e : Entry.t) :
  fst (PageHeader.add_entry p e) <> AKU_WRITE_STATUS_SUCCESS ->
  snd (PageHeader.add_entry p e) = p.
Proof.
  unfold PageHeader.add_entry. cbn zeta.
  destruct (_ <? _); [reflexivity|]. destruct (_ >? _); [reflexivity|].
  cbn. intros H. contradiction H. reflexivity.
Qed.

Lemma holds_add_each (es : list Entry.t) :
  forall (p : PageHeader.t) (es0 : list Entry.t),
  PageHeader.holds p es0 ->
  exists es1, PageHeader.holds (PageHeader.add_each p es) es1.
Proof.
  induction es as [|e es IH]; intros p es0 Hh; [exists es0; exact Hh|].
  unfold PageHeader.add_each. cbn [fold_left].
  fold (PageHeader.add_each (snd (PageHeader.add_entry p e)) es).
  destruct (PageHeader.add_entry p e) as [st q] eqn:Hadd.
  assert (Hst : st = AKU_WRITE_STATUS_SUCCESS \/ st <> AKU_WRITE_STATUS_SUCCESS)
    by (destruct st; [left; reflexivity|right; discriminate ..]).
  destruct Hst as [->|Hne].
  - pose proof Hh as (Hr & Hacc & Hrest).
    assert (Hfree : 0 <= PageHeader.last_offset p - PageHeader.end_of_index p
                    < 2 ^ 31).
    { destruct Hr as [Hc _]. unfold PageHeader.end_of_index, sizeof_PageHeader,
        sizeof_EntryOffset in *. lia. }
    destruct (passed_checks_of_success p e Hfree) as [Hlen Hfit].
    { rewrite Hadd. reflexivity. }
    rewrite (add_entry_fits p e Hr Hlen Hfit) in Hadd. injection Hadd as <-.
    apply (IH _ (es0 ++ [e])). apply holds_appended; assumption.
  - pose proof (add_entry_refused p e) as Hsame. rewrite Hadd in Hsame.
    cbn [fst snd] in *. rewrite (Hsame Hne). apply (IH p es0). exact Hh.
Qed.

(** The bounding box after any run of appends.  Take a fresh page of a size
    that [int] space accounting covers and call [add_entry] for any entries
    in turn, whatever each call returns (SUCCESS, OVERFLOW or BAD_DATA).
    Every entry the index then designates lies inside the bounding box. *)
Theorem bbox_contains_after_any_run
    (p0 : PageHeader.t) (es : list Entry.t) (i : Z) :
  PageHeader.is_fresh p0 ->
  sizeof_PageHeader < PageHeader.length p0 <= 2 ^ 31 ->
  0 <= i < PageHeader.count (PageHeader.add_each p0 es) ->
  let p := PageHeader.add_each p0 es in
  PageHeader.inside_bbox p (Entry.param_id (PageHeader.entry_at p i))
    (Entry.time (PageHeader.entry_at p i)) = true.
Proof.
  intros Hfresh Hlen Hi p. subst p.
  destruct (holds_add_each es p0 [] (holds_fresh p0 Hfresh Hlen))
    as (es1 & _ & _ & Hcnt & Hslots).
  destruct (es1 !! Z.to_nat i) as [e|] eqn:He.
  - destruct (Hslots _ e He) as (_ & _ & Hp & Ht & Hin).
    rewrite Z2Nat.id in Hp, Ht by lia. rewrite Hp, Ht. exact Hin.
  - apply lookup_ge_None in He. lia.
Qed.

(** A page given one sample before the epoch, one entry that is too
    short, and one more sample; the slot read is the second. *)
Lemma bbox_contains_after_any_run_witness :
  let p := PageHeader.add_each (Examples.blank 256)
             [Examples.sample 3 (-5); Examples.short_entry; Examples.sample 2 7] in
  PageHeader.inside_bbox p (Entry.param_id (PageHeader.entry_at p 1))
    (Entry.time (PageHeader.entry_at p 1)) = true.
Proof.
  apply (bbox_contains_after_any_run (Examples.blank 256)
           [Examples.sample 3 (-5); Examples.short_entry; Examples.sample 2 7] 1).
  - vm_compute. repeat split; reflexivity.
  - vm_compute. split; [reflexivity|discriminate].
  - vm_compute. split; [discriminate|reflexivity].
Defined.

(** ** Runs of [search] *)

Section Ensures.
Import PageHeader.
Context {A B : Type} (P : Event -> Prop) (fuelled : bool).

Lemma ensures_ret (Q : A -> Prop) (a : A) : Q a -> ensures P fuelled Q (mret a).
Proof. intros H. split; [constructor|exact H]. Qed.

Lemma ensures_bind (Q : A -> Prop) (R : B -> Prop) (m : M A) (f : A -> M B) :
  ensures P fuelled Q m ->
  (forall a, Q a -> ensures P fuelled R (f a)) ->
  ensures P fuelled R (m ≫= f).
Proof.
  intros [Hev Hout] Hf. destruct m as [evs o]. unfold mbind, M_bind.
  cbn [events outcome fst snd] in *.
  destruct o as [a| |].
  - destruct (Hf a Hout) as [Hev' Hout'].
    split; [cbn; apply Forall_app; split; assumption | exact Hout'].
  - split; [exact Hev | exact I].
  - split; [exact Hev | exact Hout].
Qed.

Lemma ensures_weaken (Q Q' : A -> Prop) (m : M A) :
  ensures P fuelled Q m -> (forall a, Q a -> Q' a) -> ensures P fuelled Q' m.
Proof.
  intros [Hev Hout] Himp. split; [exact Hev|].
  destruct (outcome m); auto.
Qed.

Lemma ensures_crash (Q : A -> Prop) (c : Trap) : ensures P fuelled Q (crash c).
Proof. split; [constructor|exact I]. Qed.

End Ensures.

Section EnsuresSteps.
Import PageHeader.
Context (P : Event -> Prop) (fuelled : bool).

Lemma ensures_index_at (p : t) (i : Z) (Q : EntryOffset -> Prop) :
  P (ReadIndex i) -> Q (page_index p i) -> ensures P fuelled Q (index_at p i).
Proof. intros HP HQ. split; [repeat constructor; exact HP|exact HQ]. Qed.

Lemma ensures_put (o : EntryOffset) (Q : unit -> Prop) :
  P (Put o) -> Q tt -> ensures P fuelled Q (put o).
Proof. intros HP HQ. split; [repeat constructor; exact HP|exact HQ]. Qed.

Lemma ensures_complete (Q : unit -> Prop) :
  P Complete -> Q tt -> ensures P fuelled Q complete.
Proof. intros HP HQ. split; [repeat constructor; exact HP|exact HQ]. Qed.

Lemma ensures_set_error (c : Status) (Q : unit -> Prop) :
  P (SetError c) -> Q tt -> ensures P fuelled Q (set_error c).
Proof. intros HP HQ. split; [repeat constructor; exact HP|exact HQ]. Qed.

Lemma ensures_div_s64 (a b : Z) : ensures P fuelled (fun _ => True) (div_s64 a b).
Proof.
  unfold div_s64. destruct (b =? 0); [apply ensures_crash|].
  destruct ((a =? INT64_MIN) && (b =? -1)); [apply ensures_crash|].
  apply ensures_ret. exact I.
Qed.

End EnsuresSteps.

Section WithinCount.
Import PageHeader.
Context (p : t) (fuelled : bool).
Hypothesis Hcount : 1 <= count p < 2 ^ 32.

Let P := within_count p.

Lemma interpolate_within (key : Z) (quota : nat) :
  forall st : Narrow,
  0 <= begin_ st <= end_ st /\ end_ st < count p ->
  ensures P fuelled
    (fun st' => 0 <= begin_ st' <= end_ st' /\ end_ st' < count p)
    (interpolate quota p key st).
Proof.
  induction quota as [|quota IH]; intros [b e pi slb sub] Hst; cbn in Hst.
  - apply ensures_ret. cbn. exact Hst.
  - cbn [interpolate].
    destruct (u32 (e - b) <? AKU_INTERPOLATION_SEARCH_CUTOFF);
      [apply ensures_ret; cbn; exact Hst|].
    eapply ensures_bind; [apply ensures_div_s64|]. intros q _. cbn zeta.
    pose proof (u32_range q) as Hq.
    destruct ((u32 q >? b) && (u32 q <? e)) eqn:Hin;
      [|apply ensures_ret; cbn; exact Hst].
    apply andb_true_iff in Hin. destruct Hin as [Hgt Hlt].
    apply Z.gtb_lt in Hgt. apply Z.ltb_lt in Hlt.
    eapply ensures_bind;
      [apply (ensures_index_at P fuelled p (u32 q) (fun _ => True));
       [cbn; lia|exact I]|].
    intros off _.
    destruct (Entry.time (read_entry p off) <? key).
    + eapply ensures_bind;
        [apply (ensures_index_at P fuelled p _ (fun _ => True));
         [cbn; rewrite u32_small by lia; lia|exact I]|].
      intros off' _. apply IH. cbn. rewrite u32_small by lia. lia.
    + eapply ensures_bind;
        [apply (ensures_index_at P fuelled p _ (fun _ => True));
         [cbn; rewrite u32_small by lia; lia|exact I]|].
      intros off' _. apply IH. cbn. rewrite u32_small by lia. lia.
Qed.

Lemma binary_search_within (key : Z) (fuel : nat) :
  forall begin end_ pi : Z,
  0 <= begin < count p -> 0 <= end_ < count p ->
  begin <= end_ \/ 0 <= pi < count p ->
  (fuelled = true -> 0 < Z.of_nat fuel /\ end_ - begin + 1 < Z.of_nat fuel) ->
  ensures P fuelled (fun i => 0 <= i < count p)
    (binary_search fuel p key begin end_ pi).
Proof.
  induction fuel as [|fuel IH]; intros b e pi Hb He Hpi Hfuel.
  - split; [constructor|]. cbn. destruct fuelled; [|reflexivity].
    specialize (Hfuel eq_refl). lia.
  - cbn [binary_search].
    destruct (e >=? b) eqn:Hge.
    2: { apply ensures_ret. rewrite Z.geb_leb in Hge. apply Z.leb_gt in Hge. lia. }
    apply Z.geb_le in Hge.
    assert (Hd : u32 (e - b) = e - b) by (apply u32_small; lia).
    rewrite Hd.
    assert (Hdiv : 0 <= (e - b) / 2 <= e - b).
    { split; [apply Z.div_pos; lia|]. apply Z.div_le_upper_bound; lia. }
    assert (Hm : u32 (b + (e - b) / 2) = b + (e - b) / 2) by (apply u32_small; lia).
    rewrite Hm. set (mid := b + (e - b) / 2) in *.
    eapply ensures_bind;
      [apply (ensures_index_at P fuelled p mid (fun _ => True));
       [cbn; lia|exact I]|].
    intros off _. cbn zeta.
    destruct (Entry.time (read_entry p off) =? key);
      [apply ensures_ret; lia|].
    destruct (Entry.time (read_entry p off) <? key).
    + rewrite (u32_small (mid + 1)) by lia.
      destruct (mid + 1 =? count p) eqn:Hc; [apply ensures_ret; lia|].
      apply Z.eqb_neq in Hc.
      apply IH; try lia.
      intros Hf. specialize (Hfuel Hf). lia.
    + destruct (Z.eq_dec mid 0) as [Hz|Hnz].
      * rewrite Hz. cbn [Z.sub Z.add Z.opp Z.pos_sub].
        rewrite Z.eqb_refl. apply ensures_ret. lia.
      * rewrite (u32_small (mid - 1)) by lia.
        replace (u32 (-1)) with (2 ^ 32 - 1) by reflexivity.
        destruct (mid - 1 =? 2 ^ 32 - 1) eqn:Hc; [apply ensures_ret; lia|].
        apply IH; try lia.
        intros Hf. specialize (Hfuel Hf). lia.
Qed.

Lemma put_if_within (c : bool) (i : Z) :
  0 <= i < count p ->
  ensures P fuelled (fun _ => True)
    (if c then put (page_index p i) else mret tt).
Proof.
  intros Hi. destruct c; [|apply ensures_ret; exact I].
  apply ensures_put; [|exact I]. cbn. exists i. split; [exact Hi|reflexivity].
Qed.

Lemma scan_forward_within (query : SingleParameterSearchQuery) (fuel : nat) :
  forall pi : Z,
  0 <= pi <= count p - 1 ->
  (fuelled = true -> count p - 1 - pi < Z.of_nat fuel) ->
  ensures P fuelled (fun _ => True)
    (scan_forward fuel p query (count p - 1) pi).
Proof.
  induction fuel as [|fuel IH]; intros pi Hpi Hfuel.
  - split; [constructor|]. cbn. destruct fuelled; [|reflexivity].
    specialize (Hfuel eq_refl). lia.
  - cbn [scan_forward].
    eapply ensures_bind;
      [apply (ensures_index_at P fuelled p pi (fun o => o = page_index p pi));
       [cbn; lia|reflexivity]|].
    intros off ->. cbn zeta.
    eapply ensures_bind; [apply put_if_within; lia|]. intros _ _.
    destruct (pi =? count p - 1) eqn:Hlast.
    + rewrite orb_true_r. apply ensures_complete; exact I.
    + apply Z.eqb_neq in Hlast. rewrite orb_false_r.
      destruct (TimeStamp.gt _ _); [apply ensures_complete; exact I|].
      rewrite (u32_small (pi + 1)) by lia. apply IH; [lia|].
      intros Hf. specialize (Hfuel Hf). lia.
Qed.

Lemma scan_backward_within (query : SingleParameterSearchQuery) (fuel : nat) :
  forall pi : Z,
  0 <= pi < count p ->
  (fuelled = true -> pi < Z.of_nat fuel) ->
  ensures P fuelled (fun _ => True) (scan_backward fuel p query pi).
Proof.
  induction fuel as [|fuel IH]; intros pi Hpi Hfuel.
  - split; [constructor|]. cbn. destruct fuelled; [|reflexivity].
    specialize (Hfuel eq_refl). lia.
  - cbn [scan_backward].
    eapply ensures_bind;
      [apply (ensures_index_at P fuelled p pi (fun o => o = page_index p pi));
       [cbn; lia|reflexivity]|].
    intros off ->. cbn zeta.
    eapply ensures_bind; [apply put_if_within; lia|]. intros _ _.
    destruct (pi =? 0) eqn:Hfirst.
    + rewrite orb_true_r. apply ensures_complete; exact I.
    + apply Z.eqb_neq in Hfirst. rewrite orb_false_r.
      destruct (TimeStamp.lt _ _); [apply ensures_complete; exact I|].
      rewrite (u32_small (pi - 1)) by lia. apply IH; [lia|].
      intros Hf. specialize (Hfuel Hf). lia.
Qed.

Lemma search_within (query : SingleParameterSearchQuery) (fuel : nat) :
  (fuelled = true -> count p < Z.of_nat fuel) ->
  ensures P fuelled (fun _ => True) (search fuel p query).
Proof.
  intros Hfuel. unfold search.
  destruct (negb (validate_query query));
    [apply ensures_set_error; exact I|].
  cbn zeta. unfold locate. rewrite (u32_small (count p - 1)) by lia.
  eapply (ensures_bind P fuelled
            (fun pos => match pos with
                        | Some i => 0 <= i < count p
                        | None => True
                        end)).
  - set (key := if direction query =? AKU_CURSOR_DIR_BACKWARD
                then upperbound query else lowerbound query).
    cbn zeta.
    destruct ((key <=? max_timestamp (bbox p)) && (key >=? min_timestamp (bbox p))).
    + eapply ensures_bind; [apply interpolate_within; cbn; lia|].
      intros st Hst. cbn beta in Hst.
      eapply ensures_bind;
        [apply binary_search_within;
         [lia|lia|lia|intros Hf; specialize (Hfuel Hf); lia]|].
      intros i Hi. apply ensures_ret. exact Hi.
    + destruct (key >? max_timestamp (bbox p)).
      * destruct (direction query =? AKU_CURSOR_DIR_BACKWARD).
        -- apply ensures_ret. lia.
        -- eapply ensures_bind;
             [apply (ensures_complete P fuelled (fun _ => True)); exact I|].
           intros _ _. apply ensures_ret. exact I.
      * destruct (key <? min_timestamp (bbox p)).
        -- destruct (negb (direction query =? AKU_CURSOR_DIR_BACKWARD)).
           ++ apply ensures_ret. lia.
           ++ eapply ensures_bind;
             [apply (ensures_complete P fuelled (fun _ => True)); exact I|].
              intros _ _. apply ensures_ret. exact I.
        -- eapply ensures_bind;
             [apply binary_search_within;
              [lia|lia|lia|intros Hf; specialize (Hfuel Hf); lia]|].
           intros i Hi. apply ensures_ret. exact Hi.
  - intros [i|] Hi; [|apply ensures_ret; exact I].
    destruct (direction query =? AKU_CURSOR_DIR_BACKWARD).
    + apply scan_backward_within; [lia|].
      intros Hf. specialize (Hfuel Hf). lia.
    + apply scan_forward_within; [lia|].
      intros Hf. specialize (Hfuel Hf). lia.
Qed.

End WithinCount.

Section PutsMatching.
Import PageHeader.
Context (p : t) (query : SingleParameterSearchQuery).

Let P := puts_matching p query.

Lemma interpolate_puts_nothing (key : Z) (quota : nat) :
  forall st : Narrow,
  ensures P false (fun _ => True) (interpolate quota p key st).
Proof.
  induction quota as [|quota IH]; intros [b e pi slb sub].
  - apply ensures_ret. exact I.
  - cbn [interpolate].
    destruct (u32 (e - b) <? AKU_INTERPOLATION_SEARCH_CUTOFF);
      [apply ensures_ret; exact I|].
    eapply ensures_bind; [apply ensures_div_s64|]. intros q _. cbn zeta.
    destruct ((u32 q >? b) && (u32 q <? e)); [|apply ensures_ret; exact I].
    eapply ensures_bind;
      [apply (ensures_index_at P false p _ (fun _ => True)); exact I|].
    intros off _.
    destruct (Entry.time (read_entry p off) <? key).
    + eapply ensures_bind;
        [apply (ensures_index_at P false p _ (fun _ => True)); exact I|].
      intros off' _. apply IH.
    + eapply ensures_bind;
        [apply (ensures_index_at P false p _ (fun _ => True)); exact I|].
      intros off' _. apply IH.
Qed.

Lemma binary_search_puts_nothing (key : Z) (fuel : nat) :
  forall begin end_ pi : Z,
  ensures P false (fun _ => True) (binary_search fuel p key begin end_ pi).
Proof.
  induction fuel as [|fuel IH]; intros b e pi.
  - split; [constructor|reflexivity].
  - cbn [binary_search].
    destruct (e >=? b); [|apply ensures_ret; exact I].
    eapply ensures_bind;
      [apply (ensures_index_at P false p _ (fun _ => True)); exact I|].
    intros off _. cbn zeta.
    destruct (Entry.time (read_entry p off) =? key); [apply ensures_ret; exact I|].
    destruct (Entry.time (read_entry p off) <? key).
    + destruct (_ =? count p); [apply ensures_ret; exact I|apply IH].
    + destruct (_ =? u32 (-1)); [apply ensures_ret; exact I|apply IH].
Qed.

Lemma put_if_matching (o : EntryOffset) :
  ensures P false (fun _ => True)
    (if (Entry.param_id (read_entry p o) =? param query)
        && (TimeStamp.le (lowerbound query) (Entry.time (read_entry p o))
            && TimeStamp.ge (upperbound query) (Entry.time (read_entry p o)))
     then put o else mret tt).
Proof.
  destruct (_ && _) eqn:E; [|apply ensures_ret; exact I].
  apply ensures_put; [|exact I]. cbn. unfold matches.
  unfold TimeStamp.le, TimeStamp.ge in E.
  apply andb_true_iff in E. destruct E as [E1 E2].
  apply andb_true_iff in E2. destruct E2 as [E2 E3].
  apply Z.eqb_eq in E1. apply Z.leb_le in E2. apply Z.geb_le in E3. lia.
Qed.

Lemma scan_forward_puts_matching (fuel : nat) :
  forall max_index pi : Z,
  ensures P false (fun _ => True) (scan_forward fuel p query max_index pi).
Proof.
  induction fuel as [|fuel IH]; intros mx pi.
  - split; [constructor|reflexivity].
  - cbn [scan_forward].
    eapply ensures_bind;
      [apply (ensures_index_at P false p _ (fun _ => True)); exact I|].
    intros off _. cbn zeta.
    eapply ensures_bind; [apply put_if_matching|]. intros _ _.
    destruct (_ || _); [apply ensures_complete; exact I|apply IH].
Qed.

Lemma scan_backward_puts_matching (fuel : nat) :
  forall pi : Z,
  ensures P false (fun _ => True) (scan_backward fuel p query pi).
Proof.
  induction fuel as [|fuel IH]; intros pi.
  - split; [constructor|reflexivity].
  - cbn [scan_backward].
    eapply ensures_bind;
      [apply (ensures_index_at P false p _ (fun _ => True)); exact I|].
    intros off _. cbn zeta.
    eapply ensures_bind; [apply put_if_matching|]. intros _ _.
    destruct (_ || _); [apply ensures_complete; exact I|apply IH].
Qed.

Lemma search_puts_matching (fuel : nat) :
  ensures P false (fun _ => True) (search fuel p query).
Proof.
  unfold search.
  destruct (negb (validate_query query));
    [apply ensures_set_error; exact I|].
  cbn zeta. unfold locate. cbn zeta.
  eapply (ensures_bind P false (fun _ => True)).
  - match goal with |- context [if ?c then upperbound query else _] =>
      set (key := if c then upperbound query else lowerbound query) end.
    destruct ((key <=? _) && _).
    + eapply ensures_bind; [apply interpolate_puts_nothing|]. intros st _.
      eapply ensures_bind; [apply binary_search_puts_nothing|]. intros i _.
      apply ensures_ret. exact I.
    + destruct (key >? _).
      * destruct (direction query =? _); [apply ensures_ret; exact I|].
        eapply ensures_bind;
          [apply (ensures_complete P false (fun _ => True)); exact I|].
        intros _ _. apply ensures_ret. exact I.
      * destruct (key <? _).
        -- destruct (negb _); [apply ensures_ret; exact I|].
           eapply ensures_bind;
             [apply (ensures_complete P false (fun _ => True)); exact I|].
           intros _ _. apply ensures_ret. exact I.
        -- eapply ensures_bind; [apply binary_search_puts_nothing|]. intros i _.
           apply ensures_ret. exact I.
  - intros [i|] _; [|apply ensures_ret; exact I].
    destruct (direction query =? _).
    + apply scan_backward_puts_matching.
    + apply scan_forward_puts_matching.
Qed.

End PutsMatching.

(** Every offset [search] puts on the cursor designates an entry whose
    param_id is the query's and whose timestamp lies between its bounds;
    this holds for every page, every query and every amount of fuel. *)
Theorem search_emits_only_matching
    (p : PageHeader.t) (query : SingleParameterSearchQuery) (fuel : nat)
    (o : EntryOffset) :
  In (PageHeader.Put o) (PageHeader.events (PageHeader.search fuel p query)) ->
  Entry.param_id (PageHeader.read_entry p o) = param query
  /\ lowerbound query <= Entry.time (PageHeader.read_entry p o)
       <= upperbound query.
Proof.
  intros Hin.
  destruct (search_puts_matching p query fuel) as [Hall _].
  rewrite Forall_forall in Hall.
  apply (Hall (PageHeader.Put o)). apply list_elem_of_In. exact Hin.
Qed.

(** C2, as the code has it.  On a page that holds at least one entry,
    [search] given more fuel than [count] runs to its end, every slot of
    [page_index] it reads has an index in [0, count), and every offset it
    puts on the cursor is the content of such a slot.  The bound is
    [count], not [sync_index]. *)
Theorem search_traverses_live_index
    (p : PageHeader.t) (query : SingleParameterSearchQuery) (fuel : nat) :
  1 <= PageHeader.count p < 2 ^ 32 ->
  PageHeader.count p < Z.of_nat fuel ->
  PageHeader.outcome (PageHeader.search fuel p query) <> PageHeader.NoFuel
  /\ (forall i,
        In (PageHeader.ReadIndex i)
           (PageHeader.events (PageHeader.search fuel p query)) ->
        0 <= i < PageHeader.count p)
  /\ (forall o,
        In (PageHeader.Put o)
           (PageHeader.events (PageHeader.search fuel p query)) ->
        exists i, 0 <= i < PageHeader.count p /\ PageHeader.page_index p i = o).
Proof.
  intros Hcount Hfuel.
  destruct (search_within p true Hcount query fuel (fun _ => Hfuel))
    as [Hall Hout].
  rewrite Forall_forall in Hall.
  split.
  - destruct (PageHeader.outcome _); [discriminate|discriminate|discriminate].
  - split.
    + intros i Hin. apply (Hall (PageHeader.ReadIndex i)).
      apply list_elem_of_In. exact Hin.
    + intros o Hin. apply (Hall (PageHeader.Put o)).
      apply list_elem_of_In. exact Hin.
Qed.

(** The first event of a scan is the read of the slot it starts at. *)
Lemma scan_backward_first_read
    (fuel : nat) (p : PageHeader.t) (query : SingleParameterSearchQuery) (i : Z) :
  exists rest,
    PageHeader.events (PageHeader.scan_backward (S fuel) p query i)
    = PageHeader.ReadIndex i :: rest.
Proof.
  cbn [PageHeader.scan_backward]. unfold mbind, PageHeader.M_bind at 1.
  cbn [PageHeader.index_at PageHeader.events fst snd app]. eexists. reflexivity.
Qed.

Lemma scan_forward_first_read
    (fuel : nat) (p : PageHeader.t) (query : SingleParameterSearchQuery)
    (max_index i : Z) :
  exists rest,
    PageHeader.events (PageHeader.scan_forward (S fuel) p query max_index i)
    = PageHeader.ReadIndex i :: rest.
Proof.
  cbn [PageHeader.scan_forward]. unfold mbind, PageHeader.M_bind at 1.
  cbn [PageHeader.index_at PageHeader.events fst snd app]. eexists. reflexivity.
Qed.

(** ** Forward search over an ordered page *)

Section Returns.
Import PageHeader.
Context {A B : Type}.

Lemma returns_ret (Q : A -> Prop) (a : A) : Q a -> returns Q (mret a).
Proof. intros H. exists a. split; [reflexivity|exact H]. Qed.

Lemma returns_bind (Q : A -> Prop) (R : B -> Prop) (m : M A) (f : A -> M B) :
  returns Q m -> (forall a, Q a -> returns R (f a)) -> returns R (m ≫= f).
Proof.
  intros (a & Hout & Ha) Hf. destruct (Hf a Ha) as (b & Hout' & Hb).
  exists b. split; [|exact Hb].
  destruct m as [evs o]. unfold mbind, M_bind, outcome in *. cbn in *.
  rewrite Hout. exact Hout'.
Qed.

Lemma in_events_bind (m : M A) (f : A -> M B) (a : A) (e : Event) :
  outcome m = Done a -> In e (events (f a)) -> In e (events (m ≫= f)).
Proof.
  intros Hout Hin. destruct m as [evs o].
  unfold mbind, M_bind, outcome, events in *. cbn in *.
  rewrite Hout. cbn. apply in_or_app. right. exact Hin.
Qed.

End Returns.

Lemma returns_index_at (p : PageHeader.t) (i : Z) (Q : EntryOffset -> Prop) :
  Q (PageHeader.page_index p i) -> PageHeader.returns Q (PageHeader.index_at p i).
Proof. intros H. eexists. split; [reflexivity|exact H]. Qed.

Lemma returns_div_s64 (a b : Z) :
  0 < b -> PageHeader.returns (fun _ => True) (PageHeader.div_s64 a b).
Proof.
  intros Hb. unfold PageHeader.div_s64.
  destruct (b =? 0) eqn:E0; [apply Z.eqb_eq in E0; lia|].
  destruct (b =? -1) eqn:E1; [apply Z.eqb_eq in E1; lia|].
  rewrite andb_false_r. apply returns_ret. exact I.
Qed.

Section ForwardSearch.
Import PageHeader.
Context (p : t) (key : Z).
Hypothesis Hcount : 1 <= count p < 2 ^ 32.
Hypothesis Hord : strictly_ordered p.
Hypothesis Hbox : bbox_spans p.

Let ts (i : Z) : Z := Entry.time (entry_at p i).

(** Every entry before slot [r] is older than the key. *)
Let below (r : Z) : Prop := forall j, 0 <= j < r -> ts j < key.

Lemma below_next (i : Z) : 0 <= i < count p -> ts i < key -> below (i + 1).
Proof.
  intros Hi Hlt j Hj. destruct (Z.eq_dec j i) as [->|Hne]; [exact Hlt|].
  pose proof (Hord j i). unfold ts in *. lia.
Qed.

Lemma below_hit (i : Z) : 0 <= i < count p -> ts i <= key -> below i.
Proof.
  intros Hi Hle j Hj. pose proof (Hord j i). unfold ts in *. lia.
Qed.

Lemma interpolate_returns (quota : nat) :
  forall st : Narrow,
  0 <= begin_ st <= end_ st /\ end_ st < count p ->
  below (begin_ st) ->
  0 <= search_lower_bound st <= ts (begin_ st) ->
  ts (end_ st) <= search_upper_bound st < 2 ^ 63 ->
  returns
    (fun st' => (0 <= begin_ st' <= end_ st' /\ end_ st' < count p)
                /\ below (begin_ st'))
    (interpolate quota p key st).
Proof.
  induction quota as [|quota IH]; intros [b e pi slb sub] Hst Hbelow Hslb Hsub;
    cbn [begin_ end_ search_lower_bound search_upper_bound] in *.
  - apply returns_ret. cbn. split; assumption.
  - cbn [interpolate].
    destruct (u32 (e - b) <? AKU_INTERPOLATION_SEARCH_CUTOFF) eqn:Hcut;
      [apply returns_ret; cbn; split; assumption|].
    apply Z.ltb_ge in Hcut. rewrite (u32_small (e - b)) in * by lia.
    unfold AKU_INTERPOLATION_SEARCH_CUTOFF in Hcut.
    assert (Hlt : ts b < ts e) by (apply Hord; lia).
    eapply returns_bind.
    { apply returns_div_s64. rewrite s64_small; lia. }
    intros q _. cbn zeta. pose proof (u32_range q) as Hq.
    destruct ((u32 q >? b) && (u32 q <? e)) eqn:Hin;
      [|apply returns_ret; cbn; split; assumption].
    apply andb_true_iff in Hin. destruct Hin as [Hgt Hlt'].
    apply Z.gtb_lt in Hgt. apply Z.ltb_lt in Hlt'.
    destruct Hbox as (Hmin & Hmax & Hall).
    eapply returns_bind;
      [apply (returns_index_at p (u32 q) (fun o => o = page_index p (u32 q)));
       reflexivity|].
    intros off ->. fold (entry_at p (u32 q)). fold (ts (u32 q)).
    destruct (ts (u32 q) <? key) eqn:Hcmp.
    + apply Z.ltb_lt in Hcmp. rewrite (u32_small (u32 q + 1)) by lia.
      eapply returns_bind;
        [apply (returns_index_at p _ (fun o => o = page_index p (u32 q + 1)));
         reflexivity|].
      intros off' ->. fold (entry_at p (u32 q + 1)). fold (ts (u32 q + 1)).
      apply IH; cbn [begin_ end_ search_lower_bound search_upper_bound].
      * lia.
      * apply below_next; [lia|exact Hcmp].
      * pose proof (Hall (u32 q + 1)). unfold ts. lia.
      * exact Hsub.
    + rewrite (u32_small (u32 q - 1)) by lia.
      eapply returns_bind;
        [apply (returns_index_at p _ (fun o => o = page_index p (u32 q - 1)));
         reflexivity|].
      intros off' ->. fold (entry_at p (u32 q - 1)). fold (ts (u32 q - 1)).
      apply IH; cbn [begin_ end_ search_lower_bound search_upper_bound].
      * lia.
      * exact Hbelow.
      * exact Hslb.
      * pose proof (Hall (u32 q - 1)). unfold ts. lia.
Qed.

Lemma binary_search_returns (fuel : nat) :
  forall begin end_ pi : Z,
  0 <= begin < count p -> 0 <= end_ < count p ->
  below begin ->
  begin <= end_ \/ (0 <= pi < count p /\ below pi) ->
  0 < Z.of_nat fuel /\ end_ - begin + 1 < Z.of_nat fuel ->
  returns (fun r => 0 <= r < count p /\ below r)
    (binary_search fuel p key begin end_ pi).
Proof.
  induction fuel as [|fuel IH]; intros b e pi Hb He Hbelow Hpi Hfuel; [lia|].
  cbn [binary_search].
  destruct (e >=? b) eqn:Hge.
  2: { apply returns_ret. rewrite Z.geb_leb in Hge. apply Z.leb_gt in Hge.
       destruct Hpi as [H|H]; [lia|exact H]. }
  apply Z.geb_le in Hge.
  rewrite (u32_small (e - b)) by lia.
  assert (Hdiv : 0 <= (e - b) / 2 <= e - b).
  { split; [apply Z.div_pos; lia|]. apply Z.div_le_upper_bound; lia. }
  rewrite (u32_small (b + (e - b) / 2)) by lia.
  set (mid := b + (e - b) / 2) in *.
  eapply returns_bind;
    [apply (returns_index_at p mid (fun o => o = page_index p mid)); reflexivity|].
  intros off ->. cbn zeta. fold (entry_at p mid). fold (ts mid).
  destruct (ts mid =? key) eqn:Heq.
  { apply Z.eqb_eq in Heq. apply returns_ret.
    split; [lia|]. apply below_hit; lia. }
  apply Z.eqb_neq in Heq.
  destruct (ts mid <? key) eqn:Hlt.
  - apply Z.ltb_lt in Hlt. rewrite (u32_small (mid + 1)) by lia.
    assert (Hmid : below mid) by (apply below_hit; lia).
    destruct (mid + 1 =? count p) eqn:Hc;
      [apply returns_ret; split; [lia|exact Hmid]|].
    apply Z.eqb_neq in Hc.
    apply IH; try lia.
    + apply below_next; [lia|exact Hlt].
    + right. split; [lia|exact Hmid].
  - apply Z.ltb_ge in Hlt.
    destruct (Z.eq_dec mid 0) as [Hz|Hnz].
    + rewrite Hz. cbn [Z.sub Z.add Z.opp Z.pos_sub]. rewrite Z.eqb_refl.
      apply returns_ret. split; [lia|]. intros j Hj. lia.
    + rewrite (u32_small (mid - 1)) by lia.
      replace (u32 (-1)) with (2 ^ 32 - 1) by reflexivity.
      destruct (mid - 1 =? 2 ^ 32 - 1) eqn:Hc;
        [apply Z.eqb_eq in Hc; lia|].
      apply IH; try lia; [exact Hbelow|].
      destruct (Z_le_gt_dec b (mid - 1)) as [Hle|Hgt]; [left; exact Hle|].
      right. split; [lia|]. replace mid with b by lia. exact Hbelow.
Qed.

Lemma locate_forward_returns (fuel : nat) :
  count p < Z.of_nat fuel ->
  returns
    (fun pos => match pos with
                | Some r => 0 <= r < count p /\ below r
                | None => max_timestamp (bbox p) < key
                end)
    (locate fuel p false key).
Proof.
  intros Hfuel. unfold locate. cbn zeta.
  rewrite (u32_small (count p - 1)) by lia.
  destruct Hbox as (Hmin & Hmax & Hall).
  destruct ((key <=? max_timestamp (bbox p)) && (key >=? min_timestamp (bbox p))).
  - eapply returns_bind.
    { apply interpolate_returns;
        cbn [begin_ end_ search_lower_bound search_upper_bound].
      - lia.
      - intros j Hj. lia.
      - pose proof (Hall 0). unfold ts. lia.
      - pose proof (Hall (count p - 1)). unfold ts. lia. }
    intros st [Hst Hbelow]. cbn beta in *.
    eapply returns_bind;
      [apply binary_search_returns; [lia|lia|exact Hbelow|left; lia|lia]|].
    intros r Hr. apply returns_ret. exact Hr.
  - destruct (key >? max_timestamp (bbox p)) eqn:Hgt.
    + apply Z.gtb_lt in Hgt.
      apply (returns_bind (fun _ => True));
        [eexists; split; [reflexivity|exact I]|].
      intros _ _. apply returns_ret. exact Hgt.
    + destruct (key <? min_timestamp (bbox p)).
      * cbn. apply returns_ret. split; [lia|]. intros j Hj. lia.
      * eapply returns_bind;
          [apply binary_search_returns;
           [lia|lia|intros j Hj; lia|left; lia|lia]|].
        intros r Hr. apply returns_ret. exact Hr.
Qed.

End ForwardSearch.

Section ForwardScan.
Import PageHeader.
Context (p : t) (query : SingleParameterSearchQuery).
Hypothesis Hcount : 1 <= count p < 2 ^ 32.

Lemma scan_forward_returns (fuel : nat) :
  forall s : Z,
  0 <= s <= count p - 1 ->
  count p - 1 - s < Z.of_nat fuel ->
  returns (fun _ => True) (scan_forward fuel p query (count p - 1) s).
Proof.
  induction fuel as [|fuel IH]; intros s Hs Hfuel; [lia|].
  cbn [scan_forward].
  eapply returns_bind;
    [apply (returns_index_at p s (fun _ => True)); exact I|].
  intros off _. cbn zeta.
  eapply (returns_bind (fun _ => True)).
  { destruct (_ && _); [eexists; split; [reflexivity|exact I]|].
    apply returns_ret. exact I. }
  intros _ _.
  destruct (s =? count p - 1) eqn:Hlast.
  - rewrite orb_true_r. eexists. split; [reflexivity|exact I].
  - apply Z.eqb_neq in Hlast. rewrite orb_false_r.
    destruct (TimeStamp.gt _ _); [eexists; split; [reflexivity|exact I]|].
    rewrite (u32_small (s + 1)) by lia. apply IH; lia.
Qed.

Lemma scan_forward_emits (i : Z) (fuel : nat) :
  forall s : Z,
  0 <= s <= i -> i < count p ->
  count p - 1 - s < Z.of_nat fuel ->
  matches p query (page_index p i) ->
  (forall j, s <= j < i -> Entry.time (entry_at p j) <= upperbound query) ->
  In (Put (page_index p i))
     (events (scan_forward fuel p query (count p - 1) s)).
Proof.
  induction fuel as [|fuel IH]; intros s Hs Hi Hfuel Hmatch Hupto; [lia|].
  cbn [scan_forward].
  apply (in_events_bind _ _ (page_index p s)); [reflexivity|]. cbn zeta.
  destruct (Z.eq_dec s i) as [->|Hne].
  - destruct Hmatch as [Hparam [Hlo Hhi]].
    unfold TimeStamp.le, TimeStamp.ge.
    rewrite Hparam, Z.eqb_refl.
    destruct (lowerbound query <=? _) eqn:E1; [|apply Z.leb_gt in E1; lia].
    destruct (upperbound query >=? _) eqn:E2;
      [|rewrite Z.geb_leb in E2; apply Z.leb_gt in E2; lia].
    cbn [andb]. unfold mbind, M_bind, put. cbn [fst snd events app].
    left. reflexivity.
  - eapply in_events_bind.
    { destruct (_ && _); reflexivity. }
    destruct (s =? count p - 1) eqn:Hlast; [apply Z.eqb_eq in Hlast; lia|].
    rewrite orb_false_r. unfold TimeStamp.gt.
    fold (entry_at p s).
    destruct (Entry.time (entry_at p s) >? upperbound query) eqn:Hgt.
    { apply Z.gtb_lt in Hgt. pose proof (Hupto s). lia. }
    rewrite (u32_small (s + 1)) by lia.
    apply IH; try lia; [exact Hmatch|]. intros j Hj. apply Hupto. lia.
Qed.

End ForwardScan.

Lemma validate_forward (query : SingleParameterSearchQuery) :
  direction query = AKU_CURSOR_DIR_FORWARD ->
  lowerbound query <= upperbound query ->
  validate_query query = true.
Proof.
  intros Hdir Hle. unfold validate_query, TimeStamp.lt. rewrite Hdir. cbn.
  destruct (upperbound query <? lowerbound query) eqn:E;
    [apply Z.ltb_lt in E; lia|reflexivity].
Qed.

Lemma search_forward_runs
    (p : PageHeader.t) (query : SingleParameterSearchQuery) (fuel : nat) :
  1 <= PageHeader.count p < 2 ^ 32 ->
  PageHeader.strictly_ordered p ->
  PageHeader.bbox_spans p ->
  direction query = AKU_CURSOR_DIR_FORWARD ->
  lowerbound query <= upperbound query ->
  PageHeader.count p < Z.of_nat fuel ->
  PageHeader.outcome (PageHeader.search fuel p query) = PageHeader.Done tt
  /\ forall i, 0 <= i < PageHeader.count p ->
       PageHeader.matches p query (PageHeader.page_index p i) ->
       In (PageHeader.Put (PageHeader.page_index p i))
          (PageHeader.events (PageHeader.search fuel p query)).
Proof.
  intros Hcount Hord Hbox Hdir Hle Hfuel.
  unfold PageHeader.search.
  rewrite (validate_forward query Hdir Hle). cbn [negb]. cbn zeta.
  rewrite Hdir.
  change (AKU_CURSOR_DIR_FORWARD =? AKU_CURSOR_DIR_BACKWARD) with false.
  cbn iota. rewrite (u32_small (PageHeader.count p - 1)) by lia.
  pose proof (locate_forward_returns p (lowerbound query) Hcount Hord Hbox
                fuel Hfuel) as Hloc.
  pose proof Hloc as (pos & Hout & Hpos).
  split.
  - assert (Hret : PageHeader.returns (fun _ => True)
                     (PageHeader.locate fuel p false (lowerbound query) ≫=
                        (fun pos => match pos with
                                    | Some probe_index =>
                                      PageHeader.scan_forward fuel p query
                                        (PageHeader.count p - 1) probe_index
                                    | None => mret tt
                                    end))).
    { eapply returns_bind; [exact Hloc|].
      intros [r|] Hr; [|apply returns_ret; exact I].
      apply scan_forward_returns; [exact Hcount|lia|lia]. }
    destruct Hret as ([] & Hdone & _). exact Hdone.
  - intros i Hi Hmatch.
    pose proof Hmatch as [_ [Hlo Hhi]].
    fold (PageHeader.entry_at p i) in Hlo, Hhi.
    destruct Hbox as (_ & _ & Hall).
    destruct pos as [r|].
    + destruct Hpos as [Hr Hbelow].
      assert (Hri : r <= i).
      { destruct (Z_le_gt_dec r i) as [H|H]; [exact H|].
        specialize (Hbelow i). lia. }
      eapply in_events_bind; [exact Hout|].
      apply scan_forward_emits; try lia; [exact Hmatch|].
      intros j Hj. pose proof (Hord j i). lia.
    + specialize (Hall i Hi). lia.
Qed.

(** A forward search over an ordered page returns the matching entries and
    nothing else.  Take a page with at least one entry whose timestamps
    strictly increase along the index and lie inside a bounding box with
    non-negative bounds, and a forward query with lowerbound <= upperbound.
    Given more fuel than [count], [search] runs to its end, and an offset is
    put on the cursor exactly when it is the content of a slot in
    [0, count) whose entry has the query's param_id and a timestamp between
    its bounds. *)
Theorem search_forward_exact
    (p : PageHeader.t) (query : SingleParameterSearchQuery) (fuel : nat) :
  1 <= PageHeader.count p < 2 ^ 32 ->
  PageHeader.strictly_ordered p ->
  PageHeader.bbox_spans p ->
  direction query = AKU_CURSOR_DIR_FORWARD ->
  lowerbound query <= upperbound query ->
  PageHeader.count p < Z.of_nat fuel ->
  PageHeader.outcome (PageHeader.search fuel p query) = PageHeader.Done tt
  /\ forall o,
       In (PageHeader.Put o) (PageHeader.events (PageHeader.search fuel p query))
       <-> exists i, 0 <= i < PageHeader.count p
             /\ PageHeader.page_index p i = o
             /\ PageHeader.matches p query o.
Proof.
  intros Hcount Hord Hbox Hdir Hle Hfuel.
  destruct (search_forward_runs p query fuel Hcount Hord Hbox Hdir Hle Hfuel)
    as [Hdone Hall].
  split; [exact Hdone|]. intros o. split.
  - intros Hin. apply list_elem_of_In in Hin.
    destruct (search_within p true Hcount query fuel (fun _ => Hfuel))
      as [Hwithin _].
    destruct (search_puts_matching p query fuel) as [Hmatch _].
    rewrite Forall_forall in Hwithin, Hmatch.
    destruct (Hwithin _ Hin) as (i & Hi & Hix).
    exists i. split; [exact Hi|]. split; [exact Hix|]. exact (Hmatch _ Hin).
  - intros (i & Hi & Hix & Hmatch). subst o. apply Hall; assumption.
Qed.

(** The page [rising] and the forward query for param 1 over 0..10. *)
Lemma search_forward_exact_witness :
  let p := Examples.rising in
  let query := mkQuery 1 0 10 AKU_CURSOR_DIR_FORWARD in
  PageHeader.outcome (PageHeader.search 4 p query) = PageHeader.Done tt
  /\ forall o,
       In (PageHeader.Put o) (PageHeader.events (PageHeader.search 4 p query))
       <-> exists i, 0 <= i < PageHeader.count p
             /\ PageHeader.page_index p i = o
             /\ PageHeader.matches p query o.
Proof.
  assert (Hc : PageHeader.count Examples.rising = 3) by (vm_compute; reflexivity).
  apply (search_forward_exact Examples.rising
           (mkQuery 1 0 10 AKU_CURSOR_DIR_FORWARD) 4).
  - rewrite Hc. lia.
  - intros i j Hi Hij Hj. rewrite Hc in Hj.
    assert (H : (i = 0 /\ j = 1) \/ (i = 0 /\ j = 2) \/ (i = 1 /\ j = 2)) by lia.
    destruct H as [[-> ->] | [[-> ->] | [-> ->]]]; vm_compute; reflexivity.
  - split; [vm_compute; discriminate|]. split; [vm_compute; reflexivity|].
    intros i Hi. rewrite Hc in Hi.
    assert (H : i = 0 \/ i = 1 \/ i = 2) by lia.
    destruct H as [-> | [-> | ->]]; vm_compute; split; discriminate.
  - reflexivity.
  - vm_compute. discriminate.
  - rewrite Hc. vm_compute. reflexivity.
Defined.

(** ** Where [search] leaves defined behaviour *)

(** The division of the interpolation step.  On a page with more than
    [AKU_INTERPOLATION_SEARCH_CUTOFF] entries whose bounding box has equal
    timestamp bounds, a valid query whose key is that timestamp makes the
    first interpolation step divide by [max_timestamp - min_timestamp = 0]:
    the run stops there, before any slot is read or any call is made on
    the cursor. *)
Theorem search_divides_by_zero
    (p : PageHeader.t) (query : SingleParameterSearchQuery) (fuel : nat) :
  AKU_INTERPOLATION_SEARCH_CUTOFF < PageHeader.count p < 2 ^ 32 ->
  min_timestamp (PageHeader.bbox p) = max_timestamp (PageHeader.bbox p) ->
  validate_query query = true ->
  (if direction query =? AKU_CURSOR_DIR_BACKWARD
   then upperbound query else lowerbound query)
  = max_timestamp (PageHeader.bbox p) ->
  PageHeader.search fuel p query
  = ([], PageHeader.Crash PageHeader.DivisionByZero).
Proof.
  intros Hcount Hbox Hvalid Hkey.
  unfold AKU_INTERPOLATION_SEARCH_CUTOFF in Hcount.
  unfold PageHeader.search. rewrite Hvalid. cbn [negb]. cbn zeta.
  rewrite Hkey. unfold PageHeader.locate. cbn zeta.
  rewrite Hbox. rewrite Z.leb_refl. rewrite Z.geb_leb, Z.leb_refl. cbn [andb].
  cbn [PageHeader.interpolate].
  rewrite (u32_small (PageHeader.count p - 1)) by lia.
  rewrite Z.sub_0_r. rewrite (u32_small (PageHeader.count p - 1)) by lia.
  destruct (PageHeader.count p - 1 <? AKU_INTERPOLATION_SEARCH_CUTOFF) eqn:E;
    [apply Z.ltb_lt in E; unfold AKU_INTERPOLATION_SEARCH_CUTOFF in E; lia|].
  rewrite Z.sub_diag. reflexivity.
Qed.

(** The page [same_instant] and the forward query for timestamp 5. *)
Lemma search_divides_by_zero_witness :
  PageHeader.search 66 Examples.same_instant
    (mkQuery 1 5 5 AKU_CURSOR_DIR_FORWARD)
  = ([], PageHeader.Crash PageHeader.DivisionByZero).
Proof.
  apply (search_divides_by_zero Examples.same_instant
           (mkQuery 1 5 5 AKU_CURSOR_DIR_FORWARD) 66);
    vm_compute; repeat split; reflexivity.
Defined.

(** The scan over a page with no entry.  On a fresh page (no entry,
    bounding box as constructed) a valid backward query with a positive
    upper bound starts its scan at slot 4294967295, and a valid forward
    query with a lower bound that is not positive starts it at slot 0: the
    first thing [search] does is to read a slot outside [0, count). *)
Theorem search_fresh_page_reads_outside
    (p : PageHeader.t) (query : SingleParameterSearchQuery) (fuel : nat) :
  PageHeader.is_fresh p ->
  validate_query query = true ->
  (direction query = AKU_CURSOR_DIR_BACKWARD /\ 0 < upperbound query)
  \/ (direction query = AKU_CURSOR_DIR_FORWARD /\ lowerbound query <= 0) ->
  exists i rest,
    PageHeader.events (PageHeader.search (S fuel) p query)
    = PageHeader.ReadIndex i :: rest
    /\ ~ (0 <= i < PageHeader.count p).
Proof.
  intros (Hc & Hb & _) Hvalid Hcase.
  unfold PageHeader.search. rewrite Hvalid. cbn [negb]. cbn zeta.
  unfold PageHeader.locate. cbn zeta. rewrite Hb, Hc.
  cbn [max_timestamp min_timestamp PageBoundingBox_new].
  unfold TimeStamp.MIN_TIMESTAMP, TimeStamp.MAX_TIMESTAMP, INT64_MAX.
  change (u32 (0 - 1)) with 4294967295.
  destruct Hcase as [[Hdir Hub]|[Hdir Hlb]]; rewrite Hdir.
  - change (AKU_CURSOR_DIR_BACKWARD =? AKU_CURSOR_DIR_BACKWARD) with true.
    cbn iota.
    destruct (upperbound query <=? 0) eqn:E1; [apply Z.leb_le in E1; lia|].
    cbn [andb].
    destruct (upperbound query >? 0) eqn:E2;
      [|rewrite Z.gtb_ltb in E2; apply Z.ltb_ge in E2; lia].
    destruct (scan_backward_first_read fuel p query 4294967295) as [rest Hrest].
    exists 4294967295, rest. split; [exact Hrest|lia].
  - change (AKU_CURSOR_DIR_FORWARD =? AKU_CURSOR_DIR_BACKWARD) with false.
    cbn iota.
    destruct (lowerbound query >=? 2 ^ 63 - 1) eqn:E1;
      [rewrite Z.geb_leb in E1; apply Z.leb_le in E1; lia|].
    rewrite andb_false_r.
    destruct (lowerbound query >? 0) eqn:E2;
      [apply Z.gtb_lt in E2; lia|].
    destruct (lowerbound query <? 2 ^ 63 - 1) eqn:E3;
      [|apply Z.ltb_ge in E3; lia].
    cbn [negb].
    destruct (scan_forward_first_read fuel p query 4294967295 0) as [rest Hrest].
    exists 0, rest. split; [exact Hrest|lia].
Qed.

(** A blank page and the backward query over 0..10. *)
Lemma search_fresh_page_reads_outside_witness :
  exists i rest,
    PageHeader.events
      (PageHeader.search 1 (Examples.blank 4096)
         (mkQuery 1 0 10 AKU_CURSOR_DIR_BACKWARD))
    = PageHeader.ReadIndex i :: rest
    /\ ~ (0 <= i < PageHeader.count (Examples.blank 4096)).
Proof.
  apply (search_fresh_page_reads_outside (Examples.blank 4096)
           (mkQuery 1 0 10 AKU_CURSOR_DIR_BACKWARD) 0).
  - vm_compute. repeat split; reflexivity.
  - reflexivity.
  - left. split; [reflexivity|vm_compute; reflexivity].
Defined.

(** ** Sorting the index *)

Section InsertionSort.
Context {A : Type} (less : A -> A -> bool).

(** [a] does not come before [b]. *)
Let geq (a b : A) : Prop := less a b = false.

Hypothesis less_asym : forall a b, less a b = true -> less b a = false.
Hypothesis geq_trans : forall a b c, geq a b -> geq b c -> geq a c.

Lemma sift_perm (x : A) (l : list A) : Permutation (PageHeader.sift less x l) (x :: l).
Proof.
  induction l as [|y l IH]; cbn; [reflexivity|].
  destruct (less x y); [|reflexivity].
  rewrite IH. apply perm_swap.
Qed.

Lemma sift_sorted (x : A) (l : list A) :
  StronglySorted geq l -> StronglySorted geq (PageHeader.sift less x l).
Proof.
  induction l as [|y l IH]; intros Hs; cbn.
  - repeat constructor.
  - apply StronglySorted_cons in Hs. destruct Hs as [Hall Hs].
    destruct (less x y) eqn:E.
    + apply StronglySorted_cons. split; [|apply IH; exact Hs].
      rewrite (sift_perm x l). constructor; [|exact Hall].
      apply less_asym. exact E.
    + apply StronglySorted_cons. split.
      * constructor; [exact E|].
        eapply Forall_impl; [exact Hall|]. intros z Hz. cbn beta.
        apply (geq_trans x y z); assumption.
      * apply StronglySorted_cons. split; assumption.
Qed.

Lemma fold_sift_sorted (l acc : list A) :
  StronglySorted geq acc ->
  StronglySorted geq (fold_left (fun acc x => PageHeader.sift less x acc) l acc).
Proof.
  revert acc. induction l as [|x l IH]; intros acc Hs; cbn; [exact Hs|].
  apply IH. apply sift_sorted. exact Hs.
Qed.

Lemma fold_sift_perm (l acc : list A) :
  Permutation (fold_left (fun acc x => PageHeader.sift less x acc) l acc) (l ++ acc).
Proof.
  revert acc. induction l as [|x l IH]; intros acc; cbn; [reflexivity|].
  rewrite IH. rewrite sift_perm. symmetry. apply Permutation_middle.
Qed.

Lemma rev_sorted (l : list A) :
  StronglySorted geq l -> StronglySorted (fun a b => geq b a) (rev l).
Proof.
  induction l as [|x l IH]; intros Hs; cbn; [constructor|].
  apply StronglySorted_cons in Hs. destruct Hs as [Hall Hs].
  apply StronglySorted_app_2.
  - intros a b Ha Hb. apply list_elem_of_singleton in Hb. subst b.
    rewrite Forall_forall in Hall. apply Hall.
    apply list_elem_of_In, in_rev, list_elem_of_In. exact Ha.
  - apply IH. exact Hs.
  - repeat constructor.
Qed.

Lemma insertion_sort_sorted (l : list A) :
  StronglySorted (fun a b => less b a = false) (PageHeader.insertion_sort less l).
Proof.
  unfold PageHeader.insertion_sort. apply rev_sorted. apply fold_sift_sorted. constructor.
Qed.

Lemma insertion_sort_perm (l : list A) : Permutation (PageHeader.insertion_sort less l) l.
Proof.
  unfold PageHeader.insertion_sort. rewrite <- Permutation_rev.
  rewrite fold_sift_perm. rewrite app_nil_r. reflexivity.
Qed.

End InsertionSort.

Lemma StronglySorted_impl {A} (R R' : A -> A -> Prop) (l : list A) :
  StronglySorted R l -> (forall a b, R a b -> R' a b) -> StronglySorted R' l.
Proof.
  intros Hs Himp. induction Hs as [|a l Hs IH Hall]; constructor.
  - exact IH.
  - eapply Forall_impl; [exact Hall|]. intros b. apply Himp.
Qed.

Lemma tuple_lt_asym (a b : Z * Z) : PageHeader.tuple_lt a b = true -> PageHeader.tuple_lt b a = false.
Proof.
  destruct a as [a1 a2], b as [b1 b2]. unfold PageHeader.tuple_lt. cbn.
  destruct (a1 <? b1) eqn:E1, (b1 <? a1) eqn:E2, (a2 <? b2) eqn:E3,
    (b2 <? a2) eqn:E4; cbn; intros; try reflexivity; try discriminate; lia.
Qed.

Lemma tuple_geq_trans (a b c : Z * Z) :
  PageHeader.tuple_lt a b = false -> PageHeader.tuple_lt b c = false -> PageHeader.tuple_lt a c = false.
Proof.
  destruct a as [a1 a2], b as [b1 b2], c as [c1 c2]. unfold PageHeader.tuple_lt. cbn.
  destruct (a1 <? b1) eqn:E1, (b1 <? a1) eqn:E2, (a2 <? b2) eqn:E3,
    (b1 <? c1) eqn:E4, (c1 <? b1) eqn:E5, (b2 <? c2) eqn:E6,
    (a1 <? c1) eqn:E7, (c1 <? a1) eqn:E8, (a2 <? c2) eqn:E9;
    cbn; intros; try reflexivity; try discriminate; lia.
Qed.

Lemma tuple_lt_spec (a b : Z * Z) :
  PageHeader.tuple_lt a b = false <->
  fst b < fst a \/ (fst b = fst a /\ snd b <= snd a).
Proof.
  destruct a as [a1 a2], b as [b1 b2]. unfold PageHeader.tuple_lt. cbn.
  destruct (a1 <? b1) eqn:E1, (b1 <? a1) eqn:E2, (a2 <? b2) eqn:E3; cbn;
    split; intros; try reflexivity; try discriminate; lia.
Qed.

(** Reading back a list written over the first slots of an array. *)
Lemma slots_written (f : Z -> Z) (l : list Z) (n : Z) :
  Datatypes.length l = Z.to_nat n ->
  map (fun j => if (0 <=? j) && (j <? n) then nth (Z.to_nat j) l 0 else f j)
      (seqZ 0 n) = l.
Proof.
  intros Hlen. apply list_eq. intros i.
  change (map ?g ?x) with (g <$> x). rewrite list_lookup_fmap.
  destruct (decide (Z.of_nat i < n)) as [Hi|Hi].
  - rewrite lookup_seqZ_lt by assumption. cbn. rewrite Z.add_0_l.
    destruct (0 <=? Z.of_nat i) eqn:E1; [|lia].
    destruct (Z.of_nat i <? n) eqn:E2; [|lia]. cbn.
    rewrite Nat2Z.id. rewrite nth_lookup.
    destruct (l !! i) eqn:El; [reflexivity|].
    apply lookup_ge_None in El. lia.
  - rewrite lookup_seqZ_ge by lia. cbn. symmetry.
    apply lookup_ge_None. lia.
Qed.

Lemma sort_index_slots (p : PageHeader.t) :
  PageHeader.index_slots (PageHeader.sort p)
  = PageHeader.insertion_sort (PageHeader.sort_less p) (PageHeader.index_slots p).
Proof.
  unfold PageHeader.index_slots at 1. unfold PageHeader.sort. cbn.
  apply slots_written.
  rewrite (Permutation_length (insertion_sort_perm _ _)).
  unfold PageHeader.index_slots. rewrite length_map. apply length_seqZ.
Qed.

Lemma sort_permutes_and_orders (p : PageHeader.t) :
  Permutation (PageHeader.index_slots (PageHeader.sort p))
              (PageHeader.index_slots p)
  /\ StronglySorted
       (fun a b =>
          let ka := PageHeader.sort_key (PageHeader.sort p) a in
          let kb := PageHeader.sort_key (PageHeader.sort p) b in
          fst ka < fst kb \/ (fst ka = fst kb /\ snd ka <= snd kb))
       (PageHeader.index_slots (PageHeader.sort p)).
Proof.
  rewrite sort_index_slots. split; [apply insertion_sort_perm|].
  assert (Hs := insertion_sort_sorted (PageHeader.sort_less p)
                  (fun a b => tuple_lt_asym _ _)
                  (fun a b c => tuple_geq_trans _ _ _)
                  (PageHeader.index_slots p)).
  eapply StronglySorted_impl; [exact Hs|].
  intros a b Hab. cbn zeta.
  change (PageHeader.sort_key (PageHeader.sort p)) with (PageHeader.sort_key p).
  apply tuple_lt_spec in Hab. exact Hab.
Qed.

(** What [sort] does establish, for every page: the slots [0, count) are a
    rearrangement of what they were, non-decreasing in the key the
    comparison uses, the timestamp read as an unsigned 64-bit integer and
    then the param_id. *)
Theorem sort_orders_by_unsigned_key (p : PageHeader.t) :
  Permutation (PageHeader.index_slots (PageHeader.sort p))
              (PageHeader.index_slots p)
  /\ StronglySorted
       (fun a b =>
          let ka := PageHeader.sort_key (PageHeader.sort p) a in
          let kb := PageHeader.sort_key (PageHeader.sort p) b in
          fst ka < fst kb \/ (fst ka = fst kb /\ snd ka <= snd kb))
       (PageHeader.index_slots (PageHeader.sort p)).
Proof. exact (sort_permutes_and_orders p). Qed.

(** ** Sorting pages whose timestamps are not negative *)

Lemma s64_range (z : Z) : - 2 ^ 63 <= s64 z < 2 ^ 63.
Proof.
  unfold s64. pose proof (Z.mod_pos_bound (z + 2 ^ 63) (2 ^ 64)). lia.
Qed.

Lemma entry_param_id_range (e : Entry.t) : 0 <= Entry.param_id e < 2 ^ 32.
Proof.
  unfold Entry.param_id. cbn [load_le]. unfold byte_val.
  pose proof (Byte.to_N_bounded (e 4)).
  pose proof (Byte.to_N_bounded (e (4 + 1))).
  pose proof (Byte.to_N_bounded (e (4 + 1 + 1))).
  pose proof (Byte.to_N_bounded (e (4 + 1 + 1 + 1))).
  lia.
Qed.

Lemma sort_key_nonnegative (p : PageHeader.t) (o : EntryOffset) :
  0 <= Entry.time (PageHeader.read_entry p o) ->
  PageHeader.sort_key p o
  = (Entry.time (PageHeader.read_entry p o),
     Entry.param_id (PageHeader.read_entry p o)).
Proof.
  intros Hpos. unfold PageHeader.sort_key. cbn zeta.
  pose proof (s64_range (load_le 8 (PageHeader.read_entry p o) 8)) as Hr.
  fold (Entry.time (PageHeader.read_entry p o)) in Hr.
  rewrite u64_small by lia.
  rewrite u32_small by apply entry_param_id_range. reflexivity.
Qed.

(** On a page whose entries all have a timestamp that is not negative,
    [sort] leaves the slots [0, count) non-decreasing in (timestamp,
    param_id) with the timestamps compared as signed integers. *)
Theorem sort_orders_nonnegative_timestamps (p : PageHeader.t) :
  (forall o, In o (PageHeader.index_slots p) ->
     0 <= Entry.time (PageHeader.read_entry p o)) ->
  StronglySorted
    (fun a b =>
       let ea := PageHeader.read_entry (PageHeader.sort p) a in
       let eb := PageHeader.read_entry (PageHeader.sort p) b in
       Entry.time ea < Entry.time eb
       \/ (Entry.time ea = Entry.time eb
           /\ Entry.param_id ea <= Entry.param_id eb))
    (PageHeader.index_slots (PageHeader.sort p)).
Proof.
  intros Hpos.
  destruct (sort_permutes_and_orders p) as [Hperm Hsorted].
  assert (Hpos' : Forall (fun o => 0 <= Entry.time (PageHeader.read_entry p o))
                    (PageHeader.index_slots (PageHeader.sort p))).
  { rewrite Forall_forall. intros o Ho. apply Hpos.
    apply list_elem_of_In. rewrite <- Hperm. exact Ho. }
  change (PageHeader.sort_key (PageHeader.sort p))
    with (PageHeader.sort_key p) in Hsorted.
  change (PageHeader.read_entry (PageHeader.sort p))
    with (PageHeader.read_entry p).
  clear Hperm Hpos.
  induction Hsorted as [|a l Hs IH Hall]; [constructor|].
  apply Forall_cons in Hpos'. destruct Hpos' as [Ha Hl].
  constructor; [apply IH; exact Hl|].
  rewrite Forall_forall in Hall, Hl |- *. intros b Hb.
  specialize (Hall b Hb). specialize (Hl b Hb). cbn zeta in Hall |- *.
  rewrite (sort_key_nonnegative p a Ha) in Hall.
  rewrite (sort_key_nonnegative p b Hl) in Hall.
  exact Hall.
Qed.

(** A page of four samples, out of order, none before the epoch. *)
Lemma sort_orders_nonnegative_timestamps_witness :
  let p := Examples.append_all (Examples.blank 256)
             [Examples.sample 4 7; Examples.sample 1 3;
              Examples.sample 2 7; Examples.sample 9 1] in
  StronglySorted
    (fun a b =>
       let ea := PageHeader.read_entry (PageHeader.sort p) a in
       let eb := PageHeader.read_entry (PageHeader.sort p) b in
       Entry.time ea < Entry.time eb
       \/ (Entry.time ea = Entry.time eb
           /\ Entry.param_id ea <= Entry.param_id eb))
    (PageHeader.index_slots (PageHeader.sort p)).
Proof.
  apply (sort_orders_nonnegative_timestamps
           (Examples.append_all (Examples.blank 256)
              [Examples.sample 4 7; Examples.sample 1 3;
               Examples.sample 2 7; Examples.sample 9 1])).
  apply Stdlib.Lists.List.Forall_forall.
  replace (PageHeader.index_slots _) with [239; 223; 207; 191]
    by (vm_compute; reflexivity).
  repeat constructor; vm_compute; discriminate.
Defined.

(** ** Epoch counters of a ring in normal operation *)

Section Epochs.
Import Lifecycle.

Lemma counters_close (v : Volume.t) :
  counters (Volume.close v) = (fst (counters v), u32 (snd (counters v) + 1)).
Proof. reflexivity. Qed.

Lemma counters_open (v : Volume.t) :
  counters (Volume.open v) = (u32 (fst (counters v) + 1), snd (counters v)).
Proof. reflexivity. Qed.

Lemma counters_reallocate (v : Volume.t) :
  counters (Volume.reallocate_disc_space v) = counters v.
Proof. reflexivity. Qed.

Lemma counters_add_entry (v : Volume.t) (e : Entry.t) :
  counters (Volume.set_page v (snd (PageHeader.add_entry (Volume.get_page v) e)))
  = counters v.
Proof.
  unfold PageHeader.add_entry. cbn zeta.
  destruct (_ <? _); [reflexivity|]. destruct (_ >? _); reflexivity.
Qed.

(** The counters behind a slot of a list that was altered at one position. *)
Lemma lookup_alter_counters (f : Volume.t -> Volume.t) (g : Z * Z -> Z * Z)
    (vols : list Volume.t) (i j : nat) (v' : Volume.t) :
  (forall v, counters (f v) = g (counters v)) ->
  alter f i vols !! j = Some v' ->
  exists v, vols !! j = Some v
    /\ counters v' = if decide (i = j) then g (counters v) else counters v.
Proof.
  intros Hf. rewrite list_lookup_alter.
  destruct (decide (i = j)) as [->|Hne].
  - destruct (vols !! j) as [v|]; cbn; [|discriminate].
    intros [= <-]. exists v. split; [reflexivity|apply Hf].
  - intros Hv. exists v'. split; [exact Hv|reflexivity].
Qed.

Lemma expected_balanced (a : nat) (k : Z) (i : nat) (v : Volume.t) :
  counters v = expected a k i -> balanced v.
Proof.
  unfold balanced, expected. intros ->.
  destruct (i <? a)%nat; [cbn; lia|]. destruct (i =? a)%nat; cbn; lia.
Qed.

Lemma ring_shape_balanced (s : Storage.t) (k : Z) :
  ring_shape s k -> Forall balanced (Storage.volumes_ s).
Proof.
  intros (_ & _ & _ & Hc). apply Forall_lookup. intros i v Hv.
  apply (expected_balanced (Storage.active_volume_ s) k i). apply Hc. exact Hv.
Qed.

(** The position the ring advances to. *)
Lemma next_position (idx : Z) (n a : nat) :
  0 <= idx -> (a < n)%nat -> idx mod Z.of_nat n = Z.of_nat a ->
  Z.to_nat ((idx + 1) mod Z.of_nat n) = (if (S a =? n)%nat then O else S a)
  /\ (idx + 1) mod Z.of_nat n
     = Z.of_nat (if (S a =? n)%nat then O else S a).
Proof.
  intros Hidx Ha Hmod.
  rewrite <- Z.add_mod_idemp_l by lia. rewrite Hmod.
  destruct (S a =? n)%nat eqn:E.
  - apply Nat.eqb_eq in E.
    replace (Z.of_nat a + 1) with (Z.of_nat n) by lia.
    rewrite Z.mod_same by lia. split; reflexivity.
  - apply Nat.eqb_neq in E. rewrite Z.mod_small by lia. split; lia.
Qed.

(** A rotation keeps the ring in shape; the epoch advances when the ring
    wraps around. *)
Lemma advance_volume_shape (s : Storage.t) (k : Z) :
  ring_shape s k ->
  0 <= k -> k + 2 < 2 ^ 32 ->
  Storage.active_volume_index_ s + 1 < 2 ^ 31 ->
  let s' := Storage.advance_volume_ s (Storage.active_volume_index_ s) in
  Storage.active_volume_index_ s' = Storage.active_volume_index_ s + 1
  /\ exists k', k <= k' <= k + 1 /\ ring_shape s' k'.
Proof.
  intros (Ha & Hidx & Hmod & Hc) Hk Hk2 Hno s'. subst s'.
  unfold Storage.advance_volume_. rewrite Z.eqb_refl. cbn zeta.
  destruct s as [vols idx a]. cbn [Storage.volumes_ Storage.active_volume_index_
    Storage.active_volume_] in *.
  rewrite length_alter.
  rewrite (s32_small (idx + 1)) by lia. rewrite (u64_small (idx + 1)) by lia.
  destruct (next_position idx (Datatypes.length vols) a Hidx Ha Hmod)
    as [Hpos HposZ].
  rewrite Hpos. set (pos := if (S a =? Datatypes.length vols)%nat then O else S a) in *.
  set (k' := if (S a =? Datatypes.length vols)%nat then k + 1 else k).
  split; [reflexivity|]. exists k'.
  split; [unfold k'; destruct (S a =? _)%nat; lia|].
  unfold ring_shape.
  cbn [Storage.volumes_ Storage.active_volume_index_ Storage.active_volume_].
  rewrite !length_alter.
  split; [unfold pos; destruct (S a =? _)%nat eqn:E;
          [lia|apply Nat.eqb_neq in E; lia]|].
  split; [lia|]. split; [exact HposZ|].
  intros i v3 Hv3.
  destruct (lookup_alter_counters Volume.open
              (fun c => (u32 (fst c + 1), snd c)) _ _ _ _ counters_open Hv3)
    as (v2 & Hv2 & Hc3).
  destruct (lookup_alter_counters Volume.reallocate_disc_space
              (fun c => c) _ _ _ _ counters_reallocate Hv2)
    as (v1 & Hv1 & Hc2).
  destruct (lookup_alter_counters Volume.close
              (fun c => (fst c, u32 (snd c + 1))) _ _ _ _ counters_close Hv1)
    as (v0 & Hv0 & Hc1).
  assert (Hi : (i < Datatypes.length vols)%nat)
    by (apply lookup_lt_is_Some; eexists; exact Hv0).
  specialize (Hc i v0 Hv0).
  rewrite Hc3, Hc2, Hc1, Hc. clear Hc3 Hc2 Hc1 Hc Hv3 Hv2 Hv1 Hv0.
  unfold expected, pos, k'.
  destruct (S a =? Datatypes.length vols)%nat eqn:Ewrap;
    [apply Nat.eqb_eq in Ewrap|apply Nat.eqb_neq in Ewrap];
    repeat match goal with
           | |- context [decide (?x = ?y)] => destruct (decide (x = y))
           | |- context [(?x <? ?y)%nat] => destruct (Nat.ltb_spec x y)
           | |- context [(?x =? ?y)%nat] => destruct (Nat.eqb_spec x y)
           end;
    cbn [fst snd]; try lia;
    rewrite ?(u32_small (k + 1)) by lia;
    rewrite ?(u32_small (k + 1 + 1)) by lia;
    try (f_equal; lia).
Qed.

Lemma advance_volume_stale (s : Storage.t) (local_rev : Z) :
  local_rev <> Storage.active_volume_index_ s ->
  Storage.advance_volume_ s local_rev = s.
Proof.
  intros Hne. unfold Storage.advance_volume_.
  destruct (local_rev =? _) eqn:E; [apply Z.eqb_eq in E; contradiction|reflexivity].
Qed.

(** In a ring in shape the loop of [select_active_page] ends on the
    active volume. *)
Lemma most_overwritten_shape (a k : Z) (l : list Volume.t) :
  forall i mi mo : Z,
  (forall (j : nat) (v : Volume.t), l !! j = Some v ->
     PageHeader.open_count (Volume.get_page v)
     = if i + Z.of_nat j <=? a then k + 1 else k) ->
  (i <= a /\ a < i + Z.of_nat (Datatypes.length l) /\ mo <= k + 1)
  \/ (a < i /\ mi = a /\ mo = k + 1) ->
  Storage.most_overwritten l i mi mo = (a, k + 1).
Proof.
  induction l as [|v l IH]; intros i mi mo Hopen Hcase.
  - cbn in *. destruct Hcase as [H|(_ & -> & ->)]; [lia|reflexivity].
  - cbn [Storage.most_overwritten].
    pose proof (Hopen O v eq_refl) as Hv. rewrite Z.add_0_r in Hv.
    assert (Hrest : forall (j : nat) (w : Volume.t), l !! j = Some w ->
              PageHeader.open_count (Volume.get_page w)
              = if i + 1 + Z.of_nat j <=? a then k + 1 else k).
    { intros j w Hw. rewrite (Hopen (S j) w Hw).
      replace (i + Z.of_nat (S j)) with (i + 1 + Z.of_nat j) by lia. reflexivity. }
    rewrite Hv. cbn [Datatypes.length] in Hcase.
    destruct Hcase as [(Hia & Hai & Hmo)|(Hai & -> & ->)].
    + destruct (i <=? a) eqn:E; [|lia].
      destruct (k + 1 >=? mo) eqn:E2; [|lia].
      apply IH; [exact Hrest|].
      destruct (Z.eq_dec i a) as [->|Hne]; [right; lia|left; lia].
    + destruct (i <=? a) eqn:E; [lia|].
      destruct (k >=? k + 1) eqn:E2; [lia|].
      apply IH; [exact Hrest|]. right. lia.
Qed.

Lemma select_active_page_shape (s : Storage.t) (k : Z) :
  ring_shape s k -> 0 <= k ->
  exists s', Storage.select_active_page s = Some s'
    /\ ring_shape s' k
    /\ Storage.active_volume_index_ s'
       < Z.of_nat (Datatypes.length (Storage.volumes_ s)).
Proof.
  intros (Ha & Hidx & Hmod & Hc) Hk.
  destruct s as [vols idx a]. cbn [Storage.volumes_ Storage.active_volume_index_
    Storage.active_volume_] in *.
  unfold Storage.select_active_page. cbn [Storage.volumes_].
  rewrite (most_overwritten_shape (Z.of_nat a) k vols 0 (-1) (-1)).
  - destruct ((Z.of_nat a <? 0) || (Z.of_nat a >=? Z.of_nat (Datatypes.length vols)))
      eqn:E.
    { apply orb_true_iff in E. destruct E as [E|E]; lia. }
    cbn [Storage.volumes_ Storage.active_volume_ Storage.active_volume_index_].
    rewrite Nat2Z.id.
    destruct (vols !! a) as [v|] eqn:Hv;
      [|apply lookup_ge_None in Hv; lia].
    pose proof (Hc a v Hv) as Hcv. unfold expected in Hcv.
    rewrite Nat.ltb_irrefl, Nat.eqb_refl in Hcv.
    injection Hcv as Ho Hcl. unfold Volume.get_page in *.
    destruct (_ =? _) eqn:Eq; [apply Z.eqb_eq in Eq; lia|].
    eexists. split; [reflexivity|]. split; [|cbn; lia].
    unfold ring_shape. cbn. repeat split; try lia; [|exact Hc].
    apply Z.mod_small. lia.
  - intros j v Hv. specialize (Hc j v Hv). unfold expected, counters in Hc.
    destruct (Nat.ltb_spec j a); [|destruct (Nat.eqb_spec j a)];
      injection Hc as Ho _; rewrite Ho;
      destruct (0 + Z.of_nat j <=? Z.of_nat a) eqn:E; lia.
  - left. lia.
Qed.

Lemma advance_volume_length (s : Storage.t) (local_rev : Z) :
  Datatypes.length (Storage.volumes_ (Storage.advance_volume_ s local_rev))
  = Datatypes.length (Storage.volumes_ s).
Proof.
  unfold Storage.advance_volume_. destruct (_ =? _); [|reflexivity].
  cbn. rewrite !length_alter. reflexivity.
Qed.

Lemma in_operation_mono (s : Storage.t) (b b' : Z) :
  b <= b' -> in_operation s b -> in_operation s b'.
Proof.
  intros Hb (k & Hs & Hk & Hi). exists k. split; [exact Hs|]. split; lia.
Qed.

Lemma in_operation_rotate (s : Storage.t) (b : Z) (local_rev : Z) :
  in_operation s b ->
  Z.of_nat (Datatypes.length (Storage.volumes_ s)) + b + 1 < 2 ^ 31 ->
  in_operation (Storage.advance_volume_ s local_rev) (b + 1).
Proof.
  intros Hin Hb.
  destruct (Z.eq_dec local_rev (Storage.active_volume_index_ s)) as [->|Hne].
  - destruct Hin as (k & Hs & Hk & Hi).
    destruct (advance_volume_shape s k Hs) as (Hidx & k' & Hk' & Hs');
      [lia|lia|lia|].
    exists k'. split; [exact Hs'|]. split; [lia|].
    rewrite advance_volume_length, Hidx. lia.
  - rewrite advance_volume_stale by assumption.
    apply (in_operation_mono s b); [lia|exact Hin].
Qed.

Lemma in_operation_store (s : Storage.t) (b : Z) (v : Volume.t) (e : Entry.t) :
  in_operation s b ->
  Storage.volumes_ s !! Storage.active_volume_ s = Some v ->
  in_operation
    (Storage.mk
       (<[Storage.active_volume_ s :=
            Volume.set_page v (snd (PageHeader.add_entry (Volume.get_page v) e))]>
          (Storage.volumes_ s))
       (Storage.active_volume_index_ s) (Storage.active_volume_ s)) b.
Proof.
  intros (k & (Ha & Hidx & Hmod & Hc) & Hk & Hi) Hv.
  exists k. unfold ring_shape. cbn. rewrite length_insert.
  repeat split; try assumption; try lia.
  intros i w Hw.
  destruct (decide (Storage.active_volume_ s = i)) as [<-|Hne].
  - rewrite list_lookup_insert_eq in Hw by exact Ha.
    injection Hw as <-. rewrite counters_add_entry. apply Hc. exact Hv.
  - rewrite list_lookup_insert_ne in Hw by exact Hne. apply Hc. exact Hw.
Qed.

Lemma in_operation_write (retries : nat) :
  forall (s : Storage.t) (b : Z) (e : Entry.t),
  in_operation s b ->
  Z.of_nat (Datatypes.length (Storage.volumes_ s)) + b + Z.of_nat retries < 2 ^ 31 ->
  in_operation (snd (Storage.write_impl retries s e)) (b + Z.of_nat retries)
  /\ Datatypes.length (Storage.volumes_ (snd (Storage.write_impl retries s e)))
     = Datatypes.length (Storage.volumes_ s).
Proof.
  induction retries as [|retries IH]; intros s b e Hin Hb.
  - cbn. split; [|reflexivity]. rewrite Z.add_0_r. exact Hin.
  - cbn [Storage.write_impl].
    destruct (Storage.volumes_ s !! Storage.active_volume_ s) as [v|] eqn:Hv.
    2: { cbn. split; [|reflexivity]. apply (in_operation_mono s b); [lia|exact Hin]. }
    pose proof (in_operation_store s b v e Hin Hv) as Hstored.
    destruct (PageHeader.add_entry (Volume.get_page v) e) as [status page].
    cbn [snd] in Hstored.
    set (s1 := Storage.mk _ _ _) in *.
    assert (Hlen1 : Datatypes.length (Storage.volumes_ s1)
                    = Datatypes.length (Storage.volumes_ s))
      by (cbn; apply length_insert).
    destruct status; cbn [snd];
      try (split; [apply (in_operation_mono s1 b); [lia|exact Hstored]|exact Hlen1]).
    destruct (IH (Storage.advance_volume_ s1 (Storage.active_volume_index_ s))
                (b + 1) e) as [Hin' Hlen'].
    + apply in_operation_rotate; [exact Hstored|rewrite Hlen1; lia].
    + rewrite advance_volume_length, Hlen1. lia.
    + split.
      * replace (b + Z.of_nat (S retries)) with (b + 1 + Z.of_nat retries) by lia.
        exact Hin'.
      * rewrite Hlen', advance_volume_length. exact Hlen1.
Qed.

Lemma select_active_page_length (s s' : Storage.t) :
  Storage.select_active_page s = Some s' ->
  Datatypes.length (Storage.volumes_ s') = Datatypes.length (Storage.volumes_ s).
Proof.
  unfold Storage.select_active_page.
  destruct (Storage.most_overwritten _ _ _ _) as [mi mo].
  destruct (_ || _); [discriminate|]. cbn.
  destruct (_ !! _); [|discriminate].
  destruct (_ =? _); intros [= <-]; [|reflexivity].
  rewrite advance_volume_length. reflexivity.
Qed.

Lemma in_operation_run (ops : list Op) :
  forall (s : Storage.t) (b : Z),
  in_operation s b ->
  Z.of_nat (Datatypes.length (Storage.volumes_ s)) + b + total_rotations ops
    < 2 ^ 31 ->
  exists s', run s ops = Some s'
    /\ in_operation s' (b + total_rotations ops).
Proof.
  induction ops as [|op ops IH]; intros s b Hin Hb.
  - exists s. split; [reflexivity|]. cbn. rewrite Z.add_0_r. exact Hin.
  - cbn [total_rotations fold_right] in *. fold (total_rotations ops) in *.
    assert (Hrest : 0 <= total_rotations ops).
    { clear. induction ops as [|o ops IHo]; cbn; [lia|].
      fold (total_rotations ops). destruct o; cbn; lia. }
    cbn [run].
    destruct op as [|retries e|local_rev]; cbn [step rotations] in *.
    + destruct Hin as (k & Hs & Hk & Hi).
      destruct (select_active_page_shape s k Hs) as (s' & Hsel & Hs' & Hidx');
        [lia|].
      rewrite Hsel.
      destruct (IH s' b) as (s'' & Hrun & Hin'').
      * exists k. rewrite (select_active_page_length s s' Hsel).
        split; [exact Hs'|]. split; lia.
      * rewrite (select_active_page_length s s' Hsel). lia.
      * exists s''. split; [exact Hrun|]. rewrite Z.add_0_l. exact Hin''.
    + destruct (in_operation_write retries s b e Hin) as [Hin' Hlen']; [lia|].
      destruct (IH (snd (Storage.write_impl retries s e)) (b + Z.of_nat retries))
        as (s'' & Hrun & Hin''); [exact Hin'|rewrite Hlen'; lia|].
      exists s''. split; [exact Hrun|].
      replace (b + (Z.of_nat retries + total_rotations ops))
        with (b + Z.of_nat retries + total_rotations ops) by lia.
      exact Hin''.
    + destruct (IH (Storage.advance_volume_ s local_rev) (b + 1))
        as (s'' & Hrun & Hin'').
      * apply in_operation_rotate; [exact Hin|lia].
      * rewrite advance_volume_length. lia.
      * exists s''. split; [exact Hrun|].
        replace (b + (1 + total_rotations ops))
          with (b + 1 + total_rotations ops) by lia.
        exact Hin''.
Qed.

Lemma created_in_operation (n : nat) (len ttl max_cache_size : Z) :
  (1 <= n)%nat -> in_operation (created n len ttl max_cache_size) 0.
Proof.
  intros Hn. exists 0. split; [|cbn; lia].
  unfold ring_shape, created.
  cbn [Storage.volumes_ Storage.active_volume_index_ Storage.active_volume_].
  rewrite length_map, length_seqZ. split; [lia|]. split; [lia|].
  split; [apply Z.mod_0_l; lia|].
  intros i v Hv.
  change (map ?f ?l) with (f <$> l) in Hv. rewrite list_lookup_fmap in Hv.
  destruct (seqZ 0 (Z.of_nat n) !! i) as [z|] eqn:Hz; [|discriminate].
  apply lookup_seqZ in Hz. destruct Hz as [-> Hi]. injection Hv as <-.
  unfold expected, create_page.
  destruct i as [|i]; [reflexivity|].
  cbn [Nat.ltb Nat.leb Nat.eqb].
  destruct (0 + Z.of_nat (S i) =? 0) eqn:E;
    [apply Z.eqb_eq in E; lia|reflexivity].
Qed.

End Epochs.

(** The invariant of the epoch counters in normal operation.  A storage of
    [n >= 1] volumes is created; then it is started, written to and
    rotated in any order, every operation running to its end, with fewer
    than 2^31 - n rotations in all.  Every operation succeeds, and in the
    storage that results each volume has open_count >= close_count with a
    difference of at most 1. *)
Theorem epochs_balanced_in_operation
    (n : nat) (len ttl max_cache_size : Z) (ops : list Lifecycle.Op) :
  (1 <= n)%nat ->
  Z.of_nat n + Lifecycle.total_rotations ops < 2 ^ 31 ->
  exists s,
    Lifecycle.run (Lifecycle.created n len ttl max_cache_size) ops = Some s
    /\ Forall Lifecycle.balanced (Storage.volumes_ s).
Proof.
  intros Hn Hb.
  destruct (in_operation_run ops (Lifecycle.created n len ttl max_cache_size) 0)
    as (s & Hrun & k & Hs & _).
  - apply created_in_operation. exact Hn.
  - unfold Lifecycle.created. cbn [Storage.volumes_].
    rewrite length_map, length_seqZ. lia.
  - exists s. split; [exact Hrun|]. apply (ring_shape_balanced s k). exact Hs.
Qed.

(** A ring of three volumes: started, rotated three times (once around),
    started again, and written to. *)
Lemma epochs_balanced_in_operation_witness :
  exists s,
    Lifecycle.run (Lifecycle.created 3 4096 1000 16)
      [Lifecycle.Startup; Lifecycle.Rotate 0; Lifecycle.Rotate 1;
       Lifecycle.Rotate 2; Lifecycle.Startup;
       Lifecycle.Write 2 (Examples.sample 1 5)] = Some s
    /\ Forall Lifecycle.balanced (Storage.volumes_ s).
Proof.
  apply (epochs_balanced_in_operation 3 4096 1000 16
           [Lifecycle.Startup; Lifecycle.Rotate 0; Lifecycle.Rotate 1;
            Lifecycle.Rotate 2; Lifecycle.Startup;
            Lifecycle.Write 2 (Examples.sample 1 5)]).
  - apply le_S, le_S, le_n.
  - vm_compute. reflexivity.
Defined.

(** ** The claims on concrete pages *)

Ltac evaluate :=
  vm_compute; repeat split; first [reflexivity | discriminate | idtac].

(** C1 does not hold of the code.  The page holds three entries with
    timestamp 5 and param_ids 1, 2, 3, sorted and all synced.  For the
    forward query {param 1, 5..5} the entry of slot 0 matches, yet the
    bisection stops on slot 1 (the first probe that equals the key) and the
    scan runs forward from there: slot 0 is never visited and nothing is
    put on the cursor. *)
Example search_omits_synced_match :
  let p := Examples.three_series in
  let query := mkQuery 1 5 5 AKU_CURSOR_DIR_FORWARD in
  validate_query query = true
  /\ PageHeader.sync_index p = 3
  /\ Examples.listing p = [(1, 5); (2, 5); (3, 5)]
  /\ PageHeader.search 4 p query
     = ([PageHeader.ReadIndex 1; PageHeader.ReadIndex 1;
         PageHeader.ReadIndex 2; PageHeader.Complete], PageHeader.Done tt).
Proof. evaluate. Qed.

(** A second way the same claim fails, with distinct timestamps
    0, 10, ..., 990: for the backward query {param 7, 495..500} the
    interpolation probe lands on slot 50, which holds timestamp 500, and
    moves [end] below it; the scan starts at slot 49 and misses slot 50. *)
Example search_backward_skips_probe :
  let p := Examples.decades in
  let query := mkQuery 7 495 500 AKU_CURSOR_DIR_BACKWARD in
  PageHeader.sync_index p = 100
  /\ Entry.param_id (PageHeader.entry_at p 50) = 7
  /\ Entry.time (PageHeader.entry_at p 50) = 500
  /\ Spec.offsets_put (PageHeader.events (PageHeader.search 101 p query)) = []
  /\ PageHeader.outcome (PageHeader.search 101 p query) = PageHeader.Done tt.
Proof. evaluate. Qed.

(** The entry of param 2 that a forward search over [three_series] puts on
    the cursor. *)
Lemma search_emits_only_matching_witness :
  let p := Examples.three_series in
  let query := mkQuery 2 0 10 AKU_CURSOR_DIR_FORWARD in
  Entry.param_id (PageHeader.read_entry p 223) = param query
  /\ lowerbound query <= Entry.time (PageHeader.read_entry p 223)
       <= upperbound query.
Proof.
  apply (search_emits_only_matching Examples.three_series
           (mkQuery 2 0 10 AKU_CURSOR_DIR_FORWARD) 4 223).
  vm_compute. do 2 right. left. reflexivity.
Defined.

(** C2 as stated does not hold of the code: with one entry synced and one
    appended afterwards ([sync_index] 1, [count] 2), a forward search reads
    slot 1 and puts its offset on the cursor. *)
Example search_reads_past_sync_index :
  let p := Examples.one_unsynced in
  let query := mkQuery 1 0 10 AKU_CURSOR_DIR_FORWARD in
  validate_query query = true
  /\ PageHeader.sync_index p = 1
  /\ PageHeader.count p = 2
  /\ PageHeader.search 3 p query
     = ([PageHeader.ReadIndex 0; PageHeader.Put 239;
         PageHeader.ReadIndex 1; PageHeader.Put 223;
         PageHeader.Complete], PageHeader.Done tt).
Proof. evaluate. Qed.

(** The page [one_unsynced], searched forward with fuel 3. *)
Lemma search_traverses_live_index_witness :
  let p := Examples.one_unsynced in
  let query := mkQuery 1 0 10 AKU_CURSOR_DIR_FORWARD in
  PageHeader.outcome (PageHeader.search 3 p query) <> PageHeader.NoFuel
  /\ (forall i,
        In (PageHeader.ReadIndex i)
           (PageHeader.events (PageHeader.search 3 p query)) ->
        0 <= i < PageHeader.count p)
  /\ (forall o,
        In (PageHeader.Put o)
           (PageHeader.events (PageHeader.search 3 p query)) ->
        exists i, 0 <= i < PageHeader.count p /\ PageHeader.page_index p i = o).
Proof.
  apply (search_traverses_live_index Examples.one_unsynced
           (mkQuery 1 0 10 AKU_CURSOR_DIR_FORWARD) 3); evaluate.
Defined.

(** C3 as stated does not hold of the code: on a ring of one volume the
    search the specification describes delivers the entry of param 2,
    while [Storage::search] leaves a recording cursor with no result and
    not completed. *)
Example storage_search_delivers_nothing :
  let query := mkQuery 2 0 10 AKU_CURSOR_DIR_FORWARD in
  let cursor :=
    RecordingCursor.replay
      (PageHeader.events (Storage.search Examples.one_volume))
      RecordingCursor.new in
  map snd (Spec.storage_search 4 Examples.one_volume query) = [223]
  /\ RecordingCursor.results cursor = []
  /\ RecordingCursor.completed cursor = false.
Proof. evaluate. Qed.

(** C3, as the code has it.  [Storage::search] has an empty body: for
    every storage it returns at once, having read no page and made no call
    (put, complete or set_error) on the cursor it was given, so that a
    cursor that records what it receives is after the call what it was
    before: no result is delivered to the caller and the stream is not
    completed. *)
Theorem storage_search_is_empty (s : Storage.t) (cursor : RecordingCursor.t) :
  PageHeader.events (Storage.search s) = []
  /\ PageHeader.outcome (Storage.search s) = PageHeader.Done tt
  /\ RecordingCursor.replay (PageHeader.events (Storage.search s)) cursor
     = cursor.
Proof.
  unfold Storage.search. repeat split.
Qed.

(** One sample appended to a blank page of 256 bytes. *)
Lemma add_entry_success_witness :
  let p := Examples.blank 256 in
  let e := Examples.sample 1 5 in
  let p' := snd (PageHeader.add_entry p e) in
  fst (PageHeader.add_entry p e) = AKU_WRITE_STATUS_SUCCESS
  /\ PageHeader.last_offset p' = PageHeader.last_offset p - Entry.length e
  /\ (forall k, 0 <= k < Entry.length e ->
        PageHeader.cdata p' (PageHeader.last_offset p' + k) = e k)
  /\ PageHeader.page_index p' (PageHeader.count p) = PageHeader.last_offset p'
  /\ PageHeader.count p' = PageHeader.count p + 1
  /\ PageHeader.inside_bbox p' (Entry.param_id e) (Entry.time e) = true
  /\ (forall param ts, PageHeader.inside_bbox p param ts = true ->
        PageHeader.inside_bbox p' param ts = true).
Proof.
  apply (add_entry_success (Examples.blank 256) (Examples.sample 1 5)); evaluate.
Defined.

(** C5 as stated does not hold of the code: 11 bytes are free and the
    entry needs 12 + 4, so the required bytes exceed the free space; the
    entry is also shorter than the header, and the status is BAD_DATA, not
    OVERFLOW. *)
Example short_entry_on_full_page :
  let p := Examples.nearly_full in
  let e := Examples.short_entry in
  PageHeader.last_offset p - PageHeader.end_of_index p = 11
  /\ Entry.length e + sizeof_EntryOffset = 16
  /\ Entry.length e < sizeof_Entry
  /\ fst (PageHeader.add_entry p e) = AKU_WRITE_STATUS_BAD_DATA.
Proof. evaluate. Qed.

(** The page [nearly_full] and the entry [short_entry]. *)
Lemma add_entry_refusals_witness :
  let p := Examples.nearly_full in
  let e := Examples.short_entry in
  (Entry.length e < sizeof_Entry ->
     PageHeader.add_entry p e = (AKU_WRITE_STATUS_BAD_DATA, p))
  /\ (sizeof_Entry <= Entry.length e ->
      Entry.length e + sizeof_EntryOffset
        > PageHeader.last_offset p - PageHeader.end_of_index p ->
      PageHeader.add_entry p e = (AKU_WRITE_STATUS_OVERFLOW, p)).
Proof.
  apply (add_entry_refusals Examples.nearly_full Examples.short_entry); evaluate.
Defined.

(** C6 does not hold of the code.  Two samples of one series are
    appended in timestamp order, -1 then 0; [sort] compares timestamps as
    unsigned 64-bit integers and puts the sample at 0 first. *)
Example sort_misplaces_negative_timestamp :
  Examples.listing Examples.before_epoch = [(1, -1); (1, 0)]
  /\ Examples.listing (PageHeader.sort Examples.before_epoch)
     = [(1, 0); (1, -1)].
Proof. evaluate. Qed.

(** Two samples, one before the epoch, appended to a blank page. *)
Lemma bbox_contains_stored_entries_witness :
  let p0 := Examples.blank 256 in
  let es := [Examples.sample 3 (-5); Examples.sample 2 7] in
  let p := Examples.append_all p0 es in
  PageHeader.count p = Z.of_nat (Datatypes.length es)
  /\ forall (i : nat) (e : Entry.t), es !! i = Some e ->
       let stored := PageHeader.entry_at p (Z.of_nat i) in
       Entry.param_id stored = Entry.param_id e
       /\ Entry.time stored = Entry.time e
       /\ min_timestamp (PageHeader.bbox p) <= Entry.time stored
            <= max_timestamp (PageHeader.bbox p)
       /\ min_id (PageHeader.bbox p) <= Entry.param_id stored
            <= max_id (PageHeader.bbox p).
Proof.
  apply (bbox_contains_stored_entries (Examples.blank 256)
           (Examples.append_all (Examples.blank 256)
              [Examples.sample 3 (-5); Examples.sample 2 7])
           [Examples.sample 3 (-5); Examples.sample 2 7]); evaluate.
Defined.

(** C8 does not hold of the code.  A rotation that stopped after the
    [close] of the full volume leaves it with open_count = close_count = 1.
    At the next start [select_active_page] selects that volume, finds the
    counts equal and calls [advance_volume_], which closes it once more:
    its close_count becomes 2 while its open_count is still 1. *)
Example recovery_closes_twice :
  Examples.epochs Examples.new_ring = [(1, 0); (0, 0)]
  /\ Examples.epochs Examples.interrupted_ring = [(1, 1); (0, 0)]
  /\ option_map Examples.epochs
       (Storage.select_active_page Examples.interrupted_ring)
     = Some [(1, 2); (1, 0)].
Proof. evaluate. Qed.

(** C9 does not hold of the code.  On a page with no entry [count - 1]
    wraps to 4294967295; a backward search whose key is above the (still
    inverted) bounding box starts its scan there, a forward one whose key
    is below it starts at slot 0: both read a slot of an index that has
    none, whatever fuel the scan is given. *)
Example search_reads_empty_index :
  PageHeader.count (Examples.blank 4096) = 0
  /\ (forall fuel, exists rest,
        PageHeader.events
          (PageHeader.search (S fuel) (Examples.blank 4096)
             (mkQuery 1 0 10 AKU_CURSOR_DIR_BACKWARD))
        = PageHeader.ReadIndex 4294967295 :: rest)
  /\ (forall fuel, exists rest,
        PageHeader.events
          (PageHeader.search (S fuel) (Examples.blank 4096)
             (mkQuery 1 0 10 AKU_CURSOR_DIR_FORWARD))
        = PageHeader.ReadIndex 0 :: rest).
Proof.
  split; [reflexivity|]. split; intros fuel.
  - replace (PageHeader.search (S fuel) (Examples.blank 4096)
               (mkQuery 1 0 10 AKU_CURSOR_DIR_BACKWARD))
      with (PageHeader.scan_backward (S fuel) (Examples.blank 4096)
              (mkQuery 1 0 10 AKU_CURSOR_DIR_BACKWARD) 4294967295)
      by reflexivity.
    apply scan_backward_first_read.
  - replace (PageHeader.search (S fuel) (Examples.blank 4096)
               (mkQuery 1 0 10 AKU_CURSOR_DIR_FORWARD))
      with (PageHeader.scan_forward (S fuel) (Examples.blank 4096)
              (mkQuery 1 0 10 AKU_CURSOR_DIR_FORWARD) 4294967295 0)
      by reflexivity.
    apply scan_forward_first_read.
Qed.

(** C10 does not hold of the code.  Sixty-five entries share timestamp
    5, so the bounding box has min = max = 5; for a query whose key is 5
    the interval is not below the cutoff, the interpolation probe is
    computed, and its divisor is 5 - 5. *)
Example interpolation_divides_by_zero :
  PageHeader.count Examples.same_instant = 65
  /\ min_timestamp (PageHeader.bbox Examples.same_instant) = 5
  /\ max_timestamp (PageHeader.bbox Examples.same_instant) = 5
  /\ forall fuel,
       PageHeader.search fuel Examples.same_instant
         (mkQuery 1 5 5 AKU_CURSOR_DIR_FORWARD)
       = ([], PageHeader.Crash PageHeader.DivisionByZero).
Proof.
  split; [vm_compute; reflexivity|].
  split; [vm_compute; reflexivity|].
  split; [vm_compute; reflexivity|].
  intros fuel. lazy. reflexivity.
Qed.
(** ** Reading back what was appended *)

(** A property of (page, entries held) that every accepted append keeps
    holds after a run of accepted appends. *)
Section AppendInvariant.
Variable Inv : PageHeader.t -> list Entry.t -> Prop.
Hypothesis Inv_appended : forall p es e,
  PageHeader.holds p es -> Inv p es ->
  sizeof_Entry <= Entry.length e ->
  Entry.length e + sizeof_EntryOffset
    <= PageHeader.last_offset p - PageHeader.end_of_index p ->
  Inv (PageHeader.appended p e) (es ++ [e]).

Lemma add_entries_invariant (es : list Entry.t) :
  forall (p p' : PageHeader.t) (es0 : list Entry.t),
  PageHeader.holds p es0 -> Inv p es0 ->
  PageHeader.add_entries p es = Some p' ->
  Inv p' (es0 ++ es).
Proof.
  induction es as [|e es IH]; intros p p' es0 Hh Hi Hrun.
  - cbn in Hrun. injection Hrun as <-. rewrite app_nil_r. exact Hi.
  - cbn [PageHeader.add_entries] in Hrun.
    destruct (PageHeader.add_entry p e) as [st q] eqn:Hadd.
    destruct st; try discriminate.
    pose proof Hh as (Hr & Hacc & Hrest).
    assert (Hfree : 0 <= PageHeader.last_offset p - PageHeader.end_of_index p < 2 ^ 31).
    { destruct Hr as [Hc _]. unfold PageHeader.end_of_index, sizeof_PageHeader,
        sizeof_EntryOffset in *. lia. }
    destruct (passed_checks_of_success p e Hfree) as [Hlen Hfit].
    { rewrite Hadd. reflexivity. }
    rewrite (add_entry_fits p e Hr Hlen Hfit) in Hadd. injection Hadd as <-.
    replace (es0 ++ e :: es) with ((es0 ++ [e]) ++ es)
      by (rewrite <- app_assoc; reflexivity).
    apply (IH (PageHeader.appended p e) p'); [| |exact Hrun].
    + apply holds_appended; assumption.
    + apply Inv_appended; assumption.
Qed.

End AppendInvariant.

Lemma stores_appended (p : PageHeader.t) (es : list Entry.t) (e : Entry.t) :
  PageHeader.holds p es -> PageHeader.stores p es ->
  sizeof_Entry <= Entry.length e ->
  Entry.length e + sizeof_EntryOffset
    <= PageHeader.last_offset p - PageHeader.end_of_index p ->
  PageHeader.stores (PageHeader.appended p e) (es ++ [e]).
Proof.
  intros (Hr & Hacc & Hcnt & _) Hst Hlen Hfit i e' Hi.
  pose proof (entry_length_range e) as Hl.
  assert (Hlast : PageHeader.last_offset (PageHeader.appended p e)
                  = PageHeader.last_offset p - Entry.length e) by reflexivity.
  assert (Hix : PageHeader.page_index (PageHeader.appended p e) (Z.of_nat i)
                = if Z.of_nat i =? PageHeader.count p
                  then PageHeader.last_offset p - Entry.length e
                  else PageHeader.page_index p (Z.of_nat i)) by reflexivity.
  assert (Hmem : forall a, PageHeader.cdata (PageHeader.appended p e) a
                 = memcpy (PageHeader.cdata p)
                     (PageHeader.last_offset p - Entry.length e) e
                     (Entry.length e) a) by reflexivity.
  rewrite Hlast, Hix.
  destruct (Z.of_nat i =? PageHeader.count p) eqn:E.
  - apply Z.eqb_eq in E.
    assert (i = Datatypes.length es) by lia. subst i.
    rewrite lookup_app_r in Hi by lia.
    rewrite Nat.sub_diag in Hi. cbn in Hi. injection Hi as <-.
    split; [lia|]. intros k Hk. rewrite Hmem.
    rewrite memcpy_inside by lia. f_equal. lia.
  - apply Z.eqb_neq in E.
    assert (Hlt : (i < Datatypes.length es)%nat).
    { apply lookup_lt_Some in Hi. rewrite length_app in Hi. cbn in Hi. lia. }
    rewrite lookup_app_l in Hi by assumption.
    destruct (Hst i e' Hi) as [Ha Hb].
    split; [lia|]. intros k Hk. rewrite Hmem.
    rewrite memcpy_outside by lia. apply Hb. exact Hk.
Qed.

(** An accepted record is shorter than 2^31 bytes. *)
Lemma lengths_appended (p : PageHeader.t) (es : list Entry.t) (e : Entry.t) :
  PageHeader.holds p es ->
  Forall (fun e => sizeof_Entry <= Entry.length e < 2 ^ 31) es ->
  sizeof_Entry <= Entry.length e ->
  Entry.length e + sizeof_EntryOffset
    <= PageHeader.last_offset p - PageHeader.end_of_index p ->
  Forall (fun e => sizeof_Entry <= Entry.length e < 2 ^ 31) (es ++ [e]).
Proof.
  intros (Hr & Hacc & Hcnt & _) Hall Hlen Hfit.
  apply Forall_app. split; [exact Hall|]. constructor; [|constructor].
  destruct Hr as [Hc _].
  unfold PageHeader.end_of_index, sizeof_PageHeader, sizeof_EntryOffset in *.
  lia.
Qed.

Lemma laid_out_appended (p : PageHeader.t) (es : list Entry.t) (e : Entry.t) :
  PageHeader.holds p es ->
  PageHeader.stores p es /\ PageHeader.laid_out p es ->
  sizeof_Entry <= Entry.length e ->
  Entry.length e + sizeof_EntryOffset
    <= PageHeader.last_offset p - PageHeader.end_of_index p ->
  PageHeader.stores (PageHeader.appended p e) (es ++ [e])
  /\ PageHeader.laid_out (PageHeader.appended p e) (es ++ [e]).
Proof.
  intros Hh [Hst (Htop & Hin & Hsep)] Hlen Hfit.
  split; [apply stores_appended; assumption|].
  destruct Hh as (Hr & Hacc & Hcnt & _).
  pose proof (entry_length_range e) as Hl.
  assert (Hlast : PageHeader.last_offset (PageHeader.appended p e)
                  = PageHeader.last_offset p - Entry.length e) by reflexivity.
  assert (Hlength : PageHeader.length (PageHeader.appended p e)
                    = PageHeader.length p) by reflexivity.
  assert (Heoi : PageHeader.end_of_index (PageHeader.appended p e)
                 = PageHeader.end_of_index p + sizeof_EntryOffset).
  { unfold PageHeader.end_of_index, sizeof_EntryOffset.
    change (PageHeader.count (PageHeader.appended p e)) with (PageHeader.count p + 1).
    lia. }
  assert (Hix : forall i : nat,
            PageHeader.page_index (PageHeader.appended p e) (Z.of_nat i)
            = if Z.of_nat i =? PageHeader.count p
              then PageHeader.last_offset p - Entry.length e
              else PageHeader.page_index p (Z.of_nat i)) by reflexivity.
  assert (Hold : forall (i : nat) (e' : Entry.t), (es ++ [e]) !! i = Some e' ->
            (i = Datatypes.length es /\ e' = e)
            \/ ((i < Datatypes.length es)%nat /\ es !! i = Some e')).
  { intros i e' Hi.
    destruct (Nat.lt_ge_cases i (Datatypes.length es)) as [Hlt|Hge].
    - right. rewrite lookup_app_l in Hi by assumption. split; assumption.
    - left. pose proof (lookup_lt_Some _ _ _ Hi) as Hb.
      rewrite length_app in Hb. cbn in Hb.
      assert (i = Datatypes.length es) by lia. subst i.
      rewrite lookup_app_r in Hi by lia. rewrite Nat.sub_diag in Hi.
      cbn in Hi. injection Hi as <-. split; reflexivity. }
  unfold PageHeader.laid_out. rewrite Hlast, Hlength, Heoi.
  unfold sizeof_EntryOffset, sizeof_Entry in *.
  split; [lia|]. split.
  - intros i e' Hi. rewrite Hix.
    destruct (Hold i e' Hi) as [[-> ->]|[Hlt Hi']].
    + rewrite Hcnt, Z.eqb_refl. lia.
    + destruct (Z.of_nat i =? PageHeader.count p) eqn:E;
        [apply Z.eqb_eq in E; lia|].
      destruct (Hin i e' Hi') as [H1 H2]. destruct (Hst i e' Hi') as [H3 _]. lia.
  - intros i j ei ej Hi Hj Hij. rewrite !Hix.
    destruct (Hold j ej Hj) as [[-> ->]|[Hjlt Hj']].
    + destruct (Hold i ei Hi) as [[-> _]|[Hilt Hi']]; [lia|].
      rewrite Hcnt, Z.eqb_refl.
      destruct (Z.of_nat i =? Z.of_nat (Datatypes.length es)) eqn:E;
        [apply Z.eqb_eq in E; lia|].
      destruct (Hst i ei Hi') as [H3 _]. lia.
    + destruct (Hold i ei Hi) as [[-> _]|[Hilt Hi']]; [lia|].
      destruct (Z.of_nat i =? PageHeader.count p) eqn:E1;
        [apply Z.eqb_eq in E1; lia|].
      destruct (Z.of_nat j =? PageHeader.count p) eqn:E2;
        [apply Z.eqb_eq in E2; lia|].
      exact (Hsep i j ei ej Hi' Hj' Hij).
Qed.

(** What a run of accepted appends on a fresh page leaves. *)
Lemma built_page (p0 p : PageHeader.t) (es : list Entry.t) :
  PageHeader.is_fresh p0 ->
  sizeof_PageHeader < PageHeader.length p0 <= 2 ^ 31 ->
  PageHeader.add_entries p0 es = Some p ->
  PageHeader.holds p es
  /\ PageHeader.stores p es
  /\ PageHeader.laid_out p es
  /\ Forall (fun e => sizeof_Entry <= Entry.length e < 2 ^ 31) es.
Proof.
  intros Hfresh Hlen Hrun.
  pose proof (holds_fresh p0 Hfresh Hlen) as Hh0.
  split; [exact (holds_add_entries es p0 p [] Hh0 Hrun)|].
  assert (Hboth : PageHeader.stores p es /\ PageHeader.laid_out p es);
    [|split; [apply Hboth|split; [apply Hboth|]]].
  - apply (add_entries_invariant
             (fun p es => PageHeader.stores p es /\ PageHeader.laid_out p es)
             laid_out_appended es p0 p [] Hh0); [|exact Hrun].
    destruct Hfresh as (_ & _ & Hlo). unfold sizeof_PageHeader in Hlen.
    rewrite u32_small in Hlo by lia.
    split; [intros i e Hi; discriminate|].
    split; [lia|]. split; intros; discriminate.
  - apply (add_entries_invariant
             (fun _ es => Forall (fun e => sizeof_Entry <= Entry.length e < 2 ^ 31) es)
             lengths_appended es p0 p [] Hh0); [constructor|exact Hrun].
Qed.

Lemma s32_of_length (n : Z) : 0 <= n < 2 ^ 31 -> s32 n = n.
Proof. intros H. apply s32_small. lia. Qed.

(** [-1*length] as [copy_entry] computes and returns it. *)
Lemma negated_length (n : Z) :
  0 < n < 2 ^ 31 -> s32 (u32 (u32 (-1) * n)) = - n.
Proof.
  intros H. replace (u32 (-1)) with (2 ^ 32 - 1) by reflexivity.
  assert (Hu : u32 ((2 ^ 32 - 1) * n) = 2 ^ 32 - n).
  { unfold u32. replace ((2 ^ 32 - 1) * n) with (2 ^ 32 - n + (n - 1) * 2 ^ 32) by lia.
    rewrite Z.mod_add by lia. apply Z.mod_small. lia. }
  rewrite Hu. rewrite s32_of_large by lia. lia.
Qed.

(** The slot of a held entry is live and designates its record. *)
Lemma read_entry_at_held (p : PageHeader.t) (es : list Entry.t)
    (i : nat) (e : Entry.t) :
  PageHeader.holds p es -> es !! i = Some e ->
  PageHeader.read_entry_at p (Z.of_nat i) = Some (PageHeader.entry_at p (Z.of_nat i))
  /\ Entry.length (PageHeader.entry_at p (Z.of_nat i)) = Entry.length e.
Proof.
  intros (_ & _ & Hcnt & Hslots) Hi.
  pose proof (lookup_lt_Some _ _ _ Hi) as Hlt.
  destruct (Hslots i e Hi) as (_ & Hlen & _).
  split; [|exact Hlen].
  unfold PageHeader.read_entry_at, PageHeader.entry_at.
  destruct (Z.of_nat i >=? 0) eqn:E1; [|rewrite Z.geb_leb in E1; lia].
  destruct (Z.of_nat i <? PageHeader.count p) eqn:E2; [reflexivity|lia].
Qed.

(** What [copy_entry] does with a record of [n] bytes, [n] below 2^31. *)
Lemma copy_entry_cases (p : PageHeader.t) (offset : EntryOffset)
    (receiver : Entry.t) (n : Z) :
  Entry.length (PageHeader.read_entry p offset) = n -> 0 < n < 2 ^ 31 ->
  PageHeader.copy_entry p offset receiver
  = if n >? Entry.length receiver then (- n, receiver)
    else (n, memcpy receiver 0 (PageHeader.read_entry p offset) n).
Proof.
  intros Hn Hr. unfold PageHeader.copy_entry. cbn zeta. rewrite Hn.
  rewrite negated_length by assumption. rewrite s32_of_length by lia.
  reflexivity.
Qed.

(** Appended entries read back.  Take a fresh page (as its constructor or
    [reuse] leaves it) of a size that [int] space accounting covers and a
    run of [add_entry] calls on it that all return SUCCESS.  Then
    [read_entry_at] with the position of an entry in the run returns a
    pointer to a record whose bytes are those of the entry, and
    [get_entry_length_at] and [get_entry_length] return its length. *)
Theorem appended_entries_read_back
    (p0 p : PageHeader.t) (es : list Entry.t) (i : nat) (e : Entry.t) :
  PageHeader.is_fresh p0 ->
  sizeof_PageHeader < PageHeader.length p0 <= 2 ^ 31 ->
  PageHeader.add_entries p0 es = Some p ->
  es !! i = Some e ->
  exists r, PageHeader.read_entry_at p (Z.of_nat i) = Some r
    /\ (forall k, 0 <= k < Entry.length e -> r k = e k)
    /\ PageHeader.get_entry_length_at p (Z.of_nat i) = Entry.length e
    /\ PageHeader.get_entry_length p (PageHeader.page_index p (Z.of_nat i))
       = Entry.length e.
Proof.
  intros Hfresh Hlen Hrun Hi.
  destruct (built_page p0 p es Hfresh Hlen Hrun) as (Hh & Hst & _ & Hall).
  destruct (read_entry_at_held p es i e Hh Hi) as [Hread Hl].
  assert (Hsmall : sizeof_Entry <= Entry.length e < 2 ^ 31).
  { rewrite Forall_lookup in Hall. exact (Hall i e Hi). }
  unfold sizeof_Entry in Hsmall.
  exists (PageHeader.entry_at p (Z.of_nat i)).
  split; [exact Hread|]. split.
  - intros k Hk. destruct (Hst i e Hi) as [_ Hbytes].
    unfold PageHeader.entry_at, PageHeader.read_entry, at_offset.
    apply Hbytes. exact Hk.
  - unfold PageHeader.get_entry_length_at, PageHeader.get_entry_length.
    rewrite Hread. fold (PageHeader.entry_at p (Z.of_nat i)). rewrite Hl.
    split; apply s32_of_length; lia.
Qed.

(** Two samples appended to a blank page; the second is read back. *)
Lemma appended_entries_read_back_witness :
  let es := [Examples.sample 3 (-5); Examples.sample 2 7] in
  let p := Examples.append_all (Examples.blank 256) es in
  exists r, PageHeader.read_entry_at p 1 = Some r
    /\ (forall k, 0 <= k < Entry.length (Examples.sample 2 7) ->
          r k = Examples.sample 2 7 k)
    /\ PageHeader.get_entry_length_at p 1 = Entry.length (Examples.sample 2 7)
    /\ PageHeader.get_entry_length p (PageHeader.page_index p 1)
       = Entry.length (Examples.sample 2 7).
Proof.
  apply (appended_entries_read_back (Examples.blank 256)
           (Examples.append_all (Examples.blank 256)
              [Examples.sample 3 (-5); Examples.sample 2 7])
           [Examples.sample 3 (-5); Examples.sample 2 7] 1%nat
           (Examples.sample 2 7)); evaluate.
Defined.

(** Copying an appended entry out.  On a page built as above,
    [copy_entry_at] with the position of an entry, and [copy_entry] with
    the offset of its slot, do the same thing.  When the receiver
    announces room for the entry they return its length and fill the first
    [length] bytes of the receiver with the bytes of the entry, leaving the
    bytes past them alone; when it announces less they return the negated
    length and leave the receiver as it was. *)
Theorem copy_entry_returns_appended
    (p0 p : PageHeader.t) (es : list Entry.t) (i : nat) (e receiver : Entry.t) :
  PageHeader.is_fresh p0 ->
  sizeof_PageHeader < PageHeader.length p0 <= 2 ^ 31 ->
  PageHeader.add_entries p0 es = Some p ->
  es !! i = Some e ->
  let result := PageHeader.copy_entry_at p (Z.of_nat i) receiver in
  PageHeader.copy_entry p (PageHeader.page_index p (Z.of_nat i)) receiver = result
  /\ (Entry.length e <= Entry.length receiver ->
        fst result = Entry.length e
        /\ (forall k, 0 <= k < Entry.length e -> snd result k = e k)
        /\ (forall k, k < 0 \/ Entry.length e <= k -> snd result k = receiver k))
  /\ (Entry.length receiver < Entry.length e ->
        result = (- Entry.length e, receiver)).
Proof.
  intros Hfresh Hlen Hrun Hi result.
  destruct (built_page p0 p es Hfresh Hlen Hrun) as (Hh & Hst & _ & Hall).
  destruct (read_entry_at_held p es i e Hh Hi) as [Hread Hl].
  assert (Hsmall : sizeof_Entry <= Entry.length e < 2 ^ 31).
  { rewrite Forall_lookup in Hall. exact (Hall i e Hi). }
  unfold sizeof_Entry in Hsmall.
  assert (Hsame : PageHeader.copy_entry p (PageHeader.page_index p (Z.of_nat i))
                    receiver = result).
  { subst result. unfold PageHeader.copy_entry_at, PageHeader.copy_entry.
    rewrite Hread. reflexivity. }
  split; [exact Hsame|]. rewrite <- Hsame.
  rewrite (copy_entry_cases p _ receiver (Entry.length e)) by (exact Hl || lia).
  split.
  - intros Hroom.
    destruct (Entry.length e >? Entry.length receiver) eqn:E; [lia|].
    cbn [fst snd]. split; [reflexivity|]. split.
    + intros k Hk. rewrite memcpy_inside by lia.
      destruct (Hst i e Hi) as [_ Hbytes].
      unfold PageHeader.read_entry, at_offset. rewrite Z.sub_0_r.
      apply Hbytes. exact Hk.
    + intros k Hk. apply memcpy_outside. lia.
  - intros Hshort.
    destruct (Entry.length e >? Entry.length receiver) eqn:E; [reflexivity|lia].
Qed.

(** The second of two appended samples, copied into a receiver that
    announces 16 bytes. *)
Lemma copy_entry_returns_appended_witness :
  let es := [Examples.sample 3 (-5); Examples.sample 2 7] in
  let p := Examples.append_all (Examples.blank 256) es in
  let e := Examples.sample 2 7 in
  let receiver := Entry.new 0 0 16 in
  let result := PageHeader.copy_entry_at p 1 receiver in
  PageHeader.copy_entry p (PageHeader.page_index p 1) receiver = result
  /\ (Entry.length e <= Entry.length receiver ->
        fst result = Entry.length e
        /\ (forall k, 0 <= k < Entry.length e -> snd result k = e k)
        /\ (forall k, k < 0 \/ Entry.length e <= k -> snd result k = receiver k))
  /\ (Entry.length receiver < Entry.length e ->
        result = (- Entry.length e, receiver)).
Proof.
  apply (copy_entry_returns_appended (Examples.blank 256)
           (Examples.append_all (Examples.blank 256)
              [Examples.sample 3 (-5); Examples.sample 2 7])
           [Examples.sample 3 (-5); Examples.sample 2 7] 1%nat
           (Examples.sample 2 7) (Entry.new 0 0 16)); evaluate.
Defined.

(** Reading outside the live index.  On every page, an index that is
    negative or not below [count] makes [read_entry_at] return the null
    pointer, [get_entry_length_at] return 0, and [copy_entry_at] return 0
    without touching the receiver. *)
Theorem reads_outside_index_yield_nothing
    (p : PageHeader.t) (index : Z) (receiver : Entry.t) :
  index < 0 \/ PageHeader.count p <= index ->
  PageHeader.read_entry_at p index = None
  /\ PageHeader.get_entry_length_at p index = 0
  /\ PageHeader.copy_entry_at p index receiver = (0, receiver).
Proof.
  intros Hout.
  assert (Hnone : PageHeader.read_entry_at p index = None).
  { unfold PageHeader.read_entry_at.
    destruct (index >=? 0) eqn:E1; [|reflexivity].
    destruct (index <? PageHeader.count p) eqn:E2; [|reflexivity].
    rewrite Z.geb_leb in E1. lia. }
  unfold PageHeader.get_entry_length_at, PageHeader.copy_entry_at.
  rewrite Hnone. repeat split.
Qed.

(** Index 2 of a page that holds two entries. *)
Lemma reads_outside_index_yield_nothing_witness :
  let p := Examples.append_all (Examples.blank 256)
             [Examples.sample 3 (-5); Examples.sample 2 7] in
  PageHeader.read_entry_at p 2 = None
  /\ PageHeader.get_entry_length_at p 2 = 0
  /\ PageHeader.copy_entry_at p 2 (Entry.new 0 0 16) = (0, Entry.new 0 0 16).
Proof.
  apply (reads_outside_index_yield_nothing
           (Examples.append_all (Examples.blank 256)
              [Examples.sample 3 (-5); Examples.sample 2 7])
           2 (Entry.new 0 0 16)).
  right. vm_compute. discriminate.
Defined.

(** ** Space accounting *)

Lemma space_required_nonneg (es : list Entry.t) : 0 <= PageHeader.space_required es.
Proof.
  unfold PageHeader.space_required.
  induction es as [|e es IH]; cbn [fold_right]; [lia|].
  pose proof (entry_length_range e). unfold sizeof_EntryOffset in *. lia.
Qed.

(** A run of appends is accepted as a whole exactly when every entry has
    at least a header and the run fits in the free space; the free space
    then shrinks by what the run requires. *)
Lemma add_entries_accounting (es : list Entry.t) :
  forall (p : PageHeader.t) (es0 : list Entry.t),
  PageHeader.holds p es0 ->
  match PageHeader.add_entries p es with
  | Some p' =>
    Forall (fun e => sizeof_Entry <= Entry.length e) es
    /\ PageHeader.space_required es
         <= PageHeader.last_offset p - PageHeader.end_of_index p
    /\ PageHeader.last_offset p' - PageHeader.end_of_index p'
       = PageHeader.last_offset p - PageHeader.end_of_index p
         - PageHeader.space_required es
  | None =>
    ~ (Forall (fun e => sizeof_Entry <= Entry.length e) es
       /\ PageHeader.space_required es
            <= PageHeader.last_offset p - PageHeader.end_of_index p)
  end.
Proof.
  induction es as [|e es IH]; intros p es0 Hh.
  - cbn. destruct Hh as (_ & Hacc & _). repeat split; [constructor|lia|lia].
  - cbn [PageHeader.add_entries].
    change (PageHeader.space_required (e :: es))
      with (Entry.length e + sizeof_EntryOffset + PageHeader.space_required es).
    pose proof (space_required_nonneg es) as Hnn.
    pose proof Hh as (Hr & Hacc & _).
    assert (Hfree : 0 <= PageHeader.last_offset p - PageHeader.end_of_index p < 2 ^ 31).
    { destruct Hr as [Hc _]. unfold PageHeader.end_of_index, sizeof_PageHeader,
        sizeof_EntryOffset in *. lia. }
    destruct (Z_lt_ge_dec (Entry.length e) sizeof_Entry) as [Hshort|Hlen].
    { rewrite add_entry_bad_data by assumption.
      intros [Hall _]. inversion Hall; subst. lia. }
    destruct (Z_le_gt_dec (Entry.length e + sizeof_EntryOffset)
                (PageHeader.last_offset p - PageHeader.end_of_index p))
      as [Hfit|Hover].
    + rewrite (add_entry_fits p e Hr) by lia.
      specialize (IH (PageHeader.appended p e) (es0 ++ [e])
                    (holds_appended p es0 e Hh ltac:(lia) Hfit)).
      assert (Hstep : PageHeader.last_offset (PageHeader.appended p e)
                      - PageHeader.end_of_index (PageHeader.appended p e)
                      = PageHeader.last_offset p - PageHeader.end_of_index p
                        - (Entry.length e + sizeof_EntryOffset)).
      { unfold PageHeader.end_of_index, sizeof_EntryOffset.
        change (PageHeader.count (PageHeader.appended p e))
          with (PageHeader.count p + 1).
        change (PageHeader.last_offset (PageHeader.appended p e))
          with (PageHeader.last_offset p - Entry.length e). lia. }
      rewrite Hstep in IH.
      destruct (PageHeader.add_entries (PageHeader.appended p e) es) as [p'|].
      * destruct IH as (Hall & Hle & Heq).
        split; [constructor; [lia|exact Hall]|]. split; lia.
      * intros [Hall Hle]. apply IH. inversion Hall; subst. split; [assumption|lia].
    + assert (Hst : fst (PageHeader.add_entry p e) <> AKU_WRITE_STATUS_SUCCESS).
      { intros Hs. destruct (passed_checks_of_success p e Hfree Hs). lia. }
      destruct (PageHeader.add_entry p e) as [st q]. cbn [fst] in Hst.
      destruct st; try contradiction; intros [_ Hle]; lia.
Qed.

(** Capacity of a page.  On a fresh page of [length] bytes, [length] in
    (sizeof(PageHeader), 2^31], a run of [add_entry] calls returns SUCCESS
    throughout exactly when every entry is at least a header long and the
    lengths plus one index slot each sum to at most
    [length - 1 - sizeof(PageHeader)]; [get_free_space] then returns that
    amount less the sum. *)
Theorem page_capacity (p0 : PageHeader.t) (es : list Entry.t) :
  PageHeader.is_fresh p0 ->
  sizeof_PageHeader < PageHeader.length p0 <= 2 ^ 31 ->
  ((exists p, PageHeader.add_entries p0 es = Some p)
   <-> Forall (fun e => sizeof_Entry <= Entry.length e) es
       /\ PageHeader.space_required es
            <= PageHeader.length p0 - 1 - sizeof_PageHeader)
  /\ forall p, PageHeader.add_entries p0 es = Some p ->
       PageHeader.get_free_space p
       = PageHeader.length p0 - 1 - sizeof_PageHeader
         - PageHeader.space_required es.
Proof.
  intros Hfresh Hlen.
  pose proof (holds_fresh p0 Hfresh Hlen) as Hh0.
  pose proof (add_entries_accounting es p0 [] Hh0) as Hacc.
  assert (Hfree0 : PageHeader.last_offset p0 - PageHeader.end_of_index p0
                   = PageHeader.length p0 - 1 - sizeof_PageHeader).
  { destruct Hfresh as (Hc & _ & Hlo). unfold sizeof_PageHeader in Hlen.
    rewrite u32_small in Hlo by lia.
    unfold PageHeader.end_of_index. rewrite Hc, Hlo. lia. }
  rewrite Hfree0 in Hacc.
  split.
  - destruct (PageHeader.add_entries p0 es) as [p|].
    + destruct Hacc as (Hall & Hle & _). split; [intros _; split; assumption|].
      intros _. exists p. reflexivity.
    + split; [intros [p Hp]; discriminate|]. intros H. contradiction (Hacc H).
  - intros p Hrun. rewrite Hrun in Hacc. destruct Hacc as (_ & Hle & Heq).
    pose proof (holds_add_entries es p0 p [] Hh0 Hrun) as (Hr & Hbound & _).
    unfold PageHeader.get_free_space. cbn zeta.
    fold (PageHeader.end_of_index p). rewrite Heq.
    apply s32_small. pose proof (space_required_nonneg es).
    unfold sizeof_PageHeader in *. lia.
Qed.

(** A page of 256 bytes and two samples of 16 bytes: 151 bytes are left. *)
Lemma page_capacity_witness :
  let p0 := Examples.blank 256 in
  let es := [Examples.sample 3 (-5); Examples.sample 2 7] in
  ((exists p, PageHeader.add_entries p0 es = Some p)
   <-> Forall (fun e => sizeof_Entry <= Entry.length e) es
       /\ PageHeader.space_required es
            <= PageHeader.length p0 - 1 - sizeof_PageHeader)
  /\ forall p, PageHeader.add_entries p0 es = Some p ->
       PageHeader.get_free_space p
       = PageHeader.length p0 - 1 - sizeof_PageHeader
         - PageHeader.space_required es.
Proof.
  apply (page_capacity (Examples.blank 256)
           [Examples.sample 3 (-5); Examples.sample 2 7]); evaluate.
Defined.

(** ** The bounding box of the appended entries *)

Lemma fold_max_snoc (a x : Z) (l : list Z) :
  fold_right Z.max a (l ++ [x]) = Z.max (fold_right Z.max a l) x.
Proof. induction l as [|y l IH]; cbn; [lia|]. rewrite IH. lia. Qed.

Lemma fold_min_snoc (a x : Z) (l : list Z) :
  fold_right Z.min a (l ++ [x]) = Z.min (fold_right Z.min a l) x.
Proof. induction l as [|y l IH]; cbn; [lia|]. rewrite IH. lia. Qed.

Lemma bbox_of_appended (p : PageHeader.t) (es : list Entry.t) (e : Entry.t) :
  PageHeader.holds p es ->
  PageHeader.bbox p = PageHeader.bbox_of es ->
  sizeof_Entry <= Entry.length e ->
  Entry.length e + sizeof_EntryOffset
    <= PageHeader.last_offset p - PageHeader.end_of_index p ->
  PageHeader.bbox (PageHeader.appended p e) = PageHeader.bbox_of (es ++ [e]).
Proof.
  intros _ Hb _ _. unfold PageHeader.appended. cbn zeta.
  match goal with |- context [PageHeader.update_bounding_box ?q _ _] => set (q0 := q) end.
  pose proof (update_bounding_box_fields q0 (Entry.param_id e) (Entry.time e)) as Hf.
  cbn zeta in Hf. destruct Hf as (H1 & H2 & H3 & H4).
  change (PageHeader.bbox q0) with (PageHeader.bbox p) in *. rewrite Hb in *.
  destruct (PageHeader.bbox (PageHeader.update_bounding_box q0 _ _))
    as [mx mn mxt mnt].
  cbn [max_id min_id max_timestamp min_timestamp] in *. subst.
  unfold PageHeader.bbox_of. rewrite !map_app. cbn [map].
  rewrite !fold_max_snoc, !fold_min_snoc. reflexivity.
Qed.

Lemma bbox_after_appends (p0 p : PageHeader.t) (es : list Entry.t) :
  PageHeader.is_fresh p0 ->
  sizeof_PageHeader < PageHeader.length p0 <= 2 ^ 31 ->
  PageHeader.add_entries p0 es = Some p ->
  PageHeader.bbox p = PageHeader.bbox_of es.
Proof.
  intros Hfresh Hlen Hrun.
  apply (add_entries_invariant
           (fun p es => PageHeader.bbox p = PageHeader.bbox_of es)
           bbox_of_appended es p0 p [] (holds_fresh p0 Hfresh Hlen));
    [|exact Hrun].
  destruct Hfresh as (_ & Hb & _). rewrite Hb. reflexivity.
Qed.

(** The bounding box is exactly what the appended entries span.  After a
    run of [add_entry] calls that all return SUCCESS on a fresh page,
    [bbox.max_id] and [bbox.min_id] are the largest and the smallest
    param_id of the run, [bbox.min_timestamp] is its smallest timestamp,
    and [bbox.max_timestamp] is its largest timestamp or MIN_TIMESTAMP = 0,
    whichever is larger; with no entry the box is the constructor's. *)
Theorem bbox_is_span_of_appended (p0 p : PageHeader.t) (es : list Entry.t) :
  PageHeader.is_fresh p0 ->
  sizeof_PageHeader < PageHeader.length p0 <= 2 ^ 31 ->
  PageHeader.add_entries p0 es = Some p ->
  PageHeader.bbox p = PageHeader.bbox_of es.
Proof. exact (bbox_after_appends p0 p es). Qed.

(** Two samples before the epoch: the upper timestamp bound stays 0. *)
Lemma bbox_is_span_of_appended_witness :
  let es := [Examples.sample 3 (-5); Examples.sample 2 (-7)] in
  PageHeader.bbox (Examples.append_all (Examples.blank 256) es)
  = PageHeader.bbox_of es.
Proof.
  apply (bbox_is_span_of_appended (Examples.blank 256)
           (Examples.append_all (Examples.blank 256)
              [Examples.sample 3 (-5); Examples.sample 2 (-7)])
           [Examples.sample 3 (-5); Examples.sample 2 (-7)]); evaluate.
Defined.

(** ** The layout of the records *)

(** Records never overlap.  After a run of [add_entry] calls that all
    return SUCCESS on a fresh page, the index ends at or below
    [last_offset]; every record the index designates starts at or above
    [last_offset] and ends before the last byte of the page; and a record
    appended later ends at or below the start of every record appended
    before it.  So no record shares a byte with another one, with the
    index or with the header. *)
Theorem records_never_overlap (p0 p : PageHeader.t) (es : list Entry.t) :
  PageHeader.is_fresh p0 ->
  sizeof_PageHeader < PageHeader.length p0 <= 2 ^ 31 ->
  PageHeader.add_entries p0 es = Some p ->
  let start i := PageHeader.page_index p i in
  let stop i := PageHeader.page_index p i
                + Entry.length (PageHeader.entry_at p i) in
  PageHeader.end_of_index p <= PageHeader.last_offset p
  /\ (forall i, 0 <= i < PageHeader.count p ->
        PageHeader.last_offset p <= start i
        /\ start i + sizeof_Entry <= stop i
        /\ stop i <= PageHeader.length p - 1)
  /\ (forall i j, 0 <= i -> i < j -> j < PageHeader.count p ->
        stop j <= start i).
Proof.
  intros Hfresh Hlen Hrun start stop. subst start stop. cbn beta.
  destruct (built_page p0 p es Hfresh Hlen Hrun)
    as (Hh & Hst & (Htop & Hin & Hsep) & Hall).
  pose proof Hh as (_ & Hacc & Hcnt & Hslots).
  assert (Hget : forall i, 0 <= i < PageHeader.count p ->
            exists e, es !! Z.to_nat i = Some e
              /\ Entry.length (PageHeader.entry_at p i) = Entry.length e).
  { intros i Hi.
    destruct (es !! Z.to_nat i) as [e|] eqn:He;
      [|apply lookup_ge_None in He; lia].
    exists e. split; [reflexivity|].
    destruct (Hslots _ e He) as (_ & Hl & _).
    rewrite Z2Nat.id in Hl by lia. exact Hl. }
  split; [lia|]. split.
  - intros i Hi. destruct (Hget i Hi) as (e & He & Hl). rewrite Hl.
    destruct (Hst _ e He) as [Hlo _]. destruct (Hin _ e He) as [_ Hend].
    rewrite Forall_lookup in Hall. pose proof (Hall _ e He) as Hsz.
    rewrite Z2Nat.id in * by lia. lia.
  - intros i j Hi Hij Hj.
    destruct (Hget i ltac:(lia)) as (ei & Hei & _).
    destruct (Hget j ltac:(lia)) as (ej & Hej & Hl). rewrite Hl.
    pose proof (Hsep _ _ ei ej Hei Hej ltac:(lia)) as H.
    rewrite !Z2Nat.id in H by lia. exact H.
Qed.

(** Two samples appended to a blank page of 256 bytes. *)
Lemma records_never_overlap_witness :
  let p := Examples.append_all (Examples.blank 256)
             [Examples.sample 3 (-5); Examples.sample 2 7] in
  let start i := PageHeader.page_index p i in
  let stop i := PageHeader.page_index p i
                + Entry.length (PageHeader.entry_at p i) in
  PageHeader.end_of_index p <= PageHeader.last_offset p
  /\ (forall i, 0 <= i < PageHeader.count p ->
        PageHeader.last_offset p <= start i
        /\ start i + sizeof_Entry <= stop i
        /\ stop i <= PageHeader.length p - 1)
  /\ (forall i j, 0 <= i -> i < j -> j < PageHeader.count p ->
        stop j <= start i).
Proof.
  apply (records_never_overlap (Examples.blank 256)
           (Examples.append_all (Examples.blank 256)
              [Examples.sample 3 (-5); Examples.sample 2 7])
           [Examples.sample 3 (-5); Examples.sample 2 7]); evaluate.
Defined.

(** ** Reuse *)

(** [reuse] empties a page.  On a page of [length] bytes, [length] in
    (sizeof(PageHeader), 2^31], after [reuse] the page counts no entry,
    all the bytes between the header and the last byte are free, no index
    reads an entry, no (param_id, timestamp) is inside the bounding box,
    and a first entry is accepted exactly when it is at least a header
    long and fits with its slot.  [open_count] is one more (modulo 2^32);
    [close_count], [sync_index] and the bytes of the page are as they
    were. *)
Theorem reuse_empties_page (p : PageHeader.t) (e : Entry.t) :
  sizeof_PageHeader < PageHeader.length p <= 2 ^ 31 ->
  let q := PageHeader.reuse p in
  PageHeader.get_entries_count q = 0
  /\ PageHeader.get_free_space q = PageHeader.length p - 1 - sizeof_PageHeader
  /\ (forall index, PageHeader.read_entry_at q index = None)
  /\ (forall param ts, PageHeader.inside_bbox q param ts = false)
  /\ (fst (PageHeader.add_entry q e) = AKU_WRITE_STATUS_SUCCESS
      <-> sizeof_Entry <= Entry.length e
          /\ Entry.length e + sizeof_EntryOffset
               <= PageHeader.length p - 1 - sizeof_PageHeader)
  /\ PageHeader.open_count q = u32 (PageHeader.open_count p + 1)
  /\ PageHeader.close_count q = PageHeader.close_count p
  /\ PageHeader.sync_index q = PageHeader.sync_index p
  /\ PageHeader.cdata q = PageHeader.cdata p.
Proof.
  intros Hlen q.
  assert (Hfresh : PageHeader.is_fresh q) by (repeat split).
  assert (Hlenq : PageHeader.length q = PageHeader.length p) by reflexivity.
  assert (Hlo : PageHeader.last_offset q = PageHeader.length p - 1).
  { change (PageHeader.last_offset q) with (u32 (PageHeader.length p - 1)).
    unfold sizeof_PageHeader in Hlen. apply u32_small. lia. }
  assert (Hc : PageHeader.count q = 0) by reflexivity.
  pose proof (holds_fresh q Hfresh ltac:(rewrite Hlenq; exact Hlen)) as Hh.
  assert (Hfree : PageHeader.last_offset q - PageHeader.end_of_index q
                  = PageHeader.length p - 1 - sizeof_PageHeader).
  { unfold PageHeader.end_of_index. rewrite Hc, Hlo. lia. }
  unfold sizeof_PageHeader in *.
  split; [reflexivity|]. split.
  { unfold PageHeader.get_free_space. cbn zeta.
    fold sizeof_PageHeader. fold (PageHeader.end_of_index q). rewrite Hfree.
    apply s32_small. unfold sizeof_PageHeader. lia. }
  split.
  { intros index. unfold PageHeader.read_entry_at. rewrite Hc.
    destruct (index >=? 0) eqn:E1; [|reflexivity].
    destruct (index <? 0) eqn:E2; [|reflexivity].
    rewrite Z.geb_leb in E1. lia. }
  split.
  { intros param ts.
    destruct (PageHeader.inside_bbox q param ts) eqn:E; [|reflexivity].
    apply inside_bbox_spec in E.
    change (PageHeader.bbox q) with PageBoundingBox_new in E.
    cbn in E. unfold UINT32_MAX in E. lia. }
  split.
  { split.
    - intros Hs. destruct Hh as (Hr & Hacc & _).
      destruct (passed_checks_of_success q e) as [H1 H2]; [lia|exact Hs|].
      fold sizeof_PageHeader in Hfree. rewrite Hfree in H2.
      unfold sizeof_PageHeader in H2. split; [exact H1|exact H2].
    - intros [H1 H2]. destruct Hh as (Hr & _).
      rewrite (add_entry_fits q e Hr H1); [reflexivity|].
      fold sizeof_PageHeader in Hfree. rewrite Hfree.
      unfold sizeof_PageHeader. exact H2. }
  repeat split.
Qed.

(** A page with three entries, reused; the candidate is a sample. *)
Lemma reuse_empties_page_witness :
  let p := Examples.rising in
  let e := Examples.sample 1 5 in
  let q := PageHeader.reuse p in
  PageHeader.get_entries_count q = 0
  /\ PageHeader.get_free_space q = PageHeader.length p - 1 - sizeof_PageHeader
  /\ (forall index, PageHeader.read_entry_at q index = None)
  /\ (forall param ts, PageHeader.inside_bbox q param ts = false)
  /\ (fst (PageHeader.add_entry q e) = AKU_WRITE_STATUS_SUCCESS
      <-> sizeof_Entry <= Entry.length e
          /\ Entry.length e + sizeof_EntryOffset
               <= PageHeader.length p - 1 - sizeof_PageHeader)
  /\ PageHeader.open_count q = u32 (PageHeader.open_count p + 1)
  /\ PageHeader.close_count q = PageHeader.close_count p
  /\ PageHeader.sync_index q = PageHeader.sync_index p
  /\ PageHeader.cdata q = PageHeader.cdata p.
Proof.
  apply (reuse_empties_page Examples.rising (Examples.sample 1 5)). evaluate.
Defined.

(** ** Mirroring sorted offsets into the index *)

(** The number of offsets [sync_indexes] copies, and where it leaves
    [sync_index], when the synced prefix is within the live index. *)
Lemma sync_indexes_fields (p : PageHeader.t) (offsets : Z -> EntryOffset) (n : Z) :
  0 <= PageHeader.sync_index p <= PageHeader.count p ->
  PageHeader.count p < 2 ^ 32 ->
  0 <= n < 2 ^ 63 ->
  let m := Z.min n (PageHeader.count p - PageHeader.sync_index p) in
  let p' := PageHeader.sync_indexes p offsets n in
  PageHeader.sync_index p' = PageHeader.sync_index p + m
  /\ PageHeader.page_index p'
     = (fun j => if (PageHeader.sync_index p <=? j)
                    && (j <? PageHeader.sync_index p + m)
                 then offsets (j - PageHeader.sync_index p)
                 else PageHeader.page_index p j).
Proof.
  intros Hs Hc Hn m p'. subst m p'. unfold PageHeader.sync_indexes. cbn zeta.
  rewrite (u64_small (PageHeader.sync_index p + n)) by lia.
  destruct (PageHeader.sync_index p + n >? PageHeader.count p) eqn:E.
  - rewrite (u32_small (PageHeader.count p - PageHeader.sync_index p)) by lia.
    rewrite Z.min_r by lia. cbn.
    rewrite u32_small by lia. split; reflexivity.
  - rewrite Z.min_l by lia. cbn.
    rewrite u32_small by lia. split; reflexivity.
Qed.

(** [sync_indexes] never moves past [count].  On a page whose synced
    prefix is within the live index, a call with [num_offsets] offsets
    copies min(num_offsets, count - sync_index) of them, in order, into
    the slots that follow the synced prefix, advances [sync_index] by as
    many, so that it stays at or below [count], and leaves every other
    slot, [count], the bounding box and the records alone. *)
Theorem sync_indexes_stays_within_count
    (p : PageHeader.t) (offsets : Z -> EntryOffset) (num_offsets : Z) :
  0 <= PageHeader.sync_index p <= PageHeader.count p ->
  PageHeader.count p < 2 ^ 32 ->
  0 <= num_offsets < 2 ^ 63 ->
  let copied := Z.min num_offsets (PageHeader.count p - PageHeader.sync_index p) in
  let p' := PageHeader.sync_indexes p offsets num_offsets in
  PageHeader.sync_index p' = PageHeader.sync_index p + copied
  /\ PageHeader.sync_index p' <= PageHeader.count p'
  /\ (forall j, PageHeader.sync_index p <= j < PageHeader.sync_index p' ->
        PageHeader.page_index p' j = offsets (j - PageHeader.sync_index p))
  /\ (forall j, j < PageHeader.sync_index p \/ PageHeader.sync_index p' <= j ->
        PageHeader.page_index p' j = PageHeader.page_index p j)
  /\ PageHeader.count p' = PageHeader.count p
  /\ PageHeader.last_offset p' = PageHeader.last_offset p
  /\ PageHeader.bbox p' = PageHeader.bbox p
  /\ PageHeader.cdata p' = PageHeader.cdata p.
Proof.
  intros Hs Hc Hn copied p'.
  destruct (sync_indexes_fields p offsets num_offsets Hs Hc Hn) as [Hsi Hix].
  cbn zeta in Hsi, Hix. fold p' in Hsi, Hix. fold copied in Hsi, Hix.
  assert (Hcount : PageHeader.count p' = PageHeader.count p) by reflexivity.
  rewrite Hsi, Hix, Hcount.
  split; [reflexivity|]. split; [lia|]. split.
  - intros j Hj.
    destruct (PageHeader.sync_index p <=? j) eqn:E1; [|lia].
    destruct (j <? PageHeader.sync_index p + copied) eqn:E2; [reflexivity|lia].
  - split; [|repeat split].
    intros j Hj.
    destruct (PageHeader.sync_index p <=? j) eqn:E1; [|reflexivity].
    destruct (j <? PageHeader.sync_index p + copied) eqn:E2; [lia|reflexivity].
Qed.

(** A page with one synced and one unsynced entry, offered five offsets. *)
Lemma sync_indexes_stays_within_count_witness :
  let p := Examples.one_unsynced in
  let offsets := fun k => 100 + k in
  let copied := Z.min 5 (PageHeader.count p - PageHeader.sync_index p) in
  let p' := PageHeader.sync_indexes p offsets 5 in
  PageHeader.sync_index p' = PageHeader.sync_index p + copied
  /\ PageHeader.sync_index p' <= PageHeader.count p'
  /\ (forall j, PageHeader.sync_index p <= j < PageHeader.sync_index p' ->
        PageHeader.page_index p' j = offsets (j - PageHeader.sync_index p))
  /\ (forall j, j < PageHeader.sync_index p \/ PageHeader.sync_index p' <= j ->
        PageHeader.page_index p' j = PageHeader.page_index p j)
  /\ PageHeader.count p' = PageHeader.count p
  /\ PageHeader.last_offset p' = PageHeader.last_offset p
  /\ PageHeader.bbox p' = PageHeader.bbox p
  /\ PageHeader.cdata p' = PageHeader.cdata p.
Proof.
  apply (sync_indexes_stays_within_count Examples.one_unsynced
           (fun k => 100 + k) 5); evaluate.
Defined.

(** Syncing in batches.  On a page whose synced prefix is within the live
    index, handing [sync_indexes] the first [n1] offsets of a buffer and
    then the [n2] that follow leaves the index and [sync_index] as one
    call with the first [n1 + n2] offsets does, whether or not a call is
    cut short at [count]. *)
Theorem sync_indexes_in_batches
    (p : PageHeader.t) (offsets : Z -> EntryOffset) (n1 n2 : Z) :
  0 <= PageHeader.sync_index p <= PageHeader.count p ->
  PageHeader.count p < 2 ^ 32 ->
  0 <= n1 -> 0 <= n2 -> n1 + n2 < 2 ^ 63 ->
  let twice :=
    PageHeader.sync_indexes (PageHeader.sync_indexes p offsets n1)
      (fun k => offsets (n1 + k)) n2 in
  let once := PageHeader.sync_indexes p offsets (n1 + n2) in
  PageHeader.sync_index twice = PageHeader.sync_index once
  /\ forall j, PageHeader.page_index twice j = PageHeader.page_index once j.
Proof.
  intros Hs Hc Hn1 Hn2 Hsum twice once.
  destruct (sync_indexes_fields p offsets n1 Hs Hc ltac:(lia)) as [Hsi1 Hix1].
  destruct (sync_indexes_fields p offsets (n1 + n2) Hs Hc ltac:(lia))
    as [Hsi Hix].
  cbn zeta in Hsi1, Hix1, Hsi, Hix. fold once in Hsi, Hix.
  set (p1 := PageHeader.sync_indexes p offsets n1) in *.
  assert (Hc1 : PageHeader.count p1 = PageHeader.count p) by reflexivity.
  destruct (sync_indexes_fields p1 (fun k => offsets (n1 + k)) n2)
    as [Hsi2 Hix2]; [rewrite Hsi1, Hc1; lia|rewrite Hc1; lia|lia|].
  cbn zeta in Hsi2, Hix2. fold twice in Hsi2, Hix2.
  rewrite Hsi2, Hix2, Hsi, Hix, Hix1, Hsi1, Hc1.
  set (s := PageHeader.sync_index p) in *.
  set (c := PageHeader.count p) in *.
  split; [lia|]. intros j.
  repeat match goal with
         | |- context [?a <=? ?b] => destruct (Z.leb_spec a b)
         | |- context [?a <? ?b] => destruct (Z.ltb_spec a b)
         end; cbn [andb]; try reflexivity; try lia; f_equal; lia.
Qed.

(** A page with two unsynced entries, synced one offset at a time. *)
Lemma sync_indexes_in_batches_witness :
  let p := Examples.append_all (Examples.blank 256)
             [Examples.sample 3 (-5); Examples.sample 2 7] in
  let offsets := fun k => 223 + 16 * k in
  let twice :=
    PageHeader.sync_indexes (PageHeader.sync_indexes p offsets 1)
      (fun k => offsets (1 + k)) 1 in
  let once := PageHeader.sync_indexes p offsets (1 + 1) in
  PageHeader.sync_index twice = PageHeader.sync_index once
  /\ forall j, PageHeader.page_index twice j = PageHeader.page_index once j.
Proof.
  apply (sync_indexes_in_batches
           (Examples.append_all (Examples.blank 256)
              [Examples.sample 3 (-5); Examples.sample 2 7])
           (fun k => 223 + 16 * k) 1 1); evaluate.
Defined.

(** ** The calls of a search on its cursor *)

Section CursorCalls.
Import PageHeader.

Lemma bind_events {A B} (m : M A) (f : A -> M B) :
  events (m ≫= f)
  = events m ++ match outcome m with Done a => events (f a) | _ => [] end.
Proof.
  destruct m as [evs [a| |]]; unfold mbind, M_bind, events, outcome; cbn;
    rewrite ?app_nil_r; reflexivity.
Qed.

Lemma bind_outcome {A B} (m : M A) (f : A -> M B) :
  outcome (m ≫= f)
  = match outcome m with
    | Done a => outcome (f a)
    | Crash c => Crash c
    | NoFuel => NoFuel
    end.
Proof.
  destruct m as [evs [a| |]]; unfold mbind, M_bind, events, outcome; reflexivity.
Qed.

Lemma cursor_calls_app (l1 l2 : list Event) :
  cursor_calls (l1 ++ l2) = cursor_calls l1 ++ cursor_calls l2.
Proof. apply List.filter_app. Qed.

(** A computation that makes no call on the cursor passes the calls of
    what follows it. *)
Lemma calls_after_reads {A B} (m : M A) (f : A -> M B) :
  cursor_calls (events m) = [] ->
  cursor_calls (events (m ≫= f))
  = match outcome m with
    | Done a => cursor_calls (events (f a))
    | _ => []
    end.
Proof.
  intros H. rewrite bind_events, cursor_calls_app, H.
  destruct (outcome m); reflexivity.
Qed.

Lemma calls_after_put_if {B} (c : bool) (o : EntryOffset) (k : unit -> M B) :
  cursor_calls (events ((if c then put o else mret tt) ≫= k))
  = (if c then [Put o] else []) ++ cursor_calls (events (k tt))
  /\ outcome ((if c then put o else mret tt) ≫= k) = outcome (k tt).
Proof. destruct c; split; reflexivity. Qed.

Lemma div_s64_reads_only (a b : Z) : cursor_calls (events (div_s64 a b)) = [].
Proof.
  unfold div_s64. destruct (b =? 0); [reflexivity|].
  destruct (_ && _); reflexivity.
Qed.

Lemma interpolate_reads_only (p : t) (key : Z) (quota : nat) :
  forall st : Narrow, cursor_calls (events (interpolate quota p key st)) = [].
Proof.
  induction quota as [|quota IH]; intros [b e pi slb sub]; [reflexivity|].
  cbn [interpolate].
  destruct (u32 (e - b) <? AKU_INTERPOLATION_SEARCH_CUTOFF); [reflexivity|].
  rewrite calls_after_reads by apply div_s64_reads_only.
  destruct (outcome (div_s64 _ _)) as [q| |]; [|reflexivity|reflexivity].
  cbn zeta.
  destruct ((u32 q >? b) && (u32 q <? e)); [|reflexivity].
  rewrite calls_after_reads by reflexivity. cbn [outcome index_at snd].
  destruct (Entry.time (read_entry p (page_index p (u32 q))) <? key);
    rewrite calls_after_reads by reflexivity; cbn [outcome index_at snd];
    apply IH.
Qed.

Lemma binary_search_reads_only (p : t) (key : Z) (fuel : nat) :
  forall begin end_ pi : Z,
  cursor_calls (events (binary_search fuel p key begin end_ pi)) = [].
Proof.
  induction fuel as [|fuel IH]; intros b e pi; [reflexivity|].
  cbn [binary_search].
  destruct (e >=? b); [|reflexivity].
  rewrite calls_after_reads by reflexivity. cbn [outcome index_at snd]. cbn zeta.
  destruct (Entry.time (read_entry p _) =? key); [reflexivity|].
  destruct (Entry.time (read_entry p _) <? key).
  - destruct (_ =? count p); [reflexivity|apply IH].
  - destruct (_ =? u32 (-1)); [reflexivity|apply IH].
Qed.

(** [locate] puts nothing, and calls [complete] exactly when it takes an
    early return. *)
Lemma locate_calls (p : t) (is_backward : bool) (key : Z) (fuel : nat) :
  cursor_calls (events (locate fuel p is_backward key))
  = match outcome (locate fuel p is_backward key) with
    | Done None => [Complete]
    | _ => []
    end.
Proof.
  unfold locate. cbn zeta.
  assert (Hbs : forall b e pi,
            cursor_calls
              (events (binary_search fuel p key b e pi ≫= (fun i => mret (Some i))))
            = match outcome (binary_search fuel p key b e pi
                               ≫= (fun i => mret (Some i))) with
              | Done None => [Complete]
              | _ => []
              end).
  { intros b e pi. rewrite calls_after_reads by apply binary_search_reads_only.
    rewrite bind_outcome.
    destruct (outcome (binary_search fuel p key b e pi)); reflexivity. }
  destruct (_ && _).
  - rewrite calls_after_reads by apply interpolate_reads_only.
    rewrite bind_outcome.
    destruct (outcome (interpolate _ _ _ _)) as [st| |];
      [apply Hbs|reflexivity|reflexivity].
  - destruct (key >? _).
    + destruct is_backward; reflexivity.
    + destruct (key <? _).
      * destruct is_backward; reflexivity.
      * apply Hbs.
Qed.

(** The slots a scan puts are met in the order of the scan, each once,
    and the scan ends with [complete]. *)
Lemma scan_forward_in_order (p : t) (query : SingleParameterSearchQuery)
    (fuel : nat) (max_index : Z) :
  forall s : Z,
  0 <= s <= max_index -> max_index < 2 ^ 32 ->
  exists idxs,
    cursor_calls (events (scan_forward fuel p query max_index s))
    = map (fun i => Put (page_index p i)) idxs
      ++ match outcome (scan_forward fuel p query max_index s) with
         | Done _ => [Complete]
         | _ => []
         end
    /\ Forall (fun i => s <= i <= max_index) idxs
    /\ StronglySorted Z.lt idxs.
Proof.
  induction fuel as [|fuel IH]; intros s Hs Hmx.
  - exists []. repeat split; constructor.
  - cbn [scan_forward].
    rewrite calls_after_reads by reflexivity. rewrite bind_outcome.
    cbn [outcome index_at snd]. cbn zeta.
    set (hit := (_ =? param query) && _).
    set (stop := _ || _).
    assert (Hrest : exists idxs,
              cursor_calls
                (events (if stop then complete
                         else scan_forward fuel p query max_index (u32 (s + 1))))
              = map (fun i => Put (page_index p i)) idxs
                ++ match outcome (if stop then complete
                                  else scan_forward fuel p query max_index
                                         (u32 (s + 1))) with
                   | Done _ => [Complete]
                   | _ => []
                   end
              /\ Forall (fun i => s + 1 <= i <= max_index) idxs
              /\ StronglySorted Z.lt idxs).
    { destruct stop eqn:Hstop.
      - exists []. repeat split; constructor.
      - unfold stop in Hstop. apply orb_false_iff in Hstop.
        destruct Hstop as [_ Hlast]. apply Z.eqb_neq in Hlast.
        rewrite (u32_small (s + 1)) by lia. apply IH; lia. }
    destruct Hrest as (idxs & Hcalls & Hall & Hsorted).
    match goal with
    | |- context [(if hit then put ?o else mret tt) ≫= ?k] =>
      destruct (calls_after_put_if hit o k) as [Hc Ho]
    end.
    rewrite Hc, Ho, Hcalls.
    destruct hit.
    + exists (s :: idxs).
      split; [reflexivity|]. split.
      * constructor; [lia|]. eapply Forall_impl; [exact Hall|].
        intros i Hi. cbn in Hi. lia.
      * constructor; [exact Hsorted|]. eapply Forall_impl; [exact Hall|].
        intros i Hi. cbn in Hi. lia.
    + exists idxs.
      split; [reflexivity|]. split; [|exact Hsorted].
      eapply Forall_impl; [exact Hall|]. intros i Hi. cbn in Hi. lia.
Qed.

Lemma scan_backward_in_order (p : t) (query : SingleParameterSearchQuery)
    (fuel : nat) :
  forall s : Z,
  0 <= s < 2 ^ 32 ->
  exists idxs,
    cursor_calls (events (scan_backward fuel p query s))
    = map (fun i => Put (page_index p i)) idxs
      ++ match outcome (scan_backward fuel p query s) with
         | Done _ => [Complete]
         | _ => []
         end
    /\ Forall (fun i => 0 <= i <= s) idxs
    /\ StronglySorted Z.gt idxs.
Proof.
  induction fuel as [|fuel IH]; intros s Hs.
  - exists []. repeat split; constructor.
  - cbn [scan_backward].
    rewrite calls_after_reads by reflexivity. rewrite bind_outcome.
    cbn [outcome index_at snd]. cbn zeta.
    set (hit := (_ =? param query) && _).
    set (stop := _ || _).
    assert (Hrest : exists idxs,
              cursor_calls
                (events (if stop then complete
                         else scan_backward fuel p query (u32 (s - 1))))
              = map (fun i => Put (page_index p i)) idxs
                ++ match outcome (if stop then complete
                                  else scan_backward fuel p query
                                         (u32 (s - 1))) with
                   | Done _ => [Complete]
                   | _ => []
                   end
              /\ Forall (fun i => 0 <= i <= s - 1) idxs
              /\ StronglySorted Z.gt idxs).
    { destruct stop eqn:Hstop.
      - exists []. repeat split; constructor.
      - unfold stop in Hstop. apply orb_false_iff in Hstop.
        destruct Hstop as [_ Hfirst]. apply Z.eqb_neq in Hfirst.
        rewrite (u32_small (s - 1)) by lia. apply IH; lia. }
    destruct Hrest as (idxs & Hcalls & Hall & Hsorted).
    match goal with
    | |- context [(if hit then put ?o else mret tt) ≫= ?k] =>
      destruct (calls_after_put_if hit o k) as [Hc Ho]
    end.
    rewrite Hc, Ho, Hcalls.
    destruct hit.
    + exists (s :: idxs).
      split; [reflexivity|]. split.
      * constructor; [lia|]. eapply Forall_impl; [exact Hall|].
        intros i Hi. cbn in Hi. lia.
      * constructor; [exact Hsorted|]. eapply Forall_impl; [exact Hall|].
        intros i Hi. cbn in Hi. lia.
    + exists idxs.
      split; [reflexivity|]. split; [|exact Hsorted].
      eapply Forall_impl; [exact Hall|]. intros i Hi. cbn in Hi. lia.
Qed.

Lemma scan_forward_completes (p : t) (query : SingleParameterSearchQuery)
    (fuel : nat) :
  forall max_index pi : Z,
  puts_then (fun _ => [Complete]) (scan_forward fuel p query max_index pi).
Proof.
  induction fuel as [|fuel IH]; intros mx pi.
  - exists []. reflexivity.
  - cbn [scan_forward]. unfold puts_then.
    rewrite calls_after_reads by reflexivity. rewrite bind_outcome.
    cbn [outcome index_at snd]. cbn zeta.
    set (hit := (_ =? param query) && _).
    set (stop := _ || _).
    assert (Hrest : puts_then (fun _ => [Complete])
              (if stop then complete
               else scan_forward fuel p query mx (u32 (pi + 1)))).
    { destruct stop; [exists []; reflexivity|apply IH]. }
    destruct Hrest as [offs Hcalls].
    match goal with
    | |- context [(if hit then put ?o else mret tt) ≫= ?k] =>
      destruct (calls_after_put_if hit o k) as [Hc Ho]
    end.
    rewrite Hc, Ho, Hcalls.
    destruct hit; [exists (page_index p pi :: offs)|exists offs]; reflexivity.
Qed.

Lemma scan_backward_completes (p : t) (query : SingleParameterSearchQuery)
    (fuel : nat) :
  forall pi : Z,
  puts_then (fun _ => [Complete]) (scan_backward fuel p query pi).
Proof.
  induction fuel as [|fuel IH]; intros pi.
  - exists []. reflexivity.
  - cbn [scan_backward]. unfold puts_then.
    rewrite calls_after_reads by reflexivity. rewrite bind_outcome.
    cbn [outcome index_at snd]. cbn zeta.
    set (hit := (_ =? param query) && _).
    set (stop := _ || _).
    assert (Hrest : puts_then (fun _ => [Complete])
              (if stop then complete
               else scan_backward fuel p query (u32 (pi - 1)))).
    { destruct stop; [exists []; reflexivity|apply IH]. }
    destruct Hrest as [offs Hcalls].
    match goal with
    | |- context [(if hit then put ?o else mret tt) ≫= ?k] =>
      destruct (calls_after_put_if hit o k) as [Hc Ho]
    end.
    rewrite Hc, Ho, Hcalls.
    destruct hit; [exists (page_index p pi :: offs)|exists offs]; reflexivity.
Qed.

Lemma scan_forward_never_crashes (p : t) (query : SingleParameterSearchQuery)
    (fuel : nat) :
  forall (max_index pi : Z) (c : Trap),
  outcome (scan_forward fuel p query max_index pi) <> Crash c.
Proof.
  induction fuel as [|fuel IH]; intros mx pi c; [discriminate|].
  cbn [scan_forward]. rewrite bind_outcome. cbn [outcome index_at snd]. cbn zeta.
  match goal with
  | |- context [(if ?hit then put ?o else mret tt) ≫= ?k] =>
    destruct (calls_after_put_if hit o k) as [_ Ho]
  end.
  rewrite Ho. destruct (_ || _); [discriminate|apply IH].
Qed.

Lemma scan_backward_never_crashes (p : t) (query : SingleParameterSearchQuery)
    (fuel : nat) :
  forall (pi : Z) (c : Trap),
  outcome (scan_backward fuel p query pi) <> Crash c.
Proof.
  induction fuel as [|fuel IH]; intros pi c; [discriminate|].
  cbn [scan_backward]. rewrite bind_outcome. cbn [outcome index_at snd]. cbn zeta.
  match goal with
  | |- context [(if ?hit then put ?o else mret tt) ≫= ?k] =>
    destruct (calls_after_put_if hit o k) as [_ Ho]
  end.
  rewrite Ho. destruct (_ || _); [discriminate|apply IH].
Qed.

End CursorCalls.

(** The cursor protocol of [search].  For every page, query and amount of
    fuel, the calls [search] makes on its cursor are a series of [put]
    calls followed, when [search] returns, by exactly one more call, the
    last: [set_error(AKU_SEARCH_EBAD_ARG)] when the query does not
    validate, [complete] when it does.  A run that stops on an undefined
    division has made no call on the cursor at all. *)
Theorem search_cursor_protocol
    (fuel : nat) (p : PageHeader.t) (query : SingleParameterSearchQuery) :
  let run := PageHeader.search fuel p query in
  (exists offsets,
     PageHeader.cursor_calls (PageHeader.events run)
     = map PageHeader.Put offsets
       ++ match PageHeader.outcome run with
          | PageHeader.Done _ => [PageHeader.final_call query]
          | _ => []
          end)
  /\ (forall c, PageHeader.outcome run = PageHeader.Crash c ->
        PageHeader.cursor_calls (PageHeader.events run) = []).
Proof.
  cbn zeta. unfold PageHeader.search, PageHeader.final_call.
  destruct (validate_query query); cbn [negb];
    [|split; [exists []; reflexivity|discriminate]].
  cbn zeta.
  set (is_backward := direction query =? AKU_CURSOR_DIR_BACKWARD).
  set (key := if is_backward then upperbound query else lowerbound query).
  rewrite bind_events, bind_outcome, cursor_calls_app, locate_calls.
  destruct (PageHeader.outcome (PageHeader.locate fuel p is_backward key))
    as [[i|]| |].
  - assert (Hscan : PageHeader.puts_then (fun _ => [PageHeader.Complete])
              (if is_backward then PageHeader.scan_backward fuel p query i
               else PageHeader.scan_forward fuel p query
                      (u32 (PageHeader.count p - 1)) i)).
    { destruct is_backward;
        [apply scan_backward_completes|apply scan_forward_completes]. }
    split.
    + destruct Hscan as [o2 H2]. exists o2. rewrite H2. reflexivity.
    + intros c Hc. exfalso. revert Hc.
      destruct is_backward;
        [apply scan_backward_never_crashes|apply scan_forward_never_crashes].
  - split; [exists []; reflexivity|discriminate].
  - split; [exists []; reflexivity|reflexivity].
  - split; [exists []; reflexivity|discriminate].
Qed.

(** Where [locate] lands on a page with at least one entry. *)
Lemma locate_lands_within (p : PageHeader.t) (is_backward : bool) (key : Z)
    (fuel : nat) :
  1 <= PageHeader.count p < 2 ^ 32 ->
  PageHeader.ensures (PageHeader.within_count p) false
    (fun pos => match pos with
                | Some i => 0 <= i < PageHeader.count p
                | None => True
                end)
    (PageHeader.locate fuel p is_backward key).
Proof.
  intros Hcount. unfold PageHeader.locate. cbn zeta.
  rewrite (u32_small (PageHeader.count p - 1)) by lia.
  destruct ((key <=? max_timestamp (PageHeader.bbox p))
            && (key >=? min_timestamp (PageHeader.bbox p))).
  - eapply ensures_bind; [apply interpolate_within; [exact Hcount|cbn; lia]|].
    intros st Hst. cbn beta in Hst.
    eapply ensures_bind;
      [apply binary_search_within; [exact Hcount|lia|lia|lia|discriminate]|].
    intros i Hi. apply ensures_ret. exact Hi.
  - destruct (key >? max_timestamp (PageHeader.bbox p)).
    + destruct is_backward.
      * apply ensures_ret. lia.
      * eapply ensures_bind;
          [apply (ensures_complete _ false (fun _ => True)); exact I|].
        intros _ _. apply ensures_ret. exact I.
    + destruct (key <? min_timestamp (PageHeader.bbox p)).
      * destruct is_backward; cbn [negb].
        -- eapply ensures_bind;
             [apply (ensures_complete _ false (fun _ => True)); exact I|].
           intros _ _. apply ensures_ret. exact I.
        -- apply ensures_ret. lia.
      * eapply ensures_bind;
          [apply binary_search_within; [exact Hcount|lia|lia|lia|discriminate]|].
        intros i Hi. apply ensures_ret. exact Hi.
Qed.

(** Results come in index order.  On a page with at least one entry, the
    calls of [search] with a valid query are [put] calls for the contents
    of slots inside [0, count), met in strictly increasing order of slot
    when the query is forward and strictly decreasing order when it is
    backward, so no slot is put twice; then, when [search] returns, one
    [complete].  This holds whatever the order of the timestamps in the
    index. *)
Theorem search_puts_in_index_order
    (fuel : nat) (p : PageHeader.t) (query : SingleParameterSearchQuery) :
  1 <= PageHeader.count p < 2 ^ 32 ->
  validate_query query = true ->
  exists slots,
    PageHeader.cursor_calls (PageHeader.events (PageHeader.search fuel p query))
    = map (fun i => PageHeader.Put (PageHeader.page_index p i)) slots
      ++ match PageHeader.outcome (PageHeader.search fuel p query) with
         | PageHeader.Done _ => [PageHeader.Complete]
         | _ => []
         end
    /\ Forall (fun i => 0 <= i < PageHeader.count p) slots
    /\ StronglySorted
         (if direction query =? AKU_CURSOR_DIR_BACKWARD then Z.gt else Z.lt)
         slots.
Proof.
  intros Hcount Hvalid. unfold PageHeader.search. rewrite Hvalid.
  cbn [negb]. cbn zeta.
  set (is_backward := direction query =? AKU_CURSOR_DIR_BACKWARD).
  set (key := if is_backward then upperbound query else lowerbound query).
  rewrite bind_events, bind_outcome, cursor_calls_app, locate_calls.
  destruct (locate_lands_within p is_backward key fuel Hcount) as [_ Hpos].
  destruct (PageHeader.outcome (PageHeader.locate fuel p is_backward key))
    as [[i|]| |].
  - cbn [app]. rewrite (u32_small (PageHeader.count p - 1)) by lia.
    destruct is_backward.
    + destruct (scan_backward_in_order p query fuel i) as (slots & Hc & Hall & Hs);
        [lia|].
      exists slots. split; [exact Hc|]. split; [|exact Hs].
      eapply Forall_impl; [exact Hall|]. intros j Hj. cbn in Hj. lia.
    + destruct (scan_forward_in_order p query fuel (PageHeader.count p - 1) i)
        as (slots & Hc & Hall & Hs); [lia|lia|].
      exists slots. split; [exact Hc|]. split; [|exact Hs].
      eapply Forall_impl; [exact Hall|]. intros j Hj. cbn in Hj. lia.
  - exists []. split; [reflexivity|]. split; [constructor|].
    destruct is_backward; constructor.
  - exists []. split; [reflexivity|]. split; [constructor|].
    destruct is_backward; constructor.
  - exists []. split; [reflexivity|]. split; [constructor|].
    destruct is_backward; constructor.
Qed.

(** The page [rising] and the forward query for param 1 over 0..10. *)
Lemma search_puts_in_index_order_witness :
  let p := Examples.rising in
  let query := mkQuery 1 0 10 AKU_CURSOR_DIR_FORWARD in
  exists slots,
    PageHeader.cursor_calls (PageHeader.events (PageHeader.search 4 p query))
    = map (fun i => PageHeader.Put (PageHeader.page_index p i)) slots
      ++ match PageHeader.outcome (PageHeader.search 4 p query) with
         | PageHeader.Done _ => [PageHeader.Complete]
         | _ => []
         end
    /\ Forall (fun i => 0 <= i < PageHeader.count p) slots
    /\ StronglySorted
         (if direction query =? AKU_CURSOR_DIR_BACKWARD then Z.gt else Z.lt)
         slots.
Proof.
  apply (search_puts_in_index_order 4 Examples.rising
           (mkQuery 1 0 10 AKU_CURSOR_DIR_FORWARD)); evaluate.
Defined.

(** A query beyond the bounding box has no result.  For every page, a
    valid forward query whose lowerbound is above [bbox.max_timestamp],
    and a valid backward query whose upperbound is below
    [bbox.min_timestamp] (and not above [bbox.max_timestamp]), make
    [search] call [complete] at once: no slot of the index is read and
    nothing is put on the cursor. *)
Theorem search_beyond_box_is_empty
    (fuel : nat) (p : PageHeader.t) (query : SingleParameterSearchQuery) :
  validate_query query = true ->
  (direction query = AKU_CURSOR_DIR_FORWARD
   /\ max_timestamp (PageHeader.bbox p) < lowerbound query)
  \/ (direction query = AKU_CURSOR_DIR_BACKWARD
      /\ upperbound query < min_timestamp (PageHeader.bbox p)
      /\ upperbound query <= max_timestamp (PageHeader.bbox p)) ->
  PageHeader.search fuel p query = ([PageHeader.Complete], PageHeader.Done tt).
Proof.
  intros Hvalid Hcase. unfold PageHeader.search. rewrite Hvalid. cbn [negb].
  cbn zeta. unfold PageHeader.locate. cbn zeta.
  destruct Hcase as [[Hdir Hgt]|(Hdir & Hlt & Hle)]; rewrite Hdir.
  - change (AKU_CURSOR_DIR_FORWARD =? AKU_CURSOR_DIR_BACKWARD) with false.
    cbn iota.
    destruct (lowerbound query <=? max_timestamp (PageHeader.bbox p)) eqn:E1;
      [lia|]. cbn [andb].
    destruct (lowerbound query >? max_timestamp (PageHeader.bbox p)) eqn:E2;
      [reflexivity|lia].
  - change (AKU_CURSOR_DIR_BACKWARD =? AKU_CURSOR_DIR_BACKWARD) with true.
    cbn iota.
    destruct (upperbound query >=? min_timestamp (PageHeader.bbox p)) eqn:E1;
      [rewrite Z.geb_leb in E1; lia|]. rewrite andb_false_r.
    destruct (upperbound query >? max_timestamp (PageHeader.bbox p)) eqn:E2;
      [lia|].
    destruct (upperbound query <? min_timestamp (PageHeader.bbox p)) eqn:E3;
      [reflexivity|lia].
Qed.

(** A forward query above the box of [rising], whose timestamps end at 8,
    run with no fuel at all. *)
Lemma search_beyond_box_is_empty_witness :
  PageHeader.search 0 Examples.rising (mkQuery 1 9 20 AKU_CURSOR_DIR_FORWARD)
  = ([PageHeader.Complete], PageHeader.Done tt).
Proof.
  apply (search_beyond_box_is_empty 0 Examples.rising
           (mkQuery 1 9 20 AKU_CURSOR_DIR_FORWARD)).
  - vm_compute. reflexivity.
  - left. split; [reflexivity|vm_compute; reflexivity].
Defined.

(** ** Backward search over an ordered page *)

Section BackwardSearch.
Import PageHeader.
Context (p : t) (key : Z).
Hypothesis Hcount : 1 <= count p < 2 ^ 32.
Hypothesis Hord : strictly_ordered p.
Hypothesis Hbox : bbox_spans p.

Let ts (i : Z) : Z := Entry.time (entry_at p i).

(** The interpolation loop does not run, or no entry sits at the key. *)
Hypothesis Hmiss :
  count p <= AKU_INTERPOLATION_SEARCH_CUTOFF
  \/ forall i, 0 <= i < count p -> ts i <> key.

(** Every entry after slot [r] is younger than the key. *)
Let above (r : Z) : Prop := forall j, r < j < count p -> key < ts j.

Lemma above_prev (i : Z) : 0 <= i < count p -> key < ts i -> above (i - 1).
Proof.
  intros Hi Hlt j Hj. destruct (Z.eq_dec j i) as [->|Hne]; [exact Hlt|].
  pose proof (Hord i j). unfold ts in *. lia.
Qed.

Lemma above_hit (i : Z) : 0 <= i < count p -> key <= ts i -> above i.
Proof.
  intros Hi Hle j Hj. pose proof (Hord i j). unfold ts in *. lia.
Qed.

Lemma interpolate_returns_above (quota : nat) :
  forall st : Narrow,
  0 <= begin_ st <= end_ st /\ end_ st < count p ->
  above (end_ st) ->
  0 <= search_lower_bound st <= ts (begin_ st) ->
  ts (end_ st) <= search_upper_bound st < 2 ^ 63 ->
  returns
    (fun st' => (0 <= begin_ st' <= end_ st' /\ end_ st' < count p)
                /\ above (end_ st'))
    (interpolate quota p key st).
Proof.
  induction quota as [|quota IH]; intros [b e pi slb sub] Hst Habove Hslb Hsub;
    cbn [begin_ end_ search_lower_bound search_upper_bound] in *.
  - apply returns_ret. cbn. split; assumption.
  - cbn [interpolate].
    destruct (u32 (e - b) <? AKU_INTERPOLATION_SEARCH_CUTOFF) eqn:Hcut;
      [apply returns_ret; cbn; split; assumption|].
    apply Z.ltb_ge in Hcut. rewrite (u32_small (e - b)) in * by lia.
    unfold AKU_INTERPOLATION_SEARCH_CUTOFF in Hcut, Hmiss.
    destruct Hmiss as [Hsmall|Hnohit]; [lia|].
    assert (Hlt : ts b < ts e) by (apply Hord; lia).
    eapply returns_bind.
    { apply returns_div_s64. rewrite s64_small; lia. }
    intros q _. cbn zeta. pose proof (u32_range q) as Hq.
    destruct ((u32 q >? b) && (u32 q <? e)) eqn:Hin;
      [|apply returns_ret; cbn; split; assumption].
    apply andb_true_iff in Hin. destruct Hin as [Hgt Hlt'].
    apply Z.gtb_lt in Hgt. apply Z.ltb_lt in Hlt'.
    destruct Hbox as (Hmin & Hmax & Hall).
    eapply returns_bind;
      [apply (returns_index_at p (u32 q) (fun o => o = page_index p (u32 q)));
       reflexivity|].
    intros off ->. fold (entry_at p (u32 q)). fold (ts (u32 q)).
    destruct (ts (u32 q) <? key) eqn:Hcmp.
    + apply Z.ltb_lt in Hcmp. rewrite (u32_small (u32 q + 1)) by lia.
      eapply returns_bind;
        [apply (returns_index_at p _ (fun o => o = page_index p (u32 q + 1)));
         reflexivity|].
      intros off' ->. fold (entry_at p (u32 q + 1)). fold (ts (u32 q + 1)).
      apply IH; cbn [begin_ end_ search_lower_bound search_upper_bound].
      * lia.
      * exact Habove.
      * pose proof (Hall (u32 q + 1)). unfold ts. lia.
      * exact Hsub.
    + apply Z.ltb_ge in Hcmp. rewrite (u32_small (u32 q - 1)) by lia.
      eapply returns_bind;
        [apply (returns_index_at p _ (fun o => o = page_index p (u32 q - 1)));
         reflexivity|].
      intros off' ->. fold (entry_at p (u32 q - 1)). fold (ts (u32 q - 1)).
      apply IH; cbn [begin_ end_ search_lower_bound search_upper_bound].
      * lia.
      * apply above_prev; [lia|]. pose proof (Hnohit (u32 q)). lia.
      * exact Hslb.
      * pose proof (Hall (u32 q - 1)). unfold ts. lia.
Qed.

Lemma binary_search_returns_above (fuel : nat) :
  forall begin end_ pi : Z,
  0 <= begin < count p -> 0 <= end_ < count p ->
  above end_ ->
  begin <= end_ \/ (0 <= pi < count p /\ above pi) ->
  0 < Z.of_nat fuel /\ end_ - begin + 1 < Z.of_nat fuel ->
  returns (fun r => 0 <= r < count p /\ above r)
    (binary_search fuel p key begin end_ pi).
Proof.
  induction fuel as [|fuel IH]; intros b e pi Hb He Habove Hpi Hfuel; [lia|].
  cbn [binary_search].
  destruct (e >=? b) eqn:Hge.
  2: { apply returns_ret. rewrite Z.geb_leb in Hge. apply Z.leb_gt in Hge.
       destruct Hpi as [H|H]; [lia|exact H]. }
  apply Z.geb_le in Hge.
  rewrite (u32_small (e - b)) by lia.
  assert (Hdiv : 0 <= (e - b) / 2 <= e - b).
  { split; [apply Z.div_pos; lia|]. apply Z.div_le_upper_bound; lia. }
  rewrite (u32_small (b + (e - b) / 2)) by lia.
  set (mid := b + (e - b) / 2) in *.
  eapply returns_bind;
    [apply (returns_index_at p mid (fun o => o = page_index p mid)); reflexivity|].
  intros off ->. cbn zeta. fold (entry_at p mid). fold (ts mid).
  destruct (ts mid =? key) eqn:Heq.
  { apply Z.eqb_eq in Heq. apply returns_ret.
    split; [lia|]. apply above_hit; lia. }
  apply Z.eqb_neq in Heq.
  destruct (ts mid <? key) eqn:Hlt.
  - apply Z.ltb_lt in Hlt. rewrite (u32_small (mid + 1)) by lia.
    destruct (mid + 1 =? count p) eqn:Hc.
    { apply Z.eqb_eq in Hc. apply returns_ret. split; [lia|].
      intros j Hj. lia. }
    apply Z.eqb_neq in Hc.
    apply IH; try lia; [exact Habove|].
    destruct (Z_le_gt_dec (mid + 1) e) as [Hle|Hgt]; [left; exact Hle|].
    right. split; [lia|]. replace mid with e by lia. exact Habove.
  - apply Z.ltb_ge in Hlt.
    assert (Hmid : above mid) by (apply above_hit; lia).
    destruct (Z.eq_dec mid 0) as [Hz|Hnz].
    + rewrite Hz in *. cbn [Z.sub Z.add Z.opp Z.pos_sub]. rewrite Z.eqb_refl.
      apply returns_ret. split; [lia|exact Hmid].
    + rewrite (u32_small (mid - 1)) by lia.
      replace (u32 (-1)) with (2 ^ 32 - 1) by reflexivity.
      destruct (mid - 1 =? 2 ^ 32 - 1) eqn:Hc;
        [apply Z.eqb_eq in Hc; lia|].
      apply IH; try lia.
      * apply above_prev; lia.
      * right. split; [lia|exact Hmid].
Qed.

Lemma locate_backward_returns (fuel : nat) :
  count p < Z.of_nat fuel ->
  returns
    (fun pos => match pos with
                | Some r => 0 <= r < count p /\ above r
                | None => key < min_timestamp (bbox p)
                end)
    (locate fuel p true key).
Proof.
  intros Hfuel. unfold locate. cbn zeta.
  rewrite (u32_small (count p - 1)) by lia.
  destruct Hbox as (Hmin & Hmax & Hall).
  assert (Htop : above (count p - 1)) by (intros j Hj; lia).
  destruct ((key <=? max_timestamp (bbox p)) && (key >=? min_timestamp (bbox p))).
  - eapply returns_bind.
    { apply interpolate_returns_above;
        cbn [begin_ end_ search_lower_bound search_upper_bound].
      - lia.
      - exact Htop.
      - pose proof (Hall 0). unfold ts. lia.
      - pose proof (Hall (count p - 1)). unfold ts. lia. }
    intros st [Hst Habove]. cbn beta in *.
    eapply returns_bind;
      [apply binary_search_returns_above; [lia|lia|exact Habove|left; lia|lia]|].
    intros r Hr. apply returns_ret. exact Hr.
  - destruct (key >? max_timestamp (bbox p)) eqn:Hgt.
    + cbn. apply returns_ret. split; [lia|exact Htop].
    + destruct (key <? min_timestamp (bbox p)) eqn:Hlt.
      * apply Z.ltb_lt in Hlt. cbn [negb].
        apply (returns_bind (fun _ => True));
          [eexists; split; [reflexivity|exact I]|].
        intros _ _. apply returns_ret. exact Hlt.
      * eapply returns_bind;
          [apply binary_search_returns_above;
           [lia|lia|exact Htop|left; lia|lia]|].
        intros r Hr. apply returns_ret. exact Hr.
Qed.

End BackwardSearch.

Section BackwardScan.
Import PageHeader.
Context (p : t) (query : SingleParameterSearchQuery).
Hypothesis Hcount : 1 <= count p < 2 ^ 32.

Lemma scan_backward_returns (fuel : nat) :
  forall s : Z,
  0 <= s < count p ->
  s < Z.of_nat fuel ->
  returns (fun _ => True) (scan_backward fuel p query s).
Proof.
  induction fuel as [|fuel IH]; intros s Hs Hfuel; [lia|].
  cbn [scan_backward].
  eapply returns_bind;
    [apply (returns_index_at p s (fun _ => True)); exact I|].
  intros off _. cbn zeta.
  eapply (returns_bind (fun _ => True)).
  { destruct (_ && _); [eexists; split; [reflexivity|exact I]|].
    apply returns_ret. exact I. }
  intros _ _.
  destruct (s =? 0) eqn:Hfirst.
  - rewrite orb_true_r. eexists. split; [reflexivity|exact I].
  - apply Z.eqb_neq in Hfirst. rewrite orb_false_r.
    destruct (TimeStamp.lt _ _); [eexists; split; [reflexivity|exact I]|].
    rewrite (u32_small (s - 1)) by lia. apply IH; lia.
Qed.

Lemma scan_backward_emits (i : Z) (fuel : nat) :
  forall s : Z,
  0 <= i <= s -> s < count p ->
  s < Z.of_nat fuel ->
  matches p query (page_index p i) ->
  (forall j, i < j <= s -> lowerbound query <= Entry.time (entry_at p j)) ->
  In (Put (page_index p i)) (events (scan_backward fuel p query s)).
Proof.
  induction fuel as [|fuel IH]; intros s Hs Hc Hfuel Hmatch Hdown; [lia|].
  cbn [scan_backward].
  apply (in_events_bind _ _ (page_index p s)); [reflexivity|]. cbn zeta.
  destruct (Z.eq_dec s i) as [->|Hne].
  - destruct Hmatch as [Hparam [Hlo Hhi]].
    unfold TimeStamp.le, TimeStamp.ge.
    rewrite Hparam, Z.eqb_refl.
    destruct (lowerbound query <=? _) eqn:E1; [|apply Z.leb_gt in E1; lia].
    destruct (upperbound query >=? _) eqn:E2;
      [|rewrite Z.geb_leb in E2; apply Z.leb_gt in E2; lia].
    cbn [andb]. unfold mbind, M_bind, put. cbn [fst snd events app].
    left. reflexivity.
  - eapply in_events_bind.
    { destruct (_ && _); reflexivity. }
    destruct (s =? 0) eqn:Hfirst; [apply Z.eqb_eq in Hfirst; lia|].
    rewrite orb_false_r. unfold TimeStamp.lt.
    fold (entry_at p s).
    destruct (Entry.time (entry_at p s) <? lowerbound query) eqn:Hlt.
    { apply Z.ltb_lt in Hlt. pose proof (Hdown s). lia. }
    rewrite (u32_small (s - 1)) by lia.
    apply IH; try lia; [exact Hmatch|]. intros j Hj. apply Hdown. lia.
Qed.

End BackwardScan.

Lemma validate_backward (query : SingleParameterSearchQuery) :
  direction query = AKU_CURSOR_DIR_BACKWARD ->
  lowerbound query <= upperbound query ->
  validate_query query = true.
Proof.
  intros Hdir Hle. unfold validate_query, TimeStamp.lt. rewrite Hdir. cbn.
  destruct (upperbound query <? lowerbound query) eqn:E;
    [apply Z.ltb_lt in E; lia|reflexivity].
Qed.

Lemma search_backward_runs
    (p : PageHeader.t) (query : SingleParameterSearchQuery) (fuel : nat) :
  1 <= PageHeader.count p < 2 ^ 32 ->
  PageHeader.strictly_ordered p ->
  PageHeader.bbox_spans p ->
  (PageHeader.count p <= AKU_INTERPOLATION_SEARCH_CUTOFF
   \/ forall i, 0 <= i < PageHeader.count p ->
        Entry.time (PageHeader.entry_at p i) <> upperbound query) ->
  direction query = AKU_CURSOR_DIR_BACKWARD ->
  lowerbound query <= upperbound query ->
  PageHeader.count p < Z.of_nat fuel ->
  PageHeader.outcome (PageHeader.search fuel p query) = PageHeader.Done tt
  /\ forall i, 0 <= i < PageHeader.count p ->
       PageHeader.matches p query (PageHeader.page_index p i) ->
       In (PageHeader.Put (PageHeader.page_index p i))
          (PageHeader.events (PageHeader.search fuel p query)).
Proof.
  intros Hcount Hord Hbox Hmiss Hdir Hle Hfuel.
  unfold PageHeader.search.
  rewrite (validate_backward query Hdir Hle). cbn [negb]. cbn zeta.
  rewrite Hdir.
  change (AKU_CURSOR_DIR_BACKWARD =? AKU_CURSOR_DIR_BACKWARD) with true.
  cbn iota.
  pose proof (locate_backward_returns p (upperbound query) Hcount Hord Hbox
                Hmiss fuel Hfuel) as Hloc.
  pose proof Hloc as (pos & Hout & Hpos).
  split.
  - assert (Hret : PageHeader.returns (fun _ => True)
                     (PageHeader.locate fuel p true (upperbound query) ≫=
                        (fun pos => match pos with
                                    | Some probe_index =>
                                      PageHeader.scan_backward fuel p query
                                        probe_index
                                    | None => mret tt
                                    end))).
    { eapply returns_bind; [exact Hloc|].
      intros [r|] Hr; [|apply returns_ret; exact I].
      apply scan_backward_returns; [exact Hcount|lia|lia]. }
    destruct Hret as ([] & Hdone & _). exact Hdone.
  - intros i Hi Hmatch.
    pose proof Hmatch as [_ [Hlo Hhi]].
    fold (PageHeader.entry_at p i) in Hlo, Hhi.
    destruct Hbox as (_ & _ & Hall).
    destruct pos as [r|].
    + destruct Hpos as [Hr Habove].
      assert (Hir : i <= r).
      { destruct (Z_le_gt_dec i r) as [H|H]; [exact H|].
        specialize (Habove i). lia. }
      eapply in_events_bind; [exact Hout|].
      apply scan_backward_emits; try lia; [exact Hmatch|].
      intros j Hj. pose proof (Hord i j). lia.
    + specialize (Hall i Hi). lia.
Qed.

(** A backward search over an ordered page returns the matching entries
    and nothing else, when the page is small or no entry sits exactly at
    the upper bound.  Take a page with at least one entry whose timestamps
    strictly increase along the index and lie inside a bounding box with
    non-negative bounds, and a backward query with lowerbound <=
    upperbound.  Suppose the page has at most
    AKU_INTERPOLATION_SEARCH_CUTOFF entries, or no entry has the timestamp
    [upperbound].  Given more fuel than [count], [search] runs to its end,
    and an offset is put on the cursor exactly when it is the content of a
    slot in [0, count) whose entry has the query's param_id and a
    timestamp between its bounds. *)
Theorem search_backward_exact
    (p : PageHeader.t) (query : SingleParameterSearchQuery) (fuel : nat) :
  1 <= PageHeader.count p < 2 ^ 32 ->
  PageHeader.strictly_ordered p ->
  PageHeader.bbox_spans p ->
  (PageHeader.count p <= AKU_INTERPOLATION_SEARCH_CUTOFF
   \/ forall i, 0 <= i < PageHeader.count p ->
        Entry.time (PageHeader.entry_at p i) <> upperbound query) ->
  direction query = AKU_CURSOR_DIR_BACKWARD ->
  lowerbound query <= upperbound query ->
  PageHeader.count p < Z.of_nat fuel ->
  PageHeader.outcome (PageHeader.search fuel p query) = PageHeader.Done tt
  /\ forall o,
       In (PageHeader.Put o) (PageHeader.events (PageHeader.search fuel p query))
       <-> exists i, 0 <= i < PageHeader.count p
             /\ PageHeader.page_index p i = o
             /\ PageHeader.matches p query o.
Proof.
  intros Hcount Hord Hbox Hmiss Hdir Hle Hfuel.
  destruct (search_backward_runs p query fuel Hcount Hord Hbox Hmiss Hdir Hle
              Hfuel) as [Hdone Hall].
  split; [exact Hdone|]. intros o. split.
  - intros Hin. apply list_elem_of_In in Hin.
    destruct (search_within p true Hcount query fuel (fun _ => Hfuel))
      as [Hwithin _].
    destruct (search_puts_matching p query fuel) as [Hmatch _].
    rewrite Forall_forall in Hwithin, Hmatch.
    destruct (Hwithin _ Hin) as (i & Hi & Hix).
    exists i. split; [exact Hi|]. split; [exact Hix|]. exact (Hmatch _ Hin).
  - intros (i & Hi & Hix & Hmatch). subst o. apply Hall; assumption.
Qed.

(** The page [rising] and the backward query for param 1 over 0..8, whose
    upper bound is the timestamp of the last entry. *)
Lemma search_backward_exact_witness :
  let p := Examples.rising in
  let query := mkQuery 1 0 8 AKU_CURSOR_DIR_BACKWARD in
  PageHeader.outcome (PageHeader.search 4 p query) = PageHeader.Done tt
  /\ forall o,
       In (PageHeader.Put o) (PageHeader.events (PageHeader.search 4 p query))
       <-> exists i, 0 <= i < PageHeader.count p
             /\ PageHeader.page_index p i = o
             /\ PageHeader.matches p query o.
Proof.
  assert (Hc : PageHeader.count Examples.rising = 3) by (vm_compute; reflexivity).
  apply (search_backward_exact Examples.rising
           (mkQuery 1 0 8 AKU_CURSOR_DIR_BACKWARD) 4).
  - rewrite Hc. lia.
  - intros i j Hi Hij Hj. rewrite Hc in Hj.
    assert (H : (i = 0 /\ j = 1) \/ (i = 0 /\ j = 2) \/ (i = 1 /\ j = 2)) by lia.
    destruct H as [[-> ->] | [[-> ->] | [-> ->]]]; vm_compute; reflexivity.
  - split; [vm_compute; discriminate|]. split; [vm_compute; reflexivity|].
    intros i Hi. rewrite Hc in Hi.
    assert (H : i = 0 \/ i = 1 \/ i = 2) by lia.
    destruct H as [-> | [-> | ->]]; vm_compute; split; discriminate.
  - left. rewrite Hc. vm_compute. discriminate.
  - reflexivity.
  - vm_compute. discriminate.
  - rewrite Hc. vm_compute. reflexivity.
Defined.

(** ** Searching what was appended *)

Lemma fold_min_lower (a lo : Z) (l : list Z) :
  lo <= a -> Forall (fun x => lo <= x) l -> lo <= fold_right Z.min a l.
Proof.
  intros Ha Hl. induction Hl as [|x l Hx _ IH]; cbn; lia.
Qed.

Lemma fold_max_upper (a hi : Z) (l : list Z) :
  a < hi -> Forall (fun x => x < hi) l -> fold_right Z.max a l < hi.
Proof.
  intros Ha Hl. induction Hl as [|x l Hx _ IH]; cbn; lia.
Qed.

(** A page built from entries with rising timestamps, none negative, is
    ordered, and its bounding box spans it. *)
Lemma built_page_ordered (p0 p : PageHeader.t) (es : list Entry.t) :
  PageHeader.is_fresh p0 ->
  sizeof_PageHeader < PageHeader.length p0 <= 2 ^ 31 ->
  PageHeader.add_entries p0 es = Some p ->
  (forall (i j : nat) (ei ej : Entry.t),
     es !! i = Some ei -> es !! j = Some ej -> (i < j)%nat ->
     Entry.time ei < Entry.time ej) ->
  Forall (fun e => 0 <= Entry.time e) es ->
  PageHeader.strictly_ordered p /\ PageHeader.bbox_spans p.
Proof.
  intros Hfresh Hlen Hrun Hrise Hpos.
  pose proof (holds_add_entries es p0 p [] (holds_fresh p0 Hfresh Hlen) Hrun)
    as (_ & _ & Hcnt & Hslots). cbn [app] in *.
  assert (Hget : forall i, 0 <= i < PageHeader.count p ->
            exists e, es !! Z.to_nat i = Some e
              /\ Entry.time (PageHeader.entry_at p i) = Entry.time e
              /\ PageHeader.inside_bbox p (Entry.param_id e) (Entry.time e) = true).
  { intros i Hi.
    destruct (es !! Z.to_nat i) as [e|] eqn:He;
      [|apply lookup_ge_None in He; lia].
    exists e. split; [reflexivity|].
    destruct (Hslots _ e He) as (_ & _ & _ & Ht & Hin).
    rewrite Z2Nat.id in Ht by lia. split; assumption. }
  split.
  - intros i j Hi Hij Hj.
    destruct (Hget i ltac:(lia)) as (ei & Hei & Hti & _).
    destruct (Hget j ltac:(lia)) as (ej & Hej & Htj & _).
    rewrite Hti, Htj. apply (Hrise _ _ ei ej Hei Hej). lia.
  - unfold PageHeader.bbox_spans.
    rewrite (bbox_after_appends p0 p es Hfresh Hlen Hrun).
    unfold PageHeader.bbox_of. cbn [min_timestamp max_timestamp].
    split; [|split].
    + apply fold_min_lower; [vm_compute; discriminate|].
      apply Forall_fmap. exact Hpos.
    + apply fold_max_upper; [reflexivity|].
      apply Forall_fmap. apply Forall_forall. intros e _. cbn.
      pose proof (s64_range (load_le 8 e 8)). unfold Entry.time. lia.
    + intros i Hi. destruct (Hget i Hi) as (e & _ & Ht & Hin).
      apply inside_bbox_spec in Hin.
      rewrite (bbox_after_appends p0 p es Hfresh Hlen Hrun) in Hin.
      unfold PageHeader.bbox_of in Hin.
      cbn [min_timestamp max_timestamp] in Hin. rewrite Ht. lia.
Qed.

(** What slot [i] of a built page matches, in terms of the entry appended
    at position [i]. *)
Lemma matches_held (p : PageHeader.t) (es : list Entry.t)
    (query : SingleParameterSearchQuery) (i : nat) (e : Entry.t) :
  PageHeader.holds p es -> es !! i = Some e ->
  PageHeader.matches p query (PageHeader.page_index p (Z.of_nat i))
  <-> Entry.param_id e = param query
      /\ lowerbound query <= Entry.time e <= upperbound query.
Proof.
  intros (_ & _ & _ & Hslots) Hi.
  destruct (Hslots i e Hi) as (_ & _ & Hp & Ht & _).
  unfold PageHeader.matches. fold (PageHeader.entry_at p (Z.of_nat i)).
  rewrite Hp, Ht. reflexivity.
Qed.

(** Searching what was appended.  Append entries with strictly rising
    timestamps, none negative, to a fresh page, every call returning
    SUCCESS; at least one entry.  Then a valid query, forward or backward,
    makes [search] run to its end, given more fuel than entries, and the
    offsets put on the cursor are exactly the slots of the appended entries
    that have the query's param_id and a timestamp between its bounds.
    For a backward query this needs a page of at most
    AKU_INTERPOLATION_SEARCH_CUTOFF entries, or no entry with the timestamp
    [upperbound]. *)
Theorem search_finds_appended
    (p0 p : PageHeader.t) (es : list Entry.t)
    (query : SingleParameterSearchQuery) (fuel : nat) :
  PageHeader.is_fresh p0 ->
  sizeof_PageHeader < PageHeader.length p0 <= 2 ^ 31 ->
  PageHeader.add_entries p0 es = Some p ->
  es <> [] ->
  (forall (i j : nat) (ei ej : Entry.t),
     es !! i = Some ei -> es !! j = Some ej -> (i < j)%nat ->
     Entry.time ei < Entry.time ej) ->
  Forall (fun e => 0 <= Entry.time e) es ->
  direction query = AKU_CURSOR_DIR_FORWARD
  \/ (direction query = AKU_CURSOR_DIR_BACKWARD
      /\ (Z.of_nat (Datatypes.length es) <= AKU_INTERPOLATION_SEARCH_CUTOFF
          \/ Forall (fun e => Entry.time e <> upperbound query) es)) ->
  lowerbound query <= upperbound query ->
  (Datatypes.length es < fuel)%nat ->
  PageHeader.outcome (PageHeader.search fuel p query) = PageHeader.Done tt
  /\ forall o,
       In (PageHeader.Put o) (PageHeader.events (PageHeader.search fuel p query))
       <-> exists (i : nat) (e : Entry.t),
             es !! i = Some e
             /\ PageHeader.page_index p (Z.of_nat i) = o
             /\ Entry.param_id e = param query
             /\ lowerbound query <= Entry.time e <= upperbound query.
Proof.
  intros Hfresh Hlen Hrun Hne Hrise Hpos Hdir Hle Hfuel.
  pose proof (holds_add_entries es p0 p [] (holds_fresh p0 Hfresh Hlen) Hrun)
    as Hh. cbn [app] in Hh.
  pose proof Hh as (_ & _ & Hcnt & Hslots).
  destruct (built_page_ordered p0 p es Hfresh Hlen Hrun Hrise Hpos)
    as [Hord Hbox].
  assert (Hcount : 1 <= PageHeader.count p < 2 ^ 32).
  { destruct Hh as ([Hc _] & _). destruct es; [contradiction|].
    cbn [Datatypes.length] in Hcnt. lia. }
  assert (Hf : PageHeader.count p < Z.of_nat fuel) by lia.
  assert (Hruns : PageHeader.outcome (PageHeader.search fuel p query)
                  = PageHeader.Done tt
                  /\ forall i, 0 <= i < PageHeader.count p ->
                       PageHeader.matches p query (PageHeader.page_index p i) ->
                       In (PageHeader.Put (PageHeader.page_index p i))
                          (PageHeader.events (PageHeader.search fuel p query))).
  { destruct Hdir as [Hdir|[Hdir Hmiss]].
    - apply search_forward_runs; assumption.
    - apply search_backward_runs; try assumption.
      destruct Hmiss as [Hsmall|Hnohit]; [left; lia|right].
      intros i Hi.
      destruct (es !! Z.to_nat i) as [e|] eqn:He;
        [|apply lookup_ge_None in He; lia].
      destruct (Hslots _ e He) as (_ & _ & _ & Ht & _).
      rewrite Z2Nat.id in Ht by lia. rewrite Ht.
      rewrite Forall_lookup in Hnohit. exact (Hnohit _ e He). }
  destruct Hruns as [Hdone Hall].
  split; [exact Hdone|]. intros o. split.
  - intros Hin. apply list_elem_of_In in Hin.
    destruct (search_within p true Hcount query fuel (fun _ => Hf))
      as [Hwithin _].
    destruct (search_puts_matching p query fuel) as [Hmatch _].
    rewrite Forall_forall in Hwithin, Hmatch.
    destruct (Hwithin _ Hin) as (i & Hi & Hix).
    destruct (es !! Z.to_nat i) as [e|] eqn:He;
      [|apply lookup_ge_None in He; lia].
    exists (Z.to_nat i), e. rewrite Z2Nat.id by lia.
    split; [exact He|]. split; [exact Hix|].
    pose proof (Hmatch _ Hin) as Hm. cbn in Hm. rewrite <- Hix in Hm.
    rewrite <- (Z2Nat.id i) in Hm by lia.
    apply (matches_held p es query _ e Hh He). exact Hm.
  - intros (i & e & He & Hix & Hm). subst o.
    pose proof (lookup_lt_Some _ _ _ He) as Hlt.
    apply Hall; [lia|].
    apply (matches_held p es query i e Hh He). exact Hm.
Qed.

(** Three samples of two series at 3, 5 and 8; the backward query for
    param 1 over 0..8. *)
Lemma search_finds_appended_witness :
  let es := [Examples.sample 1 3; Examples.sample 2 5; Examples.sample 1 8] in
  let p := Examples.append_all (Examples.blank 256) es in
  let query := mkQuery 1 0 8 AKU_CURSOR_DIR_BACKWARD in
  PageHeader.outcome (PageHeader.search 4 p query) = PageHeader.Done tt
  /\ forall o,
       In (PageHeader.Put o) (PageHeader.events (PageHeader.search 4 p query))
       <-> exists (i : nat) (e : Entry.t),
             es !! i = Some e
             /\ PageHeader.page_index p (Z.of_nat i) = o
             /\ Entry.param_id e = param query
             /\ lowerbound query <= Entry.time e <= upperbound query.
Proof.
  apply (search_finds_appended (Examples.blank 256)
           (Examples.append_all (Examples.blank 256)
              [Examples.sample 1 3; Examples.sample 2 5; Examples.sample 1 8])
           [Examples.sample 1 3; Examples.sample 2 5; Examples.sample 1 8]
           (mkQuery 1 0 8 AKU_CURSOR_DIR_BACKWARD) 4).
  - evaluate.
  - evaluate.
  - evaluate.
  - discriminate.
  - intros i j ei ej Hi Hj Hij.
    destruct i as [|[|[|i]]]; destruct j as [|[|[|j]]];
      try discriminate; try lia;
      injection Hi as <-; injection Hj as <-; vm_compute; reflexivity.
  - repeat constructor; vm_compute; discriminate.
  - right. split; [reflexivity|]. left. vm_compute. discriminate.
  - vm_compute. discriminate.
  - apply le_n.
Defined.

(** ** Rotating the ring *)

(** One rotation per revision.  [advance_volume_] with a revision other
    than the current [active_volume_index_] changes nothing; so, of two
    writers that both saw the active page overflow at one revision and
    both call [advance_volume_] with it, only the first rotates the
    ring. *)
Theorem advance_volume_once_per_revision (s : Storage.t) (local_rev : Z) :
  - 2 ^ 31 <= Storage.active_volume_index_ s < 2 ^ 31 ->
  (local_rev <> Storage.active_volume_index_ s ->
     Storage.advance_volume_ s local_rev = s)
  /\ Storage.advance_volume_ (Storage.advance_volume_ s local_rev) local_rev
     = Storage.advance_volume_ s local_rev.
Proof.
  intros Hidx. split; [apply advance_volume_stale|].
  destruct (Z.eq_dec local_rev (Storage.active_volume_index_ s)) as [->|Hne].
  - apply advance_volume_stale.
    unfold Storage.advance_volume_. rewrite Z.eqb_refl. cbn.
    destruct (Z.eq_dec (Storage.active_volume_index_ s) (2 ^ 31 - 1)) as [->|Hn].
    + vm_compute. discriminate.
    + rewrite s32_small by lia. lia.
  - rewrite !(advance_volume_stale s local_rev Hne). reflexivity.
Qed.

(** The fresh ring of two volumes, rotated twice at revision 0. *)
Lemma advance_volume_once_per_revision_witness :
  (0 <> Storage.active_volume_index_ Examples.new_ring ->
     Storage.advance_volume_ Examples.new_ring 0 = Examples.new_ring)
  /\ Storage.advance_volume_ (Storage.advance_volume_ Examples.new_ring 0) 0
     = Storage.advance_volume_ Examples.new_ring 0.
Proof.
  apply (advance_volume_once_per_revision Examples.new_ring 0).
  vm_compute. split; [discriminate|reflexivity].
Defined.

(** The page [reallocate_disc_space] and [open] leave in a volume. *)
Lemma reopened_page (v : Volume.t) :
  let page := Volume.get_page (Volume.open (Volume.reallocate_disc_space v)) in
  PageHeader.count page = 0
  /\ PageHeader.sync_index page = 0
  /\ PageHeader.bbox page = PageBoundingBox_new
  /\ PageHeader.length page = Volume.mmap_size v
  /\ PageHeader.last_offset page = u32 (Volume.mmap_size v - 1)
  /\ PageHeader.type page = PageHeader.type (Volume.get_page v)
  /\ PageHeader.page_id page = PageHeader.page_id (Volume.get_page v)
  /\ PageHeader.open_count page
     = u32 (PageHeader.open_count (Volume.get_page v) + 1)
  /\ PageHeader.close_count page = PageHeader.close_count (Volume.get_page v).
Proof. repeat split. Qed.

(** What a rotation does.  In a ring whose active volume is at a position
    of the list and whose revision is a non-negative [int] below its
    maximum, [advance_volume_] with the current revision bumps the
    revision and makes the volume at position (revision + 1) modulo the
    ring size the active one.  That volume comes out empty: no entry,
    [sync_index] 0, the constructor's bounding box, [last_offset] at the
    size of its mapping less one, [open_count] one more, its page id and
    type kept.  The volume that was active has [close_count] one more and
    is otherwise as it was (in a ring of one, it is the volume that is
    emptied).  Every other volume is untouched. *)
Theorem advance_volume_rotates (s : Storage.t) :
  let n := Datatypes.length (Storage.volumes_ s) in
  let rev := Storage.active_volume_index_ s in
  let s' := Storage.advance_volume_ s rev in
  let next := Z.to_nat ((rev + 1) mod Z.of_nat n) in
  (Storage.active_volume_ s < n)%nat ->
  0 <= rev < 2 ^ 31 - 1 ->
  Storage.active_volume_index_ s' = rev + 1
  /\ Storage.active_volume_ s' = next
  /\ (next < n)%nat
  /\ Datatypes.length (Storage.volumes_ s') = n
  /\ (forall (i : nat) (v : Volume.t),
        i <> Storage.active_volume_ s -> i <> next ->
        Storage.volumes_ s !! i = Some v ->
        Storage.volumes_ s' !! i = Some v)
  /\ (forall v : Volume.t,
        next <> Storage.active_volume_ s ->
        Storage.volumes_ s !! Storage.active_volume_ s = Some v ->
        Storage.volumes_ s' !! Storage.active_volume_ s = Some (Volume.close v))
  /\ (forall v : Volume.t,
        Storage.volumes_ s !! next = Some v ->
        exists v', Storage.volumes_ s' !! next = Some v'
          /\ let before := Volume.get_page v in
             let page := Volume.get_page v' in
             PageHeader.count page = 0
             /\ PageHeader.sync_index page = 0
             /\ PageHeader.bbox page = PageBoundingBox_new
             /\ PageHeader.length page = Volume.mmap_size v
             /\ PageHeader.last_offset page = u32 (Volume.mmap_size v - 1)
             /\ PageHeader.type page = PageHeader.type before
             /\ PageHeader.page_id page = PageHeader.page_id before
             /\ PageHeader.open_count page
                = u32 (PageHeader.open_count before + 1)
             /\ PageHeader.close_count page
                = if decide (next = Storage.active_volume_ s)
                  then u32 (PageHeader.close_count before + 1)
                  else PageHeader.close_count before).
Proof.
  intros n rev s' next Ha Hrev. subst s'.
  unfold Storage.advance_volume_. fold rev. rewrite Z.eqb_refl. cbn zeta.
  rewrite length_alter. fold n.
  rewrite (s32_small (rev + 1)) by lia. rewrite (u64_small (rev + 1)) by lia.
  fold next.
  cbn [Storage.active_volume_index_ Storage.active_volume_ Storage.volumes_].
  assert (Hnext : (next < n)%nat).
  { subst next. pose proof (Z.mod_pos_bound (rev + 1) (Z.of_nat n)). lia. }
  split; [reflexivity|]. split; [reflexivity|]. split; [exact Hnext|].
  split; [rewrite !length_alter; reflexivity|].
  split; [|split].
  - intros i v Hi1 Hi2 Hv.
    rewrite !list_lookup_alter_ne by congruence. exact Hv.
  - intros v Hne Hv.
    rewrite !list_lookup_alter_ne by congruence.
    rewrite list_lookup_alter_eq. rewrite Hv. reflexivity.
  - intros v Hv.
    rewrite !list_lookup_alter_eq.
    destruct (decide (next = Storage.active_volume_ s)) as [Heq|Hne].
    + rewrite <- Heq, list_lookup_alter_eq, Hv.
      cbn [fmap option_fmap option_map].
      eexists. split; [reflexivity|].
      exact (reopened_page (Volume.close v)).
    + rewrite list_lookup_alter_ne by congruence. rewrite Hv.
      cbn [fmap option_fmap option_map].
      eexists. split; [reflexivity|].
      exact (reopened_page v).
Qed.

(** The fresh ring of two volumes. *)
Lemma advance_volume_rotates_witness :
  let s := Examples.new_ring in
  let n := Datatypes.length (Storage.volumes_ s) in
  let rev := Storage.active_volume_index_ s in
  let s' := Storage.advance_volume_ s rev in
  let next := Z.to_nat ((rev + 1) mod Z.of_nat n) in
  Storage.active_volume_index_ s' = rev + 1
  /\ Storage.active_volume_ s' = next
  /\ (next < n)%nat
  /\ Datatypes.length (Storage.volumes_ s') = n
  /\ (forall (i : nat) (v : Volume.t),
        i <> Storage.active_volume_ s -> i <> next ->
        Storage.volumes_ s !! i = Some v ->
        Storage.volumes_ s' !! i = Some v)
  /\ (forall v : Volume.t,
        next <> Storage.active_volume_ s ->
        Storage.volumes_ s !! Storage.active_volume_ s = Some v ->
        Storage.volumes_ s' !! Storage.active_volume_ s = Some (Volume.close v))
  /\ (forall v : Volume.t,
        Storage.volumes_ s !! next = Some v ->
        exists v', Storage.volumes_ s' !! next = Some v'
          /\ let before := Volume.get_page v in
             let page := Volume.get_page v' in
             PageHeader.count page = 0
             /\ PageHeader.sync_index page = 0
             /\ PageHeader.bbox page = PageBoundingBox_new
             /\ PageHeader.length page = Volume.mmap_size v
             /\ PageHeader.last_offset page = u32 (Volume.mmap_size v - 1)
             /\ PageHeader.type page = PageHeader.type before
             /\ PageHeader.page_id page = PageHeader.page_id before
             /\ PageHeader.open_count page
                = u32 (PageHeader.open_count before + 1)
             /\ PageHeader.close_count page
                = if decide (next = Storage.active_volume_ s)
                  then u32 (PageHeader.close_count before + 1)
                  else PageHeader.close_count before).
Proof.
  apply (advance_volume_rotates Examples.new_ring).
  - apply le_S, le_n.
  - vm_compute. split; [discriminate|reflexivity].
Defined.

(** ** Selecting the active page *)

(** The loop of [select_active_page] after the volumes [pre] leaves the
    position of the last volume among those opened most often. *)
Lemma most_overwritten_latest (l : list Volume.t) :
  forall (pre : list Volume.t) (mi mo : Z),
  Forall (fun v => 0 <= PageHeader.open_count (Volume.get_page v)) (pre ++ l) ->
  (pre = [] /\ mi = -1 /\ mo = -1)
  \/ (exists v, pre !! Z.to_nat mi = Some v /\ 0 <= mi
        /\ PageHeader.open_count (Volume.get_page v) = mo
        /\ forall (j : nat) (w : Volume.t), pre !! j = Some w ->
             PageHeader.open_count (Volume.get_page w) <= mo
             /\ (mi < Z.of_nat j -> PageHeader.open_count (Volume.get_page w) < mo)) ->
  let '(ri, ro) :=
    Storage.most_overwritten l (Z.of_nat (Datatypes.length pre)) mi mo in
  (pre ++ l = [] /\ ri = -1)
  \/ (exists v, (pre ++ l) !! Z.to_nat ri = Some v /\ 0 <= ri
        /\ PageHeader.open_count (Volume.get_page v) = ro
        /\ forall (j : nat) (w : Volume.t), (pre ++ l) !! j = Some w ->
             PageHeader.open_count (Volume.get_page w) <= ro
             /\ (ri < Z.of_nat j -> PageHeader.open_count (Volume.get_page w) < ro)).
Proof.
  induction l as [|v l IH]; intros pre mi mo Hpos Hinv.
  - cbn [Storage.most_overwritten]. rewrite app_nil_r.
    destruct Hinv as [(-> & -> & _)|H]; [left; split; reflexivity|right; exact H].
  - cbn [Storage.most_overwritten].
    replace (pre ++ v :: l) with ((pre ++ [v]) ++ l) in *
      by (rewrite <- app_assoc; reflexivity).
    replace (Z.of_nat (Datatypes.length pre) + 1)
      with (Z.of_nat (Datatypes.length (pre ++ [v])))
      by (rewrite length_app; cbn; lia).
    assert (Hv : 0 <= PageHeader.open_count (Volume.get_page v)).
    { rewrite Forall_app in Hpos. destruct Hpos as [Hpos _].
      rewrite Forall_app in Hpos. destruct Hpos as [_ Hpos].
      inversion Hpos; subst. assumption. }
    assert (Hsnoc : forall (j : nat) (w : Volume.t), (pre ++ [v]) !! j = Some w ->
              ((j < Datatypes.length pre)%nat /\ pre !! j = Some w)
              \/ (j = Datatypes.length pre /\ w = v)).
    { intros j w Hj.
      destruct (Nat.lt_ge_cases j (Datatypes.length pre)) as [Hlt|Hge].
      - left. rewrite lookup_app_l in Hj by assumption. split; assumption.
      - right. pose proof (lookup_lt_Some _ _ _ Hj) as Hb.
        rewrite length_app in Hb. cbn in Hb.
        assert (j = Datatypes.length pre) by lia. subst j.
        rewrite lookup_app_r in Hj by lia. rewrite Nat.sub_diag in Hj.
        cbn in Hj. injection Hj as <-. split; reflexivity. }
    destruct (PageHeader.open_count (Volume.get_page v) >=? mo) eqn:E.
    + rewrite Z.geb_leb in E. apply Z.leb_le in E.
      apply IH; [exact Hpos|]. right. exists v.
      rewrite Nat2Z.id. split.
      { rewrite lookup_app_r by lia. rewrite Nat.sub_diag. reflexivity. }
      split; [lia|]. split; [reflexivity|].
      intros j w Hj. destruct (Hsnoc j w Hj) as [[Hlt Hw]|[-> ->]]; [|lia].
      split; [|lia].
      destruct Hinv as [(-> & _)|(u & _ & _ & _ & Hall)]; [discriminate|].
      destruct (Hall j w Hw) as [H _]. lia.
    + rewrite Z.geb_leb in E. apply Z.leb_gt in E.
      apply IH; [exact Hpos|]. right.
      destruct Hinv as [(_ & _ & ->)|(u & Hu & Hmi & Ho & Hall)]; [lia|].
      exists u. split.
      { rewrite lookup_app_l; [exact Hu|]. apply lookup_lt_Some in Hu. exact Hu. }
      split; [exact Hmi|]. split; [exact Ho|].
      intros j w Hj. destruct (Hsnoc j w Hj) as [[Hlt Hw]|[-> ->]].
      * exact (Hall j w Hw).
      * split; lia.
Qed.

(** Which page becomes active at start.  With no volume,
    [select_active_page] throws ([volumes_.at(-1)]).  Otherwise it singles
    out the last volume among those with the largest [open_count].  When
    that page has [close_count] different from [open_count] it becomes the
    active page and no volume is touched; when the two are equal the ring
    is rotated once from there by [advance_volume_]. *)
Theorem select_active_page_picks_latest (s : Storage.t) :
  Forall (fun v => 0 <= PageHeader.open_count (Volume.get_page v))
    (Storage.volumes_ s) ->
  match Storage.select_active_page s with
  | None => Storage.volumes_ s = []
  | Some s' =>
    exists (i : nat) (v : Volume.t),
      Storage.volumes_ s !! i = Some v
      /\ (forall (j : nat) (w : Volume.t), Storage.volumes_ s !! j = Some w ->
            PageHeader.open_count (Volume.get_page w)
              <= PageHeader.open_count (Volume.get_page v)
            /\ ((i < j)%nat ->
                PageHeader.open_count (Volume.get_page w)
                  < PageHeader.open_count (Volume.get_page v)))
      /\ s' = let chosen := Storage.mk (Storage.volumes_ s) (Z.of_nat i) i in
              if PageHeader.close_count (Volume.get_page v)
                 =? PageHeader.open_count (Volume.get_page v)
              then Storage.advance_volume_ chosen (Z.of_nat i)
              else chosen
  end.
Proof.
  intros Hpos.
  pose proof (most_overwritten_latest (Storage.volumes_ s) [] (-1) (-1) Hpos
                (or_introl (conj eq_refl (conj eq_refl eq_refl)))) as Hsel.
  unfold Storage.select_active_page.
  cbn [app] in Hsel.
  change (Z.of_nat (Datatypes.length (@nil Volume.t))) with 0 in Hsel.
  destruct (Storage.most_overwritten (Storage.volumes_ s) 0 (-1) (-1))
    as [ri ro].
  cbn beta iota in Hsel.
  destruct Hsel as [[Hnil ->]|(v & Hv & Hri & Ho & Hall)].
  - cbn. exact Hnil.
  - pose proof (lookup_lt_Some _ _ _ Hv) as Hlt.
    destruct (ri <? 0) eqn:E1; [lia|].
    destruct (ri >=? Z.of_nat (Datatypes.length (Storage.volumes_ s))) eqn:E2;
      [rewrite Z.geb_leb in E2; lia|].
    cbn [orb Storage.volumes_ Storage.active_volume_ Storage.active_volume_index_].
    rewrite Hv. cbn zeta.
    assert (Hchosen : Storage.mk (Storage.volumes_ s) ri (Z.to_nat ri)
                      = Storage.mk (Storage.volumes_ s)
                          (Z.of_nat (Z.to_nat ri)) (Z.to_nat ri))
      by (rewrite Z2Nat.id by lia; reflexivity).
    assert (Hres : forall s', s' = (if PageHeader.close_count (Volume.get_page v)
                                       =? PageHeader.open_count (Volume.get_page v)
                                    then Storage.advance_volume_
                                           (Storage.mk (Storage.volumes_ s) ri
                                              (Z.to_nat ri)) ri
                                    else Storage.mk (Storage.volumes_ s) ri
                                           (Z.to_nat ri)) ->
              exists (i : nat) (v0 : Volume.t),
                Storage.volumes_ s !! i = Some v0
                /\ (forall (j : nat) (w : Volume.t),
                      Storage.volumes_ s !! j = Some w ->
                      PageHeader.open_count (Volume.get_page w)
                        <= PageHeader.open_count (Volume.get_page v0)
                      /\ ((i < j)%nat ->
                          PageHeader.open_count (Volume.get_page w)
                            < PageHeader.open_count (Volume.get_page v0)))
                /\ s' = (if PageHeader.close_count (Volume.get_page v0)
                            =? PageHeader.open_count (Volume.get_page v0)
                         then Storage.advance_volume_
                                (Storage.mk (Storage.volumes_ s) (Z.of_nat i) i)
                                (Z.of_nat i)
                         else Storage.mk (Storage.volumes_ s) (Z.of_nat i) i)).
    { intros s' ->. exists (Z.to_nat ri), v. split; [exact Hv|]. split.
      - intros j w Hw. destruct (Hall j w Hw) as [H1 H2]. rewrite Ho.
        split; [exact H1|]. intros Hij. apply H2. lia.
      - rewrite Z2Nat.id by lia. reflexivity. }
    destruct (PageHeader.close_count (Volume.get_page v)
              =? PageHeader.open_count (Volume.get_page v)) eqn:Eq;
      apply Hres; reflexivity.
Qed.

(** The ring whose first volume was closed by an interrupted rotation. *)
Lemma select_active_page_picks_latest_witness :
  match Storage.select_active_page Examples.interrupted_ring with
  | None => Storage.volumes_ Examples.interrupted_ring = []
  | Some s' =>
    exists (i : nat) (v : Volume.t),
      Storage.volumes_ Examples.interrupted_ring !! i = Some v
      /\ (forall (j : nat) (w : Volume.t),
            Storage.volumes_ Examples.interrupted_ring !! j = Some w ->
            PageHeader.open_count (Volume.get_page w)
              <= PageHeader.open_count (Volume.get_page v)
            /\ ((i < j)%nat ->
                PageHeader.open_count (Volume.get_page w)
                  < PageHeader.open_count (Volume.get_page v)))
      /\ s' = let chosen :=
                Storage.mk (Storage.volumes_ Examples.interrupted_ring)
                  (Z.of_nat i) i in
              if PageHeader.close_count (Volume.get_page v)
                 =? PageHeader.open_count (Volume.get_page v)
              then Storage.advance_volume_ chosen (Z.of_nat i)
              else chosen
  end.
Proof.
  apply (select_active_page_picks_latest Examples.interrupted_ring).
  repeat constructor; vm_compute; discriminate.
Defined.

(** ** The first start of a new storage *)

(** A new storage starts on its first volume.  The pages of a storage of
    [n >= 1] volumes are created by [create_page_file], which activates
    the page of index 0 with [reuse].  The first [select_active_page] over
    them makes volume 0 the active one and rotates nothing: every page is
    as it was created. *)
Theorem new_storage_starts_on_first_volume
    (n : nat) (len ttl max_cache_size : Z) :
  (1 <= n)%nat ->
  Storage.select_active_page (Lifecycle.created n len ttl max_cache_size)
  = Some (Lifecycle.created n len ttl max_cache_size).
Proof.
  intros Hn.
  set (s := Lifecycle.created n len ttl max_cache_size).
  assert (Hlookup : forall (j : nat) (w : Volume.t),
            Storage.volumes_ s !! j = Some w ->
            w = Volume.mk (Lifecycle.create_page len (Z.of_nat j)) len ttl
                  max_cache_size).
  { intros j w Hw. unfold s, Lifecycle.created in Hw. cbn [Storage.volumes_] in Hw.
    change (map ?f ?l) with (f <$> l) in Hw. rewrite list_lookup_fmap in Hw.
    destruct (seqZ 0 (Z.of_nat n) !! j) as [z|] eqn:Hz; [|discriminate].
    apply lookup_seqZ in Hz. destruct Hz as [-> _]. injection Hw as <-.
    reflexivity. }
  assert (Hopen : forall (j : nat) (w : Volume.t),
            Storage.volumes_ s !! j = Some w ->
            PageHeader.open_count (Volume.get_page w)
            = if Z.of_nat j =? 0 then 1 else 0).
  { intros j w Hw. rewrite (Hlookup j w Hw). unfold Lifecycle.create_page.
    cbn [Volume.get_page Volume.page_]. destruct (Z.of_nat j =? 0); reflexivity. }
  assert (Hlen : Datatypes.length (Storage.volumes_ s) = n).
  { unfold s, Lifecycle.created. cbn [Storage.volumes_].
    rewrite length_map, length_seqZ. lia. }
  assert (Hpos : Forall (fun v => 0 <= PageHeader.open_count (Volume.get_page v))
                   (Storage.volumes_ s)).
  { apply Forall_lookup. intros j w Hw. rewrite (Hopen j w Hw).
    destruct (Z.of_nat j =? 0); lia. }
  pose proof (most_overwritten_latest (Storage.volumes_ s) [] (-1) (-1) Hpos
                (or_introl (conj eq_refl (conj eq_refl eq_refl)))) as Hsel.
  cbn [app] in Hsel.
  change (Z.of_nat (Datatypes.length (@nil Volume.t))) with 0 in Hsel.
  unfold Storage.select_active_page.
  destruct (Storage.most_overwritten (Storage.volumes_ s) 0 (-1) (-1))
    as [ri ro].
  cbn beta iota in Hsel.
  destruct Hsel as [[Hnil _]|(v & Hv & Hri & Ho & Hall)].
  { rewrite Hnil in Hlen. cbn in Hlen. lia. }
  destruct (Storage.volumes_ s !! O) as [v0|] eqn:Hv0;
    [|apply lookup_ge_None in Hv0; lia].
  assert (Hzero : ri = 0).
  { destruct (Hall O v0 Hv0) as [Hle _].
    rewrite (Hopen O v0 Hv0) in Hle.
    change (Z.of_nat 0 =? 0) with true in Hle. cbn iota in Hle.
    rewrite <- Ho, (Hopen _ v Hv) in Hle.
    destruct (Z.of_nat (Z.to_nat ri) =? 0) eqn:E; [|lia].
    apply Z.eqb_eq in E. lia. }
  subst ri. change (Z.to_nat 0) with O in *. change (0 <? 0) with false.
  rewrite Hv0 in Hv. injection Hv as <-.
  destruct (0 >=? Z.of_nat (Datatypes.length (Storage.volumes_ s))) eqn:E2;
    [rewrite Z.geb_leb in E2; apply Z.leb_le in E2; lia|].
  cbn [orb Storage.volumes_ Storage.active_volume_ Storage.active_volume_index_].
  rewrite Hv0. rewrite (Hlookup O v0 Hv0).
  reflexivity.
Qed.

(** A storage of three volumes of 4096 bytes. *)
Lemma new_storage_starts_on_first_volume_witness :
  Storage.select_active_page (Lifecycle.created 3 4096 1000 16)
  = Some (Lifecycle.created 3 4096 1000 16).
Proof.
  apply (new_storage_starts_on_first_volume 3 4096 1000 16).
  apply le_S, le_S, le_n.
Defined.

(** ** Runs that do not interpolate *)

Section ReturnsAnyOrder.
Import PageHeader.
Context (p : t) (key : Z).
Hypothesis Hcount : 1 <= count p < 2 ^ 32.

Lemma binary_search_returns_within (fuel : nat) :
  forall begin end_ pi : Z,
  0 <= begin < count p -> 0 <= end_ < count p ->
  begin <= end_ \/ 0 <= pi < count p ->
  0 < Z.of_nat fuel /\ end_ - begin + 1 < Z.of_nat fuel ->
  returns (fun r => 0 <= r < count p)
    (binary_search fuel p key begin end_ pi).
Proof.
  induction fuel as [|fuel IH]; intros b e pi Hb He Hpi Hfuel; [lia|].
  cbn [binary_search].
  destruct (e >=? b) eqn:Hge.
  2: { apply returns_ret. rewrite Z.geb_leb in Hge. apply Z.leb_gt in Hge.
       destruct Hpi as [H|H]; [lia|exact H]. }
  apply Z.geb_le in Hge.
  rewrite (u32_small (e - b)) by lia.
  assert (Hdiv : 0 <= (e - b) / 2 <= e - b).
  { split; [apply Z.div_pos; lia|]. apply Z.div_le_upper_bound; lia. }
  rewrite (u32_small (b + (e - b) / 2)) by lia.
  set (mid := b + (e - b) / 2) in *.
  eapply returns_bind;
    [apply (returns_index_at p mid (fun _ => True)); exact I|].
  intros off _. cbn zeta.
  destruct (_ =? key); [apply returns_ret; lia|].
  destruct (_ <? key).
  - rewrite (u32_small (mid + 1)) by lia.
    destruct (mid + 1 =? count p) eqn:Hc; [apply returns_ret; lia|].
    apply Z.eqb_neq in Hc. apply IH; lia.
  - destruct (Z.eq_dec mid 0) as [Hz|Hnz].
    + rewrite Hz. cbn [Z.sub Z.add Z.opp Z.pos_sub]. rewrite Z.eqb_refl.
      apply returns_ret. lia.
    + rewrite (u32_small (mid - 1)) by lia.
      replace (u32 (-1)) with (2 ^ 32 - 1) by reflexivity.
      destruct (mid - 1 =? 2 ^ 32 - 1) eqn:Hc;
        [apply Z.eqb_eq in Hc; lia|].
      apply IH; lia.
Qed.

(** The interpolation loop leaves at once when the range is short. *)
Lemma interpolate_short_range (quota : nat) (st : Narrow) :
  u32 (end_ st - begin_ st) < AKU_INTERPOLATION_SEARCH_CUTOFF ->
  interpolate quota p key st = mret st.
Proof.
  intros Hshort. destruct st as [b e pi slb sub]. cbn [begin_ end_] in Hshort.
  destruct quota as [|quota]; [reflexivity|]. cbn [interpolate].
  destruct (u32 (e - b) <? AKU_INTERPOLATION_SEARCH_CUTOFF) eqn:E;
    [reflexivity|lia].
Qed.

Lemma locate_returns_without_interpolation (is_backward : bool) (fuel : nat) :
  count p < Z.of_nat fuel ->
  count p <= AKU_INTERPOLATION_SEARCH_CUTOFF
  \/ key < min_timestamp (bbox p) \/ max_timestamp (bbox p) < key ->
  returns
    (fun pos => match pos with
                | Some r => 0 <= r < count p
                | None => True
                end)
    (locate fuel p is_backward key).
Proof.
  intros Hfuel Hcase. unfold locate. cbn zeta.
  rewrite (u32_small (count p - 1)) by lia.
  assert (Hbs : returns
            (fun pos => match pos with
                        | Some r => 0 <= r < count p
                        | None => True
                        end)
            (binary_search fuel p key 0 (count p - 1) 0
               ≫= (fun i => mret (Some i)))).
  { eapply returns_bind;
      [apply binary_search_returns_within; lia|].
    intros r Hr. apply returns_ret. exact Hr. }
  destruct ((key <=? max_timestamp (bbox p)) && (key >=? min_timestamp (bbox p)))
    eqn:Hin.
  - apply andb_true_iff in Hin. destruct Hin as [H1 H2].
    apply Z.leb_le in H1. apply Z.geb_le in H2.
    destruct Hcase as [Hsmall|Hout]; [|lia].
    rewrite interpolate_short_range.
    + exact Hbs.
    + cbn [begin_ end_]. rewrite Z.sub_0_r. rewrite u32_small by lia. lia.
  - destruct (key >? max_timestamp (bbox p)).
    + destruct is_backward; [apply returns_ret; lia|].
      apply (returns_bind (fun _ => True));
        [eexists; split; [reflexivity|exact I]|].
      intros _ _. apply returns_ret. exact I.
    + destruct (key <? min_timestamp (bbox p)); [|exact Hbs].
      destruct is_backward; cbn [negb]; [|apply returns_ret; lia].
      apply (returns_bind (fun _ => True));
        [eexists; split; [reflexivity|exact I]|].
      intros _ _. apply returns_ret. exact I.
Qed.

End ReturnsAnyOrder.

(** Searches that always return.  On a page with at least one entry,
    whatever the order of its index and whatever its bounding box, a valid
    query makes [search] run to its end (no undefined division, and fuel
    above [count] is enough for every loop) when the page has at most
    AKU_INTERPOLATION_SEARCH_CUTOFF entries, so that the interpolation
    loop leaves at once, or when the key ([upperbound] when backward,
    [lowerbound] when forward) is outside the timestamps of the bounding
    box, so that the loop is not entered. *)
Theorem search_returns_without_interpolation
    (fuel : nat) (p : PageHeader.t) (query : SingleParameterSearchQuery) :
  let key := if direction query =? AKU_CURSOR_DIR_BACKWARD
             then upperbound query else lowerbound query in
  1 <= PageHeader.count p < 2 ^ 32 ->
  validate_query query = true ->
  PageHeader.count p < Z.of_nat fuel ->
  PageHeader.count p <= AKU_INTERPOLATION_SEARCH_CUTOFF
  \/ key < min_timestamp (PageHeader.bbox p)
  \/ max_timestamp (PageHeader.bbox p) < key ->
  PageHeader.outcome (PageHeader.search fuel p query) = PageHeader.Done tt.
Proof.
  intros key Hcount Hvalid Hfuel Hcase.
  unfold PageHeader.search. rewrite Hvalid. cbn [negb]. cbn zeta. fold key.
  assert (Hret : PageHeader.returns (fun _ => True)
            (PageHeader.locate fuel p
               (direction query =? AKU_CURSOR_DIR_BACKWARD) key ≫=
             (fun pos => match pos with
                         | Some probe_index =>
                           if direction query =? AKU_CURSOR_DIR_BACKWARD
                           then PageHeader.scan_backward fuel p query probe_index
                           else PageHeader.scan_forward fuel p query
                                  (u32 (PageHeader.count p - 1)) probe_index
                         | None => mret tt
                         end))).
  { eapply returns_bind;
      [apply locate_returns_without_interpolation; assumption|].
    intros [r|] Hr; [|apply returns_ret; exact I].
    rewrite (u32_small (PageHeader.count p - 1)) by lia.
    destruct (direction query =? AKU_CURSOR_DIR_BACKWARD).
    - apply scan_backward_returns; [exact Hcount|lia|lia].
    - apply scan_forward_returns; [exact Hcount|lia|lia]. }
  destruct Hret as ([] & Hdone & _). exact Hdone.
Qed.

(** Three series sampled at one instant, which no order separates; the
    backward query for param 2 at that instant. *)
Lemma search_returns_without_interpolation_witness :
  PageHeader.outcome
    (PageHeader.search 4 Examples.three_series
       (mkQuery 2 5 5 AKU_CURSOR_DIR_BACKWARD))
  = PageHeader.Done tt.
Proof.
  apply (search_returns_without_interpolation 4 Examples.three_series
           (mkQuery 2 5 5 AKU_CURSOR_DIR_BACKWARD)).
  - vm_compute. split; [discriminate|reflexivity].
  - vm_compute. reflexivity.
  - vm_compute. reflexivity.
  - left. vm_compute. discriminate.
Defined.

(** ** Searching a sorted page *)

Lemma StronglySorted_lookup_lt {A} (R : A -> A -> Prop) (l : list A)
    (i j : nat) (a b : A) :
  StronglySorted R l -> l !! i = Some a -> l !! j = Some b -> (i < j)%nat ->
  R a b.
Proof.
  intros Hs. revert i j. induction Hs as [|x l Hs IH Hall]; intros i j Hi Hj Hij.
  - discriminate.
  - destruct j as [|j]; [lia|]. cbn in Hj.
    destruct i as [|i].
    + cbn in Hi. injection Hi as <-.
      rewrite Forall_forall in Hall. apply Hall.
      apply list_elem_of_lookup. exists j. exact Hj.
    + cbn in Hi. apply (IH i j); [exact Hi|exact Hj|lia].
Qed.

Lemma index_slots_lookup (p : PageHeader.t) (i : Z) :
  0 <= i < PageHeader.count p ->
  PageHeader.index_slots p !! Z.to_nat i = Some (PageHeader.page_index p i).
Proof.
  intros Hi. unfold PageHeader.index_slots.
  change (map ?f ?l) with (f <$> l). rewrite list_lookup_fmap.
  rewrite lookup_seqZ_lt by lia. cbn. rewrite Z2Nat.id by lia.
  reflexivity.
Qed.

Lemma index_slots_elem (p : PageHeader.t) (o : EntryOffset) :
  o ∈ PageHeader.index_slots p
  <-> exists i, 0 <= i < PageHeader.count p /\ PageHeader.page_index p i = o.
Proof.
  unfold PageHeader.index_slots. change (map ?f ?l) with (f <$> l).
  rewrite list_elem_of_fmap. split.
  - intros (i & -> & Hi). apply elem_of_seqZ in Hi. exists i. split; [lia|reflexivity].
  - intros (i & Hi & <-). exists i. split; [reflexivity|]. apply elem_of_seqZ. lia.
Qed.

(** What [search] puts, once it is known to reach every matching slot. *)
Lemma puts_exactly_matching
    (p : PageHeader.t) (query : SingleParameterSearchQuery) (fuel : nat) :
  1 <= PageHeader.count p < 2 ^ 32 ->
  PageHeader.count p < Z.of_nat fuel ->
  (forall i, 0 <= i < PageHeader.count p ->
     PageHeader.matches p query (PageHeader.page_index p i) ->
     In (PageHeader.Put (PageHeader.page_index p i))
        (PageHeader.events (PageHeader.search fuel p query))) ->
  forall o,
    In (PageHeader.Put o) (PageHeader.events (PageHeader.search fuel p query))
    <-> exists i, 0 <= i < PageHeader.count p
          /\ PageHeader.page_index p i = o
          /\ PageHeader.matches p query o.
Proof.
  intros Hcount Hfuel Hall o. split.
  - intros Hin. apply list_elem_of_In in Hin.
    destruct (search_within p true Hcount query fuel (fun _ => Hfuel))
      as [Hwithin _].
    destruct (search_puts_matching p query fuel) as [Hmatch _].
    rewrite Forall_forall in Hwithin, Hmatch.
    destruct (Hwithin _ Hin) as (i & Hi & Hix).
    exists i. split; [exact Hi|]. split; [exact Hix|]. exact (Hmatch _ Hin).
  - intros (i & Hi & Hix & Hmatch). subst o. apply Hall; assumption.
Qed.

(** [sort] makes a page with distinct timestamps ordered, and keeps the
    bounding box around it. *)
Lemma sort_orders_distinct (p : PageHeader.t) :
  1 <= PageHeader.count p < 2 ^ 32 ->
  PageHeader.bbox_spans p ->
  (forall i j, 0 <= i -> i < j -> j < PageHeader.count p ->
     Entry.time (PageHeader.entry_at p i) <> Entry.time (PageHeader.entry_at p j)) ->
  PageHeader.strictly_ordered (PageHeader.sort p)
  /\ PageHeader.bbox_spans (PageHeader.sort p).
Proof.
  intros Hcount Hbox Hdist.
  destruct (sort_permutes_and_orders p) as [Hperm Hsorted].
  change (PageHeader.sort_key (PageHeader.sort p))
    with (PageHeader.sort_key p) in Hsorted.
  set (q := PageHeader.sort p) in *.
  assert (Hcq : PageHeader.count q = PageHeader.count p) by reflexivity.
  set (ts := fun o => Entry.time (PageHeader.read_entry p o)).
  assert (Hentry : forall i, Entry.time (PageHeader.entry_at q i)
                             = ts (PageHeader.page_index q i)) by reflexivity.
  assert (Hold : forall i, 0 <= i < PageHeader.count p ->
            exists i0, 0 <= i0 < PageHeader.count p
              /\ PageHeader.page_index p i0 = PageHeader.page_index q i).
  { intros i Hi. apply index_slots_elem. rewrite <- Hperm.
    apply index_slots_elem. exists i. rewrite Hcq. split; [exact Hi|reflexivity]. }
  destruct Hbox as (Hmin & Hmax & Hall).
  assert (Hnn : forall i, 0 <= i < PageHeader.count p ->
            0 <= ts (PageHeader.page_index q i)).
  { intros i Hi. destruct (Hold i Hi) as (i0 & Hi0 & <-).
    specialize (Hall i0 Hi0). unfold ts. fold (PageHeader.entry_at p i0). lia. }
  assert (Hnodup : NoDup (ts <$> PageHeader.index_slots q)).
  { rewrite Hperm. apply NoDup_alt. intros i j x Hi Hj.
    rewrite list_lookup_fmap in Hi, Hj.
    destruct (PageHeader.index_slots p !! i) as [oi|] eqn:Hoi; [|discriminate].
    destruct (PageHeader.index_slots p !! j) as [oj|] eqn:Hoj; [|discriminate].
    cbn in Hi, Hj. injection Hi as Hi. injection Hj as Hj.
    pose proof (lookup_lt_Some _ _ _ Hoi) as Hli.
    pose proof (lookup_lt_Some _ _ _ Hoj) as Hlj.
    unfold PageHeader.index_slots in Hli, Hlj.
    rewrite length_map, length_seqZ in Hli, Hlj.
    rewrite <- (Nat2Z.id i), index_slots_lookup in Hoi by lia.
    rewrite <- (Nat2Z.id j), index_slots_lookup in Hoj by lia.
    injection Hoi as <-. injection Hoj as <-.
    destruct (Nat.lt_trichotomy i j) as [Hlt|[Heq|Hgt]]; [|exact Heq|].
    - exfalso. apply (Hdist (Z.of_nat i) (Z.of_nat j)); try lia.
      unfold PageHeader.entry_at. fold (ts (PageHeader.page_index p (Z.of_nat i))).
      fold (ts (PageHeader.page_index p (Z.of_nat j))). congruence.
    - exfalso. apply (Hdist (Z.of_nat j) (Z.of_nat i)); try lia.
      unfold PageHeader.entry_at. fold (ts (PageHeader.page_index p (Z.of_nat i))).
      fold (ts (PageHeader.page_index p (Z.of_nat j))). congruence. }
  split.
  - intros i j Hi Hij Hj. rewrite Hcq in Hj. rewrite !Hentry.
    pose proof (index_slots_lookup q i ltac:(rewrite Hcq; lia)) as Hli.
    pose proof (index_slots_lookup q j ltac:(rewrite Hcq; lia)) as Hlj.
    pose proof (StronglySorted_lookup_lt _ _ _ _ _ _ Hsorted Hli Hlj
                  ltac:(lia)) as Hle.
    cbn beta zeta in Hle.
    rewrite (sort_key_nonnegative p _ (Hnn i ltac:(lia))) in Hle.
    rewrite (sort_key_nonnegative p _ (Hnn j ltac:(lia))) in Hle.
    cbn [fst snd] in Hle. fold (ts (PageHeader.page_index q i)) in Hle.
    fold (ts (PageHeader.page_index q j)) in Hle.
    assert (Hne : ts (PageHeader.page_index q i) <> ts (PageHeader.page_index q j)).
    { intros Heq. rewrite NoDup_alt in Hnodup.
      assert (Z.to_nat i = Z.to_nat j); [|lia].
      apply (Hnodup _ _ (ts (PageHeader.page_index q i)));
        rewrite list_lookup_fmap; [rewrite Hli|rewrite Hlj, Heq]; reflexivity. }
    lia.
  - split; [exact Hmin|]. split; [exact Hmax|].
    intros i Hi. rewrite Hcq in Hi. rewrite Hentry.
    destruct (Hold i Hi) as (i0 & Hi0 & <-).
    exact (Hall i0 Hi0).
Qed.

(** Searching a page after [sort].  Take a page with at least one entry
    whose entries have pairwise distinct timestamps, none negative, inside
    a bounding box with non-negative bounds, in any order in the index.
    After [sort], a valid query makes [search] run to its end, given more
    fuel than entries, and the offsets put on the cursor are exactly those
    of the entries of the page that have the query's param_id and a
    timestamp between its bounds.  For a backward query this needs a page
    of at most AKU_INTERPOLATION_SEARCH_CUTOFF entries, or no entry with
    the timestamp [upperbound]. *)
Theorem search_after_sort
    (p : PageHeader.t) (query : SingleParameterSearchQuery) (fuel : nat) :
  1 <= PageHeader.count p < 2 ^ 32 ->
  PageHeader.bbox_spans p ->
  (forall i j, 0 <= i -> i < j -> j < PageHeader.count p ->
     Entry.time (PageHeader.entry_at p i) <> Entry.time (PageHeader.entry_at p j)) ->
  direction query = AKU_CURSOR_DIR_FORWARD
  \/ (direction query = AKU_CURSOR_DIR_BACKWARD
      /\ (PageHeader.count p <= AKU_INTERPOLATION_SEARCH_CUTOFF
          \/ forall i, 0 <= i < PageHeader.count p ->
               Entry.time (PageHeader.entry_at p i) <> upperbound query)) ->
  lowerbound query <= upperbound query ->
  PageHeader.count p < Z.of_nat fuel ->
  let run := PageHeader.search fuel (PageHeader.sort p) query in
  PageHeader.outcome run = PageHeader.Done tt
  /\ forall o,
       In (PageHeader.Put o) (PageHeader.events run)
       <-> exists i, 0 <= i < PageHeader.count p
             /\ PageHeader.page_index p i = o
             /\ PageHeader.matches p query o.
Proof.
  intros Hcount Hbox Hdist Hdir Hle Hfuel run. subst run.
  destruct (sort_orders_distinct p Hcount Hbox Hdist) as [Hord Hboxq].
  destruct (sort_permutes_and_orders p) as [Hperm _].
  set (q := PageHeader.sort p) in *.
  assert (Hcq : PageHeader.count q = PageHeader.count p) by reflexivity.
  assert (Hslots : forall o,
            (exists i, 0 <= i < PageHeader.count q /\ PageHeader.page_index q i = o)
            <-> (exists i, 0 <= i < PageHeader.count p
                   /\ PageHeader.page_index p i = o)).
  { intros o. rewrite <- !index_slots_elem. rewrite Hperm. reflexivity. }
  assert (Hruns : PageHeader.outcome (PageHeader.search fuel q query)
                  = PageHeader.Done tt
                  /\ forall i, 0 <= i < PageHeader.count q ->
                       PageHeader.matches q query (PageHeader.page_index q i) ->
                       In (PageHeader.Put (PageHeader.page_index q i))
                          (PageHeader.events (PageHeader.search fuel q query))).
  { destruct Hdir as [Hdir|[Hdir Hmiss]].
    - apply search_forward_runs; try assumption; rewrite Hcq; assumption.
    - apply search_backward_runs; try assumption; try (rewrite Hcq; assumption).
      rewrite Hcq. destruct Hmiss as [Hsmall|Hnohit]; [left; exact Hsmall|right].
      intros i Hi.
      destruct (proj1 (Hslots (PageHeader.page_index q i))) as (i0 & Hi0 & Hix).
      { exists i. rewrite Hcq. split; [exact Hi|reflexivity]. }
      change (Entry.time (PageHeader.entry_at q i))
        with (Entry.time (PageHeader.read_entry p (PageHeader.page_index q i))).
      rewrite <- Hix. exact (Hnohit i0 Hi0). }
  destruct Hruns as [Hdone Hall].
  split; [exact Hdone|]. intros o.
  rewrite (puts_exactly_matching q query fuel); [|rewrite Hcq; assumption ..|exact Hall].
  change (PageHeader.matches q query o) with (PageHeader.matches p query o).
  split.
  - intros (i & Hi & Hix & Hm).
    destruct (proj1 (Hslots o)) as (i0 & Hi0 & Hix0); [exists i; split; assumption|].
    exists i0. split; [exact Hi0|]. split; [exact Hix0|exact Hm].
  - intros (i & Hi & Hix & Hm).
    destruct (proj2 (Hslots o)) as (i0 & Hi0 & Hix0); [exists i; split; assumption|].
    exists i0. split; [exact Hi0|]. split; [exact Hix0|exact Hm].
Qed.

(** Three samples appended with the timestamps out of order, then sorted;
    the forward query for param 1 over 0..10. *)
Lemma search_after_sort_witness :
  let p := Examples.append_all (Examples.blank 256)
             [Examples.sample 1 8; Examples.sample 2 5; Examples.sample 1 3] in
  let query := mkQuery 1 0 10 AKU_CURSOR_DIR_FORWARD in
  let run := PageHeader.search 4 (PageHeader.sort p) query in
  PageHeader.outcome run = PageHeader.Done tt
  /\ forall o,
       In (PageHeader.Put o) (PageHeader.events run)
       <-> exists i, 0 <= i < PageHeader.count p
             /\ PageHeader.page_index p i = o
             /\ PageHeader.matches p query o.
Proof.
  set (p := Examples.append_all (Examples.blank 256)
              [Examples.sample 1 8; Examples.sample 2 5; Examples.sample 1 3]).
  assert (Hc : PageHeader.count p = 3) by (vm_compute; reflexivity).
  apply (search_after_sort p (mkQuery 1 0 10 AKU_CURSOR_DIR_FORWARD) 4).
  - rewrite Hc. lia.
  - split; [vm_compute; discriminate|]. split; [vm_compute; reflexivity|].
    intros i Hi. rewrite Hc in Hi.
    assert (H : i = 0 \/ i = 1 \/ i = 2) by lia.
    destruct H as [-> | [-> | ->]]; vm_compute; split; discriminate.
  - intros i j Hi Hij Hj. rewrite Hc in Hj.
    assert (H : (i = 0 /\ j = 1) \/ (i = 0 /\ j = 2) \/ (i = 1 /\ j = 2)) by lia.
    destruct H as [[-> ->] | [[-> ->] | [-> ->]]]; vm_compute; discriminate.
  - left. reflexivity.
  - vm_compute. discriminate.
  - rewrite Hc. vm_compute. reflexivity.
Defined.

(** ** Appending an Entry2 *)

Lemma byte_val_of_Z (z : Z) : byte_val (byte_of_Z z) = z mod 256.
Proof.
  unfold byte_val, byte_of_Z.
  pose proof (Z.mod_pos_bound z 256 ltac:(lia)) as Hb.
  destruct (Byte.of_N (Z.to_N (z mod 256))) as [b|] eqn:E.
  - apply Byte.to_of_N in E. rewrite E. lia.
  - apply Byte.of_N_None_iff in E. lia.
Qed.

Lemma load_le_of_bytes (n : nat) :
  forall (z : Z) (m : Region) (a : Z),
  (forall k : nat, (k < n)%nat -> m (a + Z.of_nat k) = nth k (bytes_le n z) x00) ->
  load_le n m a = z mod 2 ^ (8 * Z.of_nat n).
Proof.
  induction n as [|n IH]; intros z m a Hm.
  - cbn. rewrite Z.mod_1_r. reflexivity.
  - cbn [load_le].
    pose proof (Hm O ltac:(lia)) as H0. cbn in H0. rewrite Z.add_0_r in H0.
    rewrite H0, byte_val_of_Z.
    rewrite (IH (z / 256)).
    + replace (8 * Z.of_nat (S n)) with (8 + 8 * Z.of_nat n) by lia.
      rewrite Z.pow_add_r by lia. change (2 ^ 8) with 256.
      rewrite Z.rem_mul_r by lia. reflexivity.
    + intros k Hk. pose proof (Hm (S k) ltac:(lia)) as Hs. cbn in Hs.
      rewrite <- Hs. f_equal. lia.
Qed.

(** A [uint32_t] reads back as stored. *)
Lemma load_store_u32 (base : Region) (dst v : Z) :
  load_le 4 (PageHeader.store_u32 base dst v) dst = u32 v.
Proof.
  rewrite (load_le_of_bytes 4 v); [reflexivity|].
  intros k Hk. unfold PageHeader.store_u32.
  rewrite memcpy_inside by lia. unfold region_of_list.
  replace (dst + Z.of_nat k - dst) with (Z.of_nat k) by lia.
  destruct (Z.of_nat k <? 0) eqn:E; [lia|]. rewrite Nat2Z.id. reflexivity.
Qed.

Lemma store_u32_outside (base : Region) (dst v a : Z) :
  a < dst \/ dst + 4 <= a -> PageHeader.store_u32 base dst v a = base a.
Proof. intros H. unfold PageHeader.store_u32. apply memcpy_outside. exact H. Qed.

Section AppendEntry2.
Variable sizeof_Entry2 : Z.
Hypothesis Hsize : 0 < sizeof_Entry2 < 2 ^ 31.

Let add_entry2 := PageHeader.add_entry2 sizeof_Entry2.

(** What [add_entry(Entry2 const&)] decides and where it leaves the
    counters, on a page whose free space fits an [int]. *)
Lemma add_entry2_fields (p : PageHeader.t) (e : Entry2.t) :
  PageHeader.in_range p ->
  0 <= PageHeader.last_offset p - PageHeader.end_of_index p < 2 ^ 31 ->
  0 <= Entry2.range_length e < 2 ^ 32 ->
  let need := Entry2.range_length e + sizeof_Entry2 + sizeof_EntryOffset in
  let lo' := PageHeader.last_offset p - Entry2.range_length e - 4 - sizeof_Entry2 in
  if need >? PageHeader.last_offset p - PageHeader.end_of_index p
  then add_entry2 p e = (AKU_WRITE_STATUS_OVERFLOW, p)
  else fst (add_entry2 p e) = AKU_WRITE_STATUS_SUCCESS
       /\ PageHeader.last_offset (snd (add_entry2 p e)) = lo'
       /\ PageHeader.count (snd (add_entry2 p e)) = PageHeader.count p + 1
       /\ PageHeader.page_index (snd (add_entry2 p e)) (PageHeader.count p) = lo'
       /\ PageHeader.length (snd (add_entry2 p e)) = PageHeader.length p
       /\ PageHeader.cdata (snd (add_entry2 p e))
          = memcpy
              (PageHeader.store_u32
                 (memcpy (PageHeader.cdata p)
                    (PageHeader.last_offset p - Entry2.range_length e)
                    (Entry2.range_address e) (Entry2.range_length e))
                 (PageHeader.last_offset p - Entry2.range_length e - 4)
                 (Entry2.range_length e))
              lo' (Entry2.object e) sizeof_Entry2
       /\ PageHeader.inside_bbox (snd (add_entry2 p e))
            (Entry2.param_id e) (Entry2.time e) = true.
Proof.
  intros [Hc Hlo] Hfree Hlen need lo'.
  unfold add_entry2, PageHeader.add_entry2. cbn zeta.
  fold need. unfold sizeof_EntryOffset in need.
  rewrite (u64_small need) by (unfold need; lia).
  rewrite space_check_exact by assumption.
  destruct (need >? PageHeader.last_offset p - PageHeader.end_of_index p) eqn:E;
    [reflexivity|].
  unfold PageHeader.end_of_index, sizeof_PageHeader, sizeof_EntryOffset in *.
  cbn [fst snd].
  match goal with
  | |- context [PageHeader.update_bounding_box ?q _ _] => set (q0 := q)
  end.
  pose proof (update_bounding_box_fields q0 (Entry2.param_id e) (Entry2.time e))
    as Hb.
  cbn zeta in Hb. destruct Hb as (Hb1 & Hb2 & Hb3 & Hb4).
  assert (Hu : u32 lo' = lo') by (apply u32_small; unfold lo', need in *; lia).
  split; [reflexivity|].
  split; [exact Hu|].
  split; [cbn; apply u32_small; lia|].
  split; [cbn; unfold PageHeader.store_index; rewrite Z.eqb_refl; exact Hu|].
  split; [reflexivity|]. split; [reflexivity|].
  apply inside_bbox_spec. rewrite Hb1, Hb2, Hb3, Hb4. lia.
Qed.

End AppendEntry2.

(** Appending an Entry2 with room to spare.  On a page whose counters are
    32-bit values and whose free space fits an [int], an Entry2 whose
    payload, length field, object and index slot all fit in the free
    space is appended: [add_entry] returns SUCCESS; [last_offset] drops by
    sizeof(Entry2) + 4 + range.length; from the new [last_offset] up stand
    the bytes of the object, then the payload length as a [uint32_t], then
    the payload; no byte outside that stretch changes; the slot at the old
    [count] holds the new [last_offset]; [count] grows by one; the index
    still ends at or below [last_offset]; and the bounding box holds the
    entry's (param_id, timestamp). *)
Theorem add_entry2_stores_record
    (sizeof_Entry2 : Z) (p : PageHeader.t) (e : Entry2.t) :
  0 < sizeof_Entry2 < 2 ^ 31 ->
  PageHeader.in_range p ->
  PageHeader.last_offset p - PageHeader.end_of_index p < 2 ^ 31 ->
  0 <= Entry2.range_length e < 2 ^ 32 ->
  sizeof_Entry2 + 4 + Entry2.range_length e + sizeof_EntryOffset
    <= PageHeader.last_offset p - PageHeader.end_of_index p ->
  let p' := snd (PageHeader.add_entry2 sizeof_Entry2 p e) in
  let lo' := PageHeader.last_offset p' in
  fst (PageHeader.add_entry2 sizeof_Entry2 p e) = AKU_WRITE_STATUS_SUCCESS
  /\ lo' = PageHeader.last_offset p
           - (sizeof_Entry2 + 4 + Entry2.range_length e)
  /\ (forall k, 0 <= k < sizeof_Entry2 ->
        PageHeader.cdata p' (lo' + k) = Entry2.object e k)
  /\ load_le 4 (PageHeader.cdata p') (lo' + sizeof_Entry2) = Entry2.range_length e
  /\ (forall k, 0 <= k < Entry2.range_length e ->
        PageHeader.cdata p' (lo' + sizeof_Entry2 + 4 + k)
        = Entry2.range_address e k)
  /\ (forall a, a < lo' \/ PageHeader.last_offset p <= a ->
        PageHeader.cdata p' a = PageHeader.cdata p a)
  /\ PageHeader.page_index p' (PageHeader.count p) = lo'
  /\ PageHeader.count p' = PageHeader.count p + 1
  /\ PageHeader.end_of_index p' <= lo'
  /\ PageHeader.inside_bbox p' (Entry2.param_id e) (Entry2.time e) = true.
Proof.
  intros Hsize Hr Hfree Hlen Hfit p' lo'.
  assert (Hfree' : 0 <= PageHeader.last_offset p - PageHeader.end_of_index p
                   < 2 ^ 31) by (unfold sizeof_EntryOffset in Hfit; lia).
  pose proof (add_entry2_fields sizeof_Entry2 Hsize p e Hr Hfree' Hlen) as H.
  cbn zeta in H. unfold sizeof_EntryOffset in *.
  destruct (_ >? _) eqn:E in H; [lia|].
  destruct H as (Hst & Hlo & Hcnt & Hix & _ & Hmem & Hin).
  fold p' in Hlo, Hcnt, Hix, Hmem, Hin. fold lo' in Hlo.
  assert (Heoi : PageHeader.end_of_index p' = PageHeader.end_of_index p + 4).
  { unfold PageHeader.end_of_index, sizeof_EntryOffset. rewrite Hcnt. lia. }
  split; [exact Hst|]. split; [lia|].
  split.
  { intros k Hk. rewrite Hmem, <- Hlo. rewrite memcpy_inside by lia.
    f_equal. lia. }
  split.
  { transitivity (u32 (Entry2.range_length e)); [|apply u32_small; exact Hlen].
    rewrite <- (load_store_u32
                  (memcpy (PageHeader.cdata p)
                     (PageHeader.last_offset p - Entry2.range_length e)
                     (Entry2.range_address e) (Entry2.range_length e))
                  (PageHeader.last_offset p - Entry2.range_length e - 4)
                  (Entry2.range_length e)).
    replace (lo' + sizeof_Entry2)
      with (PageHeader.last_offset p - Entry2.range_length e - 4) by lia.
    apply load_le_ext. intros a Ha. rewrite Hmem, <- Hlo.
    apply memcpy_outside. cbn in Ha. lia. }
  split.
  { intros k Hk. rewrite Hmem, <- Hlo.
    rewrite memcpy_outside by lia. rewrite store_u32_outside by lia.
    rewrite memcpy_inside by lia. f_equal. lia. }
  split.
  { intros a Ha. rewrite Hmem, <- Hlo.
    rewrite memcpy_outside by lia. rewrite store_u32_outside by lia.
    apply memcpy_outside. lia. }
  split; [rewrite Hix; lia|]. split; [exact Hcnt|].
  split; [rewrite Heoi; lia|exact Hin].
Qed.

(** A blank page of 256 bytes and an Entry2 of 32 bytes with a payload of
    8 bytes. *)
Lemma add_entry2_stores_record_witness :
  let p := Examples.blank 256 in
  let e := Entry2.mk (fun _ => x01) 1 5 (fun _ => x02) 8 in
  let p' := snd (PageHeader.add_entry2 32 p e) in
  let lo' := PageHeader.last_offset p' in
  fst (PageHeader.add_entry2 32 p e) = AKU_WRITE_STATUS_SUCCESS
  /\ lo' = PageHeader.last_offset p - (32 + 4 + Entry2.range_length e)
  /\ (forall k, 0 <= k < 32 ->
        PageHeader.cdata p' (lo' + k) = Entry2.object e k)
  /\ load_le 4 (PageHeader.cdata p') (lo' + 32) = Entry2.range_length e
  /\ (forall k, 0 <= k < Entry2.range_length e ->
        PageHeader.cdata p' (lo' + 32 + 4 + k) = Entry2.range_address e k)
  /\ (forall a, a < lo' \/ PageHeader.last_offset p <= a ->
        PageHeader.cdata p' a = PageHeader.cdata p a)
  /\ PageHeader.page_index p' (PageHeader.count p) = lo'
  /\ PageHeader.count p' = PageHeader.count p + 1
  /\ PageHeader.end_of_index p' <= lo'
  /\ PageHeader.inside_bbox p' (Entry2.param_id e) (Entry2.time e) = true.
Proof.
  apply (add_entry2_stores_record 32 (Examples.blank 256)
           (Entry2.mk (fun _ => x01) 1 5 (fun _ => x02) 8)); evaluate.
Defined.

(** The Entry2 append reserves four bytes too few.  [add_entry] for an
    Entry2 asks for range.length + sizeof(Entry2) + sizeof(EntryOffset)
    bytes and writes sizeof(uint32_t) more.  On a page whose counters are
    32-bit values and whose free space fits an [int]: with less free space
    than it asks for it returns OVERFLOW and leaves the page as it was;
    with what it asks for and fewer than four bytes more it returns
    SUCCESS, the record then starts inside the index slot written for it
    ([last_offset] ends up below the end of the index) and
    [get_free_space] is negative, so that the space check of the next
    [add_entry] for an Entry, which compares [space_required] with
    [get_free_space] as a [size_t], is false whatever the entry: that
    call cannot return OVERFLOW.  (What the next call then writes is the
    matter of [PageBytes]: its copy can land in the index or the
    header.) *)
Theorem add_entry2_reserves_too_little
    (sizeof_Entry2 : Z) (p : PageHeader.t) (e : Entry2.t) :
  0 < sizeof_Entry2 < 2 ^ 31 ->
  PageHeader.in_range p ->
  0 <= PageHeader.last_offset p - PageHeader.end_of_index p < 2 ^ 31 ->
  0 <= Entry2.range_length e < 2 ^ 32 ->
  let free := PageHeader.last_offset p - PageHeader.end_of_index p in
  let asked := Entry2.range_length e + sizeof_Entry2 + sizeof_EntryOffset in
  let p' := snd (PageHeader.add_entry2 sizeof_Entry2 p e) in
  (free < asked ->
     PageHeader.add_entry2 sizeof_Entry2 p e = (AKU_WRITE_STATUS_OVERFLOW, p))
  /\ (asked <= free < asked + 4 ->
        fst (PageHeader.add_entry2 sizeof_Entry2 p e) = AKU_WRITE_STATUS_SUCCESS
        /\ PageHeader.page_index p' (PageHeader.count p) = PageHeader.last_offset p'
        /\ PageHeader.end_of_index p <= PageHeader.last_offset p'
             < PageHeader.end_of_index p'
        /\ PageHeader.get_free_space p' < 0
        /\ forall entry : Entry.t,
             (Entry.length entry + sizeof_EntryOffset
                >? u64 (PageHeader.get_free_space p')) = false).
Proof.
  intros Hsize Hr Hfree Hlen free asked p'.
  pose proof (add_entry2_fields sizeof_Entry2 Hsize p e Hr Hfree Hlen) as H.
  cbn zeta in H. fold free asked in H. fold p' in H.
  unfold sizeof_EntryOffset in *.
  split.
  - intros Hshort. destruct (asked >? free) eqn:E; [exact H|lia].
  - intros Hgap. destruct (asked >? free) eqn:E; [lia|].
    destruct H as (Hst & Hlo & Hcnt & Hix & _ & _ & _).
    assert (Heoi : PageHeader.end_of_index p' = PageHeader.end_of_index p + 4).
    { unfold PageHeader.end_of_index, sizeof_EntryOffset. rewrite Hcnt. lia. }
    assert (Hspace : PageHeader.get_free_space p'
                     = PageHeader.last_offset p' - PageHeader.end_of_index p').
    { unfold PageHeader.get_free_space. cbn zeta.
      fold (PageHeader.end_of_index p'). apply s32_small.
      rewrite Hlo, Heoi. unfold free, asked in *. lia. }
    split; [exact Hst|]. split; [rewrite Hix, Hlo; reflexivity|].
    split; [rewrite Hlo, Heoi; unfold free, asked in *; lia|].
    split; [rewrite Hspace, Hlo, Heoi; unfold free, asked in *; lia|].
    intros entry.
    pose proof (entry_length_range entry) as Hl.
    pose proof (u64_of_negative (PageHeader.get_free_space p')) as Hneg.
    rewrite Hspace, Hlo, Heoi in Hneg.
    specialize (Hneg ltac:(unfold free, asked in *; lia)).
    rewrite <- Heoi, <- Hlo, <- Hspace in Hneg.
    lia.
Qed.

(** A blank page of 256 bytes has 191 free bytes; an Entry2 of 32 bytes
    with a payload of 155 bytes asks for 191 and writes 195. *)
Lemma add_entry2_reserves_too_little_witness :
  let p := Examples.blank 256 in
  let e := Entry2.mk (fun _ => x01) 1 5 (fun _ => x02) 155 in
  let free := PageHeader.last_offset p - PageHeader.end_of_index p in
  let asked := Entry2.range_length e + 32 + sizeof_EntryOffset in
  let p' := snd (PageHeader.add_entry2 32 p e) in
  (free < asked ->
     PageHeader.add_entry2 32 p e = (AKU_WRITE_STATUS_OVERFLOW, p))
  /\ (asked <= free < asked + 4 ->
        fst (PageHeader.add_entry2 32 p e) = AKU_WRITE_STATUS_SUCCESS
        /\ PageHeader.page_index p' (PageHeader.count p) = PageHeader.last_offset p'
        /\ PageHeader.end_of_index p <= PageHeader.last_offset p'
             < PageHeader.end_of_index p'
        /\ PageHeader.get_free_space p' < 0
        /\ forall entry : Entry.t,
             (Entry.length entry + sizeof_EntryOffset
                >? u64 (PageHeader.get_free_space p')) = false).
Proof.
  apply (add_entry2_reserves_too_little 32 (Examples.blank 256)
           (Entry2.mk (fun _ => x01) 1 5 (fun _ => x02) 155)); evaluate.
Defined.

(** ** The page in its mapping *)

Lemma load_le_frame (n : nat) (m m' : Region) (a lo hi : Z) :
  (forall b, b < lo \/ hi <= b -> m' b = m b) ->
  a + Z.of_nat n <= lo \/ hi <= a ->
  load_le n m' a = load_le n m a.
Proof. intros H Ha. apply load_le_ext. intros k Hk. apply H. lia. Qed.

(** An integer of [n] bytes reads back as stored, cut to [n] bytes. *)
Lemma load_le_written (n : nat) (base : Region) (a v : Z) :
  load_le n (memcpy base a (region_of_list (bytes_le n v)) (Z.of_nat n)) a
  = v mod 2 ^ (8 * Z.of_nat n).
Proof.
  apply load_le_of_bytes. intros k Hk. rewrite memcpy_inside by lia.
  unfold region_of_list. replace (a + Z.of_nat k - a) with (Z.of_nat k) by lia.
  destruct (Z.of_nat k <? 0) eqn:E; [lia|]. rewrite Nat2Z.id. reflexivity.
Qed.

Lemma load_le_range (n : nat) (m : Region) (a : Z) :
  0 <= load_le n m a < 2 ^ (8 * Z.of_nat n).
Proof.
  revert a. induction n as [|n IH]; intros a.
  - cbn. lia.
  - cbn [load_le]. specialize (IH (a + 1)).
    replace (8 * Z.of_nat (S n)) with (8 + 8 * Z.of_nat n) by lia.
    rewrite Z.pow_add_r by lia. change (2 ^ 8) with 256.
    assert (Hb : 0 <= byte_val (m a) < 256).
    { unfold byte_val. pose proof (Byte.to_N_bounded (m a)). lia. }
    nia.
Qed.

Lemma s64_of_u64 (z : Z) : - 2 ^ 63 <= z < 2 ^ 63 -> s64 (z mod 2 ^ 64) = z.
Proof.
  intros H. unfold s64. rewrite Zplus_mod_idemp_l. rewrite Z.mod_small; lia.
Qed.

Lemma write_mapped (m : PageBytes.t) (a : Z) (src : Region) (n : Z) :
  0 <= a -> a + n <= PageBytes.size m ->
  PageBytes.write m a src n
  = Some (PageBytes.mk (memcpy (PageBytes.mem m) a src n) (PageBytes.size m)).
Proof.
  intros H1 H2. unfold PageBytes.write, PageBytes.mapped.
  destruct (0 <=? a) eqn:E1; [|lia].
  destruct (a + n <=? PageBytes.size m) eqn:E2; [reflexivity|lia].
Qed.

Lemma store_u32_mapped (m : PageBytes.t) (a v : Z) :
  0 <= a -> a + 4 <= PageBytes.size m ->
  PageBytes.store_u32 m a v
  = Some (PageBytes.mk
            (memcpy (PageBytes.mem m) a (region_of_list (bytes_le 4 v)) 4)
            (PageBytes.size m)).
Proof. intros H1 H2. unfold PageBytes.store_u32. apply write_mapped; assumption. Qed.

(** A store of a 32-bit field, made or not: the field afterwards, and the
    bytes it leaves alone. *)
Lemma store_u32_if (c : bool) (m : PageBytes.t) (a v : Z) :
  0 <= a -> a + 4 <= PageBytes.size m ->
  exists m',
    (if c then PageBytes.store_u32 m a v else Some m) = Some m'
    /\ PageBytes.size m' = PageBytes.size m
    /\ PageBytes.load_u32 m' a = (if c then u32 v else PageBytes.load_u32 m a)
    /\ forall b, b < a \/ a + 4 <= b -> PageBytes.mem m' b = PageBytes.mem m b.
Proof.
  intros H1 H2. destruct c.
  - unfold PageBytes.store_u32. rewrite write_mapped by assumption.
    eexists. split; [reflexivity|]. split; [reflexivity|]. split.
    + unfold PageBytes.load_u32. cbn [PageBytes.mem].
      exact (load_le_written 4 (PageBytes.mem m) a v).
    + intros b Hb. cbn [PageBytes.mem]. apply memcpy_outside. exact Hb.
  - exists m. repeat split; reflexivity.
Qed.

Lemma store_u64_if (c : bool) (m : PageBytes.t) (a v : Z) :
  0 <= a -> a + 8 <= PageBytes.size m ->
  exists m',
    (if c then PageBytes.store_u64 m a v else Some m) = Some m'
    /\ PageBytes.size m' = PageBytes.size m
    /\ PageBytes.load_u64 m' a = (if c then u64 v else PageBytes.load_u64 m a)
    /\ forall b, b < a \/ a + 8 <= b -> PageBytes.mem m' b = PageBytes.mem m b.
Proof.
  intros H1 H2. destruct c.
  - unfold PageBytes.store_u64. rewrite write_mapped by assumption.
    eexists. split; [reflexivity|]. split; [reflexivity|]. split.
    + unfold PageBytes.load_u64. cbn [PageBytes.mem].
      exact (load_le_written 8 (PageBytes.mem m) a v).
    + intros b Hb. cbn [PageBytes.mem]. apply memcpy_outside. exact Hb.
  - exists m. repeat split; reflexivity.
Qed.

(** Bytes that two mappings share give the same 32-bit and 64-bit
    loads. *)
Lemma load_u32_frame (m m' : PageBytes.t) (a lo hi : Z) :
  (forall b, b < lo \/ hi <= b -> PageBytes.mem m' b = PageBytes.mem m b) ->
  a + 4 <= lo \/ hi <= a ->
  PageBytes.load_u32 m' a = PageBytes.load_u32 m a.
Proof. intros H Ha. apply (load_le_frame 4 _ _ a lo hi); [exact H|lia]. Qed.

Lemma load_u64_frame (m m' : PageBytes.t) (a lo hi : Z) :
  (forall b, b < lo \/ hi <= b -> PageBytes.mem m' b = PageBytes.mem m b) ->
  a + 8 <= lo \/ hi <= a ->
  PageBytes.load_u64 m' a = PageBytes.load_u64 m a.
Proof. intros H Ha. apply (load_le_frame 8 _ _ a lo hi); [exact H|lia]. Qed.

(** [update_bounding_box] on the bytes of a mapping that holds the whole
    header: it writes nothing outside the box, and leaves in the box what
    [PageHeader.update_bounding_box] computes from the box it found. *)
Lemma update_bounding_box_on_bytes (m : PageBytes.t) (param ts : Z) :
  sizeof_PageHeader <= PageBytes.size m ->
  0 <= param < 2 ^ 32 ->
  - 2 ^ 63 <= ts < 2 ^ 63 ->
  exists m',
    PageBytes.update_bounding_box m param ts = Some m'
    /\ PageBytes.size m' = PageBytes.size m
    /\ PageBytes.bbox m'
       = PageHeader.bbox
           (PageHeader.update_bounding_box (PageBytes.view m) param ts)
    /\ forall b, b < PageBytes.offsetof_max_id \/ sizeof_PageHeader <= b ->
         PageBytes.mem m' b = PageBytes.mem m b.
Proof.
  intros Hsize Hparam Hts.
  unfold sizeof_PageHeader in *.
  unfold PageBytes.update_bounding_box.
  destruct (store_u32_if (param >? max_id (PageBytes.bbox m)) m
              PageBytes.offsetof_max_id param)
    as (m1 & E1 & S1 & L1 & F1);
    [unfold PageBytes.offsetof_max_id; lia ..|].
  rewrite E1. cbn [mbind option_bind].
  destruct (store_u32_if (param <? min_id (PageBytes.bbox m1)) m1
              PageBytes.offsetof_min_id param)
    as (m2 & E2 & S2 & L2 & F2);
    [unfold PageBytes.offsetof_min_id; lia ..|].
  rewrite E2. cbn [mbind option_bind].
  destruct (store_u64_if (TimeStamp.gt ts (max_timestamp (PageBytes.bbox m2))) m2
              PageBytes.offsetof_max_timestamp ts)
    as (m3 & E3 & S3 & L3 & F3);
    [unfold PageBytes.offsetof_max_timestamp; lia ..|].
  rewrite E3. cbn [mbind option_bind].
  destruct (store_u64_if (TimeStamp.lt ts (min_timestamp (PageBytes.bbox m3))) m3
              PageBytes.offsetof_min_timestamp ts)
    as (m4 & E4 & S4 & L4 & F4);
    [unfold PageBytes.offsetof_min_timestamp; lia ..|].
  rewrite E4. exists m4.
  unfold PageBytes.offsetof_max_id, PageBytes.offsetof_min_id,
    PageBytes.offsetof_max_timestamp, PageBytes.offsetof_min_timestamp in *.
  split; [reflexivity|]. split; [lia|]. split.
  2: { intros b Hb. rewrite F4, F3, F2, F1 by lia. reflexivity. }
  assert (A1 : PageBytes.load_u32 m4 40 = PageBytes.load_u32 m1 40).
  { rewrite (load_u32_frame m3 m4 40 _ _ F4) by lia.
    rewrite (load_u32_frame m2 m3 40 _ _ F3) by lia.
    apply (load_u32_frame m1 m2 40 _ _ F2). lia. }
  assert (A2 : PageBytes.load_u32 m4 44 = PageBytes.load_u32 m2 44).
  { rewrite (load_u32_frame m3 m4 44 _ _ F4) by lia.
    apply (load_u32_frame m2 m3 44 _ _ F3). lia. }
  assert (A3 : PageBytes.load_u64 m4 48 = PageBytes.load_u64 m3 48).
  { apply (load_u64_frame m3 m4 48 _ _ F4). lia. }
  assert (B2 : PageBytes.load_u32 m1 44 = PageBytes.load_u32 m 44).
  { apply (load_u32_frame m m1 44 _ _ F1). lia. }
  assert (B3 : PageBytes.load_u64 m2 48 = PageBytes.load_u64 m 48).
  { rewrite (load_u64_frame m1 m2 48 _ _ F2) by lia.
    apply (load_u64_frame m m1 48 _ _ F1). lia. }
  assert (B4 : PageBytes.load_u64 m3 56 = PageBytes.load_u64 m 56).
  { rewrite (load_u64_frame m2 m3 56 _ _ F3) by lia.
    rewrite (load_u64_frame m1 m2 56 _ _ F2) by lia.
    apply (load_u64_frame m m1 56 _ _ F1). lia. }
  unfold PageHeader.update_bounding_box, PageBytes.bbox in *.
  cbn [max_id min_id max_timestamp min_timestamp PageBytes.view PageHeader.bbox
       PageHeader.set_bbox] in *.
  unfold PageBytes.bbox.
  unfold PageBytes.offsetof_max_id, PageBytes.offsetof_min_id,
    PageBytes.offsetof_max_timestamp, PageBytes.offsetof_min_timestamp in *.
  rewrite B2 in L2. rewrite B3 in L3. rewrite B4 in L4.
  rewrite A1, A2, A3, L1, L2, L3, L4.
  clear E1 E2 E3 E4 L1 L2 L3 L4 A1 A2 A3 B2 B3 B4.
  rewrite (u32_small param) by lia.
  unfold TimeStamp.gt, TimeStamp.lt, u64.
  destruct (param >? PageBytes.load_u32 m 40) eqn:C1;
  destruct (param <? PageBytes.load_u32 m 44) eqn:C2;
  destruct (ts >? s64 (PageBytes.load_u64 m 48)) eqn:C3;
  destruct (ts <? s64 (PageBytes.load_u64 m 56)) eqn:C4;
  repeat (progress (rewrite ?C1, ?C2, ?C3, ?C4;
                    cbn [max_id min_id max_timestamp min_timestamp]));
  rewrite ?s64_of_u64 by lia; reflexivity.
Qed.

(** A load from bytes that the writes made in between left alone. *)
Ltac through_frames :=
  repeat match goal with
  | F : forall b, b < ?lo \/ ?hi <= b -> PageBytes.mem ?m' b = PageBytes.mem ?m b
    |- context [PageBytes.load_u32 ?m' ?a] =>
      rewrite (load_u32_frame m m' a lo hi F) by lia
  | F : forall b, b < ?lo \/ ?hi <= b -> PageBytes.mem ?m' b = PageBytes.mem ?m b
    |- context [PageBytes.load_u64 ?m' ?a] =>
      rewrite (load_u64_frame m m' a lo hi F) by lia
  | F : forall b, b < ?lo \/ ?hi <= b -> PageBytes.mem ?m' b = PageBytes.mem ?m b
    |- context [PageBytes.mem ?m' ?a] =>
      rewrite (F a) by lia
  end.

Ltac header_offsets :=
  unfold PageBytes.type, PageBytes.count, PageBytes.last_offset,
    PageBytes.sync_index, PageBytes.length, PageBytes.open_count,
    PageBytes.close_count, PageBytes.page_id, PageBytes.page_index,
    PageBytes.slot, PageBytes.offsetof_type, PageBytes.offsetof_count,
    PageBytes.offsetof_last_offset, PageBytes.offsetof_sync_index,
    PageBytes.offsetof_length, PageBytes.offsetof_open_count,
    PageBytes.offsetof_close_count, PageBytes.offsetof_page_id,
    PageBytes.offsetof_max_id, PageBytes.offsetof_min_id,
    PageBytes.offsetof_max_timestamp, PageBytes.offsetof_min_timestamp,
    sizeof_PageHeader, sizeof_EntryOffset, sizeof_Entry in *.

Lemma load_u32_range (m : PageBytes.t) (a : Z) :
  0 <= PageBytes.load_u32 m a < 2 ^ 32.
Proof. exact (load_le_range 4 (PageBytes.mem m) a). Qed.

Lemma same_page_refl (p : PageHeader.t) : PageBytes.same_page p p.
Proof. unfold PageBytes.same_page. repeat split; reflexivity. Qed.

(** [update_bounding_box] reads nothing but the box. *)
Lemma update_bounding_box_of_bbox (p q : PageHeader.t) (param ts : Z) :
  PageHeader.bbox p = PageHeader.bbox q ->
  PageHeader.bbox (PageHeader.update_bounding_box p param ts)
  = PageHeader.bbox (PageHeader.update_bounding_box q param ts).
Proof.
  intros H. unfold PageHeader.update_bounding_box.
  cbn [PageHeader.bbox PageHeader.set_bbox]. rewrite H. reflexivity.
Qed.

Lemma entry_time_range (e : Entry.t) : - 2 ^ 63 <= Entry.time e < 2 ^ 63.
Proof. exact (s64_range (load_le 8 e 8)). Qed.

(** The two models of [add_entry] agree.  Let the bytes [m] hold the page
    [p], with the records inside the mapping, and let the record fit
    between the end of the index and [last_offset] whenever the call
    accepts it.  Then [add_entry] on the bytes writes inside the mapping,
    returns the status [PageHeader.add_entry] returns, and leaves bytes
    that hold the page [PageHeader.add_entry] leaves. *)
Lemma add_entry_on_bytes (m : PageBytes.t) (p : PageHeader.t) (e : Entry.t) :
  PageBytes.same_page (PageBytes.view m) p ->
  PageHeader.last_offset p <= PageBytes.size m ->
  (fst (PageHeader.add_entry p e) = AKU_WRITE_STATUS_SUCCESS ->
     Entry.length e + sizeof_EntryOffset
       <= PageHeader.last_offset p - PageHeader.end_of_index p) ->
  exists m',
    PageBytes.add_entry m e = Some (fst (PageHeader.add_entry p e), m')
    /\ PageBytes.size m' = PageBytes.size m
    /\ PageBytes.same_page (PageBytes.view m') (snd (PageHeader.add_entry p e)).
Proof.
  intros Hsame Hsize Hfit.
  pose proof Hsame as (Ht & Hc & Hlo & Hsi & Hlen & Hoc & Hcc & Hpid & Hbox & Hix & Hmem).
  cbn [PageBytes.view PageHeader.type PageHeader.count PageHeader.last_offset
       PageHeader.sync_index PageHeader.length PageHeader.open_count
       PageHeader.close_count PageHeader.page_id PageHeader.bbox
       PageHeader.page_index PageHeader.cdata] in Ht, Hc, Hlo, Hsi, Hlen, Hoc,
       Hcc, Hpid, Hbox, Hix, Hmem.
  assert (Hr : PageHeader.in_range p).
  { split; [rewrite <- Hc|rewrite <- Hlo]; apply load_u32_range. }
  assert (Hfree : PageBytes.get_free_space m = PageHeader.get_free_space p).
  { unfold PageBytes.get_free_space, PageHeader.get_free_space, PageBytes.slot.
    rewrite Hc, Hlo. reflexivity. }
  pose proof (entry_length_range e) as Hl.
  unfold PageBytes.add_entry. cbn zeta. rewrite Hfree.
  destruct (Entry.length e <? sizeof_Entry) eqn:E1.
  { unfold PageHeader.add_entry. rewrite E1. exists m.
    split; [reflexivity|]. split; [reflexivity|exact Hsame]. }
  destruct (Entry.length e + sizeof_EntryOffset
              >? u64 (PageHeader.get_free_space p)) eqn:E2.
  { unfold PageHeader.add_entry. cbn zeta. rewrite E1, E2. exists m.
    split; [reflexivity|]. split; [reflexivity|exact Hsame]. }
  assert (Hst : fst (PageHeader.add_entry p e) = AKU_WRITE_STATUS_SUCCESS).
  { unfold PageHeader.add_entry. cbn zeta. rewrite E1, E2. reflexivity. }
  specialize (Hfit Hst).
  rewrite (add_entry_fits p e Hr) by (try assumption; lia).
  cbn [fst snd].
  pose proof (entry_param_id_range e) as Hparam.
  pose proof (entry_time_range e) as Htime.
  unfold PageHeader.end_of_index in Hfit, Hmem.
  header_offsets. unfold PageHeader.in_range in Hr.
  set (fs := PageBytes.load_u32 m 8 - Entry.length e).
  assert (Hfs : 64 + 4 * PageHeader.count p + 4 <= fs
                /\ fs + Entry.length e <= PageBytes.size m
                /\ fs < 2 ^ 32) by (unfold fs; lia).
  rewrite write_mapped by lia. cbn [mbind option_bind].
  set (m1 := PageBytes.mk _ _).
  assert (F1 : forall b, b < fs \/ fs + Entry.length e <= b ->
                 PageBytes.mem m1 b = PageBytes.mem m b).
  { intros b Hout. apply memcpy_outside. exact Hout. }
  assert (S1 : PageBytes.size m1 = PageBytes.size m) by reflexivity.
  destruct (store_u32_if true m1 8 (u32 fs)) as (m2 & E & S2 & L2 & F2);
    [lia|lia|].
  rewrite E; clear E. cbn [mbind option_bind].
  rewrite !(u32_small fs) in L2 by lia.
  replace (PageBytes.load_u32 m2 4) with (PageHeader.count p)
    by (through_frames; symmetry; exact Hc).
  rewrite L2.
  destruct (store_u32_if true m2 (64 + 4 * PageHeader.count p) fs)
    as (m3 & E & S3 & L3 & F3); [lia|lia|].
  rewrite E; clear E. cbn [mbind option_bind].
  rewrite u32_small in L3 by lia.
  replace (PageBytes.load_u32 m3 4) with (PageHeader.count p)
    by (through_frames; symmetry; exact Hc).
  destruct (store_u32_if true m3 4 (u32 (PageHeader.count p + 1)))
    as (m4 & E & S4 & L4 & F4); [lia|lia|].
  rewrite E; clear E. cbn [mbind option_bind].
  rewrite !(u32_small (PageHeader.count p + 1)) in L4 by lia.
  destruct (update_bounding_box_on_bytes m4 (Entry.param_id e) (Entry.time e))
    as (m5 & E & S5 & L5 & F5); [unfold sizeof_PageHeader; lia|lia|lia|].
  rewrite E; clear E. cbn [mbind option_bind].
  header_offsets.
  exists m5. split; [reflexivity|]. split; [lia|].
  set (q := PageHeader.appended p e).
  assert (Q1 : PageHeader.type q = PageHeader.type p) by reflexivity.
  assert (Q2 : PageHeader.count q = PageHeader.count p + 1) by reflexivity.
  assert (Q3 : PageHeader.last_offset q
               = PageHeader.last_offset p - Entry.length e) by reflexivity.
  assert (Q4 : PageHeader.sync_index q = PageHeader.sync_index p) by reflexivity.
  assert (Q5 : PageHeader.length q = PageHeader.length p) by reflexivity.
  assert (Q6 : PageHeader.open_count q = PageHeader.open_count p) by reflexivity.
  assert (Q7 : PageHeader.close_count q = PageHeader.close_count p) by reflexivity.
  assert (Q8 : PageHeader.page_id q = PageHeader.page_id p) by reflexivity.
  assert (Q9 : forall i, PageHeader.page_index q i
               = if i =? PageHeader.count p
                 then PageHeader.last_offset p - Entry.length e
                 else PageHeader.page_index p i) by reflexivity.
  assert (Q10 : forall a, PageHeader.cdata q a
                = memcpy (PageHeader.cdata p)
                    (PageHeader.last_offset p - Entry.length e) e
                    (Entry.length e) a) by reflexivity.
  assert (Q11 : PageBytes.bbox m5 = PageHeader.bbox q).
  { rewrite L5. unfold q, PageHeader.appended. cbn zeta.
    apply update_bounding_box_of_bbox.
    cbn [PageHeader.bbox PageBytes.view]. rewrite <- Hbox.
    unfold PageBytes.bbox. header_offsets. through_frames. reflexivity. }
  unfold PageBytes.same_page, PageHeader.end_of_index.
  cbn [PageBytes.view PageHeader.type PageHeader.count PageHeader.last_offset
       PageHeader.sync_index PageHeader.length PageHeader.open_count
       PageHeader.close_count PageHeader.page_id PageHeader.bbox
       PageHeader.page_index PageHeader.cdata].
  cbn [PageBytes.view PageHeader.count] in Hmem.
  header_offsets.
  rewrite Q1, Q2, Q3, Q4, Q5, Q6, Q7, Q8.
  assert (Hcount : PageBytes.load_u32 m5 4 = PageHeader.count p + 1)
    by (through_frames; exact L4).
  rewrite Hcount.
  split; [through_frames; exact Ht|].
  split; [reflexivity|].
  split; [through_frames; rewrite L2; unfold fs; rewrite Hlo; reflexivity|].
  split; [through_frames; exact Hsi|].
  split; [through_frames; exact Hlen|].
  split; [through_frames; exact Hoc|].
  split; [through_frames; exact Hcc|].
  split; [through_frames; exact Hpid|].
  split; [exact Q11|].
  split.
  - intros i Hi. rewrite Q9.
    destruct (i =? PageHeader.count p) eqn:Ei.
    + apply Z.eqb_eq in Ei. subst i. through_frames. rewrite L3.
      unfold fs. rewrite Hlo. reflexivity.
    + apply Z.eqb_neq in Ei. through_frames. apply Hix. lia.
  - intros a Ha. rewrite Q10. through_frames. unfold m1. cbn [PageBytes.mem].
    unfold fs. rewrite Hlo. unfold memcpy.
    destruct ((PageHeader.last_offset p - Entry.length e <=? a)
              && (a <? PageHeader.last_offset p - Entry.length e + Entry.length e));
      [reflexivity|]. apply Hmem. lia.
Qed.

(** The constructor on the bytes of a mapping that has room for the
    header leaves the page [PageHeader.new] describes. *)
Lemma new_on_bytes (ty : PageType) (cnt len pid : Z) (m : PageBytes.t) :
  sizeof_PageHeader <= PageBytes.size m ->
  0 <= cnt < 2 ^ 32 -> 0 <= len < 2 ^ 64 -> 0 <= pid < 2 ^ 32 ->
  exists m',
    PageBytes.new ty cnt len pid m = Some m'
    /\ PageBytes.size m' = PageBytes.size m
    /\ PageBytes.same_page (PageBytes.view m')
         (PageHeader.new ty cnt len pid (PageBytes.page_index m)
            (PageBytes.mem m)).
Proof.
  intros Hsize Hcnt Hlen Hpid. unfold PageBytes.new.
  cbn [max_id min_id max_timestamp min_timestamp PageBoundingBox_new].
  header_offsets.
  destruct (store_u32_if true m 0 (PageBytes.PageType_value ty))
    as (m1 & E & S1 & L1 & F1); [lia|lia|].
  rewrite E; clear E; cbn [mbind option_bind].
  destruct (store_u32_if true m1 4 cnt) as (m2 & E & S2 & L2 & F2); [lia|lia|].
  rewrite E; clear E; cbn [mbind option_bind].
  destruct (store_u32_if true m2 8 (u32 (len - 1)))
    as (m3 & E & S3 & L3 & F3); [lia|lia|].
  rewrite E; clear E; cbn [mbind option_bind].
  destruct (store_u32_if true m3 12 0) as (m4 & E & S4 & L4 & F4); [lia|lia|].
  rewrite E; clear E; cbn [mbind option_bind].
  destruct (store_u64_if true m4 16 len) as (m5 & E & S5 & L5 & F5); [lia|lia|].
  rewrite E; clear E; cbn [mbind option_bind].
  destruct (store_u32_if true m5 24 0) as (m6 & E & S6 & L6 & F6); [lia|lia|].
  rewrite E; clear E; cbn [mbind option_bind].
  destruct (store_u32_if true m6 28 0) as (m7 & E & S7 & L7 & F7); [lia|lia|].
  rewrite E; clear E; cbn [mbind option_bind].
  destruct (store_u32_if true m7 32 pid) as (m8 & E & S8 & L8 & F8); [lia|lia|].
  rewrite E; clear E; cbn [mbind option_bind].
  destruct (store_u32_if true m8 40 0) as (m9 & E & S9 & L9 & F9); [lia|lia|].
  rewrite E; clear E; cbn [mbind option_bind].
  destruct (store_u32_if true m9 44 UINT32_MAX)
    as (m10 & E & S10 & L10 & F10); [lia|lia|].
  rewrite E; clear E; cbn [mbind option_bind].
  destruct (store_u64_if true m10 48 TimeStamp.MIN_TIMESTAMP)
    as (m11 & E & S11 & L11 & F11); [lia|lia|].
  rewrite E; clear E; cbn [mbind option_bind].
  destruct (store_u64_if true m11 56 TimeStamp.MAX_TIMESTAMP)
    as (m12 & E & S12 & L12 & F12); [lia|lia|].
  rewrite E; clear E.
  exists m12. split; [reflexivity|]. split; [lia|].
  unfold PageBytes.same_page, PageHeader.end_of_index, PageBytes.bbox.
  cbn [PageBytes.view PageHeader.new PageHeader.type PageHeader.count
       PageHeader.last_offset PageHeader.sync_index PageHeader.length
       PageHeader.open_count PageHeader.close_count PageHeader.page_id
       PageHeader.bbox PageHeader.page_index PageHeader.cdata].
  header_offsets.
  split.
  { through_frames. rewrite L1. destruct ty; reflexivity. }
  split; [through_frames; rewrite L2; apply u32_small; lia|].
  split.
  { through_frames. rewrite L3. apply u32_small. apply u32_range. }
  split; [through_frames; rewrite L4; reflexivity|].
  split; [through_frames; rewrite L5; apply u64_small; lia|].
  split; [through_frames; rewrite L6; reflexivity|].
  split; [through_frames; rewrite L7; reflexivity|].
  split; [through_frames; rewrite L8; apply u32_small; lia|].
  split.
  { unfold PageBytes.bbox. header_offsets. through_frames.
    rewrite L9, L10, L11, L12. reflexivity. }
  split.
  - intros i Hi. through_frames. reflexivity.
  - intros a Ha. pose proof (load_u32_range m12 4) as Hc12.
    through_frames. reflexivity.
Qed.

(** Runs of accepted appends agree on the two models, as long as the page
    keeps the accounting of [PageHeader.holds]: the run on the bytes
    returns what the run on [PageHeader.t] returns, and writes inside the
    mapping. *)
Lemma add_entries_on_bytes (es : list Entry.t) :
  forall (m : PageBytes.t) (p : PageHeader.t) (es0 : list Entry.t),
  PageBytes.same_page (PageBytes.view m) p ->
  PageHeader.holds p es0 ->
  PageHeader.last_offset p <= PageBytes.size m ->
  match PageHeader.add_entries p es with
  | Some q =>
    exists m', PageBytes.add_entries m es = Some m'
      /\ PageBytes.size m' = PageBytes.size m
      /\ PageBytes.same_page (PageBytes.view m') q
  | None => PageBytes.add_entries m es = None
  end.
Proof.
  induction es as [|e es IH]; intros m p es0 Hsame Hh Hsize.
  - cbn. exists m. repeat split; try reflexivity; apply Hsame.
  - pose proof Hh as (Hr & Hacc & Hrest).
    assert (Hfree : 0 <= PageHeader.last_offset p - PageHeader.end_of_index p
                    < 2 ^ 31).
    { destruct Hr as [Hc _]. unfold PageHeader.end_of_index, sizeof_PageHeader,
        sizeof_EntryOffset in *. lia. }
    destruct (add_entry_on_bytes m p e Hsame Hsize) as (m' & Hadd & Hsz & Hsame').
    { intros Hst. apply (passed_checks_of_success p e Hfree Hst). }
    cbn [PageHeader.add_entries PageBytes.add_entries]. rewrite Hadd.
    destruct (PageHeader.add_entry p e) as [st q] eqn:Hrec.
    cbn [fst snd] in *.
    destruct st; try reflexivity.
    destruct (passed_checks_of_success p e Hfree) as [Hlen Hfit].
    { rewrite Hrec. reflexivity. }
    rewrite (add_entry_fits p e Hr Hlen Hfit) in Hrec. injection Hrec as <-.
    specialize (IH m' (PageHeader.appended p e) (es0 ++ [e]) Hsame'
                  (holds_appended p es0 e Hh Hlen Hfit)).
    assert (Hlast : PageHeader.last_offset (PageHeader.appended p e)
                    = PageHeader.last_offset p - Entry.length e) by reflexivity.
    pose proof (entry_length_range e) as Hl.
    specialize (IH ltac:(lia)).
    destruct (PageHeader.add_entries (PageHeader.appended p e) es) as [q|].
    + destruct IH as (m'' & Hrun & Hsz' & Hsame'').
      exists m''. split; [exact Hrun|]. split; [lia|exact Hsame''].
    + exact IH.
Qed.

(** The two models of [add_entry] for an Entry2 agree on a page with
    sound accounting (the index ends at or below [last_offset], and the
    free space fits an [int]) whose records lie inside the mapping: the
    call on the bytes writes inside the mapping and at or above the end
    of the index, returns the status [PageHeader.add_entry2] returns and
    leaves bytes that hold the page it leaves.  This covers the call
    that is accepted with fewer than four bytes to spare; it is the call
    after it that can leave the heap. *)
Lemma add_entry2_on_bytes
    (sizeof_Entry2 : Z) (m : PageBytes.t) (p : PageHeader.t) (e : Entry2.t) :
  0 < sizeof_Entry2 < 2 ^ 31 ->
  0 <= Entry2.range_length e < 2 ^ 32 ->
  0 <= Entry2.param_id e < 2 ^ 32 ->
  - 2 ^ 63 <= Entry2.time e < 2 ^ 63 ->
  PageBytes.same_page (PageBytes.view m) p ->
  PageHeader.last_offset p <= PageBytes.size m ->
  0 <= PageHeader.last_offset p - PageHeader.end_of_index p < 2 ^ 31 ->
  exists m',
    PageBytes.add_entry2 sizeof_Entry2 m e
    = Some (fst (PageHeader.add_entry2 sizeof_Entry2 p e), m')
    /\ PageBytes.size m' = PageBytes.size m
    /\ PageBytes.same_page (PageBytes.view m')
         (snd (PageHeader.add_entry2 sizeof_Entry2 p e)).
Proof.
  intros HS HL Hparam Htime Hsame Hsize Hacc.
  pose proof Hsame as (Ht & Hc & Hlo & Hsi & Hlen & Hoc & Hcc & Hpid & Hbox & Hix & Hmem).
  cbn [PageBytes.view PageHeader.type PageHeader.count PageHeader.last_offset
       PageHeader.sync_index PageHeader.length PageHeader.open_count
       PageHeader.close_count PageHeader.page_id PageHeader.bbox
       PageHeader.page_index PageHeader.cdata] in Ht, Hc, Hlo, Hsi, Hlen, Hoc,
       Hcc, Hpid, Hbox, Hix, Hmem.
  assert (Hr : PageHeader.in_range p).
  { split; [rewrite <- Hc|rewrite <- Hlo]; apply load_u32_range. }
  assert (Hfree : PageBytes.get_free_space m = PageHeader.get_free_space p).
  { unfold PageBytes.get_free_space, PageHeader.get_free_space, PageBytes.slot.
    rewrite Hc, Hlo. reflexivity. }
  unfold PageBytes.add_entry2, PageHeader.add_entry2. cbn zeta. rewrite Hfree.
  set (need := Entry2.range_length e + sizeof_Entry2 + sizeof_EntryOffset).
  unfold sizeof_EntryOffset in need.
  rewrite (u64_small need) by (unfold need; lia).
  rewrite space_check_exact by assumption.
  destruct (need >? PageHeader.last_offset p - PageHeader.end_of_index p) eqn:E2.
  { exists m. split; [reflexivity|]. split; [reflexivity|exact Hsame]. }
  cbn [fst snd].
  unfold PageHeader.end_of_index in Hacc, E2, Hmem.
  cbn [PageBytes.view PageHeader.count] in Hmem.
  header_offsets. unfold PageHeader.in_range in Hr.
  set (L := Entry2.range_length e) in *.
  set (lo := PageHeader.last_offset p) in *.
  set (c := PageHeader.count p) in *.
  rewrite Hlo.
  set (lo' := lo - L - 4 - sizeof_Entry2).
  assert (Hlo' : 64 + 4 * c <= lo' /\ lo' < 2 ^ 32) by (unfold lo', need in *; lia).
  rewrite write_mapped by lia. cbn [mbind option_bind].
  rewrite store_u32_mapped by (cbn [PageBytes.size]; lia).
  cbn [mbind option_bind].
  rewrite write_mapped by (cbn [PageBytes.size]; lia).
  cbn [mbind option_bind PageBytes.mem PageBytes.size].
  set (M := memcpy _ lo' _ _).
  set (m1 := PageBytes.mk M (PageBytes.size m)).
  assert (F1 : forall b, b < lo' \/ lo <= b ->
                 PageBytes.mem m1 b = PageBytes.mem m b).
  { intros b Hout. unfold m1, M. cbn [PageBytes.mem].
    rewrite !memcpy_outside by (unfold lo' in *; lia). reflexivity. }
  assert (S1 : PageBytes.size m1 = PageBytes.size m) by reflexivity.
  destruct (store_u32_if true m1 8 (u32 lo')) as (m2 & E & S2 & L2 & F2);
    [lia|lia|].
  rewrite E; clear E. cbn [mbind option_bind].
  rewrite !(u32_small lo') in L2 by lia.
  replace (PageBytes.load_u32 m2 4) with c
    by (through_frames; symmetry; exact Hc).
  rewrite L2.
  destruct (store_u32_if true m2 (64 + 4 * c) lo')
    as (m3 & E & S3 & L3 & F3); [lia|unfold lo' in *; lia|].
  rewrite E; clear E. cbn [mbind option_bind].
  rewrite u32_small in L3 by lia.
  replace (PageBytes.load_u32 m3 4) with c
    by (through_frames; symmetry; exact Hc).
  destruct (store_u32_if true m3 4 (u32 (c + 1)))
    as (m4 & E & S4 & L4 & F4); [lia|lia|].
  rewrite E; clear E. cbn [mbind option_bind].
  rewrite !(u32_small (c + 1)) in L4 by lia.
  destruct (update_bounding_box_on_bytes m4 (Entry2.param_id e) (Entry2.time e))
    as (m5 & E & S5 & L5 & F5); [unfold sizeof_PageHeader; lia|lia|lia|].
  rewrite E; clear E. cbn [mbind option_bind].
  header_offsets.
  exists m5. split; [reflexivity|]. split; [lia|].
  match goal with
  | |- PageBytes.same_page _ ?r => set (q := r)
  end.
  assert (Q1 : PageHeader.type q = PageHeader.type p) by reflexivity.
  assert (Q2 : PageHeader.count q = c + 1).
  { unfold q. cbn. apply u32_small. lia. }
  assert (Q3 : PageHeader.last_offset q = lo').
  { unfold q. cbn. apply u32_small. unfold lo' in *. lia. }
  assert (Q4 : PageHeader.sync_index q = PageHeader.sync_index p) by reflexivity.
  assert (Q5 : PageHeader.length q = PageHeader.length p) by reflexivity.
  assert (Q6 : PageHeader.open_count q = PageHeader.open_count p) by reflexivity.
  assert (Q7 : PageHeader.close_count q = PageHeader.close_count p) by reflexivity.
  assert (Q8 : PageHeader.page_id q = PageHeader.page_id p) by reflexivity.
  assert (Q9 : forall i, PageHeader.page_index q i
               = if i =? c then lo' else PageHeader.page_index p i).
  { intros i. unfold q. cbn. unfold PageHeader.store_index. fold c.
    rewrite (u32_small lo') by lia. reflexivity. }
  assert (Q10 : forall a, 64 + 4 * c <= a -> PageHeader.cdata q a = M a).
  { intros a Ha. unfold q, M. cbn [PageHeader.cdata PageHeader.set_cdata
      PageHeader.update_bounding_box PageHeader.set_bbox PageHeader.set_count
      PageHeader.set_page_index PageHeader.set_last_offset].
    unfold PageHeader.store_u32, memcpy.
    repeat match goal with
    | |- context [if ?b then _ else _] => destruct b
    end; try reflexivity. symmetry. apply Hmem. lia. }
  assert (Q11 : PageBytes.bbox m5 = PageHeader.bbox q).
  { rewrite L5. unfold q.
    apply update_bounding_box_of_bbox.
    cbn [PageHeader.bbox PageBytes.view PageHeader.set_count
         PageHeader.set_page_index PageHeader.set_last_offset
         PageHeader.set_cdata].
    rewrite <- Hbox.
    unfold PageBytes.bbox. header_offsets. through_frames. reflexivity. }
  unfold PageBytes.same_page, PageHeader.end_of_index.
  cbn [PageBytes.view PageHeader.type PageHeader.count PageHeader.last_offset
       PageHeader.sync_index PageHeader.length PageHeader.open_count
       PageHeader.close_count PageHeader.page_id PageHeader.bbox
       PageHeader.page_index PageHeader.cdata].
  header_offsets.
  rewrite Q1, Q2, Q3, Q4, Q5, Q6, Q7, Q8.
  assert (Hcount : PageBytes.load_u32 m5 4 = c + 1)
    by (through_frames; exact L4).
  rewrite Hcount.
  split; [through_frames; exact Ht|].
  split; [reflexivity|].
  split; [through_frames; exact L2|].
  split; [through_frames; exact Hsi|].
  split; [through_frames; exact Hlen|].
  split; [through_frames; exact Hoc|].
  split; [through_frames; exact Hcc|].
  split; [through_frames; exact Hpid|].
  split; [exact Q11|].
  split.
  - intros i Hi. rewrite Q9.
    destruct (i =? c) eqn:Ei.
    + apply Z.eqb_eq in Ei. subst i. through_frames. exact L3.
    + apply Z.eqb_neq in Ei. through_frames. apply Hix. lia.
  - intros a Ha. rewrite Q10 by lia.
    rewrite (F5 a) by lia. rewrite (F4 a) by lia. rewrite (F3 a) by lia.
    rewrite (F2 a) by lia. reflexivity.
Qed.

(** [reuse] on the bytes writes header fields only, and leaves the page
    [PageHeader.reuse] leaves. *)
Lemma reuse_on_bytes (m : PageBytes.t) :
  sizeof_PageHeader <= PageBytes.size m ->
  exists m',
    PageBytes.reuse m = Some m'
    /\ PageBytes.size m' = PageBytes.size m
    /\ PageBytes.same_page (PageBytes.view m')
         (PageHeader.reuse (PageBytes.view m))
    /\ forall a, sizeof_PageHeader <= a ->
         PageBytes.mem m' a = PageBytes.mem m a.
Proof.
  intros Hsize. unfold PageBytes.reuse.
  cbn [max_id min_id max_timestamp min_timestamp PageBoundingBox_new].
  header_offsets.
  destruct (store_u32_if true m 4 0) as (m1 & E & S1 & L1 & F1); [lia|lia|].
  rewrite E; clear E; cbn [mbind option_bind].
  destruct (store_u32_if true m1 24 (u32 (PageBytes.load_u32 m1 24 + 1)))
    as (m2 & E & S2 & L2 & F2); [lia|lia|].
  rewrite E; clear E; cbn [mbind option_bind].
  destruct (store_u32_if true m2 8 (u32 (PageBytes.load_u64 m2 16 - 1)))
    as (m3 & E & S3 & L3 & F3); [lia|lia|].
  rewrite E; clear E; cbn [mbind option_bind].
  destruct (store_u32_if true m3 40 0) as (m4 & E & S4 & L4 & F4); [lia|lia|].
  rewrite E; clear E; cbn [mbind option_bind].
  destruct (store_u32_if true m4 44 UINT32_MAX)
    as (m5 & E & S5 & L5 & F5); [lia|lia|].
  rewrite E; clear E; cbn [mbind option_bind].
  destruct (store_u64_if true m5 48 TimeStamp.MIN_TIMESTAMP)
    as (m6 & E & S6 & L6 & F6); [lia|lia|].
  rewrite E; clear E; cbn [mbind option_bind].
  destruct (store_u64_if true m6 56 TimeStamp.MAX_TIMESTAMP)
    as (m7 & E & S7 & L7 & F7); [lia|lia|].
  rewrite E; clear E.
  exists m7. split; [reflexivity|]. split; [lia|].
  assert (H24 : PageBytes.load_u32 m1 24 = PageBytes.load_u32 m 24)
    by (through_frames; reflexivity).
  assert (H16 : PageBytes.load_u64 m2 16 = PageBytes.load_u64 m 16)
    by (through_frames; reflexivity).
  rewrite H24 in L2. rewrite H16 in L3.
  split.
  2: { intros a Ha. through_frames. reflexivity. }
  unfold PageBytes.same_page, PageHeader.end_of_index, PageHeader.reuse.
  cbn [PageBytes.view PageHeader.type PageHeader.count PageHeader.last_offset
       PageHeader.sync_index PageHeader.length PageHeader.open_count
       PageHeader.close_count PageHeader.page_id PageHeader.bbox
       PageHeader.page_index PageHeader.cdata PageHeader.set_bbox
       PageHeader.set_last_offset PageHeader.set_open_count
       PageHeader.set_count].
  header_offsets.
  split; [through_frames; reflexivity|].
  split; [through_frames; exact L1|].
  split; [through_frames; rewrite L3; apply u32_small; apply u32_range|].
  split; [through_frames; reflexivity|].
  split; [through_frames; reflexivity|].
  split; [through_frames; rewrite L2; apply u32_small; apply u32_range|].
  split; [through_frames; reflexivity|].
  split; [through_frames; reflexivity|].
  split.
  { unfold PageBytes.bbox. header_offsets. through_frames.
    rewrite L4, L5, L6, L7. reflexivity. }
  split.
  - intros i Hi. through_frames. reflexivity.
  - intros a Ha. pose proof (load_u32_range m7 4) as Hc7.
    through_frames. reflexivity.
Qed.

(** [close] on the bytes writes [close_count] only. *)
Lemma close_on_bytes (m : PageBytes.t) :
  sizeof_PageHeader <= PageBytes.size m ->
  exists m',
    PageBytes.close m = Some m'
    /\ PageBytes.size m' = PageBytes.size m
    /\ PageBytes.same_page (PageBytes.view m')
         (PageHeader.close (PageBytes.view m))
    /\ forall a, a < PageBytes.offsetof_close_count
                 \/ PageBytes.offsetof_close_count + 4 <= a ->
         PageBytes.mem m' a = PageBytes.mem m a.
Proof.
  intros Hsize. unfold PageBytes.close. header_offsets.
  destruct (store_u32_if true m 28 (u32 (PageBytes.load_u32 m 28 + 1)))
    as (m1 & E & S1 & L1 & F1); [lia|lia|].
  rewrite E; clear E.
  exists m1. split; [reflexivity|]. split; [lia|].
  split; [|exact F1].
  unfold PageBytes.same_page, PageHeader.end_of_index, PageHeader.close.
  cbn [PageBytes.view PageHeader.type PageHeader.count PageHeader.last_offset
       PageHeader.sync_index PageHeader.length PageHeader.open_count
       PageHeader.close_count PageHeader.page_id PageHeader.bbox
       PageHeader.page_index PageHeader.cdata PageHeader.set_close_count].
  header_offsets.
  split; [through_frames; reflexivity|].
  split; [through_frames; reflexivity|].
  split; [through_frames; reflexivity|].
  split; [through_frames; reflexivity|].
  split; [through_frames; reflexivity|].
  split; [through_frames; reflexivity|].
  split; [rewrite L1; apply u32_small; apply u32_range|].
  split; [through_frames; reflexivity|].
  split.
  { unfold PageBytes.bbox. header_offsets. through_frames. reflexivity. }
  split.
  - intros i Hi. through_frames. reflexivity.
  - intros a Ha. pose proof (load_u32_range m1 4) as Hc1.
    through_frames. reflexivity.
Qed.

(** [std::copy_n] into the index: the slots it fills, and the bytes it
    leaves alone. *)
Lemma copy_n_on_bytes (offsets : Z -> EntryOffset) (n : nat) :
  forall (from : Z) (m : PageBytes.t) (to : Z),
  0 <= to ->
  PageBytes.slot (to + Z.of_nat n) <= PageBytes.size m ->
  exists m',
    PageBytes.copy_n offsets from n m to = Some m'
    /\ PageBytes.size m' = PageBytes.size m
    /\ (forall k, 0 <= k < Z.of_nat n ->
          PageBytes.page_index m' (to + k) = u32 (offsets (from + k)))
    /\ forall b, b < PageBytes.slot to \/ PageBytes.slot (to + Z.of_nat n) <= b ->
         PageBytes.mem m' b = PageBytes.mem m b.
Proof.
  induction n as [|n IH]; intros from m to Hto Hsize.
  - exists m. cbn [PageBytes.copy_n]. split; [reflexivity|].
    split; [reflexivity|]. split; [intros k Hk; lia|reflexivity].
  - cbn [PageBytes.copy_n].
    unfold PageBytes.slot, sizeof_PageHeader, sizeof_EntryOffset in *.
    destruct (store_u32_if true m (64 + 4 * to) (offsets from))
      as (m1 & E & S1 & L1 & F1); [lia|lia|].
    rewrite E; clear E. cbn [mbind option_bind].
    destruct (IH (from + 1) m1 (to + 1)) as (m' & E & S' & L' & F'); [lia|lia|].
    rewrite E; clear E.
    exists m'. split; [reflexivity|]. split; [lia|]. split.
    + intros k Hk. destruct (Z.eq_dec k 0) as [->|Hne].
      * rewrite !Z.add_0_r.
        unfold PageBytes.page_index, PageBytes.slot, sizeof_PageHeader,
          sizeof_EntryOffset.
        rewrite (load_u32_frame m1 m' _ _ _ F') by lia. exact L1.
      * replace (to + k) with (to + 1 + (k - 1)) by lia.
        replace (from + k) with (from + 1 + (k - 1)) by lia.
        apply L'. lia.
    + intros b Hb. rewrite F' by lia. apply F1. lia.
Qed.

(** [sync_indexes] on the bytes of a page whose synced prefix is within
    the live index, and whose index lies in the mapping: it writes slots
    of the live index and [sync_index], nothing at or above the end of the
    index, and leaves the page [PageHeader.sync_indexes] leaves. *)
Lemma sync_indexes_on_bytes
    (m : PageBytes.t) (offsets : Z -> EntryOffset) (num_offsets : Z) :
  0 <= PageBytes.sync_index m <= PageBytes.count m ->
  PageBytes.slot (PageBytes.count m) <= PageBytes.size m ->
  0 <= num_offsets < 2 ^ 63 ->
  (forall k, 0 <= offsets k < 2 ^ 32) ->
  exists m',
    PageBytes.sync_indexes m offsets num_offsets = Some m'
    /\ PageBytes.size m' = PageBytes.size m
    /\ PageBytes.same_page (PageBytes.view m')
         (PageHeader.sync_indexes (PageBytes.view m) offsets num_offsets)
    /\ forall a, PageBytes.slot (PageBytes.count m) <= a ->
         PageBytes.mem m' a = PageBytes.mem m a.
Proof.
  intros Hs Hsize Hnum Hoff.
  pose proof (load_u32_range m 4) as Hc. pose proof (load_u32_range m 12) as Hsi.
  unfold PageBytes.sync_indexes, PageHeader.sync_indexes. cbn zeta.
  cbn [PageBytes.view PageHeader.sync_index PageHeader.count
       PageHeader.page_index].
  set (n := if u64 (PageBytes.sync_index m + num_offsets) >? PageBytes.count m
            then u32 (PageBytes.count m - PageBytes.sync_index m)
            else num_offsets).
  assert (Hn : 0 <= n <= PageBytes.count m - PageBytes.sync_index m).
  { unfold n. header_offsets.
    rewrite (u64_small (PageBytes.load_u32 m 12 + num_offsets)) by lia.
    destruct (PageBytes.load_u32 m 12 + num_offsets >? PageBytes.load_u32 m 4)
      eqn:E; [rewrite u32_small by lia|]; lia. }
  header_offsets.
  destruct (copy_n_on_bytes offsets (Z.to_nat n) 0 m (PageBytes.load_u32 m 12))
    as (m1 & E & S1 & L1 & F1);
    [lia|unfold PageBytes.slot, sizeof_PageHeader, sizeof_EntryOffset; lia|].
  rewrite E; clear E. cbn [mbind option_bind].
  header_offsets. rewrite Z2Nat.id in L1, F1 by lia.
  assert (H12 : PageBytes.load_u32 m1 12 = PageBytes.load_u32 m 12)
    by (through_frames; reflexivity).
  rewrite H12.
  destruct (store_u32_if true m1 12 (u32 (PageBytes.load_u32 m 12 + n)))
    as (m2 & E & S2 & L2 & F2); [lia|lia|].
  rewrite E; clear E.
  exists m2. split; [reflexivity|]. split; [lia|].
  split.
  2: { intros a Ha. through_frames. reflexivity. }
  unfold PageBytes.same_page, PageHeader.end_of_index.
  cbn [PageBytes.view PageHeader.type PageHeader.count PageHeader.last_offset
       PageHeader.sync_index PageHeader.length PageHeader.open_count
       PageHeader.close_count PageHeader.page_id PageHeader.bbox
       PageHeader.page_index PageHeader.cdata PageHeader.set_sync_index
       PageHeader.set_page_index].
  header_offsets.
  split; [through_frames; reflexivity|].
  split; [through_frames; reflexivity|].
  split; [through_frames; reflexivity|].
  split; [rewrite L2; apply u32_small; apply u32_range|].
  split; [through_frames; reflexivity|].
  split; [through_frames; reflexivity|].
  split; [through_frames; reflexivity|].
  split; [through_frames; reflexivity|].
  split.
  { unfold PageBytes.bbox. header_offsets. through_frames. reflexivity. }
  split.
  - intros i Hi.
    assert (Hi' : 0 <= i < PageBytes.load_u32 m 4).
    { revert Hi. through_frames. intros Hi. exact Hi. }
    rewrite (load_u32_frame m1 m2 _ _ _ F2) by lia.
    destruct ((PageBytes.load_u32 m 12 <=? i)
              && (i <? PageBytes.load_u32 m 12 + n)) eqn:Ein.
    + apply andb_true_iff in Ein. destruct Ein as [E1 E2].
      apply Z.leb_le in E1. apply Z.ltb_lt in E2.
      specialize (L1 (i - PageBytes.load_u32 m 12) ltac:(lia)).
      replace (PageBytes.load_u32 m 12 + (i - PageBytes.load_u32 m 12))
        with i in L1 by lia.
      rewrite L1. cbn. rewrite u32_small by apply Hoff. reflexivity.
    + apply andb_false_iff in Ein.
      apply (load_u32_frame m m1 _ _ _ F1).
      destruct Ein as [E|E]; [apply Z.leb_gt in E|apply Z.ltb_ge in E]; lia.
  - intros a Ha. revert Ha. through_frames. intros Ha.
    rewrite (F2 a) by lia. apply F1. lia.
Qed.

(** What runs of [add_entry] for an Entry keep, on the bytes.  Take a
    page constructed with no entries at the base of a mapping that holds
    it, of a size that [int] space accounting covers, and a run of
    [add_entry] calls for entries that all return SUCCESS.  The page then
    counts one slot per entry, slot [i] designates a record that reads
    back the param_id and the timestamp of the i-th entry, and the box in
    the header holds each of them. *)
Lemma entries_within_bbox_on_bytes
    (ty : PageType) (len pid : Z) (mapping m0 m : PageBytes.t)
    (es : list Entry.t) :
  sizeof_PageHeader < len <= 2 ^ 31 ->
  len <= PageBytes.size mapping ->
  0 <= pid < 2 ^ 32 ->
  PageBytes.new ty 0 len pid mapping = Some m0 ->
  PageBytes.add_entries m0 es = Some m ->
  PageBytes.count m = Z.of_nat (Datatypes.length es)
  /\ forall (i : nat) (e : Entry.t), es !! i = Some e ->
       let stored :=
         PageBytes.read_entry m (PageBytes.page_index m (Z.of_nat i)) in
       Entry.param_id stored = Entry.param_id e
       /\ Entry.time stored = Entry.time e
       /\ PageBytes.inside_bbox m (Entry.param_id e) (Entry.time e) = true.
Proof.
  intros Hlen Hmap Hpid Hnew Hrun. unfold sizeof_PageHeader in Hlen.
  destruct (new_on_bytes ty 0 len pid mapping)
    as (m0' & Hnew' & Hsz0 & Hsame0);
    [unfold sizeof_PageHeader; lia|lia|lia|lia|].
  rewrite Hnew in Hnew'. injection Hnew' as <-.
  set (p0 := PageHeader.new ty 0 len pid (PageBytes.page_index mapping)
               (PageBytes.mem mapping)) in *.
  assert (Hfresh : PageHeader.is_fresh p0) by (repeat split; reflexivity).
  assert (Hh0 : PageHeader.holds p0 []).
  { apply holds_fresh; [exact Hfresh|]. unfold sizeof_PageHeader. cbn. lia. }
  assert (Hlast : PageHeader.last_offset p0 <= PageBytes.size m0).
  { unfold p0. cbn [PageHeader.new PageHeader.last_offset].
    rewrite u32_small by lia. lia. }
  pose proof (add_entries_on_bytes es m0 p0 [] Hsame0 Hh0 Hlast) as Hag.
  destruct (PageHeader.add_entries p0 es) as [q|] eqn:Hrec;
    [|rewrite Hag in Hrun; discriminate].
  destruct Hag as (m' & Hrun' & _ & Hsame).
  rewrite Hrun in Hrun'. injection Hrun' as <-.
  pose proof (holds_add_entries es p0 q [] Hh0 Hrec) as (Hr & Hacc & Hcnt & Hslots).
  cbn [app] in Hcnt, Hslots.
  destruct Hsame as (_ & Hc & _ & _ & _ & _ & _ & _ & Hbox & Hix & Hmem).
  cbn [PageBytes.view PageHeader.count PageHeader.bbox PageHeader.page_index
       PageHeader.cdata] in Hc, Hbox, Hix, Hmem.
  unfold PageHeader.end_of_index in Hmem, Hacc.
  cbn [PageBytes.view PageHeader.count] in Hmem. rewrite Hc in Hmem.
  split; [rewrite Hc; exact Hcnt|].
  intros i e Hi.
  destruct (Hslots i e Hi) as (Hlo & _ & Hp & Ht & Hin).
  assert (Hi' : 0 <= Z.of_nat i < PageBytes.count m).
  { apply lookup_lt_Some in Hi. lia. }
  cbn zeta. rewrite (Hix _ Hi').
  destruct (entry_header_ext
              (PageBytes.read_entry m (PageHeader.page_index q (Z.of_nat i)))
              (PageHeader.entry_at q (Z.of_nat i))) as (_ & H2 & H3).
  { intros k Hk. unfold PageBytes.read_entry, PageHeader.entry_at,
      PageHeader.read_entry, at_offset. apply Hmem. lia. }
  rewrite H2, H3. split; [exact Hp|]. split; [exact Ht|].
  unfold PageBytes.inside_bbox. rewrite Hbox. exact Hin.
Qed.

(** C7 does not hold of the code, because of the [add_entry] overload for
    an Entry2, which asks for four bytes fewer than it writes.  On a
    blank page of 256 bytes (191 bytes free), with an Entry2 of 32 bytes:
    [add_entry] for an Entry2 of series 7 at timestamp 3 with a payload
    of 155 bytes returns SUCCESS and leaves [last_offset] at 64, the end
    of the header, the free space at -4 and the box at ids [7, 7],
    timestamps [3, 3].  [add_entry] for an Entry of series 1 at timestamp
    9 then returns SUCCESS as well: its 16 bytes are copied to offsets 48
    to 63, over the two timestamps of the box.  Both entries are stored
    (count is 2, the slots hold 64 and 48), the box reads ids [1, 7] and
    timestamps [9, 2^32 + 16], and the first entry, (7, 3), is outside
    it. *)
Example entry2_append_breaks_bbox :
  let first := Examples.after_entry2 in
  let second := Examples.after_entry2_and_entry in
  Examples.status_of <$> first = Some AKU_WRITE_STATUS_SUCCESS
  /\ PageBytes.last_offset ∘ Examples.page_of <$> first = Some 64
  /\ PageBytes.get_free_space ∘ Examples.page_of <$> first = Some (-4)
  /\ PageBytes.bbox ∘ Examples.page_of <$> first = Some (mkBBox 7 7 3 3)
  /\ Examples.status_of <$> second = Some AKU_WRITE_STATUS_SUCCESS
  /\ PageBytes.last_offset ∘ Examples.page_of <$> second = Some 48
  /\ PageBytes.count ∘ Examples.page_of <$> second = Some 2
  /\ (fun m => (PageBytes.page_index m 0, PageBytes.page_index m 1))
       ∘ Examples.page_of <$> second = Some (64, 48)
  /\ PageBytes.bbox ∘ Examples.page_of <$> second
     = Some (mkBBox 7 1 (2 ^ 32 + 16) 9)
  /\ (Entry2.param_id Examples.wide_entry2, Entry2.time Examples.wide_entry2)
     = (7, 3)
  /\ (fun m => PageBytes.inside_bbox m
                 (Entry2.param_id Examples.wide_entry2)
                 (Entry2.time Examples.wide_entry2))
       ∘ Examples.page_of <$> second
     = Some false.
Proof. vm_compute. repeat split; reflexivity. Qed.

(** After the same Entry2, an Entry of 80 bytes passes the space check as
    well; its copy would start 16 bytes before the mapping. *)
Example entry_after_entry2_leaves_mapping :
  (r ← Examples.after_entry2;
   PageBytes.add_entry (Examples.page_of r) (Entry.new 1 9 80)) = None
  /\ PageBytes.last_offset ∘ Examples.page_of <$> Examples.after_entry2
     = Some 64
  /\ Entry.length (Entry.new 1 9 80) = 80.
Proof. vm_compute. repeat split; reflexivity. Qed.
